(** * v8wire: the V8 structured-clone codec, embedded in Rocq

    A shallow embedding of the Go packages [internal/wire] (byte cursor and
    byte buffer) and [pkg/v8serialize] (value model, deserializer,
    serializer), and the properties of the codec proved over it.

    Conventions of the embedding.
    - Go's [int] is the 64-bit signed integer; machine integers are [Z] with
      the wrap-around written out ([uint64], [uint32], [int32], [int]).
    - A byte slice is a [list byte]; [u8] reads a byte as a number and
      [to_byte] is Go's conversion [byte(x)].
    - A Go string is represented by the sequence of its code points (the
      runes a [range] loop yields); this covers the strings that are valid
      UTF-8, which is what the reader produces.  [utf8_len] is [len(s)].
    - A [float64] that is only copied is kept as its 64-bit pattern; where
      the code computes with it, the pattern is interpreted in binary64
      ([SpecFloat] with precision 53 and [emax] 1024).
    - Maps, slices and the pointers to [JSMap] and [JSSet] are references
      into a heap, so that aliasing between a container and the entry of the
      reference table is visible.
    - A result is a value, one of the error values of the code, a run-time
      panic, or exhaustion of the recursion budget ([OutOfFuel]). *)

From Stdlib Require Import ZArith List Lia Strings.Byte SpecFloat DecimalZ DecimalPos.
From stdpp Require Import base gmap list strings.

Local Open Scope Z_scope.

(** ** Machine integers and bytes *)

Definition uint64 (z : Z) : Z := z mod 2 ^ 64.
Definition uint32 (z : Z) : Z := z mod 2 ^ 32.
Definition uint16 (z : Z) : Z := z mod 2 ^ 16.
Definition int32 (z : Z) : Z := (z + 2 ^ 31) mod 2 ^ 32 - 2 ^ 31.
Definition int64 (z : Z) : Z := (z + 2 ^ 63) mod 2 ^ 64 - 2 ^ 63.

(** Go's [int] on a 64-bit platform. *)
Definition int (z : Z) : Z := int64 z.

Definition u8 (b : byte) : Z := Z.of_N (Byte.to_N b).

Definition to_byte (z : Z) : byte :=
  match Byte.of_N (Z.to_N (z mod 256)) with
  | Some b => b
  | None => x00
  end.

Definition len {A} (l : list A) : Z := Z.of_nat (length l).

(** [s[lo:hi]] for [0 <= lo <= hi <= len(s)]. *)
Definition slice {A} (l : list A) (lo hi : Z) : list A :=
  take (Z.to_nat (hi - lo)) (drop (Z.to_nat lo) l).

(** [s[i]] for an index known to be in range. *)
Definition at_ (l : list byte) (i : Z) : byte :=
  nth (Z.to_nat i) l x00.

(** A Go string, as the sequence of its code points. *)
Abbreviation GoString := (list Z).

Definition gostr (s : string) : GoString :=
  map (fun a => Z.of_N (Ascii.N_of_ascii a)) (String.list_ascii_of_string s).

(** [len(s)]: the number of bytes of the UTF-8 encoding. *)
Definition rune_len (r : Z) : Z :=
  if r <? 128 then 1 else if r <? 2048 then 2 else if r <? 65536 then 3 else 4.

Definition utf8_len (s : GoString) : Z :=
  fold_right (fun r n => rune_len r + n) 0 s.

(** A rune that is a Unicode scalar value; the others become U+FFFD when a
    rune slice is converted to a string. *)
Definition is_scalar (r : Z) : bool :=
  ((0 <=? r) && (r <? 55296)) || ((57344 <=? r) && (r <=? 1114111)).

Definition replacementChar : Z := 65533.

Definition string_of_runes (rs : list Z) : GoString :=
  map (fun r => if is_scalar r then r else replacementChar) rs.

(** [fmt.Sprintf("%d", n)]. *)
Fixpoint uint_digits (u : Decimal.uint) : GoString :=
  match u with
  | Decimal.Nil => []
  | Decimal.D0 u => 48 :: uint_digits u
  | Decimal.D1 u => 49 :: uint_digits u
  | Decimal.D2 u => 50 :: uint_digits u
  | Decimal.D3 u => 51 :: uint_digits u
  | Decimal.D4 u => 52 :: uint_digits u
  | Decimal.D5 u => 53 :: uint_digits u
  | Decimal.D6 u => 54 :: uint_digits u
  | Decimal.D7 u => 55 :: uint_digits u
  | Decimal.D8 u => 56 :: uint_digits u
  | Decimal.D9 u => 57 :: uint_digits u
  end.

Definition sprintf_d (n : Z) : GoString :=
  match Z.to_int n with
  | Decimal.Pos u => uint_digits u
  | Decimal.Neg u => 45 :: uint_digits u
  end.

(** ** Results *)

Inductive Error : Type :=
| ErrUnexpectedEOF       (* wire: unexpected end of input *)
| ErrVarintOverflow      (* wire: varint overflow *)
| ErrNegativeLength      (* wire: negative string length *)
| ErrInvalidHeader
| ErrUnsupportedVersion
| ErrUnexpectedTag
| ErrMalformedData
| ErrMaxDepthExceeded
| ErrMaxSizeExceeded
| ErrInvalidReference
| ErrUnsupportedType     (* v8serialize: unsupported type *)
| ErrUnknownTypedArray   (* v8serialize: unknown TypedArray type *)
| ErrUnsupportedBoxed.   (* v8serialize: unsupported boxed primitive type *)

Inductive Res (A : Type) : Type :=
| Ok (a : A)
| Err (e : Error)
| Panic
| OutOfFuel.

Arguments Ok {A} a.
Arguments Err {A} e.
Arguments Panic {A}.
Arguments OutOfFuel {A}.

Definition bind {A B} (m : Res A) (k : A -> Res B) : Res B :=
  match m with
  | Ok a => k a
  | Err e => Err e
  | Panic => Panic
  | OutOfFuel => OutOfFuel
  end.

Notation "'let*' x ':=' m 'in' k" := (bind m (fun x => k))
  (at level 10, x pattern, m at level 100, k at level 200).

(** [fmt.Errorf("%w: %v", kind, err)]: the error is of the wrapping kind. *)
Definition wrap_err {A} (kind : Error) (m : Res A) : Res A :=
  match m with
  | Err _ => Err kind
  | r => r
  end.

(** ** Package [wire]: the byte cursor and the byte buffer *)

Module wire.

(** *** reader.go *)

Record Reader : Type := { data : list byte; pos : Z }.

Definition NewReader (data : list byte) : Reader := {| data := data; pos := 0 |}.

Definition set_pos (r : Reader) (p : Z) : Reader := {| data := data r; pos := p |}.

Definition Pos (r : Reader) : Z := pos r.

Definition Len (r : Reader) : Z := len (data r).

Definition Remaining (r : Reader) : Z := len (data r) - pos r.

Definition Peek (r : Reader) : Res byte :=
  if pos r >=? len (data r) then Err ErrUnexpectedEOF
  else Ok (at_ (data r) (pos r)).

Definition ReadByte (r : Reader) : Res (byte * Reader) :=
  if pos r >=? len (data r) then Err ErrUnexpectedEOF
  else Ok (at_ (data r) (pos r), set_pos r (pos r + 1)).

(** The bounds test adds two [int]s; the slice expression
    [r.data[r.pos : r.pos+n]] panics when its upper bound is below its
    lower bound. *)
Definition ReadBytes (r : Reader) (n : Z) : Res (list byte * Reader) :=
  if int (pos r + n) >? len (data r) then Err ErrUnexpectedEOF
  else if int (pos r + n) <? pos r then Panic
  else Ok (slice (data r) (pos r) (int (pos r + n)), set_pos r (int (pos r + n))).

(** The loop of [ReadVarint]; [shift] grows by 7 and the loop leaves at
    [shift >= 64], so eleven rounds exhaust it. *)
Fixpoint ReadVarint_loop (n : nat) (r : Reader) (result shift : Z) : Res (Z * Reader) :=
  match n with
  | O => OutOfFuel
  | S n =>
    if pos r >=? len (data r) then Err ErrUnexpectedEOF
    else
      let b := u8 (at_ (data r) (pos r)) in
      let r := set_pos r (pos r + 1) in
      if (shift >=? 64) || ((shift =? 63) && (b >? 1)) then Err ErrVarintOverflow
      else
        let result := Z.lor result (uint64 (Z.shiftl (Z.land b 127) shift)) in
        if Z.land b 128 =? 0 then Ok (result, r)
        else ReadVarint_loop n r result (shift + 7)
  end.

Definition ReadVarint (r : Reader) : Res (Z * Reader) := ReadVarint_loop 11 r 0 0.

Definition MaxUint32 : Z := 4294967295.

Definition ReadVarint32 (r : Reader) : Res (Z * Reader) :=
  let* (v, r) := ReadVarint r in
  if v >? MaxUint32 then Err ErrVarintOverflow else Ok (uint32 v, r).

Definition ZigZagDecode (n : Z) : Z :=
  Z.lxor (int64 (Z.shiftr n 1)) (int64 (- int64 (Z.land n 1))).

Definition ZigZagDecode32 (n : Z) : Z :=
  Z.lxor (int32 (Z.shiftr n 1)) (int32 (- int32 (Z.land n 1))).

Definition ReadZigZag (r : Reader) : Res (Z * Reader) :=
  let* (v, r) := ReadVarint r in Ok (ZigZagDecode v, r).

Definition ReadZigZag32 (r : Reader) : Res (Z * Reader) :=
  let* (v, r) := ReadVarint32 r in Ok (ZigZagDecode32 v, r).

(** [binary.LittleEndian.Uint16/Uint64] on the first bytes of a slice. *)
Definition le_uint (bs : list byte) : Z :=
  fold_right (fun b acc => u8 b + 256 * acc) 0 bs.

(** The double is returned as its bit pattern ([math.Float64frombits]). *)
Definition ReadDouble (r : Reader) : Res (Z * Reader) :=
  if int (pos r + 8) >? len (data r) then Err ErrUnexpectedEOF
  else Ok (le_uint (slice (data r) (pos r) (pos r + 8)), set_pos r (pos r + 8)).

Definition AlignTo (r : Reader) (boundary : Z) : Reader :=
  if (boundary <=? 0) || negb (Z.land boundary (boundary - 1) =? 0) then r
  else
    let remainder := Z.rem (pos r) boundary in
    if negb (remainder =? 0) then
      let skip := boundary - remainder in
      if int (pos r + skip) <=? len (data r) then set_pos r (int (pos r + skip)) else r
    else r.

Definition ReadOneByteString (r : Reader) (length : Z) : Res (GoString * Reader) :=
  if length <? 0 then Err ErrNegativeLength
  else if length =? 0 then Ok ([], r)
  else
    let* (bytes, r) := ReadBytes r length in
    Ok (string_of_runes (map u8 bytes), r).

(** [unicode/utf16.Decode], from the Go standard library. *)
Definition surr1 : Z := 55296.
Definition surr2 : Z := 56320.
Definition surr3 : Z := 57344.
Definition surrSelf : Z := 65536.

Definition utf16_DecodeRune (r1 r2 : Z) : Z :=
  Z.lor (Z.shiftl (r1 - surr1) 10) (r2 - surr2) + surrSelf.

Fixpoint utf16_Decode (s : list Z) : list Z :=
  match s with
  | [] => []
  | r :: rest =>
    if (r <? surr1) || (surr3 <=? r) then r :: utf16_Decode rest
    else
      match rest with
      | r2 :: rest' =>
        if (r <? surr2) && (surr2 <=? r2) && (r2 <? surr3)
        then utf16_DecodeRune r r2 :: utf16_Decode rest'
        else replacementChar :: utf16_Decode rest
      | [] => [replacementChar]
      end
  end.

(** The loop [for i := 0; i < length; i++] of [ReadTwoByteString];
    [binary.LittleEndian.Uint16] panics on a slice shorter than two bytes. *)
Fixpoint read_u16s (n : nat) (r : Reader) : Res (list Z * Reader) :=
  match n with
  | O => Ok ([], r)
  | S n =>
    if pos r + 2 >? len (data r) then Panic
    else
      let u := le_uint (slice (data r) (pos r) (pos r + 2)) in
      let* (us, r) := read_u16s n (set_pos r (pos r + 2)) in
      Ok (u :: us, r)
  end.

Definition ReadTwoByteString (r : Reader) (length : Z) : Res (GoString * Reader) :=
  if length <? 0 then Err ErrNegativeLength
  else if length =? 0 then Ok ([], r)
  else
    let r := AlignTo r 2 in
    let byteLen := int (length * 2) in
    if int (pos r + byteLen) >? len (data r) then Err ErrUnexpectedEOF
    else
      let* (u16, r) := read_u16s (Z.to_nat length) r in
      Ok (string_of_runes (utf16_Decode u16), r).

Definition Skip (r : Reader) (n : Z) : Res Reader :=
  if int (pos r + n) >? len (data r) then Err ErrUnexpectedEOF
  else Ok (set_pos r (int (pos r + n))).

(** *** writer.go: a [Writer] is its buffer *)

Definition WriteByte (w : list byte) (b : byte) : list byte := w ++ [b].

Definition WriteBytes (w : list byte) (b : list byte) : list byte := w ++ b.

(** The loop [for n >= 0x80] of [WriteVarint]; a [uint64] leaves it within
    nine rounds. *)
Fixpoint WriteVarint_loop (k : nat) (w : list byte) (n : Z) : list byte :=
  match k with
  | O => w ++ [to_byte n]
  | S k =>
    if n >=? 128
    then WriteVarint_loop k (w ++ [to_byte (Z.lor (u8 (to_byte n)) 128)]) (Z.shiftr n 7)
    else w ++ [to_byte n]
  end.

Definition WriteVarint (w : list byte) (n : Z) : list byte := WriteVarint_loop 10 w n.

Definition WriteVarint32 (w : list byte) (n : Z) : list byte := WriteVarint w (uint64 n).

Definition ZigZagEncode (n : Z) : Z :=
  uint64 (Z.lxor (int64 (Z.shiftl n 1)) (Z.shiftr n 63)).

Definition ZigZagEncode32 (n : Z) : Z :=
  uint32 (Z.lxor (int32 (Z.shiftl n 1)) (Z.shiftr n 31)).

Definition WriteZigZag (w : list byte) (n : Z) : list byte :=
  WriteVarint w (ZigZagEncode n).

Definition WriteZigZag32 (w : list byte) (n : Z) : list byte :=
  WriteVarint32 w (ZigZagEncode32 n).

(** [binary.LittleEndian.PutUint16/PutUint64]. *)
Fixpoint le_bytes (n : nat) (z : Z) : list byte :=
  match n with
  | O => []
  | S n => to_byte z :: le_bytes n (Z.shiftr z 8)
  end.

(** The double is given as its bit pattern ([math.Float64bits]). *)
Definition WriteDouble (w : list byte) (bits : Z) : list byte := w ++ le_bytes 8 bits.

(** The string is valid UTF-8: each rune is written as [byte(r)]. *)
Definition WriteOneByteString (w : list byte) (s : GoString) : list byte :=
  w ++ map to_byte s.

Definition utf16_units (r : Z) : list byte :=
  if r <=? 65535 then le_bytes 2 (uint16 r)
  else
    let r := r - 65536 in
    let high := uint16 (55296 + Z.shiftr r 10) in
    let low := uint16 (56320 + Z.land r 1023) in
    le_bytes 2 high ++ le_bytes 2 low.

Definition WriteTwoByteString (w : list byte) (s : GoString) : list byte :=
  let w := if negb (Z.rem (len w) 2 =? 0) then w ++ [x00] else w in
  w ++ flat_map utf16_units s.

Definition UTF16Length (s : GoString) : Z :=
  fold_left (fun count r => if r <=? 65535 then count + 1 else count + 2) s 0.

Definition OneByteStringLength (s : GoString) : Z := len s.

Definition NeedsUTF16 (s : GoString) : bool :=
  existsb (fun r => r >? 255) s.

End wire.

(** ** Standard-library types the codec computes with *)

(** *** [float64]: binary64 *)

Definition prec : Z := 53.
Definition emax : Z := 1024.

Definition Float64frombits (b : Z) : spec_float :=
  let s := Z.testbit b 63 in
  let e := Z.land (Z.shiftr b 52) 2047 in
  let m := Z.land b (2 ^ 52 - 1) in
  if e =? 2047 then (if m =? 0 then S754_infinity s else S754_nan)
  else if e =? 0 then (if m =? 0 then S754_zero s else S754_finite s (Z.to_pos m) (-1074))
  else S754_finite s (Z.to_pos (m + 2 ^ 52)) (e - 1075).

Definition Float64bits (f : spec_float) : Z :=
  match f with
  | S754_zero s => if s then 2 ^ 63 else 0
  | S754_infinity s => (if s then 2 ^ 63 else 0) + 2047 * 2 ^ 52
  | S754_nan => 9221120237041090561
  | S754_finite s m e =>
    (if s then 2 ^ 63 else 0) +
    (if Z.pos m >=? 2 ^ 52 then (e + 1075) * 2 ^ 52 + (Z.pos m - 2 ^ 52) else Z.pos m)
  end.

(** The conversion [float64(n)] of an integer. *)
Definition float64_of_int (n : Z) : spec_float := binary_normalize prec emax n 0 false.

(** The conversion [int64(f)]: the fraction is discarded.  For NaN, an
    infinity or a value that is no [int64] Go leaves the result to the
    implementation: the value given here is that of amd64, the smallest
    [int64]; other platforms give others (arm64 gives 0 for NaN and the
    nearest [int64] otherwise).  The statements on the keys of a sparse array
    are about the doubles on which the conversion is defined
    ([index_defined]). *)
Definition int64_of_float (f : spec_float) : Z :=
  match f with
  | S754_zero _ => 0
  | S754_finite s m e =>
    let t := if e >=? 0 then Z.pos m * 2 ^ e else Z.pos m / 2 ^ (- e) in
    let v := if s then - t else t in
    if (- 2 ^ 63 <=? v) && (v <? 2 ^ 63) then v else - 2 ^ 63
  | _ => - 2 ^ 63
  end.

(** *** [time.Time]: an instant, seconds and nanoseconds since the epoch *)

Record Time : Type := { unix_sec : Z; unix_nsec : Z }.

Definition time_Unix (sec nsec : Z) : Time :=
  if (nsec <? 0) || (nsec >=? 1000000000) then
    let n := Z.quot nsec 1000000000 in
    let sec := int64 (sec + n) in
    let nsec := int64 (nsec - n * 1000000000) in
    if nsec <? 0 then {| unix_sec := int64 (sec - 1); unix_nsec := nsec + 1000000000 |}
    else {| unix_sec := sec; unix_nsec := nsec |}
  else {| unix_sec := sec; unix_nsec := nsec |}.

Definition UnixMilli (t : Time) : Z :=
  int64 (unix_sec t * 1000 + Z.quot (unix_nsec t) 1000000).

(** *** [math/big]: [x.Bytes()] is the big-endian magnitude without leading
    zero bytes, [SetBytes] reads a big-endian magnitude *)

Fixpoint magnitude_le (fuel : nat) (n : Z) : list byte :=
  match fuel with
  | O => []
  | S fuel => if n =? 0 then [] else to_byte n :: magnitude_le fuel (n / 256)
  end.

Definition big_Bytes (x : Z) : list byte :=
  rev (magnitude_le (S (Z.to_nat (Z.log2 (Z.abs x)))) (Z.abs x)).

Definition big_SetBytes (buf : list byte) : Z :=
  fold_left (fun acc b => acc * 256 + u8 b) buf 0.

(** ** Package [v8serialize] *)

(** *** tags.go *)

Abbreviation tagVersion := xff.
Abbreviation tagNull := x30.
Abbreviation tagUndefined := x5f.
Abbreviation tagTrue := x54.
Abbreviation tagFalse := x46.
Abbreviation tagInt32 := x49.
Abbreviation tagUint32 := x55.
Abbreviation tagDouble := x4e.
Abbreviation tagBigInt := x5a.
Abbreviation tagDate := x44.
Abbreviation tagOneByteString := x22.
Abbreviation tagTwoByteString := x63.
Abbreviation tagBeginJSObject := x6f.
Abbreviation tagEndJSObject := x7b.
Abbreviation tagBeginDenseArray := x41.
Abbreviation tagEndDenseArray := x24.
Abbreviation tagBeginSparseArray := x61.
Abbreviation tagEndSparseArray := x40.
Abbreviation tagHole := x2d.
Abbreviation tagObjectReference := x5e.
Abbreviation tagBeginMap := x3b.
Abbreviation tagEndMap := x3a.
Abbreviation tagBeginSet := x27.
Abbreviation tagEndSet := x2c.
Abbreviation tagArrayBuffer := x42.
Abbreviation tagResizableArrayBuffer := x7e.
Abbreviation tagArrayBufferTransfer := x74.
Abbreviation tagSharedArrayBuffer := x75.
Abbreviation tagTypedArray := x5c.
Abbreviation tagRegExp := x52.
Abbreviation tagNumberObject := x6e.
Abbreviation tagBigIntObject := x7a.
Abbreviation tagTrueObject := x79.
Abbreviation tagFalseObject := x78.
Abbreviation tagStringObject := x73.
Abbreviation tagError := x72.
Abbreviation tagPadding := x00.

Abbreviation typedArrayInt8 := x00.
Abbreviation typedArrayUint8 := x01.
Abbreviation typedArrayUint8Clamped := x02.
Abbreviation typedArrayInt16 := x03.
Abbreviation typedArrayUint16 := x04.
Abbreviation typedArrayInt32 := x05.
Abbreviation typedArrayUint32 := x06.
Abbreviation typedArrayFloat32 := x07.
Abbreviation typedArrayFloat64 := x08.
Abbreviation typedArrayDataView := x09.
Abbreviation typedArrayFloat16 := x0a.
Abbreviation typedArrayBigInt64 := x0b.
Abbreviation typedArrayBigUint64 := x0c.

Definition MinVersion : Z := 13.
Definition MaxVersion : Z := 15.

(** *** types.go *)

Inductive ValueType : Type :=
| TypeUndefined | TypeNull | TypeBool | TypeInt32 | TypeUint32 | TypeDouble
| TypeBigInt | TypeString | TypeDate | TypeRegExp | TypeObject | TypeArray
| TypeMap | TypeSet | TypeArrayBuffer | TypeTypedArray | TypeDataView
| TypeHole | TypeError | TypeBoxedPrimitive.

(** An address of the heap. *)
Abbreviation loc := nat.

(** A [Value].  The payload of an object is a Go map, that of an array a
    slice header (backing array, length, capacity), those of a Map and a Set
    pointers: they are references.  The zero [Value{}] is [Undefined]. *)
Inductive Value : Type :=
| Undefined
| Null
| Bool (b : bool)
| Int32 (n : Z)
| Uint32 (n : Z)
| Double (bits : Z)
| BigInt (n : Z)
| String (s : GoString)
| Date (t : Time)
| Hole
| Object (props : loc)
| Array (ptr : loc) (length cap : Z)
| ArrayBuffer (buf : list byte)
| VRegExp (Pattern Flags : GoString)
| VMap (p : loc)
| VSet (p : loc)
| VTypedArray (Buffer : list byte) (ByteOffset ByteLength : Z) (Type_ : GoString)
| VError (Name Message Stack : GoString) (Cause : option Value)
| VBoxedPrimitive (PrimitiveType : ValueType) (inner : Value).

Definition typ (v : Value) : ValueType :=
  match v with
  | Undefined => TypeUndefined
  | Null => TypeNull
  | Bool _ => TypeBool
  | Int32 _ => TypeInt32
  | Uint32 _ => TypeUint32
  | Double _ => TypeDouble
  | BigInt _ => TypeBigInt
  | String _ => TypeString
  | Date _ => TypeDate
  | Hole => TypeHole
  | Object _ => TypeObject
  | Array _ _ _ => TypeArray
  | ArrayBuffer _ => TypeArrayBuffer
  | VRegExp _ _ => TypeRegExp
  | VMap _ => TypeMap
  | VSet _ => TypeSet
  | VTypedArray _ _ _ _ => TypeTypedArray
  | VError _ _ _ _ => TypeError
  | VBoxedPrimitive _ _ => TypeBoxedPrimitive
  end.

Definition IsNumber (v : Value) : bool :=
  match v with
  | Int32 _ | Uint32 _ | Double _ => true
  | _ => false
  end.

Definition IsString (v : Value) : bool :=
  match v with
  | String _ => true
  | _ => false
  end.

(** [int(v.AsNumber())] for a number: [float64] holds every [int32] and
    [uint32] exactly, so the conversion gives the integer back; a double is
    truncated. *)
Definition AsNumber_int (v : Value) : Z :=
  match v with
  | Int32 n => n
  | Uint32 n => n
  | Double bits => int64_of_float (Float64frombits bits)
  | _ => 0
  end.

(** *** The heap: the maps, backing arrays and pointed-to structs *)

Inductive Cell : Type :=
| CMap (m : gmap GoString Value)          (* a map[string]Value *)
| CArr (a : list Value)                   (* the backing array of a []Value *)
| CJSMap (Entries : list (Value * Value)) (* a JSMap *)
| CJSSet (Values : list Value).           (* a JSSet *)

Abbreviation Heap := (list Cell).

Definition alloc (h : Heap) (c : Cell) : Heap * loc := (h ++ [c], length h).

(** [m[k] = v] *)
Definition map_store (h : Heap) (l : loc) (k : GoString) (v : Value) : Heap :=
  match h !! l with
  | Some (CMap m) => <[l := CMap (<[k := v]> m)]> h
  | _ => h
  end.

(** [a[i] = v] on the backing array *)
Definition arr_store (h : Heap) (l : loc) (i : Z) (v : Value) : Heap :=
  match h !! l with
  | Some (CArr a) => <[l := CArr (<[Z.to_nat i := v]> a)]> h
  | _ => h
  end.

Definition backing (h : Heap) (l : loc) : list Value :=
  match h !! l with
  | Some (CArr a) => a
  | _ => []
  end.

(** The elements a slice header gives access to. *)
Definition elems (h : Heap) (v : Value) : list Value :=
  match v with
  | Array p n _ => take (Z.to_nat n) (backing h p)
  | _ => []
  end.

(** [append(s, x)] on a slice header [(p, n, c)]: in place while the
    capacity allows, else into a fresh backing array. *)
Definition append_value (h : Heap) (s : loc * Z * Z) (x : Value) : Heap * (loc * Z * Z) :=
  let '(p, n, c) := s in
  if n <? c then (arr_store h p n x, (p, n + 1, c))
  else
    let (h', p') := alloc h (CArr (take (Z.to_nat n) (backing h p) ++ [x])) in
    (h', (p', n + 1, n + 1)).

(** *** The deserializer *)

(** The fields of the Go struct, and the heap its values point into. *)
Record Deserializer : Type := {
  reader : wire.Reader;
  version : Z;
  maxDepth : Z;
  maxSize : Z;
  maxArrayLen : Z;
  maxObjectKeys : Z;
  depth : Z;
  objects : list Value;
  heap : Heap
}.

Definition set_reader (d : Deserializer) (r : wire.Reader) : Deserializer :=
  {| reader := r; version := version d; maxDepth := maxDepth d; maxSize := maxSize d;
     maxArrayLen := maxArrayLen d; maxObjectKeys := maxObjectKeys d; depth := depth d;
     objects := objects d; heap := heap d |}.

Definition set_version (d : Deserializer) (v : Z) : Deserializer :=
  {| reader := reader d; version := v; maxDepth := maxDepth d; maxSize := maxSize d;
     maxArrayLen := maxArrayLen d; maxObjectKeys := maxObjectKeys d; depth := depth d;
     objects := objects d; heap := heap d |}.

Definition set_depth (d : Deserializer) (n : Z) : Deserializer :=
  {| reader := reader d; version := version d; maxDepth := maxDepth d; maxSize := maxSize d;
     maxArrayLen := maxArrayLen d; maxObjectKeys := maxObjectKeys d; depth := n;
     objects := objects d; heap := heap d |}.

Definition set_objects (d : Deserializer) (o : list Value) : Deserializer :=
  {| reader := reader d; version := version d; maxDepth := maxDepth d; maxSize := maxSize d;
     maxArrayLen := maxArrayLen d; maxObjectKeys := maxObjectKeys d; depth := depth d;
     objects := o; heap := heap d |}.

Definition set_heap (d : Deserializer) (h : Heap) : Deserializer :=
  {| reader := reader d; version := version d; maxDepth := maxDepth d; maxSize := maxSize d;
     maxArrayLen := maxArrayLen d; maxObjectKeys := maxObjectKeys d; depth := depth d;
     objects := objects d; heap := h |}.

Definition DefaultMaxArrayLen : Z := 10000000.
Definition DefaultMaxObjectKeys : Z := 1000000.

Inductive Option : Type :=
| WithMaxDepth (depth : Z)
| WithMaxSize (size : Z)
| WithMaxArrayLen (length : Z)
| WithMaxObjectKeys (keys : Z).

Definition apply_Option (d : Deserializer) (opt : Option) : Deserializer :=
  match opt with
  | WithMaxDepth n =>
    {| reader := reader d; version := version d; maxDepth := n; maxSize := maxSize d;
       maxArrayLen := maxArrayLen d; maxObjectKeys := maxObjectKeys d; depth := depth d;
       objects := objects d; heap := heap d |}
  | WithMaxSize n =>
    {| reader := reader d; version := version d; maxDepth := maxDepth d; maxSize := n;
       maxArrayLen := maxArrayLen d; maxObjectKeys := maxObjectKeys d; depth := depth d;
       objects := objects d; heap := heap d |}
  | WithMaxArrayLen n =>
    {| reader := reader d; version := version d; maxDepth := maxDepth d; maxSize := maxSize d;
       maxArrayLen := n; maxObjectKeys := maxObjectKeys d; depth := depth d;
       objects := objects d; heap := heap d |}
  | WithMaxObjectKeys n =>
    {| reader := reader d; version := version d; maxDepth := maxDepth d; maxSize := maxSize d;
       maxArrayLen := maxArrayLen d; maxObjectKeys := n; depth := depth d;
       objects := objects d; heap := heap d |}
  end.

Definition NewDeserializer (data : list byte) (opts : list Option) : Deserializer :=
  fold_left apply_Option opts
    {| reader := wire.NewReader data; version := 0; maxDepth := 1000; maxSize := 0;
       maxArrayLen := DefaultMaxArrayLen; maxObjectKeys := DefaultMaxObjectKeys;
       depth := 0; objects := []; heap := [] |}.

(** [d.objects = append(d.objects, v)] *)
Definition register (d : Deserializer) (v : Value) : Deserializer :=
  set_objects d (objects d ++ [v]).

(** [d.objects[i] = v] *)
Definition update_entry (d : Deserializer) (i : Z) (v : Value) : Deserializer :=
  set_objects d (<[Z.to_nat i := v]> (objects d)).

(** [_, _ = d.reader.ReadByte()] after a successful [Peek] *)
Definition consume (d : Deserializer) : Deserializer :=
  match wire.ReadByte (reader d) with
  | Ok (_, r) => set_reader d r
  | _ => d
  end.

Definition readHeader (d : Deserializer) : Res Deserializer :=
  let* (tag, r) := wrap_err ErrInvalidHeader (wire.ReadByte (reader d)) in
  let d := set_reader d r in
  if negb (u8 tag =? u8 tagVersion) then Err ErrInvalidHeader
  else
    let* (version, r) := wrap_err ErrInvalidHeader (wire.ReadVarint32 (reader d)) in
    let d := set_reader d r in
    if (version <? MinVersion) || (version >? MaxVersion) then Err ErrUnsupportedVersion
    else Ok (set_version d version).

Definition readInt32 (d : Deserializer) : Res (Value * Deserializer) :=
  let* (n, r) := wire.ReadZigZag32 (reader d) in
  Ok (Int32 n, set_reader d r).

Definition readUint32 (d : Deserializer) : Res (Value * Deserializer) :=
  let* (n, r) := wire.ReadVarint32 (reader d) in
  Ok (Uint32 n, set_reader d r).

Definition readDouble (d : Deserializer) : Res (Value * Deserializer) :=
  let* (f, r) := wire.ReadDouble (reader d) in
  Ok (Double f, set_reader d r).

Definition readBigInt (d : Deserializer) : Res (Value * Deserializer) :=
  let* (bitfield, r) := wire.ReadVarint (reader d) in
  let d := set_reader d r in
  let negative := Z.land bitfield 1 =? 1 in
  let byteLength := Z.shiftr bitfield 1 in
  if byteLength =? 0 then Ok (BigInt 0, d)
  else
    let* (bytes, r) := wire.ReadBytes (reader d) (int byteLength) in
    let d := set_reader d r in
    let reversed := rev bytes in
    let result := big_SetBytes reversed in
    let result := if negative then - result else result in
    Ok (BigInt result, d).

Definition readOneByteString (d : Deserializer) : Res (Value * Deserializer) :=
  let* (length, r) := wire.ReadVarint32 (reader d) in
  let* (s, r) := wire.ReadOneByteString r (int length) in
  let v := String s in
  Ok (v, register (set_reader d r) v).

Definition readTwoByteString (d : Deserializer) : Res (Value * Deserializer) :=
  let* (byteLength, r) := wire.ReadVarint32 (reader d) in
  let utf16Length := Z.quot (int byteLength) 2 in
  let* (s, r) := wire.ReadTwoByteString r utf16Length in
  let v := String s in
  Ok (v, register (set_reader d r) v).

Definition readDate (d : Deserializer) : Res (Value * Deserializer) :=
  let* (bits, r) := wire.ReadDouble (reader d) in
  let ms := Float64frombits bits in
  let sec := int64_of_float (SFdiv prec emax ms (float64_of_int 1000)) in
  let nsec :=
    int64_of_float
      (SFmul prec emax
         (SFsub prec emax ms (SFmul prec emax (float64_of_int sec) (float64_of_int 1000)))
         (float64_of_int 1000000)) in
  let v := Date (time_Unix sec nsec) in
  Ok (v, register (set_reader d r) v).

Definition readObjectReference (d : Deserializer) : Res (Value * Deserializer) :=
  let* (id, r) := wire.ReadVarint32 (reader d) in
  let d := set_reader d r in
  if int id >=? len (objects d) then Err ErrInvalidReference
  else Ok (nth (Z.to_nat id) (objects d) Undefined, d).

Definition readArrayBuffer (d : Deserializer) : Res (Value * Deserializer) :=
  let* (byteLength, r) := wire.ReadVarint32 (reader d) in
  let* (data, r) := wire.ReadBytes r (int byteLength) in
  let v := ArrayBuffer data in
  Ok (v, register (set_reader d r) v).

Definition typeName (arrayType : byte) : GoString :=
  match arrayType with
  | typedArrayInt8 => gostr "Int8Array"
  | typedArrayUint8 => gostr "Uint8Array"
  | typedArrayUint8Clamped => gostr "Uint8ClampedArray"
  | typedArrayInt16 => gostr "Int16Array"
  | typedArrayUint16 => gostr "Uint16Array"
  | typedArrayInt32 => gostr "Int32Array"
  | typedArrayUint32 => gostr "Uint32Array"
  | typedArrayFloat32 => gostr "Float32Array"
  | typedArrayFloat64 => gostr "Float64Array"
  | typedArrayDataView => gostr "DataView"
  | typedArrayFloat16 => gostr "Float16Array"
  | typedArrayBigInt64 => gostr "BigInt64Array"
  | typedArrayBigUint64 => gostr "BigUint64Array"
  | _ => gostr "TypedArray(" ++ sprintf_d (u8 arrayType) ++ gostr ")"
  end.

Definition readTypedArray (d : Deserializer) : Res (Value * Deserializer) :=
  let* (arrayType, r) := wire.ReadByte (reader d) in
  let* (byteLength, r) := wire.ReadVarint32 r in
  let* (data, r) := wire.ReadBytes r (int byteLength) in
  let v := VTypedArray data 0 (len data) (typeName arrayType) in
  Ok (v, register (set_reader d r) v).

Definition readNumberObject (d : Deserializer) : Res (Value * Deserializer) :=
  let* (f, r) := wire.ReadDouble (reader d) in
  let v := VBoxedPrimitive TypeDouble (Double f) in
  Ok (v, register (set_reader d r) v).

Definition readTrueObject (d : Deserializer) : Res (Value * Deserializer) :=
  let v := VBoxedPrimitive TypeBool (Bool true) in
  Ok (v, register d v).

Definition readFalseObject (d : Deserializer) : Res (Value * Deserializer) :=
  let v := VBoxedPrimitive TypeBool (Bool false) in
  Ok (v, register d v).

Definition regexp_flags (flagBits : Z) : GoString :=
  (if negb (Z.land flagBits 1 =? 0) then gostr "g" else []) ++
  (if negb (Z.land flagBits 2 =? 0) then gostr "i" else []) ++
  (if negb (Z.land flagBits 4 =? 0) then gostr "m" else []) ++
  (if negb (Z.land flagBits 8 =? 0) then gostr "s" else []) ++
  (if negb (Z.land flagBits 16 =? 0) then gostr "u" else []) ++
  (if negb (Z.land flagBits 32 =? 0) then gostr "y" else []).

(** The padding loop at the head of [readValue]. *)
Fixpoint skipPadding (n : nat) (d : Deserializer) : Res Deserializer :=
  match n with
  | O => OutOfFuel
  | S n =>
    let* tag := wrap_err ErrMalformedData (wire.Peek (reader d)) in
    if negb (u8 tag =? u8 tagPadding) then Ok d
    else skipPadding n (consume d)
  end.

(** The sub-tags and the type tags of an error. *)
Abbreviation errorTagMessage := x6d.
Abbreviation errorTagStack := x73.
Abbreviation errorTagCause := x63.
Abbreviation errorTagEnd := x2e.
Abbreviation errorTypeErrorWithMessage := x6d.
Abbreviation errorTypeEvalError := x45.
Abbreviation errorTypeRangeError := x52.
Abbreviation errorTypeReferenceError := x46.
Abbreviation errorTypeSyntaxError := x53.
Abbreviation errorTypeTypeError := x54.
Abbreviation errorTypeURIError := x55.

(** The [JSError] under construction. *)
Record JSError : Type := {
  Name : GoString; Message : GoString; Stack : GoString; Cause : option Value
}.

Section Deserialize.

(** [fmt.Sprintf("%g", f)] of the Go standard library, on the bit pattern of
    the double. *)
Variable fmt_g : Z -> GoString.

(** What [readValue] is for the functions it calls and that call it back. *)
Variable rv : Deserializer -> Res (Value * Deserializer).

Definition object_key (key : Value) : Res GoString :=
  match key with
  | String s => Ok s
  | Int32 n => Ok (sprintf_d n)
  | Uint32 n => Ok (sprintf_d n)
  | Double f => Ok (fmt_g f)
  | _ => Err ErrMalformedData
  end.

(** The loop of [readObject]. *)
Fixpoint readObject_loop (n : nat) (obj : loc) (d : Deserializer) : Res Deserializer :=
  match n with
  | O => OutOfFuel
  | S n =>
    let* tag := wire.Peek (reader d) in
    if u8 tag =? u8 tagEndJSObject then
      let d := consume d in
      let* (_, r) := wire.ReadVarint32 (reader d) in
      Ok (set_reader d r)
    else
      let* (key, d) := rv d in
      let* keyStr := object_key key in
      let* (val, d) := rv d in
      readObject_loop n obj (set_heap d (map_store (heap d) obj keyStr val))
  end.

Definition readObject (n : nat) (d : Deserializer) : Res (Value * Deserializer) :=
  let (h, obj) := alloc (heap d) (CMap ∅) in
  let v := Object obj in
  let objIndex := len (objects d) in
  let d := register (set_heap d h) v in
  let* d := readObject_loop n obj d in
  Ok (v, update_entry d objIndex v).

(** The element loop of [readDenseArray]: [arr = append(arr, elem)]. *)
Fixpoint readDenseArray_elems (n : nat) (i length : Z) (arr : loc * Z * Z) (d : Deserializer)
  : Res (loc * Z * Z * Deserializer) :=
  match n with
  | O => OutOfFuel
  | S n =>
    if i <? length then
      let* (elem, d) := rv d in
      let (h, arr) := append_value (heap d) arr elem in
      readDenseArray_elems n (uint32 (i + 1)) length arr (set_heap d h)
    else Ok (arr, d)
  end.

(** The loop over the extra properties of a dense array. *)
Fixpoint readDenseArray_props (n : nat) (d : Deserializer) : Res Deserializer :=
  match n with
  | O => OutOfFuel
  | S n =>
    let* tag := wire.Peek (reader d) in
    if u8 tag =? u8 tagEndDenseArray then
      let d := consume d in
      let* (_, r) := wire.ReadVarint32 (reader d) in
      let* (_, r) := wire.ReadVarint32 r in
      Ok (set_reader d r)
    else
      let* (_, d) := rv d in
      let* (_, d) := rv d in
      readDenseArray_props n d
  end.

Definition readDenseArray (n : nat) (d : Deserializer) : Res (Value * Deserializer) :=
  let* (length, r) := wire.ReadVarint32 (reader d) in
  let d := set_reader d r in
  if int length >? maxArrayLen d then Err ErrMalformedData
  else
    (* arr := make([]Value, 0, length) *)
    let (h, p) := alloc (heap d) (CArr (replicate (Z.to_nat length) Undefined)) in
    let v := Array p 0 length in
    let arrIndex := len (objects d) in
    let d := register (set_heap d h) v in
    let* (p', n', c', d) := readDenseArray_elems n 0 length (p, 0, length) d in
    let* d := readDenseArray_props n d in
    let v := Array p' n' c' in
    Ok (v, update_entry d arrIndex v).

(** The loop of [readSparseArray]; [arr] has [length] elements. *)
Fixpoint readSparseArray_loop (n : nat) (arr : loc) (length : Z) (d : Deserializer)
  : Res Deserializer :=
  match n with
  | O => OutOfFuel
  | S n =>
    let* tag := wire.Peek (reader d) in
    if u8 tag =? u8 tagEndSparseArray then
      let d := consume d in
      let* (_, r) := wire.ReadVarint32 (reader d) in
      let* (_, r) := wire.ReadVarint32 r in
      Ok (set_reader d r)
    else
      let* (key, d) := rv d in
      let* (val, d) := rv d in
      let d :=
        if IsNumber key then
          let idx := AsNumber_int key in
          if (idx >=? 0) && (idx <? length) then set_heap d (arr_store (heap d) arr idx val)
          else d
        else d in
      readSparseArray_loop n arr length d
  end.

Definition readSparseArray (n : nat) (d : Deserializer) : Res (Value * Deserializer) :=
  let* (length, r) := wire.ReadVarint32 (reader d) in
  let d := set_reader d r in
  if int length >? maxArrayLen d then Err ErrMalformedData
  else
    (* arr := make([]Value, length), every element set to Hole() *)
    let (h, p) := alloc (heap d) (CArr (replicate (Z.to_nat length) Hole)) in
    let v := Array p length length in
    let arrIndex := len (objects d) in
    let d := register (set_heap d h) v in
    let* d := readSparseArray_loop n p length d in
    Ok (v, update_entry d arrIndex v).

(** The loop of [readMap]; [entries] is the local slice. *)
Fixpoint readMap_loop (n : nat) (entries : list (Value * Value)) (d : Deserializer)
  : Res (list (Value * Value) * Deserializer) :=
  match n with
  | O => OutOfFuel
  | S n =>
    let* tag := wire.Peek (reader d) in
    if u8 tag =? u8 tagEndMap then
      let d := consume d in
      let* (_, r) := wire.ReadVarint32 (reader d) in
      Ok (entries, set_reader d r)
    else
      let* (key, d) := rv d in
      let* (val, d) := rv d in
      readMap_loop n (entries ++ [(key, val)]) d
  end.

Definition readMap (n : nat) (d : Deserializer) : Res (Value * Deserializer) :=
  let (h, p) := alloc (heap d) (CJSMap []) in
  let v := VMap p in
  let mapIndex := len (objects d) in
  let d := register (set_heap d h) v in
  let* (entries, d) := readMap_loop n [] d in
  (* jsMap.Entries = entries *)
  let d := set_heap d (<[p := CJSMap entries]> (heap d)) in
  Ok (v, update_entry d mapIndex v).

(** The loop of [readSet]. *)
Fixpoint readSet_loop (n : nat) (values : list Value) (d : Deserializer)
  : Res (list Value * Deserializer) :=
  match n with
  | O => OutOfFuel
  | S n =>
    let* tag := wire.Peek (reader d) in
    if u8 tag =? u8 tagEndSet then
      let d := consume d in
      let* (_, r) := wire.ReadVarint32 (reader d) in
      Ok (values, set_reader d r)
    else
      let* (val, d) := rv d in
      readSet_loop n (values ++ [val]) d
  end.

Definition readSet (n : nat) (d : Deserializer) : Res (Value * Deserializer) :=
  let (h, p) := alloc (heap d) (CJSSet []) in
  let v := VSet p in
  let setIndex := len (objects d) in
  let d := register (set_heap d h) v in
  let* (values, d) := readSet_loop n [] d in
  (* jsSet.Values = values *)
  let d := set_heap d (<[p := CJSSet values]> (heap d)) in
  Ok (v, update_entry d setIndex v).

Definition readRegExp (d : Deserializer) : Res (Value * Deserializer) :=
  let* (pattern, d) := rv d in
  match pattern with
  | String p =>
    let* (flagBits, r) := wire.ReadVarint32 (reader d) in
    let v := VRegExp p (regexp_flags flagBits) in
    Ok (v, register (set_reader d r) v)
  | _ => Err ErrMalformedData
  end.

Definition readStringObject (d : Deserializer) : Res (Value * Deserializer) :=
  let* (inner, d) := rv d in
  match inner with
  | String _ =>
    let v := VBoxedPrimitive TypeString inner in
    Ok (v, register d v)
  | _ => Err ErrMalformedData
  end.

Definition readBigIntObject (d : Deserializer) : Res (Value * Deserializer) :=
  let* (inner, d) := rv d in
  match inner with
  | BigInt _ =>
    let v := VBoxedPrimitive TypeBigInt inner in
    Ok (v, register d v)
  | _ => Err ErrMalformedData
  end.

(** The loop over the sub-tags of [readError]. *)
Fixpoint readError_loop (n : nat) (jsErr : JSError) (d : Deserializer)
  : Res (JSError * Deserializer) :=
  match n with
  | O => OutOfFuel
  | S n =>
    let* (subTag, r) := wire.ReadByte (reader d) in
    let d := set_reader d r in
    if u8 subTag =? u8 errorTagEnd then Ok (jsErr, d)
    else
      let* (val, d) := rv d in
      let jsErr :=
        match subTag with
        | errorTagMessage =>
          match val with
          | String s => {| Name := Name jsErr; Message := s; Stack := Stack jsErr; Cause := Cause jsErr |}
          | _ => jsErr
          end
        | errorTagStack =>
          match val with
          | String s => {| Name := Name jsErr; Message := Message jsErr; Stack := s; Cause := Cause jsErr |}
          | _ => jsErr
          end
        | errorTagCause =>
          {| Name := Name jsErr; Message := Message jsErr; Stack := Stack jsErr; Cause := Some val |}
        | _ => jsErr
        end in
      readError_loop n jsErr d
  end.

Definition error_name (errType : byte) : GoString :=
  match errType with
  | errorTypeEvalError => gostr "EvalError"
  | errorTypeRangeError => gostr "RangeError"
  | errorTypeReferenceError => gostr "ReferenceError"
  | errorTypeSyntaxError => gostr "SyntaxError"
  | errorTypeTypeError => gostr "TypeError"
  | errorTypeURIError => gostr "URIError"
  | _ => gostr "Error"
  end.

Definition readError (n : nat) (d : Deserializer) : Res (Value * Deserializer) :=
  let* (errType, r) := wire.ReadByte (reader d) in
  let d := set_reader d r in
  let* (jsErr, d) :=
    if u8 errType =? u8 errorTypeErrorWithMessage then
      let* (val, d) := rv d in
      let msg := match val with String s => s | _ => [] end in
      Ok ({| Name := gostr "Error"; Message := msg; Stack := []; Cause := None |}, d)
    else
      Ok ({| Name := error_name errType; Message := []; Stack := []; Cause := None |}, d) in
  let* (jsErr, d) := readError_loop n jsErr d in
  let v := VError (Name jsErr) (Message jsErr) (Stack jsErr) (Cause jsErr) in
  Ok (v, register d v).

(** The [switch tag] of [readValue]. *)
Definition readValue_switch (n : nat) (tag : byte) (d : Deserializer)
  : Res (Value * Deserializer) :=
  match tag with
  | tagNull => Ok (Null, d)
  | tagUndefined => Ok (Undefined, d)
  | tagTrue => Ok (Bool true, d)
  | tagFalse => Ok (Bool false, d)
  | tagHole => Ok (Hole, d)
  | tagInt32 => readInt32 d
  | tagUint32 => readUint32 d
  | tagDouble => readDouble d
  | tagBigInt => readBigInt d
  | tagOneByteString => readOneByteString d
  | tagTwoByteString => readTwoByteString d
  | tagDate => readDate d
  | tagBeginJSObject => readObject n d
  | tagBeginDenseArray => readDenseArray n d
  | tagBeginSparseArray => readSparseArray n d
  | tagObjectReference => readObjectReference d
  | tagBeginMap => readMap n d
  | tagBeginSet => readSet n d
  | tagArrayBuffer => readArrayBuffer d
  | tagTypedArray => readTypedArray d
  | tagRegExp => readRegExp d
  | tagNumberObject => readNumberObject d
  | tagTrueObject => readTrueObject d
  | tagFalseObject => readFalseObject d
  | tagStringObject => readStringObject d
  | tagBigIntObject => readBigIntObject d
  | tagError => readError n d
  | _ => Err ErrUnexpectedTag
  end.

(** The body of [readValue] after the depth check: the padding is skipped,
    the tag is read and dispatched on. *)
Definition readValue_dispatch (n : nat) (d : Deserializer) : Res (Value * Deserializer) :=
  let* d := skipPadding (S (length (wire.data (reader d)))) d in
  let* (tag, r) := wrap_err ErrMalformedData (wire.ReadByte (reader d)) in
  readValue_switch n tag (set_reader d r).

End Deserialize.

(** [readValue]: [fuel] bounds the nesting of calls and the rounds of each
    loop. *)
Fixpoint readValue (fmt_g : Z -> GoString) (fuel : nat) (d : Deserializer)
  : Res (Value * Deserializer) :=
  match fuel with
  | O => OutOfFuel
  | S fuel =>
    let d := set_depth d (depth d + 1) in
    if depth d >? maxDepth d then Err ErrMaxDepthExceeded
    else
      let* (v, d) := readValue_dispatch fmt_g (readValue fmt_g fuel) fuel d in
      (* defer func() { d.depth-- }() *)
      Ok (v, set_depth d (depth d - 1))
  end.

Definition Deserializer_Deserialize (fmt_g : Z -> GoString) (fuel : nat) (d : Deserializer)
  : Res (Value * Deserializer) :=
  if (maxSize d >? 0) && (wire.Len (reader d) >? maxSize d) then Err ErrMaxSizeExceeded
  else
    let* d := readHeader d in
    readValue fmt_g fuel d.

(** [Deserialize(data, opts...)]: the root value, and the heap it lives in. *)
Definition Deserialize (fmt_g : Z -> GoString) (fuel : nat) (data : list byte) (opts : list Option)
  : Res (Value * Heap) :=
  let* (v, d) := Deserializer_Deserialize fmt_g fuel (NewDeserializer data opts) in
  Ok (v, heap d).

(** *** The serializer *)

Definition SerializeVersion : Z := 15.

Definition writeHeader (w : list byte) : list byte :=
  wire.WriteVarint32 (wire.WriteByte w tagVersion) SerializeVersion.

Definition writeString (w : list byte) (str : GoString) : list byte :=
  if wire.NeedsUTF16 str then
    let w := wire.WriteByte w tagTwoByteString in
    let utf16Len := wire.UTF16Length str in
    let w := wire.WriteVarint32 w (uint32 (int (utf16Len * 2))) in
    wire.WriteTwoByteString w str
  else
    let w := wire.WriteByte w tagOneByteString in
    let w := wire.WriteVarint32 w (uint32 (utf8_len str)) in
    wire.WriteOneByteString w str.

Definition writeBigInt (w : list byte) (n : Z) : list byte :=
  let w := wire.WriteByte w tagBigInt in
  if n =? 0 then wire.WriteVarint w 0
  else
    let absBytes := big_Bytes n in
    let negative := n <? 0 in
    let byteLen := uint64 (len absBytes) in
    let bitfield := uint64 (Z.shiftl byteLen 1) in
    let bitfield := if negative then Z.lor bitfield 1 else bitfield in
    let w := wire.WriteVarint w bitfield in
    w ++ rev absBytes.

Definition writeArrayBuffer (w : list byte) (buf : list byte) : list byte :=
  let w := wire.WriteByte w tagArrayBuffer in
  let w := wire.WriteVarint32 w (uint32 (len buf)) in
  wire.WriteBytes w buf.

Definition regexp_flag_bit (c : Z) : Z :=
  if c =? 103 then 1 else if c =? 105 then 2 else if c =? 109 then 4
  else if c =? 115 then 8 else if c =? 117 then 16 else if c =? 121 then 32 else 0.

Definition writeRegExp (w : list byte) (pattern flags : GoString) : list byte :=
  let w := wire.WriteByte w tagRegExp in
  let w := writeString w pattern in
  let bits := fold_left (fun acc c => Z.lor acc (regexp_flag_bit c)) flags 0 in
  wire.WriteVarint32 w bits.

Definition typeID (name : GoString) : option byte :=
  if decide (name = gostr "Int8Array") then Some typedArrayInt8
  else if decide (name = gostr "Uint8Array") then Some typedArrayUint8
  else if decide (name = gostr "Uint8ClampedArray") then Some typedArrayUint8Clamped
  else if decide (name = gostr "Int16Array") then Some typedArrayInt16
  else if decide (name = gostr "Uint16Array") then Some typedArrayUint16
  else if decide (name = gostr "Int32Array") then Some typedArrayInt32
  else if decide (name = gostr "Uint32Array") then Some typedArrayUint32
  else if decide (name = gostr "Float32Array") then Some typedArrayFloat32
  else if decide (name = gostr "Float64Array") then Some typedArrayFloat64
  else if decide (name = gostr "DataView") then Some typedArrayDataView
  else if decide (name = gostr "Float16Array") then Some typedArrayFloat16
  else if decide (name = gostr "BigInt64Array") then Some typedArrayBigInt64
  else if decide (name = gostr "BigUint64Array") then Some typedArrayBigUint64
  else None.

Definition writeTypedArray (w : list byte) (buffer : list byte) (name : GoString)
  : Res (list byte) :=
  let w := wire.WriteByte w tagTypedArray in
  match typeID name with
  | Some id =>
    let w := wire.WriteByte w id in
    let w := wire.WriteVarint32 w (uint32 (len buffer)) in
    Ok (wire.WriteBytes w buffer)
  | None => Err ErrUnknownTypedArray
  end.

(** The accessors [AsDouble], [AsBool], [AsString], [AsBigInt] panic on a
    value of another type. *)
Definition writeBoxedPrimitive (w : list byte) (ptype : ValueType) (inner : Value)
  : Res (list byte) :=
  match ptype with
  | TypeDouble =>
    let w := wire.WriteByte w tagNumberObject in
    match inner with Double f => Ok (wire.WriteDouble w f) | _ => Panic end
  | TypeBool =>
    match inner with
    | Bool true => Ok (wire.WriteByte w tagTrueObject)
    | Bool false => Ok (wire.WriteByte w tagFalseObject)
    | _ => Panic
    end
  | TypeString =>
    let w := wire.WriteByte w tagStringObject in
    match inner with String s => Ok (writeString w s) | _ => Panic end
  | TypeBigInt =>
    let w := wire.WriteByte w tagBigIntObject in
    match inner with BigInt n => Ok (writeBigInt w n) | _ => Panic end
  | _ => Err ErrUnsupportedBoxed
  end.

(** The type byte of an error and, for the typed forms, the message sub-tag. *)
Definition writeError_type (w : list byte) (name : GoString) : list byte :=
  if decide (name = gostr "Error") then wire.WriteByte w errorTypeErrorWithMessage
  else if decide (name = gostr "EvalError")
  then wire.WriteByte (wire.WriteByte w errorTypeEvalError) errorTagMessage
  else if decide (name = gostr "RangeError")
  then wire.WriteByte (wire.WriteByte w errorTypeRangeError) errorTagMessage
  else if decide (name = gostr "ReferenceError")
  then wire.WriteByte (wire.WriteByte w errorTypeReferenceError) errorTagMessage
  else if decide (name = gostr "SyntaxError")
  then wire.WriteByte (wire.WriteByte w errorTypeSyntaxError) errorTagMessage
  else if decide (name = gostr "TypeError")
  then wire.WriteByte (wire.WriteByte w errorTypeTypeError) errorTagMessage
  else if decide (name = gostr "URIError")
  then wire.WriteByte (wire.WriteByte w errorTypeURIError) errorTagMessage
  else wire.WriteByte w errorTypeErrorWithMessage.

(** The map a [Value] of type object refers to, and the like. *)
Definition AsObject (h : Heap) (l : loc) : gmap GoString Value :=
  match h !! l with
  | Some (CMap m) => m
  | _ => ∅
  end.

Definition Entries (h : Heap) (l : loc) : list (Value * Value) :=
  match h !! l with
  | Some (CJSMap e) => e
  | _ => []
  end.

Definition Values (h : Heap) (l : loc) : list Value :=
  match h !! l with
  | Some (CJSSet v) => v
  | _ => []
  end.

Section Serialize.

(** What [writeValue] is for the functions it calls and that call it back. *)
Variable wv : list byte -> Value -> Res (list byte).

(** A loop [for _, elem := range ...] writing each element. *)
Fixpoint write_each (w : list byte) (l : list Value) : Res (list byte) :=
  match l with
  | [] => Ok w
  | v :: l => let* w := wv w v in write_each w l
  end.

(** The loop of [writeObject]; Go leaves the order of a [range] over a map
    unspecified, the order of the list stands for one such order. *)
Fixpoint write_props (w : list byte) (l : list (GoString * Value)) : Res (list byte) :=
  match l with
  | [] => Ok w
  | (key, val) :: l => let* w := wv (writeString w key) val in write_props w l
  end.

Definition writeObject (w : list byte) (obj : gmap GoString Value) : Res (list byte) :=
  let w := wire.WriteByte w tagBeginJSObject in
  let* w := write_props w (map_to_list obj) in
  let w := wire.WriteByte w tagEndJSObject in
  Ok (wire.WriteVarint32 w (uint32 (Z.of_nat (size obj)))).

Definition writeArray (w : list byte) (arr : list Value) : Res (list byte) :=
  let w := wire.WriteByte w tagBeginDenseArray in
  let w := wire.WriteVarint32 w (uint32 (len arr)) in
  let* w := write_each w arr in
  let w := wire.WriteByte w tagEndDenseArray in
  let w := wire.WriteVarint32 w 0 in
  Ok (wire.WriteVarint32 w (uint32 (len arr))).

Fixpoint write_entries (w : list byte) (l : list (Value * Value)) : Res (list byte) :=
  match l with
  | [] => Ok w
  | (key, val) :: l => let* w := wv w key in let* w := wv w val in write_entries w l
  end.

Definition writeMap (w : list byte) (entries : list (Value * Value)) : Res (list byte) :=
  let w := wire.WriteByte w tagBeginMap in
  let* w := write_entries w entries in
  let w := wire.WriteByte w tagEndMap in
  Ok (wire.WriteVarint32 w (uint32 (int (len entries * 2)))).

Definition writeSet (w : list byte) (values : list Value) : Res (list byte) :=
  let w := wire.WriteByte w tagBeginSet in
  let* w := write_each w values in
  let w := wire.WriteByte w tagEndSet in
  Ok (wire.WriteVarint32 w (uint32 (len values))).

Definition writeError (w : list byte) (name message stack : GoString) (cause : option Value)
  : Res (list byte) :=
  let w := wire.WriteByte w tagError in
  let w := writeString (writeError_type w name) message in
  let w :=
    match stack with
    | [] => w
    | _ => writeString (wire.WriteByte w errorTagStack) stack
    end in
  let* w :=
    match cause with
    | Some c => wv (wire.WriteByte w errorTagCause) c
    | None => Ok w
    end in
  Ok (wire.WriteByte w errorTagEnd).

End Serialize.

(** [writeValue] on a value whose containers live in the heap [h]; [fuel]
    bounds the nesting of calls. *)
Fixpoint writeValue (fuel : nat) (h : Heap) (w : list byte) (v : Value) : Res (list byte) :=
  match fuel with
  | O => OutOfFuel
  | S fuel =>
    match v with
    | Null => Ok (wire.WriteByte w tagNull)
    | Undefined => Ok (wire.WriteByte w tagUndefined)
    | Bool b => Ok (wire.WriteByte w (if b then tagTrue else tagFalse))
    | Int32 n => Ok (wire.WriteZigZag32 (wire.WriteByte w tagInt32) n)
    | Uint32 n => Ok (wire.WriteVarint32 (wire.WriteByte w tagUint32) n)
    | Double f => Ok (wire.WriteDouble (wire.WriteByte w tagDouble) f)
    | BigInt n => Ok (writeBigInt w n)
    | String s => Ok (writeString w s)
    | Date t =>
      let w := wire.WriteByte w tagDate in
      let ms := float64_of_int (UnixMilli t) in
      Ok (wire.WriteDouble w (Float64bits ms))
    | Object l => writeObject (writeValue fuel h) w (AsObject h l)
    | Array _ _ _ => writeArray (writeValue fuel h) w (elems h v)
    | VMap p => writeMap (writeValue fuel h) w (Entries h p)
    | VSet p => writeSet (writeValue fuel h) w (Values h p)
    | ArrayBuffer buf => Ok (writeArrayBuffer w buf)
    | VRegExp pattern flags => Ok (writeRegExp w pattern flags)
    | VError name message stack cause => writeError (writeValue fuel h) w name message stack cause
    | VTypedArray buffer _ _ name => writeTypedArray w buffer name
    | VBoxedPrimitive ptype inner => writeBoxedPrimitive w ptype inner
    | Hole => Ok (wire.WriteByte w tagHole)
    end
  end.

(** [Serialize(v)] *)
Definition Serialize (fuel : nat) (h : Heap) (v : Value) : Res (list byte) :=
  writeValue fuel h (writeHeader []) v.

(** *** [SerializeGo]: Go values *)

(** The conversion [float64(val)] of a [float32], both as bit patterns.  It
    is exact; a NaN keeps its sign and payload and is made quiet (amd64). *)
Definition float64_of_float32 (b : Z) : Z :=
  let s := Z.shiftl (Z.shiftr b 31) 63 in
  let e := Z.land (Z.shiftr b 23) 255 in
  let m := Z.land b (2 ^ 23 - 1) in
  if e =? 255 then
    s + Z.shiftl 2047 52 + Z.shiftl (if m =? 0 then 0 else Z.lor m (2 ^ 22)) 29
  else if e =? 0 then
    if m =? 0 then s
    else
      let k := Z.log2 m in
      s + Z.shiftl (k + 874) 52 + Z.shiftl (m - 2 ^ k) (52 - k)
  else s + Z.shiftl (e + 896) 52 + Z.shiftl m 29.

(** The dynamic types of the [interface{}] that [writeGoValue] switches on;
    [GoOther] stands for a value of any other type.  An integer is held as
    its value, a [float32] and a [float64] as their bit patterns. *)
Inductive GoValue : Type :=
| GoNil
| GoBool (val : bool)
| GoInt (val : Z)
| GoInt8 (val : Z)
| GoInt16 (val : Z)
| GoInt32 (val : Z)
| GoInt64 (val : Z)
| GoUint (val : Z)
| GoUint8 (val : Z)
| GoUint16 (val : Z)
| GoUint32 (val : Z)
| GoUint64 (val : Z)
| GoFloat32 (bits : Z)
| GoFloat64 (bits : Z)
| GoStr (val : GoString)
| GoBig (val : Z)
| GoTime (val : Time)
| GoBytes (val : list byte)
| GoSlice (val : list GoValue)
| GoMap (val : gmap GoString GoValue)
| GoVal (val : Value)
| GoOther.

Definition MinInt32 : Z := - 2 ^ 31.
Definition MaxInt32 : Z := 2 ^ 31 - 1.

Definition writeInt (w : list byte) (n : Z) : list byte :=
  if (n >=? MinInt32) && (n <=? MaxInt32) then
    wire.WriteZigZag32 (wire.WriteByte w tagInt32) (int32 n)
  else
    wire.WriteDouble (wire.WriteByte w tagDouble) (Float64bits (float64_of_int n)).

Definition writeUint (w : list byte) (n : Z) : list byte :=
  if n <=? MaxInt32 then
    wire.WriteZigZag32 (wire.WriteByte w tagInt32) (int32 n)
  else
    wire.WriteDouble (wire.WriteByte w tagDouble) (Float64bits (float64_of_int n)).

Section SerializeGo.

(** What [writeGoValue] is for the functions it calls and that call it back. *)
Variable wgv : list byte -> GoValue -> Res (list byte).

Fixpoint write_go_each (w : list byte) (l : list GoValue) : Res (list byte) :=
  match l with
  | [] => Ok w
  | v :: l => let* w := wgv w v in write_go_each w l
  end.

Fixpoint write_go_props (w : list byte) (l : list (GoString * GoValue)) : Res (list byte) :=
  match l with
  | [] => Ok w
  | (key, val) :: l => let* w := wgv (writeString w key) val in write_go_props w l
  end.

Definition writeGoObject (w : list byte) (obj : gmap GoString GoValue) : Res (list byte) :=
  let w := wire.WriteByte w tagBeginJSObject in
  let* w := write_go_props w (map_to_list obj) in
  let w := wire.WriteByte w tagEndJSObject in
  Ok (wire.WriteVarint32 w (uint32 (Z.of_nat (size obj)))).

Definition writeGoArray (w : list byte) (arr : list GoValue) : Res (list byte) :=
  let w := wire.WriteByte w tagBeginDenseArray in
  let w := wire.WriteVarint32 w (uint32 (len arr)) in
  let* w := write_go_each w arr in
  let w := wire.WriteByte w tagEndDenseArray in
  let w := wire.WriteVarint32 w 0 in
  Ok (wire.WriteVarint32 w (uint32 (len arr))).

End SerializeGo.

(** [writeGoValue]; the error of the [default] case, an unnamed
    [fmt.Errorf("v8serialize: unsupported Go type %T")], is given as
    [ErrUnsupportedType]. *)
Fixpoint writeGoValue (fuel : nat) (h : Heap) (w : list byte) (v : GoValue) : Res (list byte) :=
  match fuel with
  | O => OutOfFuel
  | S fuel =>
    match v with
    | GoNil => Ok (wire.WriteByte w tagNull)
    | GoBool val => Ok (wire.WriteByte w (if val then tagTrue else tagFalse))
    | GoInt val => Ok (writeInt w (int64 val))
    | GoInt8 val => Ok (writeInt w (int64 val))
    | GoInt16 val => Ok (writeInt w (int64 val))
    | GoInt32 val => Ok (wire.WriteZigZag32 (wire.WriteByte w tagInt32) val)
    | GoInt64 val => Ok (writeInt w val)
    | GoUint val => Ok (writeUint w (uint64 val))
    | GoUint8 val => Ok (writeUint w (uint64 val))
    | GoUint16 val => Ok (writeUint w (uint64 val))
    | GoUint32 val =>
      if val <=? MaxInt32 then
        Ok (wire.WriteZigZag32 (wire.WriteByte w tagInt32) (int32 val))
      else
        Ok (wire.WriteDouble (wire.WriteByte w tagDouble) (Float64bits (float64_of_int val)))
    | GoUint64 val => Ok (writeUint w val)
    | GoFloat32 bits =>
      Ok (wire.WriteDouble (wire.WriteByte w tagDouble) (float64_of_float32 bits))
    | GoFloat64 bits => Ok (wire.WriteDouble (wire.WriteByte w tagDouble) bits)
    | GoStr val => Ok (writeString w val)
    | GoBig val => Ok (writeBigInt w val)
    | GoTime val =>
      let w := wire.WriteByte w tagDate in
      Ok (wire.WriteDouble w (Float64bits (float64_of_int (UnixMilli val))))
    | GoBytes val => Ok (writeArrayBuffer w val)
    | GoSlice val => writeGoArray (writeGoValue fuel h) w val
    | GoMap val => writeGoObject (writeGoValue fuel h) w val
    | GoVal val => writeValue fuel h w val
    | GoOther => Err ErrUnsupportedType
    end
  end.

(** [SerializeGo(v)] *)
Definition SerializeGo (fuel : nat) (h : Heap) (v : GoValue) : Res (list byte) :=
  writeGoValue fuel h (writeHeader []) v.

(** * Vocabulary of the statements *)

(** Strings of ASCII characters. *)
Definition ascii_only (s : GoString) : bool :=
  forallb (fun r => (0 <=? r) && (r <? 128)) s.

(** Strings of Unicode scalar values: what a valid UTF-8 Go string holds. *)
Definition scalars (s : GoString) : bool := forallb is_scalar s.

(** The UTF-16 code units of a rune, as [WriteTwoByteString] forms them. *)
Definition utf16_encode (r : Z) : list Z :=
  if r <=? 65535 then [uint16 r]
  else [uint16 (55296 + Z.shiftr (r - 65536) 10); uint16 (56320 + Z.land (r - 65536) 1023)].

(** A reader over [D] standing at [p]. *)
Abbreviation rd D p := {| wire.data := D; wire.pos := p |}.

(** The values the codec writes without descending into a container, with
    the bounds under which their wire form holds them exactly. *)
Definition wire_scalar (v : Value) : bool :=
  match v with
  | Undefined | Null | Bool _ | Hole => true
  | Int32 n => (- 2 ^ 31 <=? n) && (n <? 2 ^ 31)
  | Uint32 n => (0 <=? n) && (n <? 2 ^ 32)
  | Double bits => (0 <=? bits) && (bits <? 2 ^ 64)
  | BigInt n => len (big_Bytes n) <? 2 ^ 62
  | String s =>
    scalars s &&
    ((ascii_only s && (len s <? 2 ^ 32))
     || (wire.NeedsUTF16 s && (2 * wire.UTF16Length s <? 2 ^ 32)))
  | _ => false
  end.

(** The tag a scalar is written under. *)
Definition scalar_tag (v : Value) : byte :=
  match v with
  | Undefined => tagUndefined
  | Null => tagNull
  | Bool true => tagTrue
  | Bool false => tagFalse
  | Hole => tagHole
  | Int32 _ => tagInt32
  | Uint32 _ => tagUint32
  | Double _ => tagDouble
  | BigInt _ => tagBigInt
  | String s => if wire.NeedsUTF16 s then tagTwoByteString else tagOneByteString
  | _ => x00
  end.

(** The deserializer after a value was read: strings enter the table. *)
Definition after_value (d : Deserializer) (r : wire.Reader) (v : Value) : Deserializer :=
  match v with
  | String _ => register (set_reader d r) v
  | _ => set_reader d r
  end.

(** The values [writeValue] descends into from a container. *)
Definition children (h : Heap) (v : Value) : list Value :=
  match v with
  | Object l => map snd (map_to_list (AsObject h l))
  | Array _ _ _ => elems h v
  | VMap p => flat_map (fun e => [fst e; snd e]) (Entries h p)
  | VSet p => Values h p
  | VError _ _ _ (Some c) => [c]
  | _ => []
  end.

(** [reaches h v c]: [c] is [v] or lies below it. *)
Inductive reaches (h : Heap) : Value -> Value -> Prop :=
| reaches_refl v : reaches h v v
| reaches_step v c c' : In c (children h v) -> reaches h c c' -> reaches h v c'.

(** The graph of [v] contains a cycle: some value below [v] lies below one
    of its own children. *)
Definition has_cycle (h : Heap) (v : Value) : Prop :=
  exists c c', reaches h v c /\ In c' (children h c) /\ reaches h c' c.

(** The UTF-16LE code unit whose first byte is at offset [a + 2 i]. *)
Definition code_unit (data : list byte) (a : Z) (i : nat) : Z :=
  u8 (at_ data (a + 2 * Z.of_nat i)) + 256 * u8 (at_ data (a + 2 * Z.of_nat i + 1)).

(** The [n] code units from offset [a] on. *)
Definition code_units (data : list byte) (a : Z) (n : nat) : list Z :=
  map (code_unit data a) (seq 0 n).

(** A key-value pair of two scalars. *)
Definition scalar_entry (e : Value * Value) : Prop :=
  wire_scalar (fst e) = true /\ wire_scalar (snd e) = true.

(** [obj[keyStr] = val] for one pair read from the wire. *)
Definition store_entry (fmt_g : Z -> GoString) (m : gmap GoString Value) (e : Value * Value)
  : gmap GoString Value :=
  match object_key fmt_g (fst e) with
  | Ok keyStr => <[keyStr := snd e]> m
  | _ => m
  end.

(** The state in which [Deserialize] finds the root value. *)
Definition at_root (D : list byte) : Deserializer :=
  set_version (set_reader (NewDeserializer D []) (rd D (len (writeHeader [])))) 15.

(** The wire form of an object whose pairs appear in the order [kvs]. *)
Definition object_payload (fw : nat) (kvs : list (GoString * Value)) (count : Z)
  : Res (list byte) :=
  let* w := write_props (writeValue (S fw) [])
              (wire.WriteByte (writeHeader []) tagBeginJSObject) kvs in
  Ok (wire.WriteVarint32 (wire.WriteByte w tagEndJSObject) count).

(** The wire form of an object with the one pair [key: val]. *)
Definition pair_payload (fw : nat) (key val : Value) (count : Z) : Res (list byte) :=
  let* w := write_entries (writeValue (S fw) [])
              (wire.WriteByte (writeHeader []) tagBeginJSObject) [(key, val)] in
  Ok (wire.WriteVarint32 (wire.WriteByte w tagEndJSObject) count).

(** What the loop of [readSparseArray] does to the array with one pair. *)
Definition sparse_store (L : Z) (a : list Value) (e : Value * Value) : list Value :=
  if IsNumber (fst e) then
    let idx := AsNumber_int (fst e) in
    if (idx >=? 0) && (idx <? L) then <[Z.to_nat idx := snd e]> a else a
  else a.

(** The wire form of a sparse array of length [L] with the given
    index-value pairs. *)
Definition sparse_payload (fw : nat) (L : Z) (entries : list (Value * Value))
           (props len2 : Z) : Res (list byte) :=
  let* w := write_entries (writeValue (S fw) [])
              (wire.WriteVarint32 (wire.WriteByte (writeHeader []) tagBeginSparseArray) L)
              entries in
  Ok (wire.WriteVarint32
        (wire.WriteVarint32 (wire.WriteByte w tagEndSparseArray) props) len2).

(** The state in which [Deserialize] finds the root value when the caller
    passes [WithMaxObjectKeys(k)]. *)
Definition at_root_keys (D : list byte) (k : Z) : Deserializer :=
  set_version
    (set_reader (NewDeserializer D [WithMaxObjectKeys k]) (rd D (len (writeHeader [])))) 15.

(** The state in which [Deserialize] finds the root value under the options
    [opts]. *)
Definition at_root_with (D : list byte) (opts : list Option) : Deserializer :=
  set_version (set_reader (NewDeserializer D opts) (rd D (len (writeHeader [])))) 15.

(** [m] dense arrays of one element, each the element of the one before. *)
Fixpoint nested_arrays (m : nat) : list byte :=
  match m with
  | O => []
  | S m => tagBeginDenseArray :: x01 :: nested_arrays m
  end.

(** The bytes [writeArray] puts after the elements. *)
Definition array_trailer (w : list byte) (L : Z) : list byte :=
  wire.WriteVarint32 (wire.WriteVarint32 (wire.WriteByte w tagEndDenseArray) 0) L.

(** The flags of a regular expression as they come back: those of
    [gimsuy] that occur in [flags], in that order. *)
Definition canonical_flags (flags : GoString) : GoString :=
  List.filter (fun ch => existsb (Z.eqb ch) flags) (gostr "gimsuy").

(** The bit field [writeRegExp] computes. *)
Definition flag_bits (flags : GoString) : Z :=
  fold_left (fun acc c => Z.lor acc (regexp_flag_bit c)) flags 0.

(** The boxed primitives the serializer writes: the inner value has the
    type the box names. *)
Definition boxable (ptype : ValueType) (inner : Value) : bool :=
  match ptype, inner with
  | TypeDouble, Double _ => wire_scalar inner
  | TypeBool, Bool _ => true
  | TypeString, String _ => wire_scalar inner
  | TypeBigInt, BigInt _ => wire_scalar inner
  | _, _ => false
  end.

(** The value of a Go integer of any of the ten integer types, when it is in
    the range of its type. *)
Definition go_integer (g : GoValue) : option Z :=
  let ranged (lo hi n : Z) := if (lo <=? n) && (n <? hi) then Some n else None in
  match g with
  | GoInt n | GoInt64 n => ranged (- 2 ^ 63) (2 ^ 63) n
  | GoInt8 n => ranged (- 2 ^ 7) (2 ^ 7) n
  | GoInt16 n => ranged (- 2 ^ 15) (2 ^ 15) n
  | GoInt32 n => ranged (- 2 ^ 31) (2 ^ 31) n
  | GoUint n | GoUint64 n => ranged 0 (2 ^ 64) n
  | GoUint8 n => ranged 0 (2 ^ 8) n
  | GoUint16 n => ranged 0 (2 ^ 16) n
  | GoUint32 n => ranged 0 (2 ^ 32) n
  | _ => None
  end.

(** The names [writeError] has a type byte for, and the name an error comes
    back with. *)
Definition error_names : list GoString :=
  map gostr ["Error"; "EvalError"; "RangeError"; "ReferenceError"; "SyntaxError";
             "TypeError"; "URIError"]%string.

Definition decoded_error_name (name : GoString) : GoString :=
  if decide (name ∈ error_names) then name else gostr "Error".

(** The values [writeValue] writes without a recursive call and without an
    error. *)
Definition leaf_value (v : Value) : bool :=
  match v with
  | Undefined | Null | Bool _ | Int32 _ | Uint32 _ | Double _ | BigInt _ | String _
  | Date _ | Hole | ArrayBuffer _ | VRegExp _ _ => true
  | _ => false
  end.


(** A binary64 number truncated toward zero; NaN and the infinities have no
    truncation. *)
Definition truncate (f : spec_float) : option Z :=
  match f with
  | S754_zero _ => Some 0
  | S754_finite s m e =>
    let t := if e >=? 0 then Z.pos m * 2 ^ e else Z.pos m / 2 ^ (- e) in
    Some (if s then - t else t)
  | _ => None
  end.

(** The index a key of a sparse array stands for: the number itself, a
    Double truncated toward zero; a key that is not a number has none. *)
Definition key_index (key : Value) : option Z :=
  match key with
  | Int32 n | Uint32 n => Some n
  | Double bits => truncate (Float64frombits bits)
  | _ => None
  end.

(** The keys on which Go defines [int(key.AsNumber())]: every key but a
    Double that is NaN, infinite or whose truncation is no [int64]. *)
Definition index_defined (key : Value) : bool :=
  match key with
  | Double bits =>
    match truncate (Float64frombits bits) with
    | Some t => (- 2 ^ 63 <=? t) && (t <? 2 ^ 63)
    | None => false
    end
  | _ => true
  end.

(** What one pair does to the elements of a sparse array of length [L]. *)
Definition assign_pair (L : Z) (a : list Value) (e : Value * Value) : list Value :=
  match key_index (fst e) with
  | Some idx => if (0 <=? idx) && (idx <? L) then <[Z.to_nat idx := snd e]> a else a
  | None => a
  end.

(** * Properties *)

(** ** Bytes, machine integers and slices *)

Lemma u8_range (b : byte) : 0 <= u8 b < 256.
Proof.
  unfold u8. pose proof (Byte.to_N_bounded b). lia.
Qed.

Lemma to_byte_u8 (b : byte) : to_byte (u8 b) = b.
Proof.
  unfold to_byte. rewrite Z.mod_small by apply u8_range.
  unfold u8. rewrite N2Z.id, Byte.of_to_N. reflexivity.
Qed.

Lemma u8_to_byte (z : Z) : u8 (to_byte z) = z mod 256.
Proof.
  unfold to_byte, u8.
  assert (Hr : 0 <= z mod 256 < 256) by (apply Z.mod_pos_bound; lia).
  destruct (Byte.of_N (Z.to_N (z mod 256))) as [b|] eqn:E.
  - apply Byte.to_of_N in E. rewrite E. lia.
  - apply Byte.of_N_None_iff in E. lia.
Qed.

Lemma u8_to_byte_small (z : Z) : 0 <= z < 256 -> u8 (to_byte z) = z.
Proof.
  intros H. rewrite u8_to_byte. apply Z.mod_small. exact H.
Qed.

Lemma u8_inj (a b : byte) : u8 a = u8 b -> a = b.
Proof.
  intros H. rewrite <- (to_byte_u8 a), <- (to_byte_u8 b), H. reflexivity.
Qed.

Lemma int_small (z : Z) : - 2 ^ 63 <= z < 2 ^ 63 -> int z = z.
Proof.
  intros H. unfold int, int64. rewrite Z.mod_small; lia.
Qed.

Lemma int64_small (z : Z) : - 2 ^ 63 <= z < 2 ^ 63 -> int64 z = z.
Proof.
  intros H. unfold int64. rewrite Z.mod_small; lia.
Qed.

Lemma int32_small (z : Z) : - 2 ^ 31 <= z < 2 ^ 31 -> int32 z = z.
Proof.
  intros H. unfold int32. rewrite Z.mod_small; lia.
Qed.

Lemma uint32_small (z : Z) : 0 <= z < 2 ^ 32 -> uint32 z = z.
Proof.
  intros H. unfold uint32. apply Z.mod_small. exact H.
Qed.

Lemma uint64_small (z : Z) : 0 <= z < 2 ^ 64 -> uint64 z = z.
Proof.
  intros H. unfold uint64. apply Z.mod_small. exact H.
Qed.

Lemma len_nonneg {A} (l : list A) : 0 <= len l.
Proof.
  unfold len. lia.
Qed.

Lemma len_app {A} (l1 l2 : list A) : len (l1 ++ l2) = len l1 + len l2.
Proof.
  unfold len. rewrite length_app. lia.
Qed.

Lemma len_cons {A} (x : A) (l : list A) : len (x :: l) = 1 + len l.
Proof.
  unfold len. simpl. lia.
Qed.

Lemma len_map {A B} (f : A -> B) (l : list A) : len (map f l) = len l.
Proof.
  unfold len. rewrite length_map. reflexivity.
Qed.

Lemma len_rev {A} (l : list A) : len (rev l) = len l.
Proof.
  unfold len. rewrite length_rev. reflexivity.
Qed.

Lemma len_nil {A} : len (@nil A) = 0.
Proof.
  reflexivity.
Qed.

Create Rewrite HintDb len.
#[export] Hint Rewrite @len_app @len_cons @len_nil @len_map @len_rev : len.

Ltac len_norm := autorewrite with len in *.

Lemma at_app_r (pre l : list byte) (i : Z) :
  0 <= i -> at_ (pre ++ l) (len pre + i) = at_ l i.
Proof.
  intros Hi. unfold at_, len.
  replace (Z.to_nat (Z.of_nat (length pre) + i)) with (length pre + Z.to_nat i)%nat by lia.
  rewrite app_nth2_plus. reflexivity.
Qed.

Lemma at_frame (pre suf : list byte) (b : byte) :
  at_ (pre ++ b :: suf) (len pre) = b.
Proof.
  replace (len pre) with (len pre + 0) by lia.
  rewrite at_app_r by lia. reflexivity.
Qed.

Lemma slice_frame {A} (pre mid suf : list A) (hi : Z) :
  hi = len pre + len mid ->
  slice (pre ++ mid ++ suf) (len pre) hi = mid.
Proof.
  intros ->. unfold slice, len.
  rewrite Nat2Z.id, drop_app_length.
  replace (Z.to_nat (Z.of_nat (length pre) + Z.of_nat (length mid) - Z.of_nat (length pre)))
    with (length mid) by lia.
  apply take_app_length.
Qed.

(** ** Varints *)

Lemma lor_disjoint (a x s : Z) :
  0 <= s -> 0 <= a < 2 ^ s -> Z.lor a (x * 2 ^ s) = a + x * 2 ^ s.
Proof.
  intros Hs Ha. symmetry. apply Z.add_nocarry_lor.
  apply Z.bits_inj'. intros i Hi.
  rewrite Z.land_spec, Z.bits_0.
  destruct (Z.lt_ge_cases i s) as [Hlt|Hge].
  - rewrite Z.mul_pow2_bits_low by lia. apply andb_false_r.
  - destruct (Z.eq_dec a 0) as [->|Hne].
    + rewrite Z.bits_0. reflexivity.
    + rewrite (Z.bits_above_log2 a i); [reflexivity | lia |].
      apply Z.log2_lt_pow2; [lia|].
      apply Z.lt_le_trans with (2 ^ s); [lia|].
      apply Z.pow_le_mono_r; lia.
Qed.

Lemma last_byte (c : byte) :
  (u8 c <? 128) = true -> Z.land (u8 c) 127 = u8 c /\ (Z.land (u8 c) 128 =? 0) = true.
Proof.
  destruct c; intros H; try discriminate H; split; reflexivity.
Qed.

Lemma cont_byte (c : byte) :
  let b := u8 (to_byte (Z.lor (u8 c) 128)) in
  Z.land b 127 = u8 c mod 128 /\ (Z.land b 128 =? 0) = false.
Proof.
  destruct c; split; reflexivity.
Qed.

Lemma WriteVarint_loop_app (k : nat) (w : list byte) (n : Z) :
  wire.WriteVarint_loop k w n = w ++ wire.WriteVarint_loop k [] n.
Proof.
  revert w n. induction k as [|k IH]; intros w n; simpl.
  - reflexivity.
  - destruct (n >=? 128).
    + rewrite IH. rewrite (IH [_]). rewrite <- app_assoc. reflexivity.
    + reflexivity.
Qed.

Lemma ReadVarint_loop_frame (k : nat) :
  forall (fuel : nat) (n : Z) (pre suf : list byte) (result shift : Z),
    (k < fuel)%nat ->
    0 <= shift <= 63 ->
    0 <= n < 2 ^ (64 - shift) ->
    n < 2 ^ (7 * (Z.of_nat k + 1)) ->
    0 <= result < 2 ^ shift ->
    wire.ReadVarint_loop fuel
      {| wire.data := pre ++ wire.WriteVarint_loop k [] n ++ suf; wire.pos := len pre |}
      result shift
    = Ok (result + n * 2 ^ shift,
          {| wire.data := pre ++ wire.WriteVarint_loop k [] n ++ suf;
             wire.pos := len pre + len (wire.WriteVarint_loop k [] n) |}).
Proof.
  assert (Hlast : forall (fuel : nat) (n : Z) (pre suf : list byte) (result shift : Z),
    (0 < fuel)%nat -> 0 <= shift <= 63 -> 0 <= n < 2 ^ (64 - shift) -> n < 128 ->
    0 <= result < 2 ^ shift ->
    wire.ReadVarint_loop fuel
      {| wire.data := pre ++ [to_byte n] ++ suf; wire.pos := len pre |} result shift
    = Ok (result + n * 2 ^ shift,
          {| wire.data := pre ++ [to_byte n] ++ suf; wire.pos := len pre + len [to_byte n] |})).
  { intros fuel n pre suf result shift Hf Hs Hn Hn' Hr.
    destruct fuel as [|fuel]; [lia|]. simpl.
    len_norm.
    pose proof (len_nonneg pre). pose proof (len_nonneg suf).
    destruct (len pre >=? len pre + (1 + len suf)) eqn:E; [lia|].
    rewrite at_frame. rewrite u8_to_byte_small by lia.
    assert (Hb : (u8 (to_byte n) <? 128) = true) by (rewrite u8_to_byte_small; lia).
    destruct (last_byte _ Hb) as [H127 H128].
    rewrite u8_to_byte_small in H127, H128 by lia.
    rewrite H127, H128.
    assert (Hchk : (shift >=? 64) || (shift =? 63) && (n >? 1) = false).
    { destruct (shift >=? 64) eqn:E1; [lia|]. simpl.
      destruct (shift =? 63) eqn:E2; [|reflexivity]. simpl.
      assert (shift = 63) by lia. subst shift. change (2 ^ (64 - 63)) with 2 in Hn. lia. }
    rewrite Hchk.
    rewrite Z.shiftl_mul_pow2 by lia.
    assert (Hlt : n * 2 ^ shift < 2 ^ 64).
    { replace 64 with ((64 - shift) + shift) by lia.
      rewrite Z.pow_add_r by lia.
      apply Z.mul_lt_mono_pos_r; lia. }
    rewrite uint64_small by (split; [apply Z.mul_nonneg_nonneg; lia | exact Hlt]).
    rewrite lor_disjoint by lia.
    unfold wire.set_pos. simpl. len_norm. reflexivity. }
  induction k as [|k IH]; intros fuel n pre suf result shift Hf Hs Hn Hk Hr.
  - simpl wire.WriteVarint_loop.
    apply Hlast; try lia; change (2 ^ (7 * (Z.of_nat 0 + 1))) with 128 in Hk; exact Hk.
  - simpl wire.WriteVarint_loop.
    destruct (n >=? 128) eqn:Hge.
    + rewrite WriteVarint_loop_app.
      set (c := to_byte (Z.lor (u8 (to_byte n)) 128)).
      set (rest := wire.WriteVarint_loop k [] (Z.shiftr n 7)).
      destruct fuel as [|fuel]; [lia|].
      assert (Hshift : shift < 57).
      { destruct (Z.lt_ge_cases shift 57) as [?|Hge57]; [assumption|].
        assert (2 ^ (64 - shift) <= 2 ^ 7) by (apply Z.pow_le_mono_r; lia).
        change (2 ^ 7) with 128 in *. lia. }
      cbn [wire.ReadVarint_loop wire.data wire.pos].
      pose proof (len_nonneg pre).
      assert (Hlen : len (pre ++ ([c] ++ rest) ++ suf) = len pre + 1 + len rest + len suf).
      { len_norm. lia. }
      rewrite Hlen.
      pose proof (len_nonneg rest). pose proof (len_nonneg suf).
      destruct (len pre >=? len pre + 1 + len rest + len suf) eqn:E; [lia|].
      replace (pre ++ ([c] ++ rest) ++ suf) with (pre ++ c :: (rest ++ suf))
        by (simpl; reflexivity).
      rewrite at_frame.
      destruct (cont_byte (to_byte n)) as [H127 H128]. fold c in H127, H128.
      rewrite H127, H128. rewrite u8_to_byte.
      assert (Hchk : (shift >=? 64) || (shift =? 63) && (u8 c >? 1) = false).
      { destruct (shift >=? 64) eqn:E1; [lia|]. simpl.
        destruct (shift =? 63) eqn:E2; [lia|]. reflexivity. }
      rewrite Hchk.
      assert (Hmm : (n mod 256) mod 128 = n mod 128).
      { apply Z.mod_mod_divide. exists 2. reflexivity. }
      rewrite Hmm.
      rewrite Z.shiftl_mul_pow2 by lia.
      assert (Hm : 0 <= n mod 128 < 128) by (apply Z.mod_pos_bound; lia).
      assert (Hp : 0 < 2 ^ shift) by (apply Z.pow_pos_nonneg; lia).
      assert (Hlt : n mod 128 * 2 ^ shift < 2 ^ 64).
      { apply Z.lt_le_trans with (128 * 2 ^ shift).
        - apply Z.mul_lt_mono_pos_r; lia.
        - change 128 with (2 ^ 7). rewrite <- Z.pow_add_r by lia.
          apply Z.pow_le_mono_r; lia. }
      rewrite uint64_small by (split; [apply Z.mul_nonneg_nonneg; lia | exact Hlt]).
      rewrite lor_disjoint by lia.
      unfold wire.set_pos. cbn [wire.data wire.pos].
      replace (pre ++ c :: rest ++ suf) with ((pre ++ [c]) ++ rest ++ suf)
        by (rewrite <- app_assoc; reflexivity).
      replace (len pre + 1) with (len (pre ++ [c])) by (len_norm; lia).
      assert (Hdiv : Z.shiftr n 7 = n / 128) by (rewrite Z.shiftr_div_pow2 by lia; reflexivity).
      unfold rest. rewrite Hdiv.
      assert (Hq : 0 <= n / 128) by (apply Z.div_pos; lia).
      assert (Hpow7 : 2 ^ (shift + 7) = 2 ^ shift * 128).
      { rewrite Z.pow_add_r by lia. reflexivity. }
      rewrite IH; try lia.
      * f_equal. f_equal.
        -- rewrite Hpow7. pose proof (Z.div_mod n 128). nia.
        -- f_equal. len_norm. lia.
      * split; [exact Hq|].
        apply Z.div_lt_upper_bound; [lia|].
        replace (64 - (shift + 7)) with (64 - shift - 7) by lia.
        change 128 with (2 ^ 7). rewrite <- Z.pow_add_r by lia.
        replace (7 + (64 - shift - 7)) with (64 - shift) by lia. lia.
      * apply Z.div_lt_upper_bound; [lia|].
        change 128 with (2 ^ 7). rewrite <- Z.pow_add_r by lia.
        replace (7 + 7 * (Z.of_nat k + 1)) with (7 * (Z.of_nat (S k) + 1)) by lia. exact Hk.
      * split; [apply Z.add_nonneg_nonneg; [lia | apply Z.mul_nonneg_nonneg; lia]|].
        rewrite Hpow7. nia.
    + apply Hlast; try lia.
Qed.

(** A varint is read back from where it was written: the reader stands at
    the end of [pre], the writer has appended to [pre]. *)
Lemma ReadVarint_WriteVarint (pre suf : list byte) (n : Z) :
  0 <= n < 2 ^ 64 ->
  wire.ReadVarint {| wire.data := wire.WriteVarint pre n ++ suf; wire.pos := len pre |}
  = Ok (n, {| wire.data := wire.WriteVarint pre n ++ suf;
              wire.pos := len (wire.WriteVarint pre n) |}).
Proof.
  intros Hn. unfold wire.ReadVarint, wire.WriteVarint.
  rewrite WriteVarint_loop_app, <- app_assoc.
  rewrite ReadVarint_loop_frame by (simpl; lia).
  f_equal. f_equal; [lia|]. f_equal. len_norm. reflexivity.
Qed.

Lemma ReadVarint32_WriteVarint32 (pre suf : list byte) (n : Z) :
  0 <= n < 2 ^ 32 ->
  wire.ReadVarint32 {| wire.data := wire.WriteVarint32 pre n ++ suf; wire.pos := len pre |}
  = Ok (n, {| wire.data := wire.WriteVarint32 pre n ++ suf;
              wire.pos := len (wire.WriteVarint32 pre n) |}).
Proof.
  intros Hn. unfold wire.ReadVarint32, wire.WriteVarint32.
  rewrite uint64_small by lia.
  rewrite ReadVarint_WriteVarint by lia. simpl.
  unfold wire.MaxUint32.
  destruct (n >? 4294967295) eqn:E; [lia|].
  rewrite uint32_small by lia. reflexivity.
Qed.

Lemma WriteVarint_length (pre : list byte) (n : Z) :
  len pre < len (wire.WriteVarint pre n) <= len pre + 11.
Proof.
  unfold wire.WriteVarint. rewrite WriteVarint_loop_app. len_norm.
  assert (H : forall k m, 0 < len (wire.WriteVarint_loop k [] m) <= Z.of_nat k + 1).
  { induction k as [|k IH]; intros m; simpl.
    - len_norm. lia.
    - destruct (m >=? 128).
      + rewrite WriteVarint_loop_app. len_norm. specialize (IH (Z.shiftr m 7)). lia.
      + len_norm. lia. }
  specialize (H 10%nat n). lia.
Qed.

(** ** ZigZag *)

Lemma land_1 (a : Z) : Z.land a 1 = a mod 2.
Proof.
  exact (Z.land_ones a 1 ltac:(lia)).
Qed.

Lemma lxor_m1 (a : Z) : Z.lxor a (-1) = - a - 1.
Proof.
  rewrite Z.lxor_m1_r. unfold Z.lnot. lia.
Qed.

Lemma ZigZagEncode32_value (n : Z) :
  - 2 ^ 31 <= n < 2 ^ 31 ->
  wire.ZigZagEncode32 n = if n <? 0 then - 2 * n - 1 else 2 * n.
Proof.
  intros Hn. unfold wire.ZigZagEncode32.
  rewrite Z.shiftl_mul_pow2, Z.shiftr_div_pow2 by lia.
  change (2 ^ 1) with 2.
  destruct (n <? 0) eqn:E.
  - replace (n / 2 ^ 31) with (-1) by (apply Z.div_unique with (r := n + 2 ^ 31); lia).
    rewrite lxor_m1. unfold uint32, int32.
    Z.to_euclidean_division_equations. lia.
  - rewrite Z.div_small by lia. rewrite Z.lxor_0_r. unfold uint32, int32.
    Z.to_euclidean_division_equations. lia.
Qed.

Lemma ZigZagEncode32_range (n : Z) :
  - 2 ^ 31 <= n < 2 ^ 31 -> 0 <= wire.ZigZagEncode32 n < 2 ^ 32.
Proof.
  intros Hn. rewrite ZigZagEncode32_value by exact Hn.
  destruct (n <? 0) eqn:E; lia.
Qed.

Lemma ZigZag32_roundtrip (n : Z) :
  - 2 ^ 31 <= n < 2 ^ 31 -> wire.ZigZagDecode32 (wire.ZigZagEncode32 n) = n.
Proof.
  intros Hn. rewrite ZigZagEncode32_value by exact Hn.
  unfold wire.ZigZagDecode32.
  rewrite land_1, Z.shiftr_div_pow2 by lia. change (2 ^ 1) with 2.
  destruct (n <? 0) eqn:E.
  - replace ((- 2 * n - 1) mod 2) with 1
      by (apply Z.mod_unique with (q := - n - 1); lia).
    replace ((- 2 * n - 1) / 2) with (- n - 1)
      by (apply Z.div_unique with (r := 1); lia).
    rewrite (int32_small 1) by lia. change (int32 (Z.opp 1)) with (-1).
    rewrite int32_small by lia. rewrite lxor_m1. lia.
  - replace ((2 * n) mod 2) with 0
      by (apply Z.mod_unique with (q := n); lia).
    replace (2 * n / 2) with n by (apply Z.div_unique with (r := 0); lia).
    rewrite (int32_small 0) by lia. change (int32 (Z.opp 0)) with 0.
    rewrite int32_small by lia. apply Z.lxor_0_r.
Qed.

(** ** Little-endian integers *)

Lemma le_uint_le_bytes (k : nat) :
  forall z : Z, 0 <= z < 256 ^ Z.of_nat k -> wire.le_uint (wire.le_bytes k z) = z.
Proof.
  induction k as [|k IH]; intros z Hz.
  - simpl in *. lia.
  - cbn [wire.le_bytes wire.le_uint fold_right].
    fold (wire.le_uint (wire.le_bytes k (Z.shiftr z 8))).
    rewrite u8_to_byte, Z.shiftr_div_pow2 by lia. change (2 ^ 8) with 256.
    rewrite IH.
    + pose proof (Z.div_mod z 256). lia.
    + split; [apply Z.div_pos; lia|].
      apply Z.div_lt_upper_bound; [lia|].
      replace (Z.of_nat (S k)) with (1 + Z.of_nat k) in Hz by lia.
      rewrite Z.pow_add_r in Hz by lia. lia.
Qed.

Lemma le_bytes_length (k : nat) (z : Z) : length (wire.le_bytes k z) = k.
Proof.
  revert z. induction k as [|k IH]; intros z; simpl; [reflexivity|].
  rewrite IH. reflexivity.
Qed.

(** ** Big integers *)

Lemma le_uint_magnitude (fuel : nat) :
  forall n : Z, 0 <= n < 256 ^ Z.of_nat fuel -> wire.le_uint (magnitude_le fuel n) = n.
Proof.
  induction fuel as [|fuel IH]; intros n Hn.
  - simpl in *. lia.
  - cbn [magnitude_le]. destruct (n =? 0) eqn:E.
    + simpl. lia.
    + cbn [wire.le_uint fold_right]. fold (wire.le_uint (magnitude_le fuel (n / 256))).
      rewrite u8_to_byte. rewrite IH.
      * pose proof (Z.div_mod n 256). lia.
      * split; [apply Z.div_pos; lia|].
        apply Z.div_lt_upper_bound; [lia|].
        replace (Z.of_nat (S fuel)) with (1 + Z.of_nat fuel) in Hn by lia.
        rewrite Z.pow_add_r in Hn by lia. lia.
Qed.

Lemma big_SetBytes_rev (l : list byte) : big_SetBytes (rev l) = wire.le_uint l.
Proof.
  unfold big_SetBytes. induction l as [|b l IH]; [reflexivity|].
  simpl rev. rewrite fold_left_app. simpl. rewrite IH.
  cbn [wire.le_uint fold_right]. fold (wire.le_uint l). lia.
Qed.

Lemma big_Bytes_value (x : Z) : wire.le_uint (rev (big_Bytes x)) = Z.abs x.
Proof.
  unfold big_Bytes. rewrite rev_involutive.
  apply le_uint_magnitude. split; [lia|].
  destruct (Z.eq_dec (Z.abs x) 0) as [->|Hne].
  - simpl. lia.
  - pose proof (Z.log2_nonneg (Z.abs x)).
    apply Z.lt_le_trans with (2 ^ (Z.log2 (Z.abs x) + 1)).
    + apply Z.log2_spec. lia.
    + change 256 with (2 ^ 8). rewrite <- Z.pow_mul_r by lia.
      apply Z.pow_le_mono_r; lia.
Qed.

Lemma big_Bytes_nonempty (x : Z) : x <> 0 -> 0 < len (big_Bytes x).
Proof.
  intros Hx. unfold big_Bytes. len_norm. simpl.
  destruct (Z.abs x =? 0) eqn:E; [lia|]. len_norm.
  pose proof (len_nonneg (magnitude_le (Z.to_nat (Z.log2 (Z.abs x))) (Z.abs x / 256))). lia.
Qed.

(** ** Strings *)

Lemma ascii_NeedsUTF16 (s : GoString) : ascii_only s = true -> wire.NeedsUTF16 s = false.
Proof.
  unfold ascii_only, wire.NeedsUTF16.
  induction s as [|r s IH]; simpl; [reflexivity|].
  intros H. apply andb_prop in H as [Hr Hs].
  rewrite IH by exact Hs. destruct (r >? 255) eqn:E; [lia|reflexivity].
Qed.

Lemma ascii_utf8_len (s : GoString) : ascii_only s = true -> utf8_len s = len s.
Proof.
  unfold ascii_only, utf8_len.
  induction s as [|r s IH]; simpl; [reflexivity|].
  intros H. apply andb_prop in H as [Hr Hs].
  rewrite IH by exact Hs. len_norm. unfold rune_len.
  destruct (r <? 128) eqn:E; lia.
Qed.

Lemma ascii_bytes_back (s : GoString) :
  ascii_only s = true -> string_of_runes (map u8 (map to_byte s)) = s.
Proof.
  unfold ascii_only, string_of_runes.
  induction s as [|r s IH]; simpl; [reflexivity|].
  intros H. apply andb_prop in H as [Hr Hs].
  rewrite IH by exact Hs. rewrite u8_to_byte_small by lia.
  unfold is_scalar.
  destruct ((0 <=? r) && (r <? 55296)) eqn:E; [reflexivity|lia].
Qed.

Lemma UTF16Length_units (s : GoString) :
  wire.UTF16Length s = len (flat_map utf16_encode s).
Proof.
  unfold wire.UTF16Length.
  assert (H : forall acc,
    fold_left (fun count r => if r <=? 65535 then count + 1 else count + 2) s acc
    = acc + len (flat_map utf16_encode s)).
  { induction s as [|r s IH]; intros acc; simpl.
    - len_norm. lia.
    - rewrite IH. len_norm. unfold utf16_encode.
      destruct (r <=? 65535); len_norm; lia. }
  rewrite H. lia.
Qed.

Lemma utf16_units_bytes (r : Z) :
  wire.utf16_units r = flat_map (wire.le_bytes 2) (utf16_encode r).
Proof.
  unfold wire.utf16_units, utf16_encode.
  destruct (r <=? 65535); simpl; reflexivity.
Qed.

Lemma flat_map_utf16_units (s : GoString) :
  flat_map wire.utf16_units s = flat_map (wire.le_bytes 2) (flat_map utf16_encode s).
Proof.
  induction s as [|r s IH]; simpl; [reflexivity|].
  rewrite IH, utf16_units_bytes, flat_map_app. reflexivity.
Qed.

Lemma utf16_encode_range (r : Z) : Forall (fun u => 0 <= u < 65536) (utf16_encode r).
Proof.
  unfold utf16_encode, uint16.
  destruct (r <=? 65535); repeat constructor; apply Z.mod_pos_bound; lia.
Qed.

Lemma land_1023 (a : Z) : Z.land a 1023 = a mod 1024.
Proof.
  exact (Z.land_ones a 10 ltac:(lia)).
Qed.

Lemma utf16_Decode_encode (s : GoString) :
  scalars s = true -> wire.utf16_Decode (flat_map utf16_encode s) = s.
Proof.
  unfold scalars.
  induction s as [|r s IH]; simpl; [reflexivity|].
  intros H. apply andb_prop in H as [Hr Hs]. specialize (IH Hs).
  unfold is_scalar in Hr. unfold utf16_encode at 1.
  destruct (r <=? 65535) eqn:E.
  - cbn [app wire.utf16_Decode]. rewrite IH.
    unfold wire.surr1, wire.surr3, uint16.
    rewrite Z.mod_small by lia.
    destruct ((r <? 55296) || (57344 <=? r)) eqn:E2; [reflexivity|lia].
  - rewrite land_1023, Z.shiftr_div_pow2 by lia. change (2 ^ 10) with 1024.
    set (x := r - 65536).
    assert (Hx : 0 <= x < 1048576) by (unfold x; lia).
    assert (Hq : 0 <= x / 1024 < 1024).
    { split; [apply Z.div_pos; lia | apply Z.div_lt_upper_bound; lia]. }
    assert (Hm : 0 <= x mod 1024 < 1024) by (apply Z.mod_pos_bound; lia).
    unfold uint16. rewrite !Z.mod_small by lia.
    cbn [app wire.utf16_Decode]. rewrite IH.
    unfold wire.surr1, wire.surr2, wire.surr3.
    destruct ((55296 + x / 1024 <? 55296) || (57344 <=? 55296 + x / 1024)) eqn:E1; [lia|].
    destruct ((55296 + x / 1024 <? 56320) && (56320 <=? 56320 + x mod 1024)
              && (56320 + x mod 1024 <? 57344)) eqn:E2; [|lia].
    f_equal. unfold wire.utf16_DecodeRune, wire.surr1, wire.surr2, wire.surrSelf.
    replace (55296 + x / 1024 - 55296) with (x / 1024) by lia.
    replace (56320 + x mod 1024 - 56320) with (x mod 1024) by lia.
    rewrite Z.shiftl_mul_pow2 by lia. rewrite Z.lor_comm.
    rewrite lor_disjoint by (change (2 ^ 10) with 1024; lia).
    change (2 ^ 10) with 1024. pose proof (Z.div_mod x 1024). unfold x in *. lia.
Qed.

Lemma string_of_scalars (s : GoString) : scalars s = true -> string_of_runes s = s.
Proof.
  unfold scalars, string_of_runes.
  induction s as [|r s IH]; simpl; [reflexivity|].
  intros H. apply andb_prop in H as [Hr Hs]. rewrite Hr, IH by exact Hs. reflexivity.
Qed.

(** The loop that reads the code units finds the units that were written. *)
Lemma read_u16s_frame (us : list Z) :
  forall pre suf : list byte,
    Forall (fun u => 0 <= u < 65536) us ->
    wire.read_u16s (length us)
      {| wire.data := pre ++ flat_map (wire.le_bytes 2) us ++ suf; wire.pos := len pre |}
    = Ok (us, {| wire.data := pre ++ flat_map (wire.le_bytes 2) us ++ suf;
                 wire.pos := len pre + 2 * len us |}).
Proof.
  induction us as [|u us IH]; intros pre suf Hus.
  - simpl. f_equal. f_equal. f_equal. len_norm. lia.
  - inversion Hus as [|? ? Hu Hus']; subst.
    cbn [length wire.read_u16s wire.data wire.pos flat_map].
    set (rest := flat_map (wire.le_bytes 2) us).
    assert (Hl2 : len (wire.le_bytes 2 u) = 2) by reflexivity.
    pose proof (len_nonneg pre). pose proof (len_nonneg rest). pose proof (len_nonneg suf).
    assert (Hlen : len (pre ++ (wire.le_bytes 2 u ++ rest) ++ suf)
                   = len pre + 2 + len rest + len suf).
    { rewrite !len_app, Hl2. lia. }
    rewrite Hlen.
    destruct (len pre + 2 >? len pre + 2 + len rest + len suf) eqn:E; [lia|].
    replace (pre ++ (wire.le_bytes 2 u ++ rest) ++ suf)
      with (pre ++ wire.le_bytes 2 u ++ (rest ++ suf)) by (rewrite <- !app_assoc; reflexivity).
    rewrite slice_frame by (rewrite Hl2; lia).
    rewrite (le_uint_le_bytes 2) by (simpl; lia).
    unfold wire.set_pos. cbn [wire.data wire.pos].
    replace (pre ++ wire.le_bytes 2 u ++ rest ++ suf)
      with ((pre ++ wire.le_bytes 2 u) ++ rest ++ suf) by (rewrite <- !app_assoc; reflexivity).
    replace (len pre + 2) with (len (pre ++ wire.le_bytes 2 u)) by (rewrite len_app, Hl2; lia).
    unfold rest. rewrite IH by exact Hus'. simpl.
    f_equal. f_equal. f_equal. len_norm. lia.
Qed.

(** ** Reading a value back from where it was written *)

Lemma set_depth_back (d : Deserializer) (r : wire.Reader) :
  set_depth (set_reader (set_depth d (depth d + 1)) r)
    (depth (set_reader (set_depth d (depth d + 1)) r) - 1)
  = set_reader d r.
Proof.
  destruct d. unfold set_depth, set_reader. simpl. f_equal. lia.
Qed.

Lemma set_depth_back_register (d : Deserializer) (r : wire.Reader) (v : Value) :
  set_depth (register (set_reader (set_depth d (depth d + 1)) r) v)
    (depth (register (set_reader (set_depth d (depth d + 1)) r) v) - 1)
  = register (set_reader d r) v.
Proof.
  destruct d. unfold register, set_depth, set_reader, set_objects. simpl. f_equal. lia.
Qed.

(** The head of [readValue] on a tag that is not padding. *)
Lemma readValue_tag (fmt_g : Z -> GoString) (fuel : nat) (d : Deserializer)
      (w rest : list byte) (tag : byte) :
  reader d = rd ((w ++ [tag]) ++ rest) (len w) ->
  (u8 tag =? 0) = false ->
  depth d < maxDepth d ->
  readValue fmt_g (S fuel) d =
  let* (v, d') :=
    readValue_switch fmt_g (readValue fmt_g fuel) fuel tag
      (set_reader (set_depth d (depth d + 1)) (rd ((w ++ [tag]) ++ rest) (len (w ++ [tag])))) in
  Ok (v, set_depth d' (depth d' - 1)).
Proof.
  intros Hr Htag Hdepth.
  cbn [readValue]. unfold readValue_dispatch.
  change (depth (set_depth d (depth d + 1))) with (depth d + 1).
  change (maxDepth (set_depth d (depth d + 1))) with (maxDepth d).
  destruct (depth d + 1 >? maxDepth d) eqn:E; [lia|].
  change (reader (set_depth d (depth d + 1))) with (reader d).
  rewrite Hr.
  assert (Hpeek : wire.Peek (rd ((w ++ [tag]) ++ rest) (len w)) = Ok tag).
  { unfold wire.Peek. cbn [wire.data wire.pos]. len_norm.
    pose proof (len_nonneg w). pose proof (len_nonneg rest).
    destruct (len w >=? len w + (1 + 0) + len rest) eqn:E1; [lia|].
    rewrite <- app_assoc. simpl. rewrite at_frame. reflexivity. }
  assert (Hread : wire.ReadByte (rd ((w ++ [tag]) ++ rest) (len w))
                  = Ok (tag, rd ((w ++ [tag]) ++ rest) (len (w ++ [tag])))).
  { unfold wire.ReadByte. cbn [wire.data wire.pos]. len_norm.
    pose proof (len_nonneg w). pose proof (len_nonneg rest).
    destruct (len w >=? len w + (1 + 0) + len rest) eqn:E1; [lia|].
    rewrite <- app_assoc. simpl. rewrite at_frame.
    unfold wire.set_pos. cbn [wire.data wire.pos].
    replace (len w + (1 + 0)) with (len w + 1) by lia. reflexivity. }
  cbn [skipPadding].
  change (reader (set_depth d (depth d + 1))) with (reader d).
  rewrite Hr, Hpeek. cbn [wrap_err bind].
  change (u8 x00) with 0. rewrite Htag. cbn [negb bind].
  change (reader (set_depth d (depth d + 1))) with (reader d).
  rewrite Hr, Hread. cbn [wrap_err bind]. reflexivity.
Qed.

Lemma readInt32_frame (d : Deserializer) (pre suf : list byte) (n : Z) :
  - 2 ^ 31 <= n < 2 ^ 31 ->
  reader d = rd (wire.WriteZigZag32 pre n ++ suf) (len pre) ->
  readInt32 d
  = Ok (Int32 n,
        set_reader d (rd (wire.WriteZigZag32 pre n ++ suf) (len (wire.WriteZigZag32 pre n)))).
Proof.
  intros Hn Hr. unfold readInt32, wire.ReadZigZag32. rewrite Hr.
  unfold wire.WriteZigZag32.
  rewrite ReadVarint32_WriteVarint32 by (apply ZigZagEncode32_range; exact Hn).
  cbn [bind]. rewrite ZigZag32_roundtrip by exact Hn. reflexivity.
Qed.

Lemma readUint32_frame (d : Deserializer) (pre suf : list byte) (n : Z) :
  0 <= n < 2 ^ 32 ->
  reader d = rd (wire.WriteVarint32 pre n ++ suf) (len pre) ->
  readUint32 d
  = Ok (Uint32 n,
        set_reader d (rd (wire.WriteVarint32 pre n ++ suf) (len (wire.WriteVarint32 pre n)))).
Proof.
  intros Hn Hr. unfold readUint32. rewrite Hr.
  rewrite ReadVarint32_WriteVarint32 by exact Hn. reflexivity.
Qed.

Lemma ReadDouble_frame (pre suf : list byte) (bits : Z) :
  0 <= bits < 2 ^ 64 ->
  len (wire.WriteDouble pre bits ++ suf) < 2 ^ 63 ->
  wire.ReadDouble (rd (wire.WriteDouble pre bits ++ suf) (len pre))
  = Ok (bits, rd (wire.WriteDouble pre bits ++ suf) (len (wire.WriteDouble pre bits))).
Proof.
  intros Hb Hlen. unfold wire.ReadDouble, wire.WriteDouble in *.
  cbn [wire.data wire.pos].
  assert (H8 : len (wire.le_bytes 8 bits) = 8) by reflexivity.
  rewrite !len_app, H8 in Hlen. rewrite !len_app, H8.
  pose proof (len_nonneg pre). pose proof (len_nonneg suf).
  rewrite int_small by lia.
  destruct (len pre + 8 >? len pre + 8 + len suf) eqn:E; [lia|].
  rewrite <- app_assoc. rewrite slice_frame by (rewrite H8; lia).
  rewrite (le_uint_le_bytes 8) by (simpl; lia).
  reflexivity.
Qed.

Lemma readDouble_frame (d : Deserializer) (pre suf : list byte) (bits : Z) :
  0 <= bits < 2 ^ 64 ->
  len (wire.WriteDouble pre bits ++ suf) < 2 ^ 63 ->
  reader d = rd (wire.WriteDouble pre bits ++ suf) (len pre) ->
  readDouble d
  = Ok (Double bits,
        set_reader d (rd (wire.WriteDouble pre bits ++ suf) (len (wire.WriteDouble pre bits)))).
Proof.
  intros Hb Hlen Hr. unfold readDouble. rewrite Hr.
  rewrite ReadDouble_frame by assumption. reflexivity.
Qed.

Lemma ReadBytes_frame (pre mid suf : list byte) :
  len (pre ++ mid ++ suf) < 2 ^ 63 ->
  wire.ReadBytes (rd (pre ++ mid ++ suf) (len pre)) (len mid)
  = Ok (mid, rd (pre ++ mid ++ suf) (len (pre ++ mid))).
Proof.
  intros Hlen. unfold wire.ReadBytes. cbn [wire.data wire.pos].
  rewrite !len_app in *.
  pose proof (len_nonneg pre). pose proof (len_nonneg mid). pose proof (len_nonneg suf).
  rewrite int_small by lia.
  destruct (len pre + len mid >? len pre + (len mid + len suf)) eqn:E; [lia|].
  destruct (len pre + len mid <? len pre) eqn:E2; [lia|].
  rewrite slice_frame by lia. reflexivity.
Qed.

Lemma readBigInt_frame (d : Deserializer) (w suf : list byte) (n : Z) :
  len (big_Bytes n) < 2 ^ 62 ->
  len (writeBigInt w n ++ suf) < 2 ^ 63 ->
  reader d = rd (writeBigInt w n ++ suf) (len (w ++ [tagBigInt])) ->
  readBigInt d
  = Ok (BigInt n, set_reader d (rd (writeBigInt w n ++ suf) (len (writeBigInt w n)))).
Proof.
  intros HL Hlen Hr. unfold readBigInt. rewrite Hr. clear Hr.
  unfold writeBigInt, wire.WriteByte in *.
  destruct (n =? 0) eqn:E0.
  - rewrite ReadVarint_WriteVarint by lia. cbn [bind].
    change (Z.shiftr 0 1 =? 0) with true. cbn iota.
    assert (n = 0) by lia. subst n. reflexivity.
  - pose proof (big_Bytes_nonempty n ltac:(lia)) as Hpos.
    set (absBytes := big_Bytes n) in *.
    rewrite (uint64_small (len absBytes)) in * by lia.
    rewrite Z.shiftl_mul_pow2 in * by lia. change (2 ^ 1) with 2 in *.
    rewrite (uint64_small (len absBytes * 2)) in * by lia.
    set (bitfield := if n <? 0 then Z.lor (len absBytes * 2) 1 else len absBytes * 2) in *.
    assert (Hbf : bitfield = len absBytes * 2 + (if n <? 0 then 1 else 0)).
    { unfold bitfield. destruct (n <? 0); [|lia].
      rewrite Z.lor_comm. change 2 with (2 ^ 1) at 1.
      rewrite lor_disjoint by (simpl; lia). simpl. lia. }
    assert (Hbr : 0 <= bitfield < 2 ^ 64) by (rewrite Hbf; destruct (n <? 0); lia).
    rewrite <- app_assoc.
    rewrite ReadVarint_WriteVarint by exact Hbr. cbn [bind].
    rewrite land_1, Z.shiftr_div_pow2 by lia. change (2 ^ 1) with 2.
    assert (Hdiv : bitfield / 2 = len absBytes).
    { rewrite Hbf. symmetry.
      apply Z.div_unique with (r := if n <? 0 then 1 else 0); destruct (n <? 0); lia. }
    assert (Hmod : bitfield mod 2 = if n <? 0 then 1 else 0).
    { rewrite Hbf. symmetry.
      apply Z.mod_unique with (q := len absBytes); destruct (n <? 0); lia. }
    rewrite Hdiv, Hmod.
    destruct (len absBytes =? 0) eqn:EL; [lia|].
    change (reader (set_reader d ?r)) with r.
    rewrite int_small by lia.
    set (V := wire.WriteVarint (w ++ [tagBigInt]) bitfield) in *.
    replace (len absBytes) with (len (rev absBytes)) at 1 by (len_norm; reflexivity).
    rewrite <- app_assoc in Hlen.
    rewrite ReadBytes_frame by exact Hlen. cbn [bind].
    rewrite big_SetBytes_rev. unfold absBytes. rewrite big_Bytes_value.
    rewrite app_assoc.
    replace (if (if n <? 0 then 1 else 0) =? 1 then - Z.abs n else Z.abs n) with n
      by (destruct (n <? 0) eqn:En; simpl; lia).
    reflexivity.
Qed.

Lemma len_zero_nil {A} (l : list A) : len l = 0 -> l = [].
Proof.
  destruct l; [reflexivity|]. len_norm. pose proof (len_nonneg l). lia.
Qed.

Lemma readOneByteString_frame (d : Deserializer) (w suf : list byte) (s : GoString) :
  ascii_only s = true ->
  len s < 2 ^ 32 ->
  len (writeString w s ++ suf) < 2 ^ 63 ->
  reader d = rd (writeString w s ++ suf) (len (w ++ [tagOneByteString])) ->
  readOneByteString d
  = Ok (String s,
        register (set_reader d (rd (writeString w s ++ suf) (len (writeString w s))))
          (String s)).
Proof.
  intros Ha Hs Hlen Hr. unfold readOneByteString. rewrite Hr. clear Hr.
  unfold writeString in *. rewrite ascii_NeedsUTF16 in * by exact Ha.
  rewrite ascii_utf8_len in * by exact Ha.
  pose proof (len_nonneg s).
  rewrite uint32_small in * by lia.
  unfold wire.WriteOneByteString, wire.WriteByte in *.
  set (V := wire.WriteVarint32 (w ++ [tagOneByteString]) (len s)) in *.
  rewrite <- app_assoc in *.
  unfold V at 1 2. rewrite ReadVarint32_WriteVarint32 by lia. fold V. cbn [bind].
  unfold wire.ReadOneByteString. rewrite int_small by lia.
  destruct (len s <? 0) eqn:E1; [lia|].
  destruct (len s =? 0) eqn:E2.
  - assert (s = []) by (apply len_zero_nil; lia). subst s. cbn [bind map app].
    rewrite app_nil_r. reflexivity.
  - replace (len s) with (len (map to_byte s)) at 1 by (len_norm; reflexivity).
    rewrite ReadBytes_frame by exact Hlen. cbn [bind].
    rewrite ascii_bytes_back by exact Ha. reflexivity.
Qed.

Lemma NeedsUTF16_units (s : GoString) :
  wire.NeedsUTF16 s = true -> 0 < len (flat_map utf16_encode s).
Proof.
  destruct s as [|r s]; [discriminate|]. intros _. simpl. len_norm.
  pose proof (len_nonneg (flat_map utf16_encode s)).
  assert (0 < len (utf16_encode r)); [|lia].
  unfold utf16_encode. destruct (r <=? 65535); len_norm; lia.
Qed.

Lemma len_flat_le_bytes (us : list Z) : len (flat_map (wire.le_bytes 2) us) = 2 * len us.
Proof.
  induction us as [|u us IH]; [reflexivity|].
  cbn [flat_map]. rewrite len_app, IH. len_norm.
  change (len (wire.le_bytes 2 u)) with 2. lia.
Qed.

Lemma Forall_flat_utf16 (s : GoString) :
  Forall (fun u => 0 <= u < 65536) (flat_map utf16_encode s).
Proof.
  induction s as [|r s IH]; simpl; [constructor|].
  apply Forall_app. split; [apply utf16_encode_range | exact IH].
Qed.

Lemma readTwoByteString_frame (d : Deserializer) (w suf : list byte) (s : GoString) :
  scalars s = true ->
  wire.NeedsUTF16 s = true ->
  2 * wire.UTF16Length s < 2 ^ 32 ->
  len (writeString w s ++ suf) < 2 ^ 63 ->
  reader d = rd (writeString w s ++ suf) (len (w ++ [tagTwoByteString])) ->
  readTwoByteString d
  = Ok (String s,
        register (set_reader d (rd (writeString w s ++ suf) (len (writeString w s))))
          (String s)).
Proof.
  intros Hsc Hn Hu Hlen Hr. unfold readTwoByteString. rewrite Hr. clear Hr.
  unfold writeString in *. rewrite Hn in *.
  rewrite UTF16Length_units in *.
  pose proof (NeedsUTF16_units s Hn) as Hpos.
  set (us := flat_map utf16_encode s) in *.
  rewrite (int_small (len us * 2)) in * by lia.
  rewrite uint32_small in * by lia.
  unfold wire.WriteByte in *.
  set (V := wire.WriteVarint32 (w ++ [tagTwoByteString]) (len us * 2)) in *.
  unfold wire.WriteTwoByteString in *.
  set (V' := if negb (Z.rem (len V) 2 =? 0) then V ++ [x00] else V) in *.
  assert (HV' : exists pad, V' = V ++ pad /\
            wire.AlignTo (rd (V' ++ flat_map wire.utf16_units s ++ suf) (len V)) 2
            = rd (V' ++ flat_map wire.utf16_units s ++ suf) (len V')).
  { rewrite <- app_assoc in Hlen. rewrite !len_app in Hlen.
    pose proof (len_nonneg V) as HV0.
    pose proof (len_nonneg (flat_map wire.utf16_units s)). pose proof (len_nonneg suf).
    unfold wire.AlignTo. cbn [wire.data wire.pos].
    change ((2 <=? 0) || negb (Z.land 2 (2 - 1) =? 0)) with false. cbn iota.
    unfold V' in *. destruct (Z.rem (len V) 2 =? 0) eqn:Er; cbn [negb] in *.
    - exists []. rewrite app_nil_r. split; reflexivity.
    - exists [x00]. split; [reflexivity|].
      assert (Hrem : Z.rem (len V) 2 = 1).
      { pose proof (Z.rem_bound_pos (len V) 2 HV0 ltac:(lia)). lia. }
      rewrite Hrem. change (2 - 1) with 1.
      rewrite !len_app in *. change (len [x00]) with 1 in *.
      rewrite int_small by lia.
      destruct (len V + 1 <=? len V + 1 + (len (flat_map wire.utf16_units s) + len suf)) eqn:E;
        [|lia].
      reflexivity. }
  destruct HV' as (pad & HVeq & Halign).
  rewrite <- app_assoc in *.
  assert (Hrv : wire.ReadVarint32 (rd (V' ++ flat_map wire.utf16_units s ++ suf)
                                      (len (w ++ [tagTwoByteString])))
                = Ok (len us * 2, rd (V' ++ flat_map wire.utf16_units s ++ suf) (len V))).
  { rewrite HVeq, <- app_assoc. unfold V at 1 2 3.
    rewrite ReadVarint32_WriteVarint32 by lia. reflexivity. }
  rewrite Hrv. cbn [bind].
  rewrite (int_small (len us * 2)) by lia.
  replace (Z.quot (len us * 2) 2) with (len us) by (rewrite Z.quot_mul; lia).
  unfold wire.ReadTwoByteString.
  destruct (len us <? 0) eqn:E1; [lia|].
  destruct (len us =? 0) eqn:E2; [lia|].
  rewrite Halign. cbn [wire.data wire.pos].
  rewrite flat_map_utf16_units in *. fold us in Hlen |- *.
  pose proof (len_flat_le_bytes us) as Hfl.
  rewrite !len_app, Hfl in Hlen. rewrite !len_app, Hfl.
  pose proof (len_nonneg V'). pose proof (len_nonneg suf).
  rewrite (int_small (len us * 2)) by lia. rewrite int_small by lia.
  destruct (len V' + len us * 2 >? len V' + (2 * len us + len suf)) eqn:E3; [lia|].
  replace (Z.to_nat (len us)) with (length us) by (unfold len; lia).
  rewrite read_u16s_frame by apply Forall_flat_utf16. cbn [bind].
  assert (Hdec : string_of_runes (wire.utf16_Decode us) = s).
  { unfold us. rewrite utf16_Decode_encode by exact Hsc. apply string_of_scalars, Hsc. }
  rewrite Hdec. reflexivity.
Qed.

Lemma WriteVarint_prefix (pre : list byte) (n : Z) :
  exists body, wire.WriteVarint pre n = pre ++ body.
Proof.
  unfold wire.WriteVarint. rewrite WriteVarint_loop_app. eauto.
Qed.

Lemma wire_scalar_written (fw : nat) (h : Heap) (w : list byte) (v : Value) :
  wire_scalar v = true ->
  exists body, writeValue (S fw) h w v = Ok ((w ++ [scalar_tag v]) ++ body).
Proof.
  intros Hv. destruct v; try discriminate Hv; cbn [writeValue scalar_tag].
  - exists []. rewrite app_nil_r. reflexivity.
  - exists []. rewrite app_nil_r. reflexivity.
  - exists []. rewrite app_nil_r. destruct b; reflexivity.
  - unfold wire.WriteZigZag32, wire.WriteVarint32, wire.WriteByte.
    destruct (WriteVarint_prefix (w ++ [tagInt32]) (uint64 (wire.ZigZagEncode32 n))) as [b ->].
    eauto.
  - unfold wire.WriteVarint32, wire.WriteByte.
    destruct (WriteVarint_prefix (w ++ [tagUint32]) (uint64 n)) as [b ->]. eauto.
  - unfold wire.WriteDouble, wire.WriteByte. eauto.
  - unfold writeBigInt, wire.WriteByte. destruct (n =? 0).
    + destruct (WriteVarint_prefix (w ++ [tagBigInt]) 0) as [b ->]. eauto.
    + match goal with |- context [wire.WriteVarint ?p ?x] =>
        destruct (WriteVarint_prefix p x) as [b ->] end.
      rewrite <- app_assoc. eauto.
  - unfold writeString, wire.WriteByte, wire.WriteVarint32.
    destruct (wire.NeedsUTF16 s).
    + match goal with |- context [wire.WriteVarint ?p ?x] =>
        destruct (WriteVarint_prefix p x) as [b ->] end.
      unfold wire.WriteTwoByteString.
      destruct (negb (Z.rem (len ((w ++ [tagTwoByteString]) ++ b)) 2 =? 0));
        rewrite <- ?app_assoc; eexists; rewrite <- ?app_assoc; reflexivity.
    + match goal with |- context [wire.WriteVarint ?p ?x] =>
        destruct (WriteVarint_prefix p x) as [b ->] end.
      unfold wire.WriteOneByteString. rewrite <- app_assoc. eauto.
  - exists []. rewrite app_nil_r. reflexivity.
Qed.

Lemma scalar_tag_nonzero (v : Value) : wire_scalar v = true -> (u8 (scalar_tag v) =? 0) = false.
Proof.
  intros Hv. destruct v; try discriminate Hv; cbn [scalar_tag]; try reflexivity.
  - destruct b; reflexivity.
  - destruct (wire.NeedsUTF16 s); reflexivity.
Qed.

Lemma readValue_tagged (fmt_g : Z -> GoString) (fuel : nat) (d : Deserializer)
      (w W suf : list byte) (tag : byte) :
  (exists body, W = (w ++ [tag]) ++ body) ->
  reader d = rd (W ++ suf) (len w) ->
  (u8 tag =? 0) = false ->
  depth d < maxDepth d ->
  readValue fmt_g (S fuel) d =
  let* (v, d') :=
    readValue_switch fmt_g (readValue fmt_g fuel) fuel tag
      (set_reader (set_depth d (depth d + 1)) (rd (W ++ suf) (len (w ++ [tag])))) in
  Ok (v, set_depth d' (depth d' - 1)).
Proof.
  intros [body ->] Hr Htag Hd. rewrite <- app_assoc in *.
  apply readValue_tag; assumption.
Qed.

(** A scalar is read back from where it was written, and the deserializer
    is left at the end of it. *)
Lemma readValue_scalar (fmt_g : Z -> GoString) (fuel fw : nat) (h : Heap) (d : Deserializer)
      (w W suf : list byte) (v : Value) :
  wire_scalar v = true ->
  writeValue (S fw) h w v = Ok W ->
  len (W ++ suf) < 2 ^ 63 ->
  reader d = rd (W ++ suf) (len w) ->
  depth d < maxDepth d ->
  readValue fmt_g (S fuel) d = Ok (v, after_value d (rd (W ++ suf) (len W)) v).
Proof.
  intros Hv HW Hlen Hr Hd.
  destruct (wire_scalar_written fw h w v Hv) as [body Hbody].
  assert (HWb : W = (w ++ [scalar_tag v]) ++ body) by congruence.
  rewrite (readValue_tagged fmt_g fuel d w W suf (scalar_tag v));
    [| eauto | exact Hr | apply scalar_tag_nonzero; exact Hv | exact Hd].
  clear Hbody HWb body.
  set (d1 := set_depth d (depth d + 1)).
  destruct v; try discriminate Hv; cbn [writeValue] in HW; cbn [scalar_tag wire_scalar] in *;
    injection HW as <-; cbn [after_value].
  - cbn [readValue_switch bind]. unfold wire.WriteByte. f_equal. f_equal. apply set_depth_back.
  - cbn [readValue_switch bind]. unfold wire.WriteByte. f_equal. f_equal. apply set_depth_back.
  - destruct b; cbn [readValue_switch bind]; unfold wire.WriteByte;
      f_equal; f_equal; apply set_depth_back.
  - cbn [readValue_switch]. unfold wire.WriteByte in *.
    rewrite (readInt32_frame _ (w ++ [tagInt32]) suf n) by (try reflexivity; lia).
    cbn [bind]. f_equal. f_equal. apply set_depth_back.
  - cbn [readValue_switch]. unfold wire.WriteByte in *.
    rewrite (readUint32_frame _ (w ++ [tagUint32]) suf n) by (try reflexivity; lia).
    cbn [bind]. f_equal. f_equal. apply set_depth_back.
  - cbn [readValue_switch]. unfold wire.WriteByte in *.
    rewrite (readDouble_frame _ (w ++ [tagDouble]) suf bits) by (try reflexivity; lia).
    cbn [bind]. f_equal. f_equal. apply set_depth_back.
  - cbn [readValue_switch].
    rewrite (readBigInt_frame _ w suf n) by (try reflexivity; lia).
    cbn [bind]. f_equal. f_equal. apply set_depth_back.
  - apply andb_prop in Hv as [Hsc Hv]. apply orb_prop in Hv as [Hv|Hv];
      apply andb_prop in Hv as [H1 H2].
    + rewrite (ascii_NeedsUTF16 s H1). cbn [readValue_switch].
      rewrite (readOneByteString_frame _ w suf s) by (try reflexivity; try assumption; lia).
      cbn [bind]. f_equal. f_equal. apply set_depth_back_register.
    + rewrite H1. cbn [readValue_switch].
      rewrite (readTwoByteString_frame _ w suf s) by (try reflexivity; try assumption; lia).
      cbn [bind]. f_equal. f_equal. apply set_depth_back_register.
  - cbn [readValue_switch bind]. unfold wire.WriteByte. f_equal. f_equal. apply set_depth_back.
Qed.

Lemma wire_scalar_length (fw : nat) (h : Heap) (w W : list byte) (v : Value) :
  wire_scalar v = true ->
  writeValue (S fw) h w v = Ok W ->
  len W <= len w + 2 ^ 62 + 12.
Proof.
  intros Hv HW. pose proof (len_nonneg w).
  destruct v; try discriminate Hv; cbn [writeValue wire_scalar] in *; injection HW as <-;
    unfold wire.WriteByte.
  - len_norm. lia.
  - len_norm. lia.
  - len_norm. lia.
  - unfold wire.WriteZigZag32, wire.WriteVarint32.
    match goal with |- context [wire.WriteVarint ?p ?x] =>
      pose proof (WriteVarint_length p x) end.
    len_norm. lia.
  - unfold wire.WriteVarint32.
    match goal with |- context [wire.WriteVarint ?p ?x] =>
      pose proof (WriteVarint_length p x) end.
    len_norm. lia.
  - unfold wire.WriteDouble. len_norm. change (len (wire.le_bytes 8 bits)) with 8. lia.
  - unfold writeBigInt, wire.WriteByte. destruct (n =? 0).
    + match goal with |- context [wire.WriteVarint ?p ?x] =>
        pose proof (WriteVarint_length p x) end.
      len_norm. lia.
    + match goal with |- context [wire.WriteVarint ?p ?x] =>
        pose proof (WriteVarint_length p x) end.
      len_norm. lia.
  - apply andb_prop in Hv as [_ Hv]. unfold writeString, wire.WriteByte, wire.WriteVarint32.
    apply orb_prop in Hv as [Hv|Hv]; apply andb_prop in Hv as [H1 H2].
    + rewrite (ascii_NeedsUTF16 s H1).
      match goal with |- context [wire.WriteVarint ?p ?x] =>
        pose proof (WriteVarint_length p x) end.
      unfold wire.WriteOneByteString. len_norm. lia.
    + rewrite H1.
      match goal with |- context [wire.WriteVarint ?p ?x] =>
        pose proof (WriteVarint_length p x) end.
      unfold wire.WriteTwoByteString.
      rewrite flat_map_utf16_units, UTF16Length_units in *.
      match goal with |- context [if ?c then _ else _] => destruct c end;
        len_norm; rewrite len_flat_le_bytes; lia.
  - len_norm. lia.
Qed.

Lemma readHeader_frame (d : Deserializer) (body : list byte) :
  reader d = rd (writeHeader [] ++ body) 0 ->
  readHeader d
  = Ok (set_version (set_reader d (rd (writeHeader [] ++ body) (len (writeHeader [])))) 15).
Proof.
  intros Hr. unfold readHeader. rewrite Hr.
  change (writeHeader []) with (wire.WriteVarint32 [tagVersion] 15).
  assert (Hb : wire.ReadByte (rd (wire.WriteVarint32 [tagVersion] 15 ++ body) 0)
               = Ok (tagVersion, rd (wire.WriteVarint32 [tagVersion] 15 ++ body)
                                    (len [tagVersion]))).
  { unfold wire.ReadByte. cbn [wire.data wire.pos].
    change (wire.WriteVarint32 [tagVersion] 15) with [tagVersion; x0f].
    len_norm. pose proof (len_nonneg body).
    destruct (0 >=? 1 + (1 + 0) + len body) eqn:E; [lia|]. reflexivity. }
  rewrite Hb. cbn [wrap_err bind].
  change (negb (u8 tagVersion =? u8 tagVersion)) with false. cbn iota.
  change (reader (set_reader d ?r)) with r.
  rewrite ReadVarint32_WriteVarint32 by lia. cbn [wrap_err bind].
  reflexivity.
Qed.

(** ** The round trip of the scalars *)

(** The round trip of the scalars.  For every value [v] among Null,
    Undefined, Bool, Int32, Uint32, Double (every bit pattern, NaN included),
    BigInt, Hole and String (a string of Unicode scalar values that is all
    ASCII or has a character above U+00FF, and whose wire length fits 32
    bits): [Serialize v] succeeds and [Deserialize] of the bytes returns
    [v]. *)
Theorem scalar_roundtrip (fmt_g : Z -> GoString) (fw fuel : nat) (v : Value) :
  wire_scalar v = true ->
  exists bytes,
    Serialize (S fw) [] v = Ok bytes /\
    Deserialize fmt_g (S fuel) bytes [] = Ok (v, []).
Proof.
  intros Hv. unfold Serialize.
  destruct (wire_scalar_written fw [] (writeHeader []) v Hv) as [body HW].
  eexists. split; [exact HW|].
  pose proof (wire_scalar_length fw [] _ _ v Hv HW) as Hlen.
  change (len (writeHeader [])) with 2 in Hlen.
  set (W := (writeHeader [] ++ [scalar_tag v]) ++ body) in *.
  unfold Deserialize, Deserializer_Deserialize, NewDeserializer.
  cbn [fold_left maxSize Z.gtb Z.compare andb].
  rewrite (readHeader_frame _ ([scalar_tag v] ++ body))
    by (unfold W; rewrite <- app_assoc; reflexivity).
  cbn [bind].
  erewrite (readValue_scalar fmt_g fuel fw [] _ (writeHeader []) W [] v Hv HW).
  - cbn [bind]. destruct v; try discriminate Hv; reflexivity.
  - rewrite app_nil_r. lia.
  - rewrite app_nil_r. unfold W. rewrite <- app_assoc. reflexivity.
  - cbn. lia.
Qed.

Lemma scalar_roundtrip_witness :
  exists bytes,
    Serialize 1 [] (String [104; 105; 8364]) = Ok bytes /\
    Deserialize (fun _ => []) 1 bytes [] = Ok (String [104; 105; 8364], []).
Proof.
  apply (scalar_roundtrip (fun _ => []) 0 0 (String [104; 105; 8364])).
  reflexivity.
Defined.

(** A Date is written as its milliseconds since the epoch: what lies below
    the millisecond is not written, and the instant one nanosecond after the
    epoch is read back as the epoch. *)
Lemma date_roundtrip_drops_nanoseconds :
  exists bytes,
    Serialize 1 [] (Date {| unix_sec := 0; unix_nsec := 1 |}) = Ok bytes /\
    (forall fmt_g fuel,
        Deserialize fmt_g (S fuel) bytes [] = Ok (Date {| unix_sec := 0; unix_nsec := 0 |}, [])) /\
    (forall fmt_g fuel,
        Deserialize fmt_g fuel bytes [] <> Ok (Date {| unix_sec := 0; unix_nsec := 1 |}, [])).
Proof.
  eexists. split; [reflexivity|]. split.
  - intros fmt_g fuel. vm_compute. reflexivity.
  - intros fmt_g [|fuel]; vm_compute; discriminate.
Qed.

(** ** Claim C5 *)

Lemma Peek_frame (w rest : list byte) (b : byte) :
  wire.Peek (rd (w ++ b :: rest) (len w)) = Ok b.
Proof.
  unfold wire.Peek. cbn [wire.data wire.pos]. len_norm.
  pose proof (len_nonneg w). pose proof (len_nonneg rest).
  destruct (len w >=? len w + (1 + len rest)) eqn:E; [lia|].
  rewrite at_frame. reflexivity.
Qed.

Lemma ReadByte_frame (w rest : list byte) (b : byte) :
  wire.ReadByte (rd (w ++ b :: rest) (len w)) = Ok (b, rd (w ++ b :: rest) (len w + 1)).
Proof.
  unfold wire.ReadByte. cbn [wire.data wire.pos]. len_norm.
  pose proof (len_nonneg w). pose proof (len_nonneg rest).
  destruct (len w >=? len w + (1 + len rest)) eqn:E; [lia|].
  rewrite at_frame. reflexivity.
Qed.

Lemma skipPadding_S (n : nat) (d : Deserializer) :
  skipPadding (S n) d =
  let* tag := wrap_err ErrMalformedData (wire.Peek (reader d)) in
  if negb (u8 tag =? u8 tagPadding) then Ok d else skipPadding n (consume d).
Proof.
  reflexivity.
Qed.

Lemma skipPadding_zeros (k : nat) :
  forall (n : nat) (d : Deserializer) (w rest : list byte) (tag : byte),
    (k <= n)%nat ->
    reader d = rd (w ++ replicate k x00 ++ tag :: rest) (len w) ->
    (u8 tag =? 0) = false ->
    skipPadding (S n) d
    = Ok (set_reader d (rd (w ++ replicate k x00 ++ tag :: rest) (len w + Z.of_nat k))).
Proof.
  induction k as [|k IH]; intros n d w rest tag Hk Hr Htag.
  - rewrite skipPadding_S, Hr. cbn [replicate app].
    rewrite Peek_frame. cbn [wrap_err bind]. change (u8 x00) with 0. rewrite Htag. cbn [negb].
    f_equal. destruct d. unfold set_reader. cbn in *. subst. f_equal. f_equal. lia.
  - destruct n as [|n]; [lia|].
    rewrite skipPadding_S, Hr.
    change (w ++ replicate (S k) x00 ++ tag :: rest)
      with (w ++ x00 :: (replicate k x00 ++ tag :: rest)).
    rewrite Peek_frame. cbn [wrap_err bind]. change (u8 x00 =? u8 x00) with true. cbn [negb].
    unfold consume. rewrite Hr.
    change (w ++ replicate (S k) x00 ++ tag :: rest)
      with (w ++ x00 :: (replicate k x00 ++ tag :: rest)).
    rewrite ReadByte_frame.
    rewrite (IH n _ (w ++ [x00]) rest tag); [| lia | | exact Htag].
    + f_equal. unfold set_reader. cbn. rewrite <- app_assoc. cbn. f_equal. f_equal.
      len_norm. lia.
    + cbn. rewrite <- app_assoc. cbn. f_equal. len_norm. lia.
Qed.

(** C5 (as amended).  At a value position that is within the depth limit
    and holds, after any padding, one of the tags [u], [t] or [~],
    [readValue] fails with the error [ErrUnexpectedTag]: the tag is reported
    as an unknown tag. *)
Theorem reserved_tag_unexpected (fmt_g : Z -> GoString) (fuel k : nat) (d : Deserializer)
        (w rest : list byte) (tag : byte) :
  tag = tagSharedArrayBuffer \/ tag = tagArrayBufferTransfer \/ tag = tagResizableArrayBuffer ->
  reader d = rd (w ++ replicate k x00 ++ tag :: rest) (len w) ->
  depth d < maxDepth d ->
  readValue fmt_g (S fuel) d = Err ErrUnexpectedTag.
Proof.
  intros Htag Hr Hd.
  assert (Hnz : (u8 tag =? 0) = false) by (destruct Htag as [->|[->| ->]]; reflexivity).
  cbn [readValue]. unfold readValue_dispatch.
  change (depth (set_depth d (depth d + 1))) with (depth d + 1).
  change (maxDepth (set_depth d (depth d + 1))) with (maxDepth d).
  destruct (depth d + 1 >? maxDepth d) eqn:E; [lia|].
  change (reader (set_depth d (depth d + 1))) with (reader d).
  rewrite (skipPadding_zeros k _ _ w rest tag); [| | exact Hr | exact Hnz].
  - cbn [bind]. change (reader (set_reader ?x ?r)) with r.
    unfold wire.ReadByte. cbn [wire.data wire.pos].
    pose proof (len_nonneg w). pose proof (len_nonneg rest).
    assert (Hk : len (replicate k x00) = Z.of_nat k) by (unfold len; rewrite length_replicate; lia).
    rewrite !len_app, len_cons, Hk.
    destruct (len w + Z.of_nat k >=? len w + (Z.of_nat k + (1 + len rest))) eqn:E2; [lia|].
    rewrite app_assoc.
    replace (len w + Z.of_nat k) with (len (w ++ replicate k x00)) by (rewrite len_app, Hk; lia).
    rewrite at_frame. cbn [wrap_err bind].
    destruct Htag as [->|[->| ->]]; reflexivity.
  - rewrite Hr. cbn [wire.data]. rewrite !length_app, length_replicate. lia.
Qed.

Lemma reserved_tag_unexpected_witness :
  readValue (fun _ => []) 1
    {| reader := rd ([xff; x0f] ++ replicate 1 x00 ++ tagSharedArrayBuffer :: []) (len [xff; x0f]);
       version := 15; maxDepth := 1000; maxSize := 0; maxArrayLen := DefaultMaxArrayLen;
       maxObjectKeys := DefaultMaxObjectKeys; depth := 0; objects := []; heap := [] |}
  = Err ErrUnexpectedTag.
Proof.
  apply (reserved_tag_unexpected (fun _ => []) 0 1 _ [xff; x0f] [] tagSharedArrayBuffer).
  - left. reflexivity.
  - reflexivity.
  - simpl. lia.
Defined.

(** C5, as stated, fails: a payload whose root value is tagged [u], [t] or
    [~] is rejected as an unknown tag, the code has no other error for it. *)
Lemma reserved_tags_reported_unknown :
  (forall fmt_g fuel, Deserialize fmt_g (S fuel) [xff; x0f; tagSharedArrayBuffer] []
                      = Err ErrUnexpectedTag) /\
  (forall fmt_g fuel, Deserialize fmt_g (S fuel) [xff; x0f; tagArrayBufferTransfer] []
                      = Err ErrUnexpectedTag) /\
  (forall fmt_g fuel, Deserialize fmt_g (S fuel) [xff; x0f; tagResizableArrayBuffer] []
                      = Err ErrUnexpectedTag).
Proof.
  repeat split; intros fmt_g fuel; vm_compute; reflexivity.
Qed.

(** ** Claim C7 *)

Lemma has_cycle_child (h : Heap) (v : Value) :
  has_cycle h v -> exists c, In c (children h v) /\ has_cycle h c.
Proof.
  intros (c & c' & Hvc & Hin & Hback).
  inversion Hvc as [|? c1 ? Hin1 Hr1]; subst.
  - exists c'. split; [exact Hin|].
    exists c, c'. split; [exact Hback|]. split; assumption.
  - exists c1. split; [exact Hin1|].
    exists c, c'. split; [exact Hr1|]. split; assumption.
Qed.

Section SerializeLoops.

Variable wv : list byte -> Value -> Res (list byte).
Variable stuck : Value -> Prop.
Hypothesis wv_stuck : forall w v bytes, stuck v -> wv w v <> Ok bytes.

Lemma write_each_stuck (l : list Value) :
  forall w bytes, (exists c, In c l /\ stuck c) -> write_each wv w l <> Ok bytes.
Proof.
  induction l as [|v l IH]; intros w bytes (c & Hin & Hc).
  - destruct Hin.
  - cbn [write_each]. destruct (wv w v) as [w'| | |] eqn:E; cbn [bind]; try discriminate.
    destruct Hin as [->|Hin].
    + exfalso. exact (wv_stuck _ _ _ Hc E).
    + apply IH. eauto.
Qed.

Lemma write_props_stuck (l : list (GoString * Value)) :
  forall w bytes, (exists c, In c (map snd l) /\ stuck c) -> write_props wv w l <> Ok bytes.
Proof.
  induction l as [|[k v] l IH]; intros w bytes (c & Hin & Hc).
  - destruct Hin.
  - cbn [write_props]. destruct (wv (writeString w k) v) as [w'| | |] eqn:E; cbn [bind];
      try discriminate.
    destruct Hin as [Heq|Hin].
    + exfalso. cbn in Heq. subst. exact (wv_stuck _ _ _ Hc E).
    + apply IH. eauto.
Qed.

Lemma write_entries_stuck (l : list (Value * Value)) :
  forall w bytes,
    (exists c, In c (flat_map (fun e => [fst e; snd e]) l) /\ stuck c) ->
    write_entries wv w l <> Ok bytes.
Proof.
  induction l as [|[k v] l IH]; intros w bytes (c & Hin & Hc).
  - destruct Hin.
  - cbn [write_entries].
    destruct (wv w k) as [w'| | |] eqn:E; cbn [bind]; try discriminate.
    destruct (wv w' v) as [w''| | |] eqn:E'; cbn [bind]; try discriminate.
    cbn in Hin. destruct Hin as [Heq|[Heq|Hin]].
    + exfalso. subst. exact (wv_stuck _ _ _ Hc E).
    + exfalso. subst. exact (wv_stuck _ _ _ Hc E').
    + apply IH. eauto.
Qed.

End SerializeLoops.

(** On a value whose graph contains a cycle no recursion budget lets
    [writeValue] return bytes. *)
Lemma writeValue_cycle (h : Heap) (fuel : nat) :
  forall w v bytes, has_cycle h v -> writeValue fuel h w v <> Ok bytes.
Proof.
  induction fuel as [|fuel IH]; intros w v bytes Hc; [discriminate|].
  destruct (has_cycle_child h v Hc) as (c & Hin & Hcc).
  assert (Hst : forall w v bytes, has_cycle h v -> writeValue fuel h w v <> Ok bytes)
    by exact IH.
  destruct v; cbn [children] in Hin; try (destruct Hin; fail); cbn [writeValue].
  - unfold writeObject.
    destruct (write_props (writeValue fuel h) (wire.WriteByte w tagBeginJSObject)
                (map_to_list (AsObject h props))) as [w'| | |] eqn:E; cbn [bind];
      try discriminate.
    exfalso. revert E. apply (write_props_stuck _ (has_cycle h) Hst). eauto.
  - unfold writeArray.
    match goal with |- context [write_each ?f ?a ?l] =>
      destruct (write_each f a l) as [w'| | |] eqn:E end; cbn [bind]; try discriminate.
    exfalso. revert E. apply (write_each_stuck _ (has_cycle h) Hst). eauto.
  - unfold writeMap.
    match goal with |- context [write_entries ?f ?a ?l] =>
      destruct (write_entries f a l) as [w'| | |] eqn:E end; cbn [bind]; try discriminate.
    exfalso. revert E. apply (write_entries_stuck _ (has_cycle h) Hst). eauto.
  - unfold writeSet.
    match goal with |- context [write_each ?f ?a ?l] =>
      destruct (write_each f a l) as [w'| | |] eqn:E end; cbn [bind]; try discriminate.
    exfalso. revert E. apply (write_each_stuck _ (has_cycle h) Hst). eauto.
  - match type of Hin with In _ (match ?x with _ => _ end) => destruct x as [c0|] end;
      [|destruct Hin].
    destruct Hin as [->|[]]. unfold writeError.
    match goal with |- context [writeValue fuel h ?a c] =>
      destruct (writeValue fuel h a c) as [w'| | |] eqn:E end; cbn [bind]; try discriminate.
    exfalso. exact (Hst _ _ _ Hcc E).
Qed.

(** An object that is its own only property exhausts every budget. *)
Lemma writeValue_self_object (h : Heap) (l : loc) (k : GoString) :
  h !! l = Some (CMap {[k := Object l]}) ->
  forall fuel w, writeValue fuel h w (Object l) = OutOfFuel.
Proof.
  intros Hl. induction fuel as [|fuel IH]; intros w; [reflexivity|].
  cbn [writeValue]. unfold writeObject, AsObject. rewrite Hl.
  rewrite map_to_list_singleton. cbn [write_props]. rewrite IH. reflexivity.
Qed.

Lemma writeValue_leaf (fuel : nat) (h : Heap) (w : list byte) (v : Value) :
  leaf_value v = true -> exists w', writeValue (S fuel) h w v = Ok w'.
Proof.
  destruct v; intros H; try discriminate H; cbn [writeValue]; eauto.
Qed.

Lemma write_props_self (h : Heap) (l : loc) (fuel : nat) (kvs : list (GoString * Value)) :
  (forall w, writeValue fuel h w (Object l) = OutOfFuel) ->
  Forall (fun kv => snd kv = Object l \/ leaf_value (snd kv) = true) kvs ->
  Exists (fun kv => snd kv = Object l) kvs ->
  forall w, write_props (writeValue fuel h) w kvs = OutOfFuel.
Proof.
  intros IH Hall Hex. induction Hall as [|[k v] kvs Hv Hall IHl]; intros w.
  - inversion Hex.
  - cbn [write_props]. cbn [snd] in Hv. destruct Hv as [->|Hleaf].
    + rewrite IH. reflexivity.
    + destruct fuel as [|fuel]; [reflexivity|].
      destruct (writeValue_leaf fuel h (writeString w k) v Hleaf) as [w' ->].
      cbn [bind]. apply IHl.
      inversion Hex as [? ? Hhd|? ? Htl]; subst; [|exact Htl].
      cbn [snd] in Hhd. subst v. discriminate Hleaf.
Qed.

(** An object that is one of its own properties, the others being leaves,
    exhausts every budget. *)
Lemma writeValue_self_property (h : Heap) (l : loc) (m : gmap GoString Value) (k : GoString) :
  h !! l = Some (CMap m) ->
  m !! k = Some (Object l) ->
  map_Forall (fun _ v => v = Object l \/ leaf_value v = true) m ->
  forall fuel w, writeValue fuel h w (Object l) = OutOfFuel.
Proof.
  intros Hl Hk Hall. induction fuel as [|fuel IH]; intros w; [reflexivity|].
  cbn [writeValue]. unfold writeObject, AsObject. rewrite Hl.
  rewrite (write_props_self h l fuel (map_to_list m) IH); [reflexivity| |].
  - apply Forall_forall. intros [k' v'] Hin. apply elem_of_map_to_list in Hin.
    exact (Hall k' v' Hin).
  - apply Exists_exists. exists (k, Object l). split; [|reflexivity].
    apply elem_of_map_to_list. exact Hk.
Qed.

(** C7 (as amended).  The serializer has no depth guard.  On a value whose
    object graph contains a cycle [Serialize] returns no bytes whatever the
    recursion budget; on an object that is one of its own properties, the
    other property values being written without recursion or error (null,
    undefined, booleans, numbers, BigInts, strings, dates, holes, array
    buffers, regular expressions), it exhausts every budget, returning
    neither bytes nor an error: the recursion is unbounded. *)
Theorem serialize_cycle_unbounded (h : Heap) (fuel : nat) :
  (forall v bytes, has_cycle h v -> Serialize fuel h v <> Ok bytes) /\
  (forall l m k,
      h !! l = Some (CMap m) ->
      m !! k = Some (Object l) ->
      map_Forall (fun _ v => v = Object l \/ leaf_value v = true) m ->
      Serialize fuel h (Object l) = OutOfFuel).
Proof.
  split.
  - intros v bytes Hc. apply writeValue_cycle. exact Hc.
  - intros l m k Hl Hk Hall. apply (writeValue_self_property h l m k Hl Hk Hall).
Qed.

Lemma serialize_cycle_unbounded_witness :
  has_cycle [CMap {[gostr "self" := Object 0%nat; gostr "n" := Int32 1]}] (Object 0%nat) /\
  (forall bytes,
      Serialize 100 [CMap {[gostr "self" := Object 0%nat; gostr "n" := Int32 1]}] (Object 0%nat)
      <> Ok bytes) /\
  Serialize 100 [CMap {[gostr "self" := Object 0%nat; gostr "n" := Int32 1]}] (Object 0%nat)
  = OutOfFuel.
Proof.
  set (m := ({[gostr "self" := Object 0%nat; gostr "n" := Int32 1]} : gmap GoString Value)).
  assert (Hk : m !! gostr "self" = Some (Object 0%nat)) by (vm_compute; reflexivity).
  assert (Hc : has_cycle [CMap m] (Object 0%nat)).
  { exists (Object 0%nat), (Object 0%nat).
    split; [apply reaches_refl|]. split; [|apply reaches_refl].
    cbn [children]. unfold AsObject. cbn [lookup]. simpl.
    apply in_map_iff. exists (gostr "self", Object 0%nat). split; [reflexivity|].
    apply list_elem_of_In, elem_of_map_to_list. exact Hk. }
  split; [exact Hc|]. split.
  - intros bytes.
    apply (proj1 (serialize_cycle_unbounded [CMap m] 100) (Object 0%nat) bytes Hc).
  - apply (proj2 (serialize_cycle_unbounded [CMap m] 100) 0%nat m (gostr "self")).
    + reflexivity.
    + exact Hk.
    + intros k v Hkv. unfold m in Hkv.
      apply lookup_insert_Some in Hkv. destruct Hkv as [[_ <-]|[_ Hkv]]; [left; reflexivity|].
      apply lookup_singleton_Some in Hkv. destruct Hkv as [_ <-]. right. reflexivity.
Defined.

(** C7, as stated, fails: on the object [{self: itself}] no recursion
    budget makes [Serialize] return, with an error or otherwise. *)
Lemma serialize_cycle_never_fails :
  ~ (exists fuel,
        Serialize fuel [CMap {[gostr "self" := Object 0%nat]}] (Object 0%nat) <> OutOfFuel).
Proof.
  intros [fuel H]. apply H.
  apply (writeValue_self_object _ 0%nat (gostr "self")). reflexivity.
Qed.

(** ** Claim C8 *)

Lemma at_lookup (l : list byte) (i : nat) (b : byte) :
  l !! i = Some b -> at_ l (Z.of_nat i) = b.
Proof.
  intros H. unfold at_. rewrite Nat2Z.id.
  rewrite nth_lookup, H. reflexivity.
Qed.

Lemma slice2 (l : list byte) (p : Z) :
  0 <= p -> p + 2 <= len l -> slice l p (p + 2) = [at_ l p; at_ l (p + 1)].
Proof.
  intros Hp Hl. unfold slice, len in *.
  replace (Z.to_nat (p + 2 - p)) with 2%nat by lia.
  destruct (lookup_lt_is_Some_2 l (Z.to_nat p) ltac:(lia)) as [b0 H0].
  destruct (lookup_lt_is_Some_2 l (S (Z.to_nat p)) ltac:(lia)) as [b1 H1].
  rewrite (drop_S l b0 _ H0), (drop_S l b1 _ H1). cbn [take].
  replace p with (Z.of_nat (Z.to_nat p)) at 2 by lia.
  rewrite (at_lookup _ _ _ H0).
  replace (p + 1) with (Z.of_nat (S (Z.to_nat p))) by lia.
  rewrite (at_lookup _ _ _ H1). reflexivity.
Qed.

Lemma read_u16s_spec (n : nat) :
  forall r : wire.Reader,
    0 <= wire.pos r ->
    wire.pos r + 2 * Z.of_nat n <= len (wire.data r) ->
    wire.read_u16s n r
    = Ok (code_units (wire.data r) (wire.pos r) n,
          rd (wire.data r) (wire.pos r + 2 * Z.of_nat n)).
Proof.
  induction n as [|n IH]; intros r Hp Hl.
  - cbn [wire.read_u16s]. unfold code_units. cbn [seq map].
    destruct r as [D p]. cbn [wire.data wire.pos]. f_equal. f_equal. f_equal. lia.
  - cbn [wire.read_u16s].
    destruct (wire.pos r + 2 >? len (wire.data r)) eqn:E; [lia|].
    rewrite slice2 by lia.
    rewrite IH by (unfold wire.set_pos; cbn [wire.data wire.pos]; lia).
    cbn [bind]. unfold wire.set_pos. cbn [wire.data wire.pos].
    f_equal. f_equal.
    + unfold code_units. cbn [seq map]. f_equal.
      * unfold code_unit, wire.le_uint. cbn [fold_right].
        replace (wire.pos r + 2 * Z.of_nat 0) with (wire.pos r) by lia. lia.
      * rewrite <- seq_shift, map_map. apply map_ext. intros i.
        unfold code_unit. f_equal; [f_equal; f_equal; lia | f_equal; f_equal; f_equal; lia].
    + f_equal. lia.
Qed.

Lemma ReadVarint32_range (r r1 : wire.Reader) (b : Z) :
  wire.ReadVarint32 r = Ok (b, r1) -> 0 <= b < 2 ^ 32.
Proof.
  unfold wire.ReadVarint32. destruct (wire.ReadVarint r) as [[v r']| | |]; cbn [bind];
    try discriminate.
  destruct (v >? wire.MaxUint32); [discriminate|].
  intros H. injection H as <- _. unfold uint32. apply Z.mod_pos_bound. lia.
Qed.

(** C8 (as amended).  After the byte-length [b] of a two-byte string was
    read, [readTwoByteString] reads [b / 2] code units, whether [b] is even
    or odd: an odd [b] is no error, its last byte is left unread.  For
    [b >= 2] the cursor first moves to the next even offset (when that
    offset is within the input), and [2 * (b / 2)] bytes are read as
    UTF-16LE code units; the only failure is the end of the input. *)
Theorem two_byte_string_length (d : Deserializer) (b : Z) (r1 : wire.Reader) :
  wire.ReadVarint32 (reader d) = Ok (b, r1) ->
  0 <= wire.pos r1 <= len (wire.data r1) ->
  len (wire.data r1) < 2 ^ 62 ->
  let n := b / 2 in
  let p := wire.pos r1 in
  let a := if (0 <? n) && Z.odd p && (p + 1 <=? len (wire.data r1)) then p + 1 else p in
  readTwoByteString d =
  if a + 2 * n >? len (wire.data r1) then Err ErrUnexpectedEOF
  else
    let s := string_of_runes (wire.utf16_Decode (code_units (wire.data r1) a (Z.to_nat n))) in
    Ok (String s, register (set_reader d (rd (wire.data r1) (a + 2 * n))) (String s)).
Proof.
  intros Hrv Hp Hlen n p a.
  pose proof (ReadVarint32_range _ _ _ Hrv) as Hb.
  unfold readTwoByteString. rewrite Hrv. cbn [bind].
  rewrite int_small by lia.
  rewrite Z.quot_div_nonneg by lia. fold n.
  assert (Hn : 0 <= n < 2 ^ 31).
  { unfold n. split; [apply Z.div_pos; lia | apply Z.div_lt_upper_bound; lia]. }
  unfold wire.ReadTwoByteString.
  destruct (n <? 0) eqn:E1; [lia|].
  destruct (n =? 0) eqn:E2.
  - assert (n = 0) by lia.
    assert (Ha : a = p).
    { unfold a. destruct (0 <? n) eqn:E; [lia|]. reflexivity. }
    rewrite Ha. replace (p + 2 * n) with p by lia.
    destruct (p >? len (wire.data r1)) eqn:E3; [unfold p in *; lia|].
    cbn [bind]. replace (Z.to_nat n) with 0%nat by lia.
    destruct r1 as [D q]. reflexivity.
  - assert (Halign : wire.AlignTo r1 2 = rd (wire.data r1) a).
    { unfold wire.AlignTo.
      change ((2 <=? 0) || negb (Z.land 2 (2 - 1) =? 0)) with false. cbn iota.
      rewrite Z.rem_mod_nonneg by lia. rewrite Zmod_odd. fold p.
      unfold a. destruct (0 <? n) eqn:E; [|lia]. cbn [andb].
      destruct (Z.odd p) eqn:Eo; cbn [andb negb Z.eqb].
      - change (2 - 1) with 1. rewrite int_small by (unfold p; lia).
        destruct (p + 1 <=? len (wire.data r1)) eqn:E3; [reflexivity|].
        destruct r1; reflexivity.
      - destruct r1; reflexivity. }
    rewrite Halign. cbn [wire.data wire.pos].
    assert (Ha : p <= a <= p + 1).
    { unfold a. destruct ((0 <? n) && Z.odd p && (p + 1 <=? len (wire.data r1))); lia. }
    rewrite (int_small (n * 2)) by lia. rewrite int_small by (unfold p in *; lia).
    replace (a + n * 2) with (a + 2 * n) by lia.
    destruct (a + 2 * n >? len (wire.data r1)) eqn:E3; [reflexivity|].
    rewrite read_u16s_spec by (cbn [wire.data wire.pos]; unfold p in *; lia).
    cbn [bind wire.data wire.pos].
    replace (2 * Z.of_nat (Z.to_nat n)) with (2 * n) by lia. reflexivity.
Qed.

Lemma two_byte_string_length_witness :
  readTwoByteString
    {| reader := rd [xff; x0f; tagTwoByteString; x03; x61; x00; x62] 3;
       version := 15; maxDepth := 1000; maxSize := 0; maxArrayLen := DefaultMaxArrayLen;
       maxObjectKeys := DefaultMaxObjectKeys; depth := 1; objects := []; heap := [] |}
  = Ok (String [97],
        {| reader := rd [xff; x0f; tagTwoByteString; x03; x61; x00; x62] 6;
           version := 15; maxDepth := 1000; maxSize := 0; maxArrayLen := DefaultMaxArrayLen;
           maxObjectKeys := DefaultMaxObjectKeys; depth := 1; objects := [String [97]];
           heap := [] |}).
Proof.
  apply (two_byte_string_length
           {| reader := rd [xff; x0f; tagTwoByteString; x03; x61; x00; x62] 3;
              version := 15; maxDepth := 1000; maxSize := 0; maxArrayLen := DefaultMaxArrayLen;
              maxObjectKeys := DefaultMaxObjectKeys; depth := 1; objects := []; heap := [] |}
           3 (rd [xff; x0f; tagTwoByteString; x03; x61; x00; x62] 4)).
  - reflexivity.
  - simpl. unfold len. simpl. lia.
  - simpl. unfold len. simpl. lia.
Defined.

(** C8, as stated, fails: a two-byte string with the odd byte-length 3 is
    decoded, to the string of its first code unit. *)
Lemma odd_two_byte_length_accepted :
  Deserialize (fun _ => []) 1 [xff; x0f; tagTwoByteString; x03; x61; x00; x62] []
  = Ok (String [97], []) /\
  (forall fmt_g fuel,
      Deserialize fmt_g (S fuel) [xff; x0f; tagTwoByteString; x03; x61; x00; x62] []
      = Ok (String [97], [])).
Proof.
  split; [reflexivity|]. intros fmt_g fuel. vm_compute. reflexivity.
Qed.

(** ** Reading a sequence of key-value pairs of scalars *)

Lemma after_value_heap (d : Deserializer) (r : wire.Reader) (v : Value) :
  heap (after_value d r v) = heap d.
Proof.
  destruct v; reflexivity.
Qed.

Lemma after_value_reader (d : Deserializer) (r : wire.Reader) (v : Value) :
  reader (after_value d r v) = r.
Proof.
  destruct v; reflexivity.
Qed.

Lemma after_value_depth (d : Deserializer) (r : wire.Reader) (v : Value) :
  depth (after_value d r v) = depth d /\ maxDepth (after_value d r v) = maxDepth d.
Proof.
  destruct v; split; reflexivity.
Qed.

Lemma scalar_prefix (fw : nat) (h : Heap) (w W : list byte) (v : Value) :
  wire_scalar v = true -> writeValue (S fw) h w v = Ok W ->
  exists body, W = w ++ scalar_tag v :: body.
Proof.
  intros Hv HW. destruct (wire_scalar_written fw h w v Hv) as [body Hb].
  exists body. rewrite HW in Hb. injection Hb as ->. rewrite <- app_assoc. reflexivity.
Qed.

Lemma write_entries_prefix (fw : nat) (h : Heap) (l : list (Value * Value)) :
  forall w W,
    Forall scalar_entry l ->
    write_entries (writeValue (S fw) h) w l = Ok W ->
    exists body, W = w ++ body.
Proof.
  induction l as [|[k v] l IH]; intros w W Hl HW.
  - injection HW as <-. exists []. rewrite app_nil_r. reflexivity.
  - inversion Hl as [|? ? [Hk Hv] Hl']; subst. cbn [fst snd] in *.
    cbn [write_entries] in HW.
    destruct (writeValue (S fw) h w k) as [w1| | |] eqn:E1; try discriminate HW.
    cbn [bind] in HW.
    destruct (writeValue (S fw) h w1 v) as [w2| | |] eqn:E2; try discriminate HW.
    cbn [bind] in HW.
    destruct (scalar_prefix _ _ _ _ _ Hk E1) as [b1 ->].
    destruct (scalar_prefix _ _ _ _ _ Hv E2) as [b2 ->].
    destruct (IH _ _ Hl' HW) as [b3 ->].
    eexists. rewrite <- !app_assoc. reflexivity.
Qed.

(** ** Scalars are always written *)

Lemma write_each_scalars (fw : nat) (h : Heap) (l : list Value) :
  Forall (fun v => wire_scalar v = true) l ->
  forall w, exists W, write_each (writeValue (S fw) h) w l = Ok W.
Proof.
  induction 1 as [|v l Hv Hl IH]; intros w.
  - exists w. reflexivity.
  - destruct (wire_scalar_written fw h w v Hv) as [body HW].
    destruct (IH ((w ++ [scalar_tag v]) ++ body)) as [W HWl].
    exists W. cbn [write_each]. rewrite HW. cbn [bind]. exact HWl.
Qed.

Lemma write_entries_scalars (fw : nat) (h : Heap) (l : list (Value * Value)) :
  Forall scalar_entry l ->
  forall w, exists W, write_entries (writeValue (S fw) h) w l = Ok W.
Proof.
  induction 1 as [|[k v] l [Hk Hv] Hl IH]; intros w.
  - exists w. reflexivity.
  - cbn [fst snd] in *.
    destruct (wire_scalar_written fw h w k Hk) as [b1 HW1].
    destruct (wire_scalar_written fw h ((w ++ [scalar_tag k]) ++ b1) v Hv) as [b2 HW2].
    destruct (IH ((((w ++ [scalar_tag k]) ++ b1) ++ [scalar_tag v]) ++ b2)) as [W HWl].
    exists W. cbn [write_entries]. rewrite HW1. cbn [bind]. rewrite HW2. cbn [bind].
    exact HWl.
Qed.

Lemma write_props_scalars (fw : nat) (h : Heap) (kvs : list (GoString * Value)) :
  Forall (fun kv => wire_scalar (snd kv) = true) kvs ->
  forall w, exists W, write_props (writeValue (S fw) h) w kvs = Ok W.
Proof.
  induction 1 as [|[k v] l Hv Hl IH]; intros w.
  - exists w. reflexivity.
  - cbn [snd] in Hv.
    destruct (wire_scalar_written fw h (writeString w k) v Hv) as [b HW].
    destruct (IH ((writeString w k ++ [scalar_tag v]) ++ b)) as [W HWl].
    exists W. cbn [write_props]. rewrite HW. cbn [bind]. exact HWl.
Qed.

Lemma len_prefix_bound {A} (w body : list A) (n : Z) : len (w ++ body) < n -> len w < n.
Proof.
  len_norm. pose proof (len_nonneg body). lia.
Qed.

(** One key and one value, read from where they were written. *)
Lemma read_pair (fmt_g : Z -> GoString) (fuel fw : nat) (h : Heap) (d : Deserializer)
      (w w1 w2 tail : list byte) (k v : Value) :
  wire_scalar k = true -> wire_scalar v = true ->
  writeValue (S fw) h w k = Ok w1 ->
  writeValue (S fw) h w1 v = Ok w2 ->
  reader d = rd (w2 ++ tail) (len w) ->
  len (w2 ++ tail) < 2 ^ 63 ->
  depth d < maxDepth d ->
  wire.Peek (reader d) = Ok (scalar_tag k) /\
  readValue fmt_g (S fuel) d = Ok (k, after_value d (rd (w2 ++ tail) (len w1)) k) /\
  readValue fmt_g (S fuel) (after_value d (rd (w2 ++ tail) (len w1)) k)
  = Ok (v, after_value (after_value d (rd (w2 ++ tail) (len w1)) k)
             (rd (w2 ++ tail) (len w2)) v).
Proof.
  intros Hk Hv E1 E2 Hr Hlen Hd.
  destruct (scalar_prefix _ _ _ _ _ Hk E1) as [b1 Hw1].
  destruct (scalar_prefix _ _ _ _ _ Hv E2) as [b2 Hw2].
  split; [|split].
  - rewrite Hr, Hw2, Hw1. rewrite <- !app_assoc. cbn [app]. apply Peek_frame.
  - assert (Heq : w2 ++ tail = w1 ++ (scalar_tag v :: b2) ++ tail)
      by (rewrite Hw2, <- app_assoc; reflexivity).
    rewrite Heq in Hr, Hlen |- *.
    apply (readValue_scalar fmt_g fuel fw h d w w1 _ k Hk E1 Hlen Hr Hd).
  - destruct (after_value_depth d (rd (w2 ++ tail) (len w1)) k) as [Hd1 Hd2].
    apply (readValue_scalar fmt_g fuel fw h _ w1 w2 tail v Hv E2 Hlen).
    + apply after_value_reader.
    + lia.
Qed.

Lemma scalar_tag_not_end (v : Value) :
  wire_scalar v = true ->
  (u8 (scalar_tag v) =? u8 tagEndJSObject) = false /\
  (u8 (scalar_tag v) =? u8 tagEndSparseArray) = false /\
  (u8 (scalar_tag v) =? u8 tagEndDenseArray) = false.
Proof.
  intros Hv. destruct v; try discriminate Hv; cbn [scalar_tag];
    try (repeat split; reflexivity).
  - destruct b; repeat split; reflexivity.
  - destruct (wire.NeedsUTF16 s); repeat split; reflexivity.
Qed.

(** ** Objects: claims C6 and C9 *)

Lemma readObject_loop_S (fmt_g : Z -> GoString) (rv : Deserializer -> Res (Value * Deserializer))
      (n : nat) (obj : loc) (d : Deserializer) :
  readObject_loop fmt_g rv (S n) obj d =
  let* tag := wire.Peek (reader d) in
  if u8 tag =? u8 tagEndJSObject then
    let d := consume d in
    let* (_, r) := wire.ReadVarint32 (reader d) in
    Ok (set_reader d r)
  else
    let* (key, d) := rv d in
    let* keyStr := object_key fmt_g key in
    let* (val, d) := rv d in
    readObject_loop fmt_g rv n obj (set_heap d (map_store (heap d) obj keyStr val)).
Proof.
  reflexivity.
Qed.

Lemma readObject_loop_entries (fmt_g : Z -> GoString) (fuel fw : nat) (h : Heap)
      (l : list (Value * Value)) :
  forall (n : nat) (d : Deserializer) (w Wf suf : list byte) (obj : loc)
         (m : gmap GoString Value) (count : Z),
    Forall scalar_entry l ->
    Forall (fun e => exists keyStr, object_key fmt_g (fst e) = Ok keyStr) l ->
    write_entries (writeValue (S fw) h) w l = Ok Wf ->
    0 <= count < 2 ^ 32 ->
    reader d = rd (wire.WriteVarint32 (Wf ++ [tagEndJSObject]) count ++ suf) (len w) ->
    len (wire.WriteVarint32 (Wf ++ [tagEndJSObject]) count ++ suf) < 2 ^ 63 ->
    depth d < maxDepth d ->
    heap d !! obj = Some (CMap m) ->
    (length l < n)%nat ->
    exists d',
      readObject_loop fmt_g (readValue fmt_g (S fuel)) n obj d = Ok d' /\
      heap d' = <[obj := CMap (fold_left (store_entry fmt_g) l m)]> (heap d).
Proof.
  induction l as [|[k v] l IH];
    intros n d w Wf suf obj m count Hsc Hkeys HW Hcount Hr Hlen Hd Hobj Hn.
  - injection HW as <-. destruct n as [|n]; [simpl in Hn; lia|].
    destruct (WriteVarint_prefix (w ++ [tagEndJSObject]) (uint64 count)) as [body Hbody].
    set (D := wire.WriteVarint32 (w ++ [tagEndJSObject]) count ++ suf) in *.
    assert (HD : D = w ++ tagEndJSObject :: (body ++ suf)).
    { unfold D, wire.WriteVarint32. rewrite Hbody, <- !app_assoc. reflexivity. }
    assert (Hpeek : wire.Peek (rd D (len w)) = Ok tagEndJSObject)
      by (rewrite HD; apply Peek_frame).
    assert (Hrb : wire.ReadByte (rd D (len w))
                  = Ok (tagEndJSObject, rd D (len (w ++ [tagEndJSObject])))).
    { rewrite HD, ReadByte_frame. do 3 f_equal. len_norm. lia. }
    eexists. split.
    + rewrite readObject_loop_S, Hr, Hpeek. cbn [bind].
      change (u8 tagEndJSObject =? u8 tagEndJSObject) with true. cbn iota.
      unfold consume. rewrite Hr, Hrb.
      change (reader (set_reader d ?r)) with r. unfold D.
      rewrite ReadVarint32_WriteVarint32 by exact Hcount. cbn [bind]. reflexivity.
    + cbn [fold_left heap set_reader]. symmetry. apply list_insert_id. exact Hobj.
  - inversion Hsc as [|? ? [Hk Hv] Hsc']; subst.
    inversion Hkeys as [|? ? [keyStr Hkey] Hkeys']; subst. cbn [fst snd] in *.
    cbn [write_entries] in HW.
    destruct (writeValue (S fw) h w k) as [w1| | |] eqn:E1; try discriminate HW.
    cbn [bind] in HW.
    destruct (writeValue (S fw) h w1 v) as [w2| | |] eqn:E2; try discriminate HW.
    cbn [bind] in HW.
    destruct (write_entries_prefix fw h l w2 Wf Hsc' HW) as [b3 HWf].
    destruct (WriteVarint_prefix (Wf ++ [tagEndJSObject]) (uint64 count)) as [body Hbody].
    set (D := wire.WriteVarint32 (Wf ++ [tagEndJSObject]) count ++ suf) in *.
    assert (HD : D = w2 ++ (b3 ++ [tagEndJSObject] ++ body ++ suf)).
    { unfold D, wire.WriteVarint32. rewrite Hbody, HWf, <- !app_assoc. reflexivity. }
    destruct n as [|n]; [simpl in Hn; lia|].
    rewrite readObject_loop_S.
    rewrite HD in Hr, Hlen.
    destruct (read_pair fmt_g fuel fw h d w w1 w2 _ k v Hk Hv E1 E2 Hr Hlen Hd)
      as (Hpeek & Hrk & Hrv).
    rewrite Hpeek. cbn [bind].
    destruct (scalar_tag_not_end k Hk) as (Hne & _). rewrite Hne.
    rewrite Hrk. cbn [bind]. rewrite Hkey. cbn [bind]. rewrite Hrv. cbn [bind].
    rewrite <- HD in *.
    set (d2 := after_value (after_value d (rd D (len w1)) k) (rd D (len w2)) v).
    assert (Hh2 : heap d2 = heap d) by (unfold d2; rewrite !after_value_heap; reflexivity).
    assert (Hstore : map_store (heap d2) obj keyStr v
                     = <[obj := CMap (<[keyStr := v]> m)]> (heap d)).
    { unfold map_store. rewrite Hh2, Hobj. reflexivity. }
    rewrite Hstore.
    pose proof (lookup_lt_Some _ _ _ Hobj) as Hlt.
    destruct (IH n (set_heap d2 (<[obj := CMap (<[keyStr := v]> m)]> (heap d)))
                w2 Wf suf obj (<[keyStr := v]> m) count) as (d' & Hloop & Hheap);
      try assumption.
    + unfold d2. cbn [reader set_heap]. apply after_value_reader.
    + unfold d2. cbn [depth maxDepth set_heap].
      destruct (after_value_depth (after_value d (rd D (len w1)) k) (rd D (len w2)) v)
        as [-> ->].
      destruct (after_value_depth d (rd D (len w1)) k) as [-> ->]. exact Hd.
    + cbn [heap set_heap]. apply list_lookup_insert_eq. exact Hlt.
    + simpl in Hn. lia.
    + exists d'. split; [exact Hloop|].
      rewrite Hheap. cbn [heap set_heap]. rewrite list_insert_insert_eq.
      cbn [fold_left]. unfold store_entry at 3. cbn [fst snd]. rewrite Hkey. reflexivity.
Qed.

Lemma Deserialize_root (fmt_g : Z -> GoString) (fuel : nat) (body : list byte) :
  Deserialize fmt_g fuel (writeHeader [] ++ body) [] =
  let* (v, d) := readValue fmt_g fuel (at_root (writeHeader [] ++ body)) in Ok (v, heap d).
Proof.
  unfold Deserialize, Deserializer_Deserialize, NewDeserializer.
  cbn [fold_left maxSize Z.gtb Z.compare andb].
  rewrite (readHeader_frame _ body) by reflexivity.
  reflexivity.
Qed.

Lemma readObject_entries (fmt_g : Z -> GoString) (fuel fw extra : nat)
      (l : list (Value * Value)) (d : Deserializer) (w W suf : list byte) (count : Z) :
  Forall scalar_entry l ->
  Forall (fun e => exists keyStr, object_key fmt_g (fst e) = Ok keyStr) l ->
  write_entries (writeValue (S fw) []) (w ++ [tagBeginJSObject]) l = Ok W ->
  0 <= count < 2 ^ 32 ->
  reader d = rd (wire.WriteVarint32 (W ++ [tagEndJSObject]) count ++ suf) (len w) ->
  len (wire.WriteVarint32 (W ++ [tagEndJSObject]) count ++ suf) < 2 ^ 63 ->
  depth d + 1 < maxDepth d ->
  exists d',
    readValue fmt_g (S (S (length l + extra))) d = Ok (Object (length (heap d)), d') /\
    heap d' = heap d ++ [CMap (fold_left (store_entry fmt_g) l ∅)].
Proof.
  intros Hsc Hkeys HW Hcount Hr Hlen Hd.
  destruct (write_entries_prefix fw [] l _ W Hsc HW) as [b HWb].
  destruct (WriteVarint_prefix (W ++ [tagEndJSObject]) (uint64 count)) as [body Hbody].
  set (D := wire.WriteVarint32 (W ++ [tagEndJSObject]) count) in *.
  rewrite (readValue_tagged fmt_g _ d w D suf tagBeginJSObject);
    [| | exact Hr | reflexivity | lia].
  2:{ unfold D, wire.WriteVarint32. rewrite Hbody, HWb.
      eexists. rewrite <- !app_assoc. reflexivity. }
  cbn [readValue_switch]. unfold readObject, alloc.
  set (d1 := set_reader (set_depth d (depth d + 1)) (rd (D ++ suf) (len (w ++ [tagBeginJSObject])))).
  set (obj := length (heap d1)).
  set (d2 := register (set_heap d1 (heap d1 ++ [CMap ∅])) (Object obj)).
  destruct (readObject_loop_entries fmt_g (length l + extra) fw [] l (S (length l + extra))
              d2 (w ++ [tagBeginJSObject]) W suf obj ∅ count)
    as (d' & Hloop & Hheap); try assumption.
  - reflexivity.
  - cbn [heap d2 register set_objects set_heap]. unfold obj.
    rewrite lookup_app_r by lia. rewrite Nat.sub_diag. reflexivity.
  - lia.
  - fold D in Hloop. rewrite Hloop. cbn [bind].
    eexists. split; [reflexivity|].
    cbn [heap set_depth update_entry set_objects]. rewrite Hheap.
    cbn [heap d2 register set_objects set_heap]. unfold obj.
    replace (length (heap d1)) with (length (heap d) + 0)%nat by (cbn; lia).
    rewrite insert_app_r. reflexivity.
Qed.

Lemma fold_left_insert_list_to_map (kvs : list (GoString * Value)) :
  fold_left (fun (m : gmap GoString Value) kv => <[fst kv := snd kv]> m) kvs ∅
  = list_to_map (rev kvs).
Proof.
  rewrite <- fold_left_rev_right.
  change (fold_right (fun (y : GoString * Value) (x : gmap GoString Value) => <[y.1:=y.2]> x)
            ∅ (rev kvs))
    with (foldr (fun p : GoString * Value => <[p.1:=p.2]>) (∅ : gmap GoString Value) (rev kvs)).
  rewrite foldr_insert_union. apply map_union_empty.
Qed.

Lemma write_props_entries (fw : nat) (h : Heap) (kvs : list (GoString * Value)) :
  forall w,
    write_props (writeValue (S fw) h) w kvs
    = write_entries (writeValue (S fw) h) w (map (fun kv => (String (fst kv), snd kv)) kvs).
Proof.
  induction kvs as [|[k v] kvs IH]; intros w; [reflexivity|].
  cbn [write_props write_entries map fst snd].
  change (writeValue (S fw) h w (String k)) with (Ok (writeString w k)). cbn [bind].
  destruct (writeValue (S fw) h (writeString w k) v); cbn [bind]; try reflexivity.
  apply IH.
Qed.

Lemma fold_store_strings (fmt_g : Z -> GoString) (kvs : list (GoString * Value)) :
  forall m,
    fold_left (store_entry fmt_g) (map (fun kv => (String (fst kv), snd kv)) kvs) m
    = fold_left (fun (m : gmap GoString Value) kv => <[fst kv := snd kv]> m) kvs m.
Proof.
  induction kvs as [|[k v] kvs IH]; intros m; [reflexivity|].
  cbn [map fold_left fst snd]. rewrite IH. reflexivity.
Qed.

Lemma object_payload_decodes (fmt_g : Z -> GoString) (fw extra : nat)
      (kvs : list (GoString * Value)) (count : Z) (payload : list byte) (d : Deserializer) :
  Forall (fun kv => wire_scalar (String (fst kv)) = true /\ wire_scalar (snd kv) = true) kvs ->
  0 <= count < 2 ^ 32 ->
  object_payload fw kvs count = Ok payload ->
  len payload < 2 ^ 63 ->
  reader d = rd payload (len (writeHeader [])) ->
  depth d + 1 < maxDepth d ->
  (exists body, payload = writeHeader [] ++ body) /\
  exists d',
    readValue fmt_g (S (S (length kvs + extra))) d = Ok (Object (length (heap d)), d') /\
    heap d' = heap d ++ [CMap (list_to_map (rev kvs))].
Proof.
  intros Hkvs Hcount Hp Hlen Hr Hd. unfold object_payload in Hp.
  rewrite write_props_entries in Hp.
  set (l := map (fun kv => (String (fst kv), snd kv)) kvs) in *.
  destruct (write_entries _ _ l) as [W| | |] eqn:HW; try discriminate Hp.
  cbn [bind] in Hp. injection Hp as <-. unfold wire.WriteByte in *.
  assert (Hsc : Forall scalar_entry l).
  { unfold l. clear -Hkvs. induction Hkvs as [|[k v] kvs H _ IH]; constructor; assumption. }
  assert (Hkeys : Forall (fun e => exists keyStr, object_key fmt_g (fst e) = Ok keyStr) l).
  { unfold l. clear. induction kvs as [|[k v] kvs IH]; constructor; [cbn; eauto | exact IH]. }
  destruct (write_entries_prefix fw [] l _ W Hsc HW) as [b HWb].
  destruct (WriteVarint_prefix (W ++ [tagEndJSObject]) (uint64 count)) as [body Hbody].
  set (D := wire.WriteVarint32 (W ++ [tagEndJSObject]) count) in *.
  split.
  { unfold D, wire.WriteVarint32. rewrite Hbody, HWb.
    eexists. rewrite <- !app_assoc. reflexivity. }
  destruct (readObject_entries fmt_g 0 fw extra l d (writeHeader []) W [] count)
    as (d' & Hrv & Hheap); try assumption.
  - rewrite app_nil_r. exact Hr.
  - rewrite app_nil_r. exact Hlen.
  - exists d'. unfold l in Hrv. rewrite length_map in Hrv. split; [exact Hrv|].
    rewrite Hheap. unfold l. rewrite fold_store_strings, fold_left_insert_list_to_map.
    reflexivity.
Qed.

(** C6 (as amended).  The decoded object is a Go map, which has no order:
    decoding the pairs [k1: v1, ..., kn: vn] (string keys, scalar values)
    yields the finite map that binds each key to the value of its last
    occurrence on the wire, and nothing of the order of the pairs. *)
Theorem object_is_unordered_map (fmt_g : Z -> GoString) (fw extra : nat)
        (kvs : list (GoString * Value)) (count : Z) (payload : list byte) :
  Forall (fun kv => wire_scalar (String (fst kv)) = true /\ wire_scalar (snd kv) = true) kvs ->
  0 <= count < 2 ^ 32 ->
  object_payload fw kvs count = Ok payload ->
  len payload < 2 ^ 63 ->
  Deserialize fmt_g (S (S (length kvs + extra))) payload []
  = Ok (Object 0, [CMap (list_to_map (rev kvs))]).
Proof.
  intros Hkvs Hcount Hp Hlen.
  destruct (object_payload_decodes fmt_g fw extra kvs count payload (at_root payload)
              Hkvs Hcount Hp Hlen) as ([body Hbody] & d' & Hrv & Hheap).
  - reflexivity.
  - cbn. lia.
  - rewrite Hbody at 1. rewrite Deserialize_root, <- Hbody, Hrv. cbn [bind].
    rewrite Hheap. reflexivity.
Qed.

Lemma object_is_unordered_map_witness :
  Deserialize (fun _ => []) 5
    [xff; x0f; x6f; x22; x01; x62; x49; x04; x22; x01; x61; x49; x02;
     x22; x01; x62; x49; x06; x7b; x03] []
  = Ok (Object 0,
        [CMap (list_to_map (rev [(gostr "b", Int32 2); (gostr "a", Int32 1);
                                 (gostr "b", Int32 3)]))]).
Proof.
  apply (object_is_unordered_map (fun _ => []) 0 0
           [(gostr "b", Int32 2); (gostr "a", Int32 1); (gostr "b", Int32 3)] 3).
  - repeat constructor.
  - lia.
  - reflexivity.
  - unfold len. simpl. lia.
Defined.

(** C6, as stated, fails: the pairs [a: 1, b: 2] and [b: 2, a: 1] decode to
    the same object, so no way of listing the keys of the decoded object
    gives the wire order of both payloads. *)
Lemma object_key_order_not_kept :
  (forall fmt_g fuel,
      Deserialize fmt_g (4 + fuel)
        [xff; x0f; x6f; x22; x01; x61; x49; x02; x22; x01; x62; x49; x04; x7b; x02] []
      = Ok (Object 0, [CMap {[gostr "a" := Int32 1; gostr "b" := Int32 2]}])) /\
  (forall fmt_g fuel,
      Deserialize fmt_g (4 + fuel)
        [xff; x0f; x6f; x22; x01; x62; x49; x04; x22; x01; x61; x49; x02; x7b; x02] []
      = Ok (Object 0, [CMap {[gostr "a" := Int32 1; gostr "b" := Int32 2]}])).
Proof.
  split; intros fmt_g fuel; vm_compute; reflexivity.
Qed.

Lemma object_key_String_or_number (fmt_g : Z -> GoString) (key : Value) :
  (exists keyStr, object_key fmt_g key = Ok keyStr) \/ object_key fmt_g key = Err ErrMalformedData.
Proof.
  destruct key; cbn [object_key]; eauto.
Qed.

(** [%d]: the digits are those of the magnitude in base ten, after a minus
    sign for a negative number. *)
Lemma sprintf_d_decimal (n : Z) :
  exists u, Z.of_uint u = Z.abs n /\
            sprintf_d n = (if n <? 0 then [45] else []) ++ uint_digits u.
Proof.
  destruct n as [|p|p].
  - exists (Decimal.D0 Decimal.Nil). split; reflexivity.
  - exists (Pos.to_uint p). split; [|reflexivity].
    unfold Z.of_uint. rewrite DecimalPos.Unsigned.of_to. reflexivity.
  - exists (Pos.to_uint p). split; [|reflexivity].
    unfold Z.of_uint. rewrite DecimalPos.Unsigned.of_to. reflexivity.
Qed.

(** The key conversion on the objects of one pair of scalars, in the wire
    form the serializer gives them. *)
Lemma written_pair_key_conversion (fmt_g : Z -> GoString) (fw extra : nat)
        (key val : Value) (count : Z) (payload : list byte) :
  wire_scalar key = true ->
  wire_scalar val = true ->
  0 <= count < 2 ^ 32 ->
  pair_payload fw key val count = Ok payload ->
  len payload < 2 ^ 63 ->
  Deserialize fmt_g (3 + extra) payload [] =
  match key with
  | String s => Ok (Object 0, [CMap {[s := val]}])
  | Int32 n | Uint32 n => Ok (Object 0, [CMap {[sprintf_d n := val]}])
  | Double f => Ok (Object 0, [CMap {[fmt_g f := val]}])
  | _ => Err ErrMalformedData
  end.
Proof.
  intros Hk Hv Hcount Hp Hlen. unfold pair_payload in Hp.
  destruct (write_entries _ _ [(key, val)]) as [W| | |] eqn:HW; try discriminate Hp.
  cbn [bind] in Hp. injection Hp as <-. unfold wire.WriteByte in *.
  assert (Hsc : Forall scalar_entry [(key, val)]) by (repeat constructor; assumption).
  destruct (write_entries_prefix fw [] _ _ W Hsc HW) as [b HWb].
  destruct (WriteVarint_prefix (W ++ [tagEndJSObject]) (uint64 count)) as [body Hbody].
  set (D := wire.WriteVarint32 (W ++ [tagEndJSObject]) count) in *.
  assert (HD : D = writeHeader [] ++ ([tagBeginJSObject] ++ b ++ [tagEndJSObject] ++ body)).
  { unfold D, wire.WriteVarint32. rewrite Hbody, HWb, <- !app_assoc. reflexivity. }
  rewrite HD at 1. rewrite Deserialize_root. rewrite <- HD.
  destruct (object_key_String_or_number fmt_g key) as [[keyStr Hkey]|Hbad].
  - destruct (readObject_entries fmt_g 0 fw (0 + extra) [(key, val)] (at_root D)
                (writeHeader []) W [] count) as (d' & Hrv & Hheap); try assumption.
    + repeat constructor. cbn. eauto.
    + rewrite app_nil_r. reflexivity.
    + rewrite app_nil_r. exact Hlen.
    + cbn. lia.
    + cbn [length Nat.add] in Hrv. cbn [Nat.add]. rewrite Hrv. cbn [bind].
      rewrite Hheap. cbn [heap at_root NewDeserializer fold_left set_version set_reader app length].
      unfold store_entry. cbn [fst snd]. rewrite Hkey.
      destruct key; cbn [object_key] in Hkey; try discriminate Hkey;
        injection Hkey as <-; reflexivity.
  - change (3 + extra)%nat with (S (S (S extra))).
    cbn [write_entries] in HW.
    destruct (writeValue (S fw) [] (writeHeader [] ++ [tagBeginJSObject]) key)
      as [w1| | |] eqn:E1; try discriminate HW.
    cbn [bind] in HW.
    destruct (writeValue (S fw) [] w1 val) as [w2| | |] eqn:E2; try discriminate HW.
    cbn [bind] in HW. injection HW as ->.
    rewrite (readValue_tagged fmt_g _ (at_root D) (writeHeader []) D [] tagBeginJSObject);
      [| rewrite HD; eexists; rewrite <- !app_assoc; reflexivity
       | rewrite app_nil_r; reflexivity | reflexivity | cbn; lia].
    cbn [readValue_switch]. unfold readObject, alloc.
    rewrite readObject_loop_S.
    match goal with |- context [wire.Peek (reader ?x)] => set (d2 := x) end.
    assert (Htail : D ++ [] = W ++ ([tagEndJSObject] ++ body)).
    { rewrite app_nil_r. unfold D, wire.WriteVarint32. rewrite Hbody, <- app_assoc. reflexivity. }
    destruct (read_pair fmt_g (1 + extra) fw [] d2 (writeHeader [] ++ [tagBeginJSObject])
                w1 W ([tagEndJSObject] ++ body) key val Hk Hv E1 E2)
      as (Hpeek & Hrk & _).
    + rewrite <- Htail. reflexivity.
    + rewrite <- Htail, app_nil_r. exact Hlen.
    + cbn. lia.
    + rewrite Hpeek. cbn [bind].
      destruct (scalar_tag_not_end key Hk) as (Hne & _). rewrite Hne.
      cbn [Nat.add] in Hrk. rewrite Hrk. cbn [bind]. rewrite Hbad. cbn [bind].
      destruct key; cbn [object_key] in Hbad; try discriminate Hbad; reflexivity.
Qed.





(** ** Sparse arrays: claim C10 *)

Lemma readSparseArray_loop_S (rv : Deserializer -> Res (Value * Deserializer))
      (n : nat) (arr : loc) (L : Z) (d : Deserializer) :
  readSparseArray_loop rv (S n) arr L d =
  let* tag := wire.Peek (reader d) in
  if u8 tag =? u8 tagEndSparseArray then
    let d := consume d in
    let* (_, r) := wire.ReadVarint32 (reader d) in
    let* (_, r) := wire.ReadVarint32 r in
    Ok (set_reader d r)
  else
    let* (key, d) := rv d in
    let* (val, d) := rv d in
    let d :=
      if IsNumber key then
        let idx := AsNumber_int key in
        if (idx >=? 0) && (idx <? L) then set_heap d (arr_store (heap d) arr idx val)
        else d
      else d in
    readSparseArray_loop rv n arr L d.
Proof.
  reflexivity.
Qed.

Lemma readSparseArray_loop_entries (fmt_g : Z -> GoString) (fuel fw : nat) (h : Heap)
      (L : Z) (l : list (Value * Value)) :
  forall (n : nat) (d : Deserializer) (w Wf suf : list byte) (arr : loc)
         (a : list Value) (props len2 : Z),
    Forall scalar_entry l ->
    write_entries (writeValue (S fw) h) w l = Ok Wf ->
    0 <= props < 2 ^ 32 ->
    0 <= len2 < 2 ^ 32 ->
    reader d = rd (wire.WriteVarint32
                     (wire.WriteVarint32 (Wf ++ [tagEndSparseArray]) props) len2 ++ suf)
                  (len w) ->
    len (wire.WriteVarint32
           (wire.WriteVarint32 (Wf ++ [tagEndSparseArray]) props) len2 ++ suf) < 2 ^ 63 ->
    depth d < maxDepth d ->
    heap d !! arr = Some (CArr a) ->
    (length l < n)%nat ->
    exists d',
      readSparseArray_loop (readValue fmt_g (S fuel)) n arr L d = Ok d' /\
      heap d' = <[arr := CArr (fold_left (sparse_store L) l a)]> (heap d).
Proof.
  induction l as [|[k v] l IH];
    intros n d w Wf suf arr a props len2 Hsc HW Hprops Hlen2 Hr Hlen Hd Harr Hn.
  - injection HW as <-. destruct n as [|n]; [simpl in Hn; lia|].
    set (P := wire.WriteVarint32 (w ++ [tagEndSparseArray]) props) in *.
    destruct (WriteVarint_prefix (w ++ [tagEndSparseArray]) (uint64 props)) as [b1 Hb1].
    destruct (WriteVarint_prefix P (uint64 len2)) as [b2 Hb2].
    set (D := wire.WriteVarint32 P len2 ++ suf) in *.
    assert (HDP : D = P ++ (b2 ++ suf)).
    { unfold D, wire.WriteVarint32. rewrite Hb2, <- app_assoc. reflexivity. }
    assert (HD : D = w ++ tagEndSparseArray :: (b1 ++ b2 ++ suf)).
    { rewrite HDP. unfold P, wire.WriteVarint32. rewrite Hb1, <- !app_assoc. reflexivity. }
    assert (Hpeek : wire.Peek (rd D (len w)) = Ok tagEndSparseArray)
      by (rewrite HD; apply Peek_frame).
    assert (Hrb : wire.ReadByte (rd D (len w))
                  = Ok (tagEndSparseArray, rd D (len (w ++ [tagEndSparseArray])))).
    { rewrite HD, ReadByte_frame. do 3 f_equal. len_norm. lia. }
    assert (Hv1 : wire.ReadVarint32 (rd D (len (w ++ [tagEndSparseArray])))
                  = Ok (props, rd D (len P))).
    { rewrite HDP. unfold P. apply ReadVarint32_WriteVarint32. exact Hprops. }
    assert (Hv2 : wire.ReadVarint32 (rd D (len P))
                  = Ok (len2, rd D (len (wire.WriteVarint32 P len2)))).
    { unfold D. apply ReadVarint32_WriteVarint32. exact Hlen2. }
    eexists. split.
    + rewrite readSparseArray_loop_S, Hr, Hpeek. cbn [bind].
      change (u8 tagEndSparseArray =? u8 tagEndSparseArray) with true. cbn iota.
      unfold consume. rewrite Hr, Hrb.
      change (reader (set_reader d ?r)) with r.
      rewrite Hv1. cbn [bind]. rewrite Hv2. cbn [bind]. reflexivity.
    + cbn [fold_left heap set_reader]. symmetry. apply list_insert_id. exact Harr.
  - inversion Hsc as [|? ? [Hk Hv] Hsc']; subst. cbn [fst snd] in *.
    cbn [write_entries] in HW.
    destruct (writeValue (S fw) h w k) as [w1| | |] eqn:E1; try discriminate HW.
    cbn [bind] in HW.
    destruct (writeValue (S fw) h w1 v) as [w2| | |] eqn:E2; try discriminate HW.
    cbn [bind] in HW.
    destruct (write_entries_prefix fw h l w2 Wf Hsc' HW) as [b3 HWf].
    set (P := wire.WriteVarint32 (Wf ++ [tagEndSparseArray]) props) in *.
    destruct (WriteVarint_prefix (Wf ++ [tagEndSparseArray]) (uint64 props)) as [b1 Hb1].
    destruct (WriteVarint_prefix P (uint64 len2)) as [b2 Hb2].
    set (D := wire.WriteVarint32 P len2 ++ suf) in *.
    assert (HD : D = w2 ++ (b3 ++ [tagEndSparseArray] ++ b1 ++ b2 ++ suf)).
    { unfold D, wire.WriteVarint32. rewrite Hb2. unfold P, wire.WriteVarint32.
      rewrite Hb1, HWf, <- !app_assoc. reflexivity. }
    destruct n as [|n]; [simpl in Hn; lia|].
    rewrite readSparseArray_loop_S.
    rewrite HD in Hr, Hlen.
    destruct (read_pair fmt_g fuel fw h d w w1 w2 _ k v Hk Hv E1 E2 Hr Hlen Hd)
      as (Hpeek & Hrk & Hrv).
    rewrite Hpeek. cbn [bind].
    destruct (scalar_tag_not_end k Hk) as (_ & Hne & _). rewrite Hne.
    rewrite Hrk. cbn [bind]. rewrite Hrv. cbn [bind].
    rewrite <- HD in *.
    set (d2 := after_value (after_value d (rd D (len w1)) k) (rd D (len w2)) v).
    assert (Hh2 : heap d2 = heap d) by (unfold d2; rewrite !after_value_heap; reflexivity).
    assert (Hr2 : reader d2 = rd D (len w2)) by (unfold d2; apply after_value_reader).
    assert (Hd2 : depth d2 < maxDepth d2).
    { unfold d2.
      destruct (after_value_depth (after_value d (rd D (len w1)) k) (rd D (len w2)) v)
        as [-> ->].
      destruct (after_value_depth d (rd D (len w1)) k) as [-> ->]. exact Hd. }
    pose proof (lookup_lt_Some _ _ _ Harr) as Hlt.
    match goal with
    | |- exists d', readSparseArray_loop _ _ _ _ ?x = _ /\ _ => set (d3 := x)
    end.
    assert (H3 : reader d3 = rd D (len w2) /\ depth d3 < maxDepth d3 /\
                 heap d3 = <[arr := CArr (sparse_store L a (k, v))]> (heap d)).
    { unfold d3, sparse_store. cbn [fst snd].
      destruct (IsNumber k);
        [destruct ((AsNumber_int k >=? 0) && (AsNumber_int k <? L))|].
      - cbn [reader depth maxDepth heap set_heap]. repeat split; try assumption.
        unfold arr_store. rewrite Hh2, Harr. reflexivity.
      - repeat split; try assumption.
        rewrite Hh2. symmetry. apply list_insert_id. exact Harr.
      - repeat split; try assumption.
        rewrite Hh2. symmetry. apply list_insert_id. exact Harr. }
    destruct H3 as (Hr3 & Hd3 & Hh3).
    destruct (IH n d3 w2 Wf suf arr (sparse_store L a (k, v)) props len2)
      as (d' & Hloop & Hheap); try assumption.
    + rewrite Hh3. apply list_lookup_insert_eq. exact Hlt.
    + simpl in Hn. lia.
    + exists d'. split; [exact Hloop|].
      rewrite Hheap, Hh3. rewrite list_insert_insert_eq. reflexivity.
Qed.

Lemma readSparseArray_entries (fmt_g : Z -> GoString) (fuel fw extra : nat) (L : Z)
      (l : list (Value * Value)) (d : Deserializer) (w W suf : list byte) (props len2 : Z) :
  Forall scalar_entry l ->
  write_entries (writeValue (S fw) [])
    (wire.WriteVarint32 (w ++ [tagBeginSparseArray]) L) l = Ok W ->
  0 <= L < 2 ^ 32 ->
  L <= maxArrayLen d ->
  0 <= props < 2 ^ 32 ->
  0 <= len2 < 2 ^ 32 ->
  reader d = rd (wire.WriteVarint32
                   (wire.WriteVarint32 (W ++ [tagEndSparseArray]) props) len2 ++ suf)
                (len w) ->
  len (wire.WriteVarint32
         (wire.WriteVarint32 (W ++ [tagEndSparseArray]) props) len2 ++ suf) < 2 ^ 63 ->
  depth d + 1 < maxDepth d ->
  exists d',
    readValue fmt_g (S (S (length l + extra))) d = Ok (Array (length (heap d)) L L, d') /\
    heap d' = heap d ++ [CArr (fold_left (sparse_store L) l (replicate (Z.to_nat L) Hole))].
Proof.
  intros Hsc HW HL Hmax Hprops Hlen2 Hr Hlen Hd.
  set (H0 := wire.WriteVarint32 (w ++ [tagBeginSparseArray]) L) in *.
  destruct (write_entries_prefix fw [] l _ W Hsc HW) as [b HWb].
  destruct (WriteVarint_prefix (w ++ [tagBeginSparseArray]) (uint64 L)) as [b0 Hb0].
  set (P := wire.WriteVarint32 (W ++ [tagEndSparseArray]) props) in *.
  destruct (WriteVarint_prefix (W ++ [tagEndSparseArray]) (uint64 props)) as [b1 Hb1].
  destruct (WriteVarint_prefix P (uint64 len2)) as [b2 Hb2].
  set (D := wire.WriteVarint32 P len2) in *.
  assert (HD0 : D ++ suf = H0 ++ (b ++ [tagEndSparseArray] ++ b1 ++ b2 ++ suf)).
  { unfold D, wire.WriteVarint32. rewrite Hb2. unfold P, wire.WriteVarint32.
    rewrite Hb1, HWb, <- !app_assoc. reflexivity. }
  rewrite (readValue_tagged fmt_g _ d w D suf tagBeginSparseArray);
    [| | exact Hr | reflexivity | lia].
  2:{ unfold D, wire.WriteVarint32. rewrite Hb2. unfold P, wire.WriteVarint32.
      rewrite Hb1, HWb. unfold H0, wire.WriteVarint32. rewrite Hb0.
      eexists. rewrite <- !app_assoc. reflexivity. }
  cbn [readValue_switch]. unfold readSparseArray.
  change (reader (set_reader ?x ?r)) with r.
  assert (HvL : wire.ReadVarint32 (rd (D ++ suf) (len (w ++ [tagBeginSparseArray])))
                = Ok (L, rd (D ++ suf) (len H0))).
  { rewrite HD0. unfold H0. apply ReadVarint32_WriteVarint32. exact HL. }
  rewrite HvL. cbn [bind].
  change (maxArrayLen (set_reader ?x ?r)) with (maxArrayLen x).
  change (maxArrayLen (set_reader ?x ?r)) with (maxArrayLen x).
  change (maxArrayLen (set_depth ?x ?r)) with (maxArrayLen x).
  rewrite int_small by lia.
  replace (L >? maxArrayLen d) with false by lia.
  unfold alloc.
  set (d1 := set_reader (set_reader (set_depth d (depth d + 1)) _) _).
  set (arr := length (heap d1)).
  set (d2 := register (set_heap d1 (heap d1 ++ [CArr (replicate (Z.to_nat L) Hole)]))
               (Array arr L L)).
  destruct (readSparseArray_loop_entries fmt_g (length l + extra) fw [] L l
              (S (length l + extra)) d2 H0 W suf arr (replicate (Z.to_nat L) Hole)
              props len2)
    as (d' & Hloop & Hheap); try assumption.
  - reflexivity.
  - cbn [heap d2 register set_objects set_heap]. unfold arr.
    rewrite lookup_app_r by lia. rewrite Nat.sub_diag. reflexivity.
  - lia.
  - fold P D in Hloop. rewrite Hloop. cbn [bind].
    eexists. split; [reflexivity|].
    cbn [heap set_depth update_entry set_objects]. rewrite Hheap.
    cbn [heap d2 register set_objects set_heap]. unfold arr.
    replace (length (heap d1)) with (length (heap d) + 0)%nat by (cbn; lia).
    rewrite insert_app_r. reflexivity.
Qed.

(** The pairs of a sparse array, for pairs of scalars in the wire form the
    serializer gives them. *)
Lemma written_sparse_array_pairs (fmt_g : Z -> GoString) (fw extra : nat) (L : Z)
        (entries : list (Value * Value)) (props len2 : Z) (payload : list byte) :
  Forall scalar_entry entries ->
  0 <= L <= DefaultMaxArrayLen ->
  0 <= props < 2 ^ 32 ->
  0 <= len2 < 2 ^ 32 ->
  sparse_payload fw L entries props len2 = Ok payload ->
  len payload < 2 ^ 63 ->
  Deserialize fmt_g (S (S (length entries + extra))) payload []
  = Ok (Array 0 L L,
        [CArr (fold_left (sparse_store L) entries (replicate (Z.to_nat L) Hole))]).
Proof.
  intros Hsc HL Hprops Hlen2 Hp Hlen. unfold sparse_payload in Hp.
  destruct (write_entries _ _ entries) as [W| | |] eqn:HW; try discriminate Hp.
  cbn [bind] in Hp. injection Hp as <-. unfold wire.WriteByte in *.
  unfold DefaultMaxArrayLen in HL.
  set (H0 := wire.WriteVarint32 (writeHeader [] ++ [tagBeginSparseArray]) L) in *.
  destruct (write_entries_prefix fw [] entries _ W Hsc HW) as [b HWb].
  destruct (WriteVarint_prefix (writeHeader [] ++ [tagBeginSparseArray]) (uint64 L))
    as [b0 Hb0].
  set (P := wire.WriteVarint32 (W ++ [tagEndSparseArray]) props) in *.
  destruct (WriteVarint_prefix (W ++ [tagEndSparseArray]) (uint64 props)) as [b1 Hb1].
  destruct (WriteVarint_prefix P (uint64 len2)) as [b2 Hb2].
  set (D := wire.WriteVarint32 P len2) in *.
  assert (HD : D = writeHeader []
                   ++ ([tagBeginSparseArray] ++ b0 ++ b ++ [tagEndSparseArray] ++ b1 ++ b2)).
  { unfold D, wire.WriteVarint32. rewrite Hb2. unfold P, wire.WriteVarint32.
    rewrite Hb1, HWb. unfold H0, wire.WriteVarint32. rewrite Hb0, <- !app_assoc.
    reflexivity. }
  rewrite HD at 1. rewrite Deserialize_root. rewrite <- HD.
  destruct (readSparseArray_entries fmt_g 0 fw extra L entries (at_root D)
              (writeHeader []) W [] props len2)
    as (d' & Hrv & Hheap); try assumption.
  - lia.
  - change (maxArrayLen (at_root D)) with 10000000. lia.
  - rewrite app_nil_r. reflexivity.
  - rewrite app_nil_r. exact Hlen.
  - cbn. lia.
  - rewrite Hrv. cbn [bind]. rewrite Hheap. reflexivity.
Qed.

Lemma truncate_int64 (f : spec_float) (t : Z) :
  truncate f = Some t ->
  (- 2 ^ 63 <=? t) && (t <? 2 ^ 63) = true ->
  int64_of_float f = t.
Proof.
  destruct f as [s| | |s m e]; cbn [truncate int64_of_float]; intros Ht Hr;
    try discriminate Ht.
  - injection Ht as <-. reflexivity.
  - injection Ht as Ht. cbv zeta. rewrite Ht, Hr. reflexivity.
Qed.

Lemma key_index_AsNumber (key : Value) :
  index_defined key = true ->
  match key_index key with
  | Some idx => IsNumber key = true /\ AsNumber_int key = idx
  | None => IsNumber key = false
  end.
Proof.
  intros H.
  assert (Hd : forall bits, index_defined (Double bits) = true ->
                 match truncate (Float64frombits bits) with
                 | Some idx => true = true /\ int64_of_float (Float64frombits bits) = idx
                 | None => true = false
                 end).
  { intros bits Hb. cbn [index_defined] in Hb.
    destruct (truncate (Float64frombits bits)) as [t|] eqn:Ht; [|discriminate Hb].
    split; [exact eq_refl|]. apply truncate_int64; assumption. }
  destruct key;
    first [ exact (Hd _ H)
          | exact (conj eq_refl eq_refl)
          | exact eq_refl ].
Qed.

Lemma sparse_store_assign (L : Z) (a : list Value) (e : Value * Value) :
  index_defined (fst e) = true -> sparse_store L a e = assign_pair L a e.
Proof.
  intros H. pose proof (key_index_AsNumber (fst e) H) as Hk.
  unfold sparse_store, assign_pair.
  destruct (key_index (fst e)) as [idx|].
  - destruct Hk as [-> ->]. cbv zeta.
    replace (idx >=? 0) with (0 <=? idx) by lia. reflexivity.
  - rewrite Hk. reflexivity.
Qed.

Lemma fold_sparse_store_assign (L : Z) (entries : list (Value * Value)) :
  Forall (fun e => index_defined (fst e) = true) entries ->
  forall a, fold_left (sparse_store L) entries a = fold_left (assign_pair L) entries a.
Proof.
  induction 1 as [|e l He Hl IH]; intros a; [reflexivity|].
  cbn [fold_left]. rewrite sparse_store_assign by exact He. apply IH.
Qed.

(** C10 (as amended).  In a sparse array of length [L], which starts as
    [L] holes, each pair [key, val], in wire order, assigns [val] at the
    index of [key] (the number itself, a Double truncated toward zero) when
    [key] is a number and that index lies in [0, L), and is dropped without
    an error otherwise; the loop goes on with the next pair.  First for one
    round of the loop, in any state and for a key and a value of any type;
    then for [Deserialize] on a whole array of pairs of scalars.  A Double
    key that is NaN, infinite or whose truncation is no [int64] is left
    out: Go leaves [int(f)] on it to the implementation. *)
Theorem sparse_array_pairs (fmt_g : Z -> GoString) (L : Z) :
  (forall (fuel n : nat) (arr : loc) (d d1 d2 : Deserializer) (tag : byte) (key val : Value),
      wire.Peek (reader d) = Ok tag ->
      (u8 tag =? u8 tagEndSparseArray) = false ->
      readValue fmt_g fuel d = Ok (key, d1) ->
      readValue fmt_g fuel d1 = Ok (val, d2) ->
      index_defined key = true ->
      readSparseArray_loop (readValue fmt_g fuel) (S n) arr L d =
      readSparseArray_loop (readValue fmt_g fuel) n arr L
        match key_index key with
        | Some idx =>
          if (0 <=? idx) && (idx <? L) then set_heap d2 (arr_store (heap d2) arr idx val)
          else d2
        | None => d2
        end) /\
  (forall (fw extra : nat) (entries : list (Value * Value)) (props len2 : Z),
      Forall scalar_entry entries ->
      Forall (fun e => index_defined (fst e) = true) entries ->
      0 <= L <= DefaultMaxArrayLen ->
      0 <= props < 2 ^ 32 ->
      0 <= len2 < 2 ^ 32 ->
      exists payload,
        sparse_payload fw L entries props len2 = Ok payload /\
        (len payload < 2 ^ 63 ->
         Deserialize fmt_g (S (S (length entries + extra))) payload []
         = Ok (Array 0 L L,
               [CArr (fold_left (assign_pair L) entries (replicate (Z.to_nat L) Hole))]))).
Proof.
  split.
  - intros fuel n arr d d1 d2 tag key val Hpeek Hne Hkey Hval Hdef.
    rewrite readSparseArray_loop_S, Hpeek. cbn [bind]. rewrite Hne, Hkey. cbn [bind].
    rewrite Hval. cbn [bind]. cbv zeta.
    pose proof (key_index_AsNumber key Hdef) as Hk.
    destruct (key_index key) as [idx|].
    + destruct Hk as [-> ->]. replace (idx >=? 0) with (0 <=? idx) by lia. reflexivity.
    + rewrite Hk. reflexivity.
  - intros fw extra entries props len2 Hsc Hdef HL Hprops Hlen2.
    destruct (write_entries_scalars fw [] entries Hsc
                (wire.WriteVarint32 (wire.WriteByte (writeHeader []) tagBeginSparseArray) L))
      as [W HW].
    assert (Hp : sparse_payload fw L entries props len2
                 = Ok (wire.WriteVarint32
                         (wire.WriteVarint32 (wire.WriteByte W tagEndSparseArray) props) len2)).
    { unfold sparse_payload. rewrite HW. reflexivity. }
    eexists. split; [exact Hp|]. intros Hlen.
    rewrite <- (fold_sparse_store_assign L entries Hdef).
    apply (written_sparse_array_pairs fmt_g fw extra L entries props len2 _);
      assumption.
Qed.

Lemma sparse_array_pairs_witness :
  (exists payload,
      sparse_payload 0 3
        [(Int32 2, Bool true); (String (gostr "a"), Bool false);
         (Int32 5, Null); (Int32 0, Undefined)] 1 3 = Ok payload /\
      (len payload < 2 ^ 63 ->
       Deserialize (fun _ => []) 6 payload []
       = Ok (Array 0 3 3,
             [CArr (fold_left (assign_pair 3)
                      [(Int32 2, Bool true); (String (gostr "a"), Bool false);
                       (Int32 5, Null); (Int32 0, Undefined)]
                      (replicate (Z.to_nat 3) Hole))]))) /\
  (exists d1 d2,
      let d := set_heap (at_root [xff; x0f; x4e; x00; x00; x00; x00; x00; x00; xf0; x3f;
                                  x42; x01; x07; x40; x01; x02])
                 [CArr [Hole; Hole]] in
      readValue (fun _ => []) 1 d = Ok (Double 4607182418800017408, d1) /\
      readValue (fun _ => []) 1 d1 = Ok (ArrayBuffer [x07], d2) /\
      readSparseArray_loop (readValue (fun _ => []) 1) 2 0 2 d
      = readSparseArray_loop (readValue (fun _ => []) 1) 1 0 2
          (set_heap d2 (arr_store (heap d2) 0 1 (ArrayBuffer [x07])))).
Proof.
  split.
  - apply (proj2 (sparse_array_pairs (fun _ => []) 3) 0%nat 0%nat
             [(Int32 2, Bool true); (String (gostr "a"), Bool false);
              (Int32 5, Null); (Int32 0, Undefined)] 1 3).
    + repeat constructor.
    + repeat constructor.
    + unfold DefaultMaxArrayLen. lia.
    + lia.
    + lia.
  - eexists. eexists. cbv zeta.
    split; [vm_compute; reflexivity|]. split; [vm_compute; reflexivity|].
    refine (proj1 (sparse_array_pairs (fun _ => []) 2) 1%nat 1%nat 0%nat _ _ _ x4e
              (Double 4607182418800017408) (ArrayBuffer [x07]) _ _ _ _ _).
    + reflexivity.
    + reflexivity.
    + vm_compute. reflexivity.
    + vm_compute. reflexivity.
    + reflexivity.
Defined.

(** C10, as stated, fails: the key -0.5 (-(2^52 * 2^-53)) is a number
    outside [0, 1), and its value is stored all the same, at index 0. *)
Lemma fractional_index_stored :
  Float64frombits 13826050856027422720 = S754_finite true 4503599627370496 (-53) /\
  Deserialize (fun _ => []) 3
    [xff; x0f; x61; x01; x4e; x00; x00; x00; x00; x00; x00; xe0; xbf; x54;
     x40; x00; x01] []
  = Ok (Array 0 1 1, [CArr [Bool true]]) /\
  (forall fmt_g fuel,
      Deserialize fmt_g (3 + fuel)
        [xff; x0f; x61; x01; x4e; x00; x00; x00; x00; x00; x00; xe0; xbf; x54;
         x40; x00; x01] []
      = Ok (Array 0 1 1, [CArr [Bool true]])).
Proof.
  split; [reflexivity|]. split; [reflexivity|].
  intros fmt_g fuel. vm_compute. reflexivity.
Qed.

(** ** Strings of Latin-1 text: claim C2 *)

Lemma latin1_utf8_len (s : GoString) :
  Forall (fun r => 0 <= r <= 255) s ->
  len s <= utf8_len s <= 2 * len s /\
  (Exists (fun r => 128 <= r) s -> len s < utf8_len s).
Proof.
  induction 1 as [|r s Hr Hs [IH1 IH2]].
  - split; [unfold len; cbn; lia|]. intros H. inversion H.
  - cbn [utf8_len fold_right]. fold (utf8_len s). rewrite len_cons. unfold rune_len.
    split.
    + destruct (r <? 128) eqn:E1; [lia|]. destruct (r <? 2048) eqn:E2; lia.
    + intros Hex. destruct (r <? 128) eqn:E1.
      * inversion Hex; subst; [lia|]. specialize (IH2 ltac:(assumption)). lia.
      * destruct (r <? 2048) eqn:E2; lia.
Qed.

Lemma latin1_NeedsUTF16 (s : GoString) :
  Forall (fun r => 0 <= r <= 255) s -> wire.NeedsUTF16 s = false.
Proof.
  induction 1 as [|r s Hr Hs IH]; [reflexivity|].
  cbn [wire.NeedsUTF16 existsb]. fold (wire.NeedsUTF16 s). rewrite IH.
  destruct (r >? 255) eqn:E; [lia|reflexivity].
Qed.

(** C2 fails on the strings of Latin-1 text.  For a string whose characters
    are all at most U+00FF, one of them at least U+0080, [writeString] takes
    the one-byte form, writes the length [len(str)] of the UTF-8 encoding and
    then one byte for each character, which are fewer: [Deserialize] of what
    [Serialize] returns fails with [ErrUnexpectedEOF] instead of returning
    the string. *)
Theorem latin1_string_roundtrip_fails (fmt_g : Z -> GoString) (fw fuel : nat) (h : Heap)
        (s : GoString) :
  Forall (fun r => 0 <= r <= 255) s ->
  Exists (fun r => 128 <= r) s ->
  len s < 2 ^ 31 ->
  exists bytes,
    Serialize (S fw) h (String s) = Ok bytes /\
    Deserialize fmt_g (S fuel) bytes [] = Err ErrUnexpectedEOF.
Proof.
  intros Hl Hex Hlen.
  destruct (latin1_utf8_len s Hl) as [[Hu1 Hu2] Hu3]. specialize (Hu3 Hex).
  pose proof (len_nonneg s) as Hs0.
  eexists. split; [reflexivity|].
  unfold writeString. rewrite (latin1_NeedsUTF16 s Hl).
  unfold wire.WriteOneByteString, wire.WriteByte.
  rewrite uint32_small by lia.
  set (V := wire.WriteVarint32 (writeHeader [] ++ [tagOneByteString]) (utf8_len s)).
  destruct (WriteVarint_prefix (writeHeader [] ++ [tagOneByteString]) (uint64 (utf8_len s)))
    as [t Ht].
  pose proof (WriteVarint_length (writeHeader [] ++ [tagOneByteString]) (uint64 (utf8_len s)))
    as HVl.
  change (len (writeHeader [] ++ [tagOneByteString])) with 3 in HVl.
  fold (wire.WriteVarint32 (writeHeader [] ++ [tagOneByteString]) (utf8_len s)) in HVl, Ht.
  fold V in HVl, Ht.
  set (D := V ++ map to_byte s).
  assert (HD : D = writeHeader [] ++ ([tagOneByteString] ++ t ++ map to_byte s)).
  { unfold D. rewrite Ht, <- !app_assoc. reflexivity. }
  rewrite HD at 1. rewrite Deserialize_root, <- HD.
  rewrite (readValue_tagged fmt_g _ (at_root D) (writeHeader []) D [] tagOneByteString);
    [| rewrite HD; eexists; rewrite <- !app_assoc; reflexivity
     | rewrite app_nil_r; reflexivity | reflexivity | cbn; lia].
  rewrite app_nil_r. cbn [readValue_switch]. unfold readOneByteString.
  change (reader (set_reader ?x ?r)) with r.
  unfold D at 1, V at 1. rewrite ReadVarint32_WriteVarint32 by lia. cbn [bind].
  fold V. fold D.
  unfold wire.ReadOneByteString. rewrite int_small by lia.
  destruct (utf8_len s <? 0) eqn:E1; [lia|].
  destruct (utf8_len s =? 0) eqn:E2; [lia|].
  unfold wire.ReadBytes. cbn [wire.data wire.pos].
  assert (HDl : len D = len V + len s) by (unfold D; len_norm; reflexivity).
  rewrite int_small by lia.
  destruct (len V + utf8_len s >? len D) eqn:E3; [reflexivity|lia].
Qed.

Lemma latin1_string_roundtrip_fails_witness :
  exists bytes,
    Serialize 1 [] (String [233]) = Ok bytes /\
    Deserialize (fun _ => []) 1 bytes [] = Err ErrUnexpectedEOF.
Proof.
  apply (latin1_string_roundtrip_fails (fun _ => []) 0 0 [] [233]).
  - repeat constructor; lia.
  - constructor. lia.
  - reflexivity.
Defined.

(** ** Back references to the container being read: claim C1 *)

(** In an Object, a sparse array, a Map and a Set, a reference to the
    container being read is the container: the map and the structs are
    reached through a pointer, and the sparse array has its full length from
    the start. *)
Lemma self_reference_resolves :
  forall fmt_g fuel,
    Deserialize fmt_g (3 + fuel)
      [xff; x0f; x6f; x22; x04; x73; x65; x6c; x66; x5e; x00; x7b; x01] []
    = Ok (Object 0, [CMap {[gostr "self" := Object 0]}]) /\
    Deserialize fmt_g (3 + fuel)
      [xff; x0f; x61; x02; x49; x02; x5e; x00; x40; x01; x02] []
    = Ok (Array 0 2 2, [CArr [Hole; Array 0 2 2]]) /\
    Deserialize fmt_g (3 + fuel) [xff; x0f; x3b; x49; x02; x5e; x00; x3a; x02] []
    = Ok (VMap 0, [CJSMap [(Int32 1, VMap 0)]]) /\
    Deserialize fmt_g (3 + fuel) [xff; x0f; x27; x5e; x00; x2c; x01] []
    = Ok (VSet 0, [CJSSet [VSet 0]]).
Proof.
  intros fmt_g fuel. repeat split; vm_compute; reflexivity.
Qed.

(** C1 fails for dense arrays.  The table entry made before the elements
    are read is the slice header of length 0, so in the array [a = [a]]
    the element is not [a], of one element, but the empty slice over the
    same backing array.  The same holds for a reference to an enclosing
    dense array. *)
Theorem dense_array_self_reference_is_empty :
  forall fmt_g fuel,
    let h := [CArr [Array 0 0 1]] in
    Deserialize fmt_g (3 + fuel) [xff; x0f; x41; x01; x5e; x00; x24; x00; x01] []
    = Ok (Array 0 1 1, h) /\
    elems h (Array 0 1 1) = [Array 0 0 1] /\
    elems h (Array 0 0 1) = [] /\
    Deserialize fmt_g (4 + fuel)
      [xff; x0f; x41; x02; x41; x01; x5e; x00; x24; x00; x01; x49; x02; x24; x00; x02] []
    = Ok (Array 0 2 2, [CArr [Array 1 1 1; Int32 1]; CArr [Array 0 0 2]]).
Proof.
  intros fmt_g fuel. repeat split; vm_compute; reflexivity.
Qed.

(** ** Panics: claim C3 *)

(** [ReadBytes] goes wrong for the largest [int]: at any position after
    the first byte the sum [r.pos+n] wraps around below zero, the test
    against [len(r.data)] passes and the slice bounds are out of order. *)
Lemma ReadBytes_wraps (r : wire.Reader) :
  0 < wire.pos r <= len (wire.data r) ->
  len (wire.data r) < 2 ^ 63 ->
  wire.ReadBytes r (2 ^ 63 - 1) = Panic.
Proof.
  intros Hpos Hlen. unfold wire.ReadBytes.
  assert (Hw : int (wire.pos r + (2 ^ 63 - 1)) = wire.pos r - 1 - 2 ^ 63).
  { unfold int, int64.
    replace (wire.pos r + (2 ^ 63 - 1) + 2 ^ 63) with (wire.pos r - 1 + 1 * 2 ^ 64) by lia.
    rewrite Z.mod_add by lia. rewrite Z.mod_small by lia. lia. }
  rewrite Hw.
  destruct (wire.pos r - 1 - 2 ^ 63 >? len (wire.data r)) eqn:E1; [lia|].
  destruct (wire.pos r - 1 - 2 ^ 63 <? wire.pos r) eqn:E2; [reflexivity|lia].
Qed.

(** C3 fails: a BigInt whose bitfield announces 2^63 - 1 bytes makes
    [r.pos+n] wrap around in [ReadBytes], and decode panics, whatever the
    fuel; a truncated payload and a varint that never ends are answered with
    errors. *)
Theorem huge_bigint_length_panics :
  forall fmt_g fuel,
    Deserialize fmt_g (S fuel)
      [xff; x0f; x5a; xfe; xff; xff; xff; xff; xff; xff; xff; xff; x01] []
    = Panic /\
    Deserialize fmt_g (S fuel) [xff; x0f; x5a; x04; x01] [] = Err ErrUnexpectedEOF /\
    Deserialize fmt_g (S fuel)
      [xff; x0f; x5a; xff; xff; xff; xff; xff; xff; xff; xff; xff; xff; xff] []
    = Err ErrVarintOverflow.
Proof.
  intros fmt_g fuel. repeat split; vm_compute; reflexivity.
Qed.

(** ** The key limit: claim C4 *)

Lemma Deserialize_root_keys (fmt_g : Z -> GoString) (fuel : nat) (body : list byte) (k : Z) :
  Deserialize fmt_g fuel (writeHeader [] ++ body) [WithMaxObjectKeys k] =
  let* (v, d) := readValue fmt_g fuel (at_root_keys (writeHeader [] ++ body) k) in
  Ok (v, heap d).
Proof.
  unfold Deserialize, Deserializer_Deserialize, NewDeserializer.
  cbn [fold_left apply_Option maxSize Z.gtb Z.compare andb].
  rewrite (readHeader_frame _ body) by reflexivity.
  reflexivity.
Qed.

(** C4 fails: [maxObjectKeys] is stored and never read.  Whatever limit [k]
    the caller sets, an object of any number of pairs (string keys, scalar
    values) is decoded, to the same map as without a limit. *)
Theorem max_object_keys_not_enforced (fmt_g : Z -> GoString) (fw extra : nat)
        (kvs : list (GoString * Value)) (count : Z) (payload : list byte) (k : Z) :
  Forall (fun kv => wire_scalar (String (fst kv)) = true /\ wire_scalar (snd kv) = true) kvs ->
  0 <= count < 2 ^ 32 ->
  object_payload fw kvs count = Ok payload ->
  len payload < 2 ^ 63 ->
  Deserialize fmt_g (S (S (length kvs + extra))) payload [WithMaxObjectKeys k]
  = Ok (Object 0, [CMap (list_to_map (rev kvs))]).
Proof.
  intros Hkvs Hcount Hp Hlen.
  destruct (object_payload_decodes fmt_g fw extra kvs count payload (at_root_keys payload k)
              Hkvs Hcount Hp Hlen) as ([body Hbody] & d' & Hrv & Hheap).
  - reflexivity.
  - cbn. lia.
  - rewrite Hbody at 1. rewrite Deserialize_root_keys, <- Hbody, Hrv. cbn [bind].
    rewrite Hheap. reflexivity.
Qed.

Lemma max_object_keys_not_enforced_witness :
  Deserialize (fun _ => []) 4
    [xff; x0f; x6f; x22; x01; x61; x49; x02; x22; x01; x62; x49; x04; x7b; x02]
    [WithMaxObjectKeys 1]
  = Ok (Object 0, [CMap (list_to_map (rev [(gostr "a", Int32 1); (gostr "b", Int32 2)]))]).
Proof.
  apply (max_object_keys_not_enforced (fun _ => []) 0 0
           [(gostr "a", Int32 1); (gostr "b", Int32 2)] 2).
  - repeat constructor.
  - lia.
  - reflexivity.
  - unfold len. simpl. lia.
Defined.

(** * Properties of the wire format, the limits and the round trips *)

(** ** Varints *)

(** X1. A varint written by WriteVarint for a uint64 n is read back by ReadVarint as
    n, with the cursor just after it, whatever bytes precede and follow it.
    ReadVarint32 on the same bytes returns n when n < 2^32 and fails with
    ErrVarintOverflow otherwise. *)
Theorem varint_roundtrip (pre suf : list byte) (n : Z) :
  0 <= n < 2 ^ 64 ->
  wire.ReadVarint (rd (wire.WriteVarint pre n ++ suf) (len pre))
  = Ok (n, rd (wire.WriteVarint pre n ++ suf) (len (wire.WriteVarint pre n))) /\
  wire.ReadVarint32 (rd (wire.WriteVarint pre n ++ suf) (len pre))
  = (if n <? 2 ^ 32
     then Ok (n, rd (wire.WriteVarint pre n ++ suf) (len (wire.WriteVarint pre n)))
     else Err ErrVarintOverflow).
Proof.
  intros Hn.
  pose proof (ReadVarint_WriteVarint pre suf n Hn) as H.
  split; [exact H|].
  unfold wire.ReadVarint32. rewrite H. cbn [bind]. unfold wire.MaxUint32.
  destruct (n <? 2 ^ 32) eqn:E.
  - destruct (n >? 4294967295) eqn:E2; [lia|]. rewrite uint32_small by lia. reflexivity.
  - destruct (n >? 4294967295) eqn:E2; [reflexivity|lia].
Qed.

Lemma varint_roundtrip_witness :
  wire.ReadVarint (rd (wire.WriteVarint [xff] 300 ++ [x01]) (len [xff]))
  = Ok (300, rd (wire.WriteVarint [xff] 300 ++ [x01]) (len (wire.WriteVarint [xff] 300))) /\
  wire.ReadVarint32 (rd (wire.WriteVarint [xff] 300 ++ [x01]) (len [xff]))
  = (if 300 <? 2 ^ 32
     then Ok (300, rd (wire.WriteVarint [xff] 300 ++ [x01])
                      (len (wire.WriteVarint [xff] 300)))
     else Err ErrVarintOverflow).
Proof.
  apply (varint_roundtrip [xff] [x01] 300). lia.
Defined.

Lemma WriteVarint_loop_size (fuel : nat) :
  forall (n k : Z),
    0 <= n < 2 ^ (7 * (Z.of_nat fuel + 1)) ->
    1 <= k ->
    (len (wire.WriteVarint_loop fuel [] n) <= k <-> n < 2 ^ (7 * k)).
Proof.
  induction fuel as [|fuel IH]; intros n k Hn Hk.
  - cbn [wire.WriteVarint_loop app]. change (len [to_byte n]) with 1.
    change (2 ^ (7 * (Z.of_nat 0 + 1))) with 128 in Hn.
    assert (128 <= 2 ^ (7 * k)) by (change 128 with (2 ^ 7); apply Z.pow_le_mono_r; lia).
    split; intros; lia.
  - cbn [wire.WriteVarint_loop app].
    destruct (n >=? 128) eqn:E.
    + rewrite WriteVarint_loop_app. len_norm.
      rewrite Z.shiftr_div_pow2 by lia. change (2 ^ 7) with 128.
      assert (Hq : 0 <= n / 128 < 2 ^ (7 * (Z.of_nat fuel + 1))).
      { split; [apply Z.div_pos; lia|]. apply Z.div_lt_upper_bound; [lia|].
        change 128 with (2 ^ 7). rewrite <- Z.pow_add_r by lia.
        replace (7 + 7 * (Z.of_nat fuel + 1)) with (7 * (Z.of_nat (S fuel) + 1)) by lia.
        lia. }
      pose proof (len_nonneg (wire.WriteVarint_loop fuel [] (n / 128))) as Hl.
      destruct (Z.eq_dec k 1) as [->|Hk1].
      * change (2 ^ (7 * 1)) with 128.
        assert (0 < len (wire.WriteVarint_loop fuel [] (n / 128))).
        { destruct fuel; cbn [wire.WriteVarint_loop app].
          - change (len [to_byte (n / 128)]) with 1. lia.
          - destruct (n / 128 >=? 128).
            + rewrite WriteVarint_loop_app. len_norm.
              pose proof (len_nonneg (wire.WriteVarint_loop fuel [] (Z.shiftr (n / 128) 7))).
              lia.
            + change (len [to_byte (n / 128)]) with 1. lia. }
        split; intros; lia.
      * specialize (IH (n / 128) (k - 1) Hq ltac:(lia)).
        assert (Hiff : n / 128 < 2 ^ (7 * (k - 1)) <-> n < 2 ^ (7 * k)).
        { replace (7 * k) with (7 + 7 * (k - 1)) by lia.
          rewrite Z.pow_add_r by lia. change (2 ^ 7) with 128.
          assert (0 < 2 ^ (7 * (k - 1))) by (apply Z.pow_pos_nonneg; lia).
          split; intros Hx.
          - pose proof (Z.div_mod n 128 ltac:(lia)).
            pose proof (Z.mod_pos_bound n 128 ltac:(lia)). nia.
          - apply Z.div_lt_upper_bound; lia. }
        split; intros Hx.
        -- apply Hiff, IH. lia.
        -- apply Hiff, IH in Hx. lia.
    + change (len [to_byte n]) with 1.
      assert (128 <= 2 ^ (7 * k)) by (change 128 with (2 ^ 7); apply Z.pow_le_mono_r; lia).
      split; intros; lia.
Qed.

(** X2. For a uint64 n and k >= 1, WriteVarint appends at most k bytes exactly when
    n < 2^(7k): a varint takes one byte per 7 bits of the number. *)
Theorem varint_size (w : list byte) (n k : Z) :
  0 <= n < 2 ^ 64 ->
  1 <= k ->
  (len (wire.WriteVarint w n) <= len w + k <-> n < 2 ^ (7 * k)).
Proof.
  intros Hn Hk. unfold wire.WriteVarint. rewrite WriteVarint_loop_app. len_norm.
  assert (Hn' : 0 <= n < 2 ^ (7 * (Z.of_nat 10 + 1))).
  { split; [lia|]. apply Z.lt_le_trans with (2 ^ 64); [lia|].
    apply Z.pow_le_mono_r; lia. }
  pose proof (WriteVarint_loop_size 10 n k Hn' Hk) as H.
  split; intros Hx.
  - apply H. lia.
  - apply H in Hx. lia.
Qed.

Lemma varint_size_witness :
  (len (wire.WriteVarint [] 300) <= len (@nil byte) + 2 <-> 300 < 2 ^ (7 * 2)) /\
  (len (wire.WriteVarint [] 300) <= len (@nil byte) + 1 <-> 300 < 2 ^ (7 * 1)).
Proof.
  split.
  - apply (varint_size [] 300 2); lia.
  - apply (varint_size [] 300 1); lia.
Defined.

Lemma land_127 (b : Z) : Z.land b 127 = b mod 128.
Proof.
  exact (Z.land_ones b 7 ltac:(lia)).
Qed.

Lemma ReadVarint_loop_bounds (fuel : nat) :
  forall (j : nat) (r : wire.Reader) (result : Z),
    (fuel + j = 11)%nat ->
    (j <= 10)%nat ->
    0 <= wire.pos r ->
    ((j <= 9)%nat -> 0 <= result < 2 ^ (7 * Z.of_nat j)) ->
    match wire.ReadVarint_loop fuel r result (7 * Z.of_nat j) with
    | Ok (v, r') =>
      0 <= v < 2 ^ 64 /\ wire.data r' = wire.data r /\
      wire.pos r < wire.pos r' <= wire.pos r + (10 - Z.of_nat j) /\
      wire.pos r' <= len (wire.data r)
    | Err e => e = ErrUnexpectedEOF \/ e = ErrVarintOverflow
    | _ => False
    end.
Proof.
  induction fuel as [|fuel IH]; intros j r result Hf Hj10 Hpos Hres.
  - exfalso. lia.
  - cbn [wire.ReadVarint_loop].
    destruct (wire.pos r >=? len (wire.data r)) eqn:Eeof; [left; reflexivity|].
    set (b := u8 (at_ (wire.data r) (wire.pos r))).
    pose proof (u8_range (at_ (wire.data r) (wire.pos r))) as Hb. fold b in Hb.
    destruct ((7 * Z.of_nat j >=? 64) || (7 * Z.of_nat j =? 63) && (b >? 1)) eqn:Echk;
      [right; reflexivity|].
    apply orb_false_iff in Echk. destruct Echk as [E64 E63].
    assert (Hj : (j <= 9)%nat) by lia.
    specialize (Hres Hj).
    rewrite land_127, Z.shiftl_mul_pow2 by lia.
    pose proof (Z.mod_pos_bound b 128 ltac:(lia)) as Hm.
    assert (Hp : 0 < 2 ^ (7 * Z.of_nat j)) by (apply Z.pow_pos_nonneg; lia).
    assert (Hx : 0 <= b mod 128 * 2 ^ (7 * Z.of_nat j) < 2 ^ 64 /\
                 result + b mod 128 * 2 ^ (7 * Z.of_nat j) < 2 ^ 64 /\
                 ((j <= 8)%nat ->
                  result + b mod 128 * 2 ^ (7 * Z.of_nat j) < 2 ^ (7 * Z.of_nat (S j)))).
    { destruct (Nat.eq_dec j 9%nat) as [->|Hne].
      - change (7 * Z.of_nat 9) with 63 in *.
        change (63 =? 63) with true in E63. cbn [andb] in E63.
        assert (b <= 1) by lia. rewrite Z.mod_small by lia.
        change (2 ^ 64) with (2 * 2 ^ 63). split; [|split]; [nia | nia | lia].
      - assert (Hstep : 2 ^ (7 * Z.of_nat (S j)) = 128 * 2 ^ (7 * Z.of_nat j)).
        { replace (7 * Z.of_nat (S j)) with (7 + 7 * Z.of_nat j) by lia.
          rewrite Z.pow_add_r by lia. reflexivity. }
        assert (Hle : 2 ^ (7 * Z.of_nat (S j)) <= 2 ^ 64)
          by (apply Z.pow_le_mono_r; lia).
        split; [|split]; [nia | nia | intros _; nia]. }
    destruct Hx as (Hx1 & Hx2 & Hx3).
    rewrite uint64_small by exact Hx1.
    rewrite lor_disjoint by lia.
    destruct (Z.land b 128 =? 0) eqn:Elast.
    + cbn [wire.set_pos wire.data wire.pos]. repeat split; try lia.
    + replace (7 * Z.of_nat j + 7) with (7 * Z.of_nat (S j)) by lia.
      specialize (IH (S j) (wire.set_pos r (wire.pos r + 1))
                     (result + b mod 128 * 2 ^ (7 * Z.of_nat j))
                     ltac:(lia) ltac:(lia) ltac:(cbn; lia)).
      destruct (wire.ReadVarint_loop fuel (wire.set_pos r (wire.pos r + 1))
                  (result + b mod 128 * 2 ^ (7 * Z.of_nat j)) (7 * Z.of_nat (S j)))
        as [[v r']| | |].
      * cbn [wire.set_pos wire.data wire.pos] in IH.
        destruct IH as (Hv & Hd & Hp' & Hl); [intros; split; [lia|apply Hx3; lia]|].
        repeat split; try lia. exact Hd.
      * apply IH. intros; split; [lia|apply Hx3; lia].
      * apply IH. intros; split; [lia|apply Hx3; lia].
      * apply IH. intros; split; [lia|apply Hx3; lia].
Qed.

(** X3. From any cursor position that is not negative, ReadVarint either returns a
    value below 2^64 after consuming between 1 and 10 bytes, without moving past the
    end of the input and without changing the data, or fails with ErrUnexpectedEOF
    or ErrVarintOverflow; it never panics. *)
Theorem ReadVarint_bounds (r : wire.Reader) :
  0 <= wire.pos r ->
  match wire.ReadVarint r with
  | Ok (v, r') =>
    0 <= v < 2 ^ 64 /\ wire.data r' = wire.data r /\
    wire.pos r < wire.pos r' <= wire.pos r + 10 /\ wire.pos r' <= len (wire.data r)
  | Err e => e = ErrUnexpectedEOF \/ e = ErrVarintOverflow
  | _ => False
  end.
Proof.
  intros Hpos.
  pose proof (ReadVarint_loop_bounds 11 0 r 0 eq_refl ltac:(lia) Hpos) as H.
  change (7 * Z.of_nat 0) with 0 in H. unfold wire.ReadVarint.
  destruct (wire.ReadVarint_loop 11 r 0 0) as [[v r']| | |]; apply H; intros; simpl; lia.
Qed.

Lemma ReadVarint_bounds_witness :
  match wire.ReadVarint (rd [xac; x02; x07] 0) with
  | Ok (v, r') =>
    0 <= v < 2 ^ 64 /\ wire.data r' = [xac; x02; x07] /\
    0 < wire.pos r' <= 0 + 10 /\ wire.pos r' <= len [xac; x02; x07]
  | Err e => e = ErrUnexpectedEOF \/ e = ErrVarintOverflow
  | _ => False
  end.
Proof.
  apply (ReadVarint_bounds (rd [xac; x02; x07] 0)). simpl. lia.
Defined.

(** ** Zigzag numbers *)

Lemma ZigZagEncode_value (n : Z) :
  - 2 ^ 63 <= n < 2 ^ 63 ->
  wire.ZigZagEncode n = if n <? 0 then - 2 * n - 1 else 2 * n.
Proof.
  intros Hn. unfold wire.ZigZagEncode.
  rewrite Z.shiftl_mul_pow2, Z.shiftr_div_pow2 by lia.
  change (2 ^ 1) with 2.
  destruct (n <? 0) eqn:E.
  - replace (n / 2 ^ 63) with (-1) by (apply Z.div_unique with (r := n + 2 ^ 63); lia).
    rewrite lxor_m1. unfold uint64, int64.
    Z.to_euclidean_division_equations. lia.
  - rewrite Z.div_small by lia. rewrite Z.lxor_0_r. unfold uint64, int64.
    Z.to_euclidean_division_equations. lia.
Qed.

Lemma ZigZagDecode_value (u : Z) :
  0 <= u < 2 ^ 64 ->
  wire.ZigZagDecode u = if Z.even u then u / 2 else - (u / 2) - 1.
Proof.
  intros Hu. unfold wire.ZigZagDecode.
  rewrite land_1, Z.shiftr_div_pow2 by lia. change (2 ^ 1) with 2.
  assert (Hq : 0 <= u / 2 < 2 ^ 63).
  { split; [apply Z.div_pos; lia | apply Z.div_lt_upper_bound; lia]. }
  rewrite (int64_small (u / 2)) by lia.
  rewrite Zmod_even. destruct (Z.even u).
  - change (int64 (- int64 0)) with 0. apply Z.lxor_0_r.
  - change (int64 (- int64 1)) with (-1). apply lxor_m1.
Qed.

Lemma ZigZagDecode32_value (u : Z) :
  0 <= u < 2 ^ 32 ->
  wire.ZigZagDecode32 u = if Z.even u then u / 2 else - (u / 2) - 1.
Proof.
  intros Hu. unfold wire.ZigZagDecode32.
  rewrite land_1, Z.shiftr_div_pow2 by lia. change (2 ^ 1) with 2.
  assert (Hq : 0 <= u / 2 < 2 ^ 31).
  { split; [apply Z.div_pos; lia | apply Z.div_lt_upper_bound; lia]. }
  rewrite (int32_small (u / 2)) by lia.
  rewrite Zmod_even. destruct (Z.even u).
  - change (int32 (- int32 0)) with 0. apply Z.lxor_0_r.
  - change (int32 (- int32 1)) with (-1). apply lxor_m1.
Qed.

(** X4. ZigZagEncode maps an int64 n to 2n when n >= 0 and to -2n-1 when n < 0, and
    ZigZagEncode and ZigZagDecode are inverse to each other on every int64 and every
    uint64. *)
Theorem zigzag64_inverse (n u : Z) :
  - 2 ^ 63 <= n < 2 ^ 63 ->
  0 <= u < 2 ^ 64 ->
  wire.ZigZagEncode n = (if n <? 0 then - 2 * n - 1 else 2 * n) /\
  wire.ZigZagDecode (wire.ZigZagEncode n) = n /\
  wire.ZigZagEncode (wire.ZigZagDecode u) = u.
Proof.
  intros Hn Hu. split; [apply ZigZagEncode_value; exact Hn|]. split.
  - rewrite ZigZagEncode_value by exact Hn.
    destruct (n <? 0) eqn:E.
    + rewrite ZigZagDecode_value by lia.
      replace (- 2 * n - 1) with (1 + 2 * (- n - 1)) by lia.
      rewrite Z.even_add_mul_2. cbn [Z.even].
      replace ((1 + 2 * (- n - 1)) / 2) with (- n - 1)
        by (apply Z.div_unique with (r := 1); lia).
      lia.
    + rewrite ZigZagDecode_value by lia.
      replace (2 * n) with (0 + 2 * n) by lia.
      rewrite Z.even_add_mul_2. cbn [Z.even].
      replace ((0 + 2 * n) / 2) with n by (apply Z.div_unique with (r := 0); lia).
      reflexivity.
  - rewrite ZigZagDecode_value by exact Hu.
    pose proof (Z.div_mod u 2 ltac:(lia)) as Hdm. rewrite Zmod_even in Hdm.
    assert (Hq : 0 <= u / 2 < 2 ^ 63).
    { split; [apply Z.div_pos; lia | apply Z.div_lt_upper_bound; lia]. }
    destruct (Z.even u).
    + rewrite ZigZagEncode_value by lia.
      destruct (u / 2 <? 0) eqn:E; lia.
    + rewrite ZigZagEncode_value by lia.
      destruct (- (u / 2) - 1 <? 0) eqn:E; lia.
Qed.

Lemma zigzag64_inverse_witness :
  wire.ZigZagEncode (- 3) = (if - 3 <? 0 then - 2 * - 3 - 1 else 2 * - 3) /\
  wire.ZigZagDecode (wire.ZigZagEncode (- 3)) = - 3 /\
  wire.ZigZagEncode (wire.ZigZagDecode 18446744073709551615) = 18446744073709551615.
Proof.
  apply (zigzag64_inverse (- 3) 18446744073709551615); lia.
Defined.

(** X5. An int32 written by WriteZigZag32 is read back by ReadZigZag32 as the same
    number, with the cursor just after it, whatever bytes surround it; and
    ZigZagEncode32 undoes ZigZagDecode32 on every uint32. *)
Theorem zigzag32_wire_roundtrip (pre suf : list byte) (n u : Z) :
  - 2 ^ 31 <= n < 2 ^ 31 ->
  0 <= u < 2 ^ 32 ->
  wire.ReadZigZag32 (rd (wire.WriteZigZag32 pre n ++ suf) (len pre))
  = Ok (n, rd (wire.WriteZigZag32 pre n ++ suf) (len (wire.WriteZigZag32 pre n))) /\
  wire.ZigZagEncode32 (wire.ZigZagDecode32 u) = u.
Proof.
  intros Hn Hu. split.
  - unfold wire.ReadZigZag32, wire.WriteZigZag32.
    rewrite ReadVarint32_WriteVarint32 by (apply ZigZagEncode32_range; exact Hn).
    cbn [bind]. rewrite ZigZag32_roundtrip by exact Hn. reflexivity.
  - rewrite ZigZagDecode32_value by exact Hu.
    pose proof (Z.div_mod u 2 ltac:(lia)) as Hdm. rewrite Zmod_even in Hdm.
    assert (Hq : 0 <= u / 2 < 2 ^ 31).
    { split; [apply Z.div_pos; lia | apply Z.div_lt_upper_bound; lia]. }
    destruct (Z.even u).
    + rewrite ZigZagEncode32_value by lia.
      destruct (u / 2 <? 0) eqn:E; lia.
    + rewrite ZigZagEncode32_value by lia.
      destruct (- (u / 2) - 1 <? 0) eqn:E; lia.
Qed.

Lemma zigzag32_wire_roundtrip_witness :
  wire.ReadZigZag32 (rd (wire.WriteZigZag32 [xff] (- 2147483648) ++ [x00]) (len [xff]))
  = Ok (- 2147483648,
        rd (wire.WriteZigZag32 [xff] (- 2147483648) ++ [x00])
           (len (wire.WriteZigZag32 [xff] (- 2147483648)))) /\
  wire.ZigZagEncode32 (wire.ZigZagDecode32 4294967295) = 4294967295.
Proof.
  apply (zigzag32_wire_roundtrip [xff] [x00] (- 2147483648) 4294967295); lia.
Defined.

(** ** Byte ranges *)

Lemma len_slice {A} (l : list A) (lo hi : Z) :
  0 <= lo <= hi -> hi <= len l -> len (slice l lo hi) = hi - lo.
Proof.
  intros H1 H2. unfold slice, len in *.
  rewrite length_take, length_drop. lia.
Qed.

Lemma at_slice (l : list byte) (lo hi i : Z) :
  0 <= lo -> 0 <= i < hi - lo -> at_ (slice l lo hi) i = at_ l (lo + i).
Proof.
  intros H1 H2. unfold at_, slice.
  rewrite !nth_lookup.
  rewrite lookup_take_lt by lia. rewrite lookup_drop.
  replace (Z.to_nat lo + Z.to_nat i)%nat with (Z.to_nat (lo + i)) by lia.
  reflexivity.
Qed.

(** X6. For a cursor inside the data and 0 <= n < 2^62: when n bytes remain,
    ReadBytes returns exactly the n bytes at the cursor and advances the cursor by
    n, and Skip advances it in the same way; when fewer than n bytes remain, both
    fail with ErrUnexpectedEOF. *)
Theorem ReadBytes_in_range (r : wire.Reader) (n : Z) :
  0 <= wire.pos r <= len (wire.data r) ->
  len (wire.data r) < 2 ^ 62 ->
  0 <= n < 2 ^ 62 ->
  if wire.pos r + n <=? len (wire.data r) then
    exists bs,
      wire.ReadBytes r n = Ok (bs, wire.set_pos r (wire.pos r + n)) /\
      len bs = n /\
      (forall i, 0 <= i < n -> at_ bs i = at_ (wire.data r) (wire.pos r + i)) /\
      wire.Skip r n = Ok (wire.set_pos r (wire.pos r + n))
  else
    wire.ReadBytes r n = Err ErrUnexpectedEOF /\ wire.Skip r n = Err ErrUnexpectedEOF.
Proof.
  intros Hpos Hlen Hn. unfold wire.ReadBytes, wire.Skip.
  rewrite int_small by lia.
  destruct (wire.pos r + n <=? len (wire.data r)) eqn:E.
  - destruct (wire.pos r + n >? len (wire.data r)) eqn:E1; [lia|].
    destruct (wire.pos r + n <? wire.pos r) eqn:E2; [lia|].
    eexists. split; [reflexivity|]. split; [|split].
    + rewrite len_slice by lia. lia.
    + intros i Hi. apply at_slice; lia.
    + reflexivity.
  - destruct (wire.pos r + n >? len (wire.data r)) eqn:E1; [|lia].
    split; reflexivity.
Qed.

Lemma ReadBytes_in_range_witness :
  if wire.pos (rd [x01; x02; x03] 1) + 2 <=? len (wire.data (rd [x01; x02; x03] 1)) then
    exists bs,
      wire.ReadBytes (rd [x01; x02; x03] 1) 2
      = Ok (bs, wire.set_pos (rd [x01; x02; x03] 1) (wire.pos (rd [x01; x02; x03] 1) + 2)) /\
      len bs = 2 /\
      (forall i, 0 <= i < 2 ->
                 at_ bs i = at_ (wire.data (rd [x01; x02; x03] 1))
                                (wire.pos (rd [x01; x02; x03] 1) + i)) /\
      wire.Skip (rd [x01; x02; x03] 1) 2
      = Ok (wire.set_pos (rd [x01; x02; x03] 1) (wire.pos (rd [x01; x02; x03] 1) + 2))
  else
    wire.ReadBytes (rd [x01; x02; x03] 1) 2 = Err ErrUnexpectedEOF /\
    wire.Skip (rd [x01; x02; x03] 1) 2 = Err ErrUnexpectedEOF.
Proof.
  apply (ReadBytes_in_range (rd [x01; x02; x03] 1) 2).
  - unfold len. simpl. lia.
  - unfold len. simpl. lia.
  - lia.
Defined.

(** ** Alignment *)

Lemma pow2_land_pred (k : Z) : 0 <= k -> Z.land (2 ^ k) (2 ^ k - 1) = 0.
Proof.
  intros Hk. replace (2 ^ k - 1) with (Z.ones k) by (rewrite Z.ones_equiv; lia).
  rewrite Z.land_ones by lia. apply Z.mod_same. 
  pose proof (Z.pow_pos_nonneg 2 k). lia.
Qed.

(** X7. AlignTo with a power of two 2^k as boundary keeps the data, never moves the
    cursor backwards, by 2^k or more, or past the end of the input. Afterwards the
    cursor is a multiple of the boundary, unless the padding would run past the end
    of the input, in which case the cursor is left where it was. Aligning a second
    time changes nothing. *)
Theorem AlignTo_aligned (r : wire.Reader) (k : Z) :
  0 <= k < 62 ->
  0 <= wire.pos r <= len (wire.data r) ->
  len (wire.data r) < 2 ^ 62 ->
  let r' := wire.AlignTo r (2 ^ k) in
  wire.data r' = wire.data r /\
  wire.pos r <= wire.pos r' < wire.pos r + 2 ^ k /\
  wire.pos r' <= len (wire.data r) /\
  (wire.pos r' mod 2 ^ k = 0 \/
   wire.pos r' = wire.pos r /\
   len (wire.data r) < wire.pos r + (2 ^ k - wire.pos r mod 2 ^ k)) /\
  wire.AlignTo r' (2 ^ k) = r'.
Proof.
  intros Hk Hpos Hlen.
  assert (Hp : 0 < 2 ^ k) by (apply Z.pow_pos_nonneg; lia).
  assert (Hp62 : 2 ^ k < 2 ^ 62) by (apply Z.pow_lt_mono_r; lia).
  assert (Hvalid : (2 ^ k <=? 0) || negb (Z.land (2 ^ k) (2 ^ k - 1) =? 0) = false).
  { rewrite pow2_land_pred by lia. destruct (2 ^ k <=? 0) eqn:E; [lia|reflexivity]. }
  assert (Hstep : forall q : wire.Reader,
    0 <= wire.pos q <= len (wire.data q) -> len (wire.data q) < 2 ^ 62 ->
    wire.AlignTo q (2 ^ k) =
    if wire.pos q mod 2 ^ k =? 0 then q
    else if wire.pos q + (2 ^ k - wire.pos q mod 2 ^ k) <=? len (wire.data q)
         then wire.set_pos q (wire.pos q + (2 ^ k - wire.pos q mod 2 ^ k)) else q).
  { intros q Hq Hql. unfold wire.AlignTo. rewrite Hvalid.
    rewrite Z.rem_mod_nonneg by lia.
    pose proof (Z.mod_pos_bound (wire.pos q) (2 ^ k) Hp).
    destruct (wire.pos q mod 2 ^ k =? 0); cbn [negb]; [reflexivity|].
    rewrite int_small by lia. reflexivity. }
  intros r'. unfold r'. rewrite (Hstep r Hpos Hlen).
  pose proof (Z.mod_pos_bound (wire.pos r) (2 ^ k) Hp) as Hm.
  destruct (wire.pos r mod 2 ^ k =? 0) eqn:E0.
  - repeat split; try lia.
    rewrite (Hstep r Hpos Hlen), E0. reflexivity.
  - destruct (wire.pos r + (2 ^ k - wire.pos r mod 2 ^ k) <=? len (wire.data r)) eqn:E1.
    + cbn [wire.set_pos wire.data wire.pos].
      assert (Hal : (wire.pos r + (2 ^ k - wire.pos r mod 2 ^ k)) mod 2 ^ k = 0).
      { pose proof (Z.div_mod (wire.pos r) (2 ^ k) ltac:(lia)) as Hdm.
        replace (wire.pos r + (2 ^ k - wire.pos r mod 2 ^ k))
          with ((wire.pos r / 2 ^ k + 1) * 2 ^ k) by lia.
        apply Z.mod_mul. lia. }
      repeat split; try lia.
      rewrite Hstep by (cbn [wire.set_pos wire.data wire.pos]; lia).
      cbn [wire.set_pos wire.data wire.pos]. rewrite Hal. reflexivity.
    + repeat split; try lia.
      rewrite (Hstep r Hpos Hlen), E0, E1. reflexivity.
Qed.

Lemma AlignTo_aligned_witness :
  let r' := wire.AlignTo (rd [x01; x02; x03; x04; x05] 1) (2 ^ 2) in
  wire.data r' = wire.data (rd [x01; x02; x03; x04; x05] 1) /\
  wire.pos (rd [x01; x02; x03; x04; x05] 1) <= wire.pos r'
    < wire.pos (rd [x01; x02; x03; x04; x05] 1) + 2 ^ 2 /\
  wire.pos r' <= len (wire.data (rd [x01; x02; x03; x04; x05] 1)) /\
  (wire.pos r' mod 2 ^ 2 = 0 \/
   wire.pos r' = wire.pos (rd [x01; x02; x03; x04; x05] 1) /\
   len (wire.data (rd [x01; x02; x03; x04; x05] 1))
   < wire.pos (rd [x01; x02; x03; x04; x05] 1)
     + (2 ^ 2 - wire.pos (rd [x01; x02; x03; x04; x05] 1) mod 2 ^ 2)) /\
  wire.AlignTo r' (2 ^ 2) = r'.
Proof.
  apply (AlignTo_aligned (rd [x01; x02; x03; x04; x05] 1) 2).
  - lia.
  - unfold len. simpl. lia.
  - unfold len. simpl. lia.
Defined.

(** ** Doubles *)

(** X8. The 8 bytes WriteDouble writes for a 64-bit pattern are read back by
    ReadDouble as the same pattern, with the cursor just after them, whatever bytes
    surround them; when only a proper prefix of the 8 bytes is left in the input,
    ReadDouble fails with ErrUnexpectedEOF. *)
Theorem double_roundtrip (pre suf : list byte) (bits : Z) (k : nat) :
  0 <= bits < 2 ^ 64 ->
  len (wire.WriteDouble pre bits ++ suf) < 2 ^ 63 ->
  (k < 8)%nat ->
  wire.ReadDouble (rd (wire.WriteDouble pre bits ++ suf) (len pre))
  = Ok (bits, rd (wire.WriteDouble pre bits ++ suf) (len (wire.WriteDouble pre bits))) /\
  wire.ReadDouble (rd (pre ++ take k (wire.le_bytes 8 bits)) (len pre))
  = Err ErrUnexpectedEOF.
Proof.
  intros Hb Hlen Hk. split; [apply ReadDouble_frame; assumption|].
  unfold wire.ReadDouble. cbn [wire.data wire.pos].
  unfold wire.WriteDouble in Hlen. rewrite !len_app in Hlen.
  change (len (wire.le_bytes 8 bits)) with 8 in Hlen.
  pose proof (len_nonneg pre). pose proof (len_nonneg suf).
  rewrite int_small by lia. rewrite len_app.
  assert (Ht : len (take k (wire.le_bytes 8 bits)) = Z.of_nat k).
  { unfold len. rewrite length_take. change (length (wire.le_bytes 8 bits)) with 8%nat. lia. }
  rewrite Ht.
  destruct (len pre + 8 >? len pre + Z.of_nat k) eqn:E; [reflexivity|lia].
Qed.

Lemma double_roundtrip_witness :
  wire.ReadDouble (rd (wire.WriteDouble [xff] 4609434218613702656 ++ [x00]) (len [xff]))
  = Ok (4609434218613702656,
        rd (wire.WriteDouble [xff] 4609434218613702656 ++ [x00])
           (len (wire.WriteDouble [xff] 4609434218613702656))) /\
  wire.ReadDouble (rd ([xff] ++ take 7 (wire.le_bytes 8 4609434218613702656)) (len [xff]))
  = Err ErrUnexpectedEOF.
Proof.
  apply (double_roundtrip [xff] [x00] 4609434218613702656 7).
  - lia.
  - unfold len. simpl. lia.
  - lia.
Defined.

(** ** Strings *)

Lemma latin1_bytes_back (s : GoString) :
  Forall (fun r => 0 <= r <= 255) s -> string_of_runes (map u8 (map to_byte s)) = s.
Proof.
  unfold string_of_runes.
  induction 1 as [|r s Hr _ IH]; simpl; [reflexivity|].
  rewrite IH. rewrite u8_to_byte_small by lia.
  unfold is_scalar.
  destruct ((0 <=? r) && (r <? 55296)) eqn:E; [reflexivity|lia].
Qed.

(** X9. A string whose characters are all in U+0000..U+00FF does not need UTF-16,
    and the bytes WriteOneByteString writes for it are read back by
    ReadOneByteString, given the length OneByteStringLength(s), as the same string,
    with the cursor just after them. *)
Theorem one_byte_string_roundtrip (pre suf : list byte) (s : GoString) :
  Forall (fun r => 0 <= r <= 255) s ->
  len (wire.WriteOneByteString pre s ++ suf) < 2 ^ 63 ->
  wire.NeedsUTF16 s = false /\
  wire.ReadOneByteString (rd (wire.WriteOneByteString pre s ++ suf) (len pre))
    (wire.OneByteStringLength s)
  = Ok (s, rd (wire.WriteOneByteString pre s ++ suf) (len (wire.WriteOneByteString pre s))).
Proof.
  intros Hs Hlen. split.
  - unfold wire.NeedsUTF16. apply not_true_is_false. intros H.
    apply existsb_exists in H as (r & Hin & Hr).
    rewrite Forall_forall in Hs. apply list_elem_of_In in Hin. specialize (Hs r Hin). lia.
  - unfold wire.ReadOneByteString, wire.OneByteStringLength, wire.WriteOneByteString in *.
    pose proof (len_nonneg s).
    destruct (len s <? 0) eqn:E1; [lia|].
    destruct (len s =? 0) eqn:E2.
    + assert (s = []) by (destruct s; [reflexivity | unfold len in *; simpl in *; lia]).
      subst s. cbn [map]. rewrite app_nil_r. reflexivity.
    + rewrite <- app_assoc in *.
      replace (len s) with (len (map to_byte s)) by (unfold len; rewrite length_map; reflexivity).
      rewrite ReadBytes_frame by exact Hlen. cbn [bind].
      rewrite latin1_bytes_back by exact Hs. reflexivity.
Qed.

Lemma one_byte_string_roundtrip_witness :
  wire.NeedsUTF16 [99; 97; 102; 233] = false /\
  wire.ReadOneByteString
    (rd (wire.WriteOneByteString [xff] [99; 97; 102; 233] ++ [x00]) (len [xff]))
    (wire.OneByteStringLength [99; 97; 102; 233])
  = Ok ([99; 97; 102; 233],
        rd (wire.WriteOneByteString [xff] [99; 97; 102; 233] ++ [x00])
           (len (wire.WriteOneByteString [xff] [99; 97; 102; 233]))).
Proof.
  apply (one_byte_string_roundtrip [xff] [x00] [99; 97; 102; 233]).
  - repeat constructor; lia.
  - unfold len. simpl. lia.
Defined.

Lemma WriteTwoByteString_pad (w : list byte) (s : GoString) :
  wire.WriteTwoByteString w s
  = w ++ (if Z.odd (len w) then [x00] else []) ++ flat_map wire.utf16_units s.
Proof.
  unfold wire.WriteTwoByteString. pose proof (len_nonneg w).
  rewrite Z.rem_mod_nonneg by lia. rewrite Zmod_odd.
  destruct (Z.odd (len w)); cbn [Z.eqb negb app].
  - rewrite <- app_assoc. reflexivity.
  - reflexivity.
Qed.

(** X10. For a non-empty string of Unicode scalar values, WriteTwoByteString writes
    one padding byte when the buffer length is odd and then 2 * UTF16Length(s)
    bytes; ReadTwoByteString, started where the writer started and given
    UTF16Length(s) code units, skips the padding and returns the same string,
    surrogate pairs included. *)
Theorem two_byte_string_roundtrip (pre suf : list byte) (s : GoString) :
  scalars s = true ->
  s <> [] ->
  len (wire.WriteTwoByteString pre s ++ suf) < 2 ^ 62 ->
  len (wire.WriteTwoByteString pre s)
  = len pre + (if Z.odd (len pre) then 1 else 0) + 2 * wire.UTF16Length s /\
  wire.ReadTwoByteString (rd (wire.WriteTwoByteString pre s ++ suf) (len pre))
    (wire.UTF16Length s)
  = Ok (s, rd (wire.WriteTwoByteString pre s ++ suf) (len (wire.WriteTwoByteString pre s))).
Proof.
  intros Hsc Hne Hlen.
  rewrite WriteTwoByteString_pad in *.
  rewrite flat_map_utf16_units in *. rewrite UTF16Length_units.
  set (us := flat_map utf16_encode s) in *.
  pose proof (len_flat_le_bytes us) as Hfl.
  assert (Hus : 0 < len us).
  { unfold us. destruct s as [|r s]; [contradiction|]. cbn [flat_map]. len_norm.
    pose proof (len_nonneg (flat_map utf16_encode s)).
    assert (0 < len (utf16_encode r)); [|lia].
    unfold utf16_encode. destruct (r <=? 65535); len_norm; lia. }
  set (pad := if Z.odd (len pre) then [x00] else []) in *.
  set (p := if Z.odd (len pre) then 1 else 0).
  assert (Hpad : len pad = p).
  { unfold pad, p. destruct (Z.odd (len pre)); reflexivity. }
  assert (Hp : 0 <= p <= 1) by (unfold p; destruct (Z.odd (len pre)); lia).
  pose proof (len_nonneg pre) as Hpre. pose proof (len_nonneg suf) as Hsuf.
  rewrite <- !app_assoc in Hlen. rewrite !len_app, Hfl, Hpad in Hlen.
  split.
  { rewrite !len_app, Hfl, Hpad. lia. }
  unfold wire.ReadTwoByteString.
  destruct (len us <? 0) eqn:E1; [lia|].
  destruct (len us =? 0) eqn:E2; [lia|].
  rewrite <- !app_assoc.
  set (D := pre ++ pad ++ flat_map (wire.le_bytes 2) us ++ suf).
  assert (HD : len D = len pre + p + 2 * len us + len suf).
  { unfold D. rewrite !len_app, Hfl, Hpad. lia. }
  assert (Halign : wire.AlignTo (rd D (len pre)) 2 = rd D (len pre + p)).
  { unfold wire.AlignTo. cbn [wire.data wire.pos].
    change ((2 <=? 0) || negb (Z.land 2 (2 - 1) =? 0)) with false. cbn iota.
    rewrite Z.rem_mod_nonneg by lia. rewrite Zmod_odd.
    unfold p in *.
    destruct (Z.odd (len pre)); cbn [Z.eqb negb].
    - change (2 - 1) with 1. rewrite int_small by lia.
      destruct (len pre + 1 <=? len D) eqn:E; [reflexivity|lia].
    - f_equal. lia. }
  rewrite Halign. cbn [wire.data wire.pos].
  rewrite (int_small (len us * 2)) by lia.
  rewrite int_small by lia.
  destruct (len pre + p + len us * 2 >? len D) eqn:E3; [lia|].
  replace (Z.to_nat (len us)) with (length us) by (unfold len; lia).
  unfold D. rewrite (app_assoc pre pad).
  replace (len pre + p) with (len (pre ++ pad)) by (rewrite len_app, Hpad; reflexivity).
  rewrite read_u16s_frame by apply Forall_flat_utf16. cbn [bind].
  unfold us at 1. rewrite utf16_Decode_encode by exact Hsc.
  rewrite string_of_scalars by exact Hsc.
  do 3 f_equal. rewrite !len_app, Hfl. lia.
Qed.

Lemma two_byte_string_roundtrip_witness :
  len (wire.WriteTwoByteString [xff] [104; 8364; 128512])
  = len [xff] + (if Z.odd (len [xff]) then 1 else 0)
    + 2 * wire.UTF16Length [104; 8364; 128512] /\
  wire.ReadTwoByteString
    (rd (wire.WriteTwoByteString [xff] [104; 8364; 128512] ++ [x00]) (len [xff]))
    (wire.UTF16Length [104; 8364; 128512])
  = Ok ([104; 8364; 128512],
        rd (wire.WriteTwoByteString [xff] [104; 8364; 128512] ++ [x00])
           (len (wire.WriteTwoByteString [xff] [104; 8364; 128512]))).
Proof.
  apply (two_byte_string_roundtrip [xff] [x00] [104; 8364; 128512]).
  - reflexivity.
  - discriminate.
  - unfold len. simpl. lia.
Defined.

(** ** The options and the header *)

Lemma apply_options_fields (opts : list Option) :
  forall d0 : Deserializer,
    reader (fold_left apply_Option opts d0) = reader d0 /\
    version (fold_left apply_Option opts d0) = version d0 /\
    depth (fold_left apply_Option opts d0) = depth d0 /\
    objects (fold_left apply_Option opts d0) = objects d0 /\
    heap (fold_left apply_Option opts d0) = heap d0.
Proof.
  induction opts as [|o opts IH]; intros d0; cbn [fold_left].
  - repeat split.
  - destruct (IH (apply_Option d0 o)) as (H1 & H2 & H3 & H4 & H5).
    rewrite H1, H2, H3, H4, H5. destruct o; repeat split.
Qed.

Lemma NewDeserializer_reader (D : list byte) (opts : list Option) :
  reader (NewDeserializer D opts) = rd D 0.
Proof.
  unfold NewDeserializer. rewrite (proj1 (apply_options_fields opts _)). reflexivity.
Qed.

Lemma fold_left_last_option (opts : list Option) (o : Option) (d0 : Deserializer) :
  fold_left apply_Option (opts ++ [o]) d0 = apply_Option (fold_left apply_Option opts d0) o.
Proof.
  rewrite fold_left_app. reflexivity.
Qed.

Lemma Deserialize_root_with (fmt_g : Z -> GoString) (fuel : nat) (body : list byte)
      (opts : list Option) :
  (maxSize (NewDeserializer (writeHeader [] ++ body) opts) >? 0)
  && (len (writeHeader [] ++ body) >? maxSize (NewDeserializer (writeHeader [] ++ body) opts))
  = false ->
  Deserialize fmt_g fuel (writeHeader [] ++ body) opts =
  let* (v, d) := readValue fmt_g fuel (at_root_with (writeHeader [] ++ body) opts) in
  Ok (v, heap d).
Proof.
  intros Hsize. unfold Deserialize, Deserializer_Deserialize.
  unfold wire.Len. rewrite NewDeserializer_reader. cbn [wire.data]. rewrite Hsize.
  rewrite (readHeader_frame _ body) by apply NewDeserializer_reader.
  reflexivity.
Qed.

(** X11. Deserialize of an empty input, of the single byte 0xFF, or of an input
    whose first byte is not 0xFF fails with ErrInvalidHeader, for any options that
    set no size limit. *)
Theorem invalid_header (fmt_g : Z -> GoString) (fuel : nat) (data : list byte)
        (opts : list Option) :
  data = [] \/ data = [tagVersion] \/ (exists b rest, data = b :: rest /\ b <> tagVersion) ->
  Forall (fun o => match o with WithMaxSize _ => False | _ => True end) opts ->
  Deserialize fmt_g fuel data opts = Err ErrInvalidHeader.
Proof.
  intros Hdata Hopts. unfold Deserialize, Deserializer_Deserialize.
  assert (Hsz : maxSize (NewDeserializer data opts) = 0).
  { unfold NewDeserializer.
    set (d0 := {| reader := wire.NewReader data; version := 0; maxDepth := 1000;
                  maxSize := 0; maxArrayLen := DefaultMaxArrayLen;
                  maxObjectKeys := DefaultMaxObjectKeys; depth := 0; objects := [];
                  heap := [] |}).
    assert (H0 : maxSize d0 = 0) by reflexivity.
    clearbody d0. revert d0 H0.
    induction Hopts as [|o opts Ho _ IH]; intros d0 H0; cbn [fold_left]; [exact H0|].
    apply IH. destruct o; try contradiction; exact H0. }
  rewrite Hsz. cbn [Z.gtb Z.compare andb].
  unfold readHeader. rewrite NewDeserializer_reader.
  destruct Hdata as [->|[->|(b & rest & -> & Hb)]].
  - reflexivity.
  - reflexivity.
  - unfold wire.ReadByte. cbn [wire.data wire.pos]. len_norm.
    pose proof (len_nonneg rest).
    destruct (0 >=? 1 + len rest) eqn:E; [lia|].
    change (at_ (b :: rest) 0) with b. cbn [wrap_err bind].
    destruct (u8 b =? u8 tagVersion) eqn:Eb.
    + exfalso. apply Hb. apply u8_inj. lia.
    + reflexivity.
Qed.

Lemma invalid_header_witness :
  Deserialize (fun _ => []) 3 [x0f; xff; x30] [WithMaxDepth 5] = Err ErrInvalidHeader.
Proof.
  apply (invalid_header (fun _ => []) 3 [x0f; xff; x30] [WithMaxDepth 5]).
  - right. right. exists x0f, [xff; x30]. split; [reflexivity | discriminate].
  - repeat constructor.
Defined.

Lemma no_size_option (data : list byte) (opts : list Option) :
  Forall (fun o => match o with WithMaxSize _ => False | _ => True end) opts ->
  maxSize (NewDeserializer data opts) = 0.
Proof.
  intros Hopts. unfold NewDeserializer.
  set (d0 := {| reader := wire.NewReader data; version := 0; maxDepth := 1000;
                maxSize := 0; maxArrayLen := DefaultMaxArrayLen;
                maxObjectKeys := DefaultMaxObjectKeys; depth := 0; objects := [];
                heap := [] |}).
  assert (H0 : maxSize d0 = 0) by reflexivity.
  clearbody d0. revert d0 H0.
  induction Hopts as [|o opts Ho _ IH]; intros d0 H0; cbn [fold_left]; [exact H0|].
  apply IH. destruct o; try contradiction; exact H0.
Qed.

(** X12. Deserialize fails when the version in the header, a varint written by
    WriteVarint, is below 13 or above 15, whatever follows the header: with
    ErrUnsupportedVersion when the version is below 2^32, and with ErrInvalidHeader
    when it is 2^32 or more (ReadVarint32 overflows and readHeader reports that as
    an invalid header). *)
Theorem unsupported_version (fmt_g : Z -> GoString) (fuel : nat) (v : Z) (rest : list byte) :
  0 <= v < 2 ^ 64 ->
  v < MinVersion \/ MaxVersion < v ->
  Deserialize fmt_g fuel (wire.WriteVarint [tagVersion] v ++ rest) []
  = if v <? 2 ^ 32 then Err ErrUnsupportedVersion else Err ErrInvalidHeader.
Proof.
  intros Hv Hout. unfold Deserialize, Deserializer_Deserialize.
  cbn [NewDeserializer fold_left maxSize Z.gtb Z.compare andb].
  unfold readHeader. cbn [reader].
  destruct (WriteVarint_prefix [tagVersion] v) as [body Hbody].
  assert (Hb : wire.ReadByte (wire.NewReader (wire.WriteVarint [tagVersion] v ++ rest))
               = Ok (tagVersion, rd (wire.WriteVarint [tagVersion] v ++ rest)
                                    (len [tagVersion]))).
  { unfold wire.NewReader. rewrite Hbody.
    change (([tagVersion] ++ body) ++ rest) with ([] ++ tagVersion :: (body ++ rest)).
    change 0 with (len (@nil byte)). rewrite ReadByte_frame. reflexivity. }
  rewrite Hb. cbn [wrap_err bind].
  change (negb (u8 tagVersion =? u8 tagVersion)) with false. cbn iota.
  change (reader (set_reader ?d ?r)) with r.
  unfold wire.ReadVarint32. rewrite ReadVarint_WriteVarint by exact Hv. cbn [bind].
  unfold wire.MaxUint32.
  destruct (v <? 2 ^ 32) eqn:E32.
  - destruct (v >? 4294967295) eqn:E; [lia|]. cbn [wrap_err bind].
    rewrite uint32_small by lia.
    change (reader (set_reader ?d ?r)) with r.
    unfold MinVersion, MaxVersion in *.
    destruct ((v <? 13) || (v >? 15)) eqn:E'; [reflexivity|].
    apply orb_false_iff in E'. lia.
  - destruct (v >? 4294967295) eqn:E; [reflexivity|lia].
Qed.

Lemma unsupported_version_witness :
  (Deserialize (fun _ => []) 1 (wire.WriteVarint [tagVersion] 16 ++ [tagNull]) []
   = if 16 <? 2 ^ 32 then Err ErrUnsupportedVersion else Err ErrInvalidHeader) /\
  (Deserialize (fun _ => []) 1 (wire.WriteVarint [tagVersion] (2 ^ 32 + 15) ++ [tagNull]) []
   = if 2 ^ 32 + 15 <? 2 ^ 32 then Err ErrUnsupportedVersion else Err ErrInvalidHeader).
Proof.
  split.
  - apply (unsupported_version (fun _ => []) 1 16 [tagNull]).
    + lia.
    + right. reflexivity.
  - apply (unsupported_version (fun _ => []) 1 (2 ^ 32 + 15) [tagNull]).
    + lia.
    + right. reflexivity.
Defined.

(** X13. With WithMaxSize(n), n > 0, as the last option, Deserialize rejects every
    input longer than n bytes with ErrMaxSizeExceeded, whatever the input holds. *)
Theorem max_size_enforced (fmt_g : Z -> GoString) (fuel : nat) (data : list byte)
        (opts : list Option) (n : Z) :
  0 < n < len data ->
  Deserialize fmt_g fuel data (opts ++ [WithMaxSize n]) = Err ErrMaxSizeExceeded.
Proof.
  intros Hn. unfold Deserialize, Deserializer_Deserialize, wire.Len.
  rewrite NewDeserializer_reader. cbn [wire.data].
  unfold NewDeserializer. rewrite fold_left_last_option. cbn [apply_Option maxSize].
  destruct (n >? 0) eqn:E1; [|lia].
  destruct (len data >? n) eqn:E2; [|lia].
  reflexivity.
Qed.

Lemma max_size_enforced_witness :
  Deserialize (fun _ => []) 3 [xff; x0f; x30] ([WithMaxDepth 5] ++ [WithMaxSize 2])
  = Err ErrMaxSizeExceeded.
Proof.
  apply (max_size_enforced (fun _ => []) 3 [xff; x0f; x30] [WithMaxDepth 5] 2).
  unfold len. simpl. lia.
Defined.

(** X14. With WithMaxArrayLen(m), a dense or a sparse array at the root whose
    declared length is above m is rejected with ErrMalformedData as soon as the
    length is read, whatever follows it. *)
Theorem max_array_len_enforced (fmt_g : Z -> GoString) (fuel : nat) (tag : byte)
        (m L : Z) (rest : list byte) :
  tag = tagBeginDenseArray \/ tag = tagBeginSparseArray ->
  m < L < 2 ^ 32 ->
  0 <= L ->
  Deserialize fmt_g (S fuel)
    (wire.WriteVarint32 (writeHeader [] ++ [tag]) L ++ rest) [WithMaxArrayLen m]
  = Err ErrMalformedData.
Proof.
  intros Htag HL HL0.
  destruct (WriteVarint_prefix (writeHeader [] ++ [tag]) (uint64 L)) as [body Hbody].
  set (D := wire.WriteVarint32 (writeHeader [] ++ [tag]) L) in *.
  assert (HD : D ++ rest = writeHeader [] ++ ([tag] ++ body ++ rest)).
  { unfold D, wire.WriteVarint32. rewrite Hbody, <- !app_assoc. reflexivity. }
  rewrite HD at 1. rewrite Deserialize_root_with by reflexivity. rewrite <- HD.
  assert (Hnz : (u8 tag =? 0) = false) by (destruct Htag as [->| ->]; reflexivity).
  rewrite (readValue_tagged fmt_g fuel _ (writeHeader []) D rest tag);
    [| unfold D, wire.WriteVarint32; rewrite Hbody; eexists; reflexivity
     | reflexivity | exact Hnz | cbn; lia].
  assert (Hrd : forall d0 : Deserializer,
    wire.ReadVarint32 (reader (set_reader d0 (rd (D ++ rest) (len (writeHeader [] ++ [tag])))))
    = Ok (L, rd (D ++ rest) (len D))).
  { intros d0. change (reader (set_reader d0 ?r)) with r. unfold D.
    apply ReadVarint32_WriteVarint32. lia. }
  destruct Htag as [->| ->]; cbn [readValue_switch].
  - unfold readDenseArray. rewrite Hrd. cbn [bind].
    change (maxArrayLen (set_reader ?x ?r)) with (maxArrayLen x).
    rewrite int_small by lia.
    change (maxArrayLen _) with m.
    destruct (L >? m) eqn:E; [reflexivity|lia].
  - unfold readSparseArray. rewrite Hrd. cbn [bind].
    change (maxArrayLen (set_reader ?x ?r)) with (maxArrayLen x).
    rewrite int_small by lia.
    change (maxArrayLen _) with m.
    destruct (L >? m) eqn:E; [reflexivity|lia].
Qed.

Lemma max_array_len_enforced_witness :
  Deserialize (fun _ => []) 1
    (wire.WriteVarint32 (writeHeader [] ++ [tagBeginDenseArray]) 3 ++ [x30; x30; x30])
    [WithMaxArrayLen 2]
  = Err ErrMalformedData.
Proof.
  apply (max_array_len_enforced (fun _ => []) 0 tagBeginDenseArray 2 3 [x30; x30; x30]).
  - left. reflexivity.
  - lia.
  - lia.
Defined.

(** ** The depth limit and object references *)

Lemma readValue_too_deep (fmt_g : Z -> GoString) (j : nat) :
  forall (fuel : nat) (d : Deserializer) (w rest : list byte),
    (j < fuel)%nat ->
    reader d = rd (w ++ nested_arrays j ++ rest) (len w) ->
    depth d + Z.of_nat j = maxDepth d ->
    1 <= maxArrayLen d ->
    readValue fmt_g fuel d = Err ErrMaxDepthExceeded.
Proof.
  induction j as [|j IH]; intros fuel d w rest Hf Hr Hd Hmax.
  - destruct fuel as [|fuel]; [lia|]. cbn [readValue].
    change (depth (set_depth d (depth d + 1))) with (depth d + 1).
    change (maxDepth (set_depth d (depth d + 1))) with (maxDepth d).
    destruct (depth d + 1 >? maxDepth d) eqn:E; [reflexivity|lia].
  - destruct fuel as [|fuel]; [lia|].
    cbn [nested_arrays] in Hr.
    set (D := w ++ tagBeginDenseArray :: x01 :: nested_arrays j ++ rest) in *.
    assert (HD : D = ((w ++ [tagBeginDenseArray]) ++ [x01]) ++ nested_arrays j ++ rest).
    { unfold D. rewrite <- !app_assoc. reflexivity. }
    rewrite (readValue_tagged fmt_g fuel d w D [] tagBeginDenseArray);
      [| unfold D; eexists; rewrite <- app_assoc; reflexivity
       | rewrite app_nil_r; exact Hr | reflexivity | lia].
    rewrite app_nil_r. cbn [readValue_switch]. unfold readDenseArray.
    change (reader (set_reader ?x ?r)) with r.
    assert (Hv : wire.ReadVarint32 (rd D (len (w ++ [tagBeginDenseArray])))
                 = Ok (1, rd D (len ((w ++ [tagBeginDenseArray]) ++ [x01])))).
    { rewrite HD.
      change ((w ++ [tagBeginDenseArray]) ++ [x01])
        with (wire.WriteVarint32 (w ++ [tagBeginDenseArray]) 1).
      apply ReadVarint32_WriteVarint32. lia. }
    rewrite Hv. cbn [bind].
    change (maxArrayLen (set_reader ?x ?r)) with (maxArrayLen x).
    change (maxArrayLen (set_reader ?x ?r)) with (maxArrayLen x).
    change (maxArrayLen (set_depth ?x ?r)) with (maxArrayLen x).
    change (int 1) with 1.
    destruct (1 >? maxArrayLen d) eqn:E; [lia|].
    unfold alloc.
    destruct fuel as [|fuel]; [lia|].
    cbn [readDenseArray_elems]. change (0 <? 1) with true. cbn iota.
    rewrite (IH (S fuel) _ ((w ++ [tagBeginDenseArray]) ++ [x01]) rest).
    + reflexivity.
    + lia.
    + cbn [reader register set_objects set_heap set_reader]. rewrite HD. reflexivity.
    + cbn [depth maxDepth register set_objects set_heap set_reader set_depth]. lia.
    + exact Hmax.
Qed.

Lemma Deserialize_root_depth (fmt_g : Z -> GoString) (fuel : nat) (body : list byte) (m : Z) :
  Deserialize fmt_g fuel (writeHeader [] ++ body) [WithMaxDepth m] =
  let* (v, d) :=
    readValue fmt_g fuel (at_root_with (writeHeader [] ++ body) [WithMaxDepth m]) in
  Ok (v, heap d).
Proof.
  unfold Deserialize, Deserializer_Deserialize, NewDeserializer.
  cbn [fold_left apply_Option maxSize Z.gtb Z.compare andb].
  rewrite (readHeader_frame _ body) by reflexivity.
  reflexivity.
Qed.

(** X15. With WithMaxDepth(m), an input that opens m dense arrays of one element
    inside one another is rejected with ErrMaxDepthExceeded when the value at depth
    m + 1 is about to be read, whatever bytes follow. *)
Theorem max_depth_enforced (fmt_g : Z -> GoString) (fuel m : nat) (rest : list byte) :
  (m < fuel)%nat ->
  Deserialize fmt_g fuel (writeHeader [] ++ nested_arrays m ++ rest)
    [WithMaxDepth (Z.of_nat m)]
  = Err ErrMaxDepthExceeded.
Proof.
  intros Hf. rewrite Deserialize_root_depth.
  rewrite (readValue_too_deep fmt_g m fuel _ (writeHeader []) rest); try reflexivity.
  - exact Hf.
  - cbn. unfold DefaultMaxArrayLen. lia.
Qed.

Lemma max_depth_enforced_witness :
  Deserialize (fun _ => []) 3 (writeHeader [] ++ nested_arrays 2 ++ [x30; x24; x00; x01])
    [WithMaxDepth (Z.of_nat 2)]
  = Err ErrMaxDepthExceeded.
Proof.
  apply (max_depth_enforced (fun _ => []) 3 2 [x30; x24; x00; x01]). lia.
Defined.

Lemma set_reader_back (d : Deserializer) (r1 r2 : wire.Reader) :
  set_depth (set_reader (set_reader (set_depth d (depth d + 1)) r1) r2)
    (depth (set_reader (set_reader (set_depth d (depth d + 1)) r1) r2) - 1)
  = set_reader d r2.
Proof.
  destruct d. unfold set_depth, set_reader. simpl. f_equal. lia.
Qed.



(** ** Around the root value *)

(** What the serializer writes for a scalar decodes to it, whatever bytes
    follow. *)
Lemma trailing_bytes_after_scalar (fmt_g : Z -> GoString) (fw fuel : nat) (v : Value)
        (bytes suf : list byte) :
  wire_scalar v = true ->
  Serialize (S fw) [] v = Ok bytes ->
  len (bytes ++ suf) < 2 ^ 63 ->
  Deserialize fmt_g (S fuel) (bytes ++ suf) [] = Ok (v, []).
Proof.
  intros Hv HS Hlen. unfold Serialize in HS.
  destruct (scalar_prefix fw [] (writeHeader []) bytes v Hv HS) as [body Hbody].
  assert (HD : bytes ++ suf = writeHeader [] ++ (scalar_tag v :: body ++ suf)).
  { rewrite Hbody, <- app_assoc. reflexivity. }
  rewrite HD at 1. rewrite Deserialize_root. rewrite <- HD.
  rewrite (readValue_scalar fmt_g fuel fw [] (at_root (bytes ++ suf)) (writeHeader [])
             bytes suf v Hv HS Hlen); [| reflexivity | cbn; lia].
  cbn [bind]. rewrite after_value_heap. reflexivity.
Qed.

(** X17. Deserialize reads one value and ignores the bytes after it: Serialize
    succeeds on a scalar, and its result followed by arbitrary bytes (fewer than
    2^63 bytes in all) decodes to that scalar, without an error. Here a scalar is
    null, undefined, a boolean, a hole, an Int32, a Uint32, a Double, a BigInt below
    2^62 bytes, or a string of Unicode scalar values, shorter than 2^32 on the wire,
    that is all ASCII or has a character above U+00FF; a string whose non-ASCII
    characters are all in U+0080..U+00FF is excluded, because writeString writes a
    wrong length for it. *)
Theorem trailing_bytes_ignored (fmt_g : Z -> GoString) (fw fuel : nat) (v : Value) :
  wire_scalar v = true ->
  exists bytes,
    Serialize (S fw) [] v = Ok bytes /\
    (forall suf,
        len (bytes ++ suf) < 2 ^ 63 ->
        Deserialize fmt_g (S fuel) (bytes ++ suf) [] = Ok (v, [])).
Proof.
  intros Hv.
  destruct (wire_scalar_written fw [] (writeHeader []) v Hv) as [body HW].
  eexists. split; [exact HW|].
  intros suf Hlen.
  apply (trailing_bytes_after_scalar fmt_g fw fuel v _ suf Hv HW Hlen).
Qed.

Lemma trailing_bytes_ignored_witness :
  exists bytes,
    Serialize 1 [] (String [104; 105; 8364]) = Ok bytes /\
    (forall suf,
        len (bytes ++ suf) < 2 ^ 63 ->
        Deserialize (fun _ => []) 1 (bytes ++ suf) [] = Ok (String [104; 105; 8364], [])).
Proof.
  apply (trailing_bytes_ignored (fun _ => []) 0 0 (String [104; 105; 8364])).
  reflexivity.
Defined.

Lemma set_reader_twice (d : Deserializer) (n : Z) (r1 r2 : wire.Reader) :
  set_reader (set_depth (set_reader d r1) n) r2 = set_reader (set_depth d n) r2.
Proof.
  reflexivity.
Qed.

(** X18. Padding bytes (0x00) in front of a value are skipped: reading a value at k
    padding bytes followed by a tag that is not padding gives the result of reading
    it at that tag. *)
Theorem padding_is_skipped (fmt_g : Z -> GoString) (fuel k : nat) (d : Deserializer)
        (w rest : list byte) (tag : byte) :
  reader d = rd (w ++ replicate k x00 ++ tag :: rest) (len w) ->
  tag <> tagPadding ->
  readValue fmt_g fuel d
  = readValue fmt_g fuel
      (set_reader d (rd (w ++ replicate k x00 ++ tag :: rest) (len w + Z.of_nat k))).
Proof.
  intros Hr Htag.
  assert (Hnz : (u8 tag =? 0) = false).
  { destruct (u8 tag =? 0) eqn:E; [|reflexivity].
    exfalso. apply Htag. apply u8_inj. change (u8 tagPadding) with 0. lia. }
  destruct fuel as [|fuel]; [reflexivity|].
  cbn [readValue].
  change (depth (set_depth ?x ?n)) with n.
  change (maxDepth (set_depth ?x ?n)) with (maxDepth x).
  change (depth (set_reader ?x ?r)) with (depth x).
  change (maxDepth (set_reader ?x ?r)) with (maxDepth x).
  destruct (depth d + 1 >? maxDepth d); [reflexivity|].
  unfold readValue_dispatch.
  change (reader (set_depth ?x ?n)) with (reader x).
  change (reader (set_reader ?x ?r)) with r.
  rewrite Hr. cbn [wire.data].
  set (D := w ++ replicate k x00 ++ tag :: rest).
  assert (Hlen : (k <= length D)%nat).
  { unfold D. rewrite !length_app, length_replicate. lia. }
  rewrite (skipPadding_zeros k (length D) (set_depth d (depth d + 1)) w rest tag Hlen Hr Hnz).
  fold D.
  assert (Hr' : reader (set_depth (set_reader d (rd D (len w + Z.of_nat k))) (depth d + 1))
                = rd ((w ++ replicate k x00) ++ replicate 0 x00 ++ tag :: rest)
                     (len (w ++ replicate k x00))).
  { cbn [reader set_depth set_reader replicate app]. unfold D.
    rewrite <- app_assoc. f_equal. rewrite len_app. f_equal.
    unfold len. rewrite length_replicate. reflexivity. }
  rewrite (skipPadding_zeros 0 (length D) _ (w ++ replicate k x00) rest tag
             ltac:(lia) Hr' Hnz).
  cbn [replicate app]. rewrite <- app_assoc. fold D.
  replace (len (w ++ replicate k x00) + Z.of_nat 0) with (len w + Z.of_nat k)
    by (rewrite len_app; unfold len; rewrite length_replicate; lia).
  reflexivity.
Qed.

Lemma padding_is_skipped_witness :
  readValue (fun _ => []) 2 (at_root ([xff; x0f] ++ replicate 3 x00 ++ x30 :: []))
  = readValue (fun _ => []) 2
      (set_reader (at_root ([xff; x0f] ++ replicate 3 x00 ++ x30 :: []))
         (rd ([xff; x0f] ++ replicate 3 x00 ++ x30 :: []) (len [xff; x0f] + Z.of_nat 3))).
Proof.
  apply (padding_is_skipped (fun _ => []) 2 3
           (at_root ([xff; x0f] ++ replicate 3 x00 ++ x30 :: [])) [xff; x0f] [] x30).
  - reflexivity.
  - discriminate.
Defined.

Lemma skipPadding_to_end (k : nat) :
  forall (n : nat) (d : Deserializer) (w : list byte),
    (k <= n)%nat ->
    reader d = rd (w ++ replicate k x00) (len w) ->
    skipPadding (S n) d = Err ErrMalformedData.
Proof.
  induction k as [|k IH]; intros n d w Hk Hr.
  - rewrite skipPadding_S, Hr. unfold wire.Peek. cbn [wire.data wire.pos replicate].
    rewrite app_nil_r. destruct (len w >=? len w) eqn:E; [reflexivity|lia].
  - destruct n as [|n]; [lia|].
    rewrite skipPadding_S, Hr.
    change (w ++ replicate (S k) x00) with (w ++ x00 :: replicate k x00).
    rewrite Peek_frame. cbn [wrap_err bind]. change (u8 x00 =? u8 x00) with true. cbn [negb].
    unfold consume. rewrite Hr.
    change (w ++ replicate (S k) x00) with (w ++ x00 :: replicate k x00).
    rewrite ReadByte_frame.
    apply (IH n _ (w ++ [x00])); [lia|].
    cbn [reader set_reader]. rewrite <- app_assoc. cbn [app]. f_equal. len_norm. lia.
Qed.

Lemma readValue_no_value (fmt_g : Z -> GoString) (fuel k : nat) (d : Deserializer)
      (w : list byte) :
  reader d = rd (w ++ replicate k x00) (len w) ->
  depth d < maxDepth d ->
  readValue fmt_g (S fuel) d = Err ErrMalformedData.
Proof.
  intros Hr Hd. cbn [readValue].
  change (depth (set_depth ?x ?n)) with n.
  change (maxDepth (set_depth ?x ?n)) with (maxDepth x).
  destruct (depth d + 1 >? maxDepth d) eqn:E; [lia|].
  unfold readValue_dispatch.
  change (reader (set_depth ?x ?n)) with (reader x).
  rewrite (skipPadding_to_end k _ _ w); [reflexivity | | exact Hr].
  rewrite Hr. cbn [wire.data]. rewrite length_app, length_replicate. lia.
Qed.

(** X19. An input that ends after the header, or that holds nothing but padding
    bytes after the header, is rejected with ErrMalformedData. *)
Theorem missing_value_is_malformed (fmt_g : Z -> GoString) (fuel k : nat) :
  Deserialize fmt_g (S fuel) (writeHeader [] ++ replicate k x00) []
  = Err ErrMalformedData.
Proof.
  rewrite Deserialize_root.
  rewrite (readValue_no_value fmt_g fuel k _ (writeHeader [])).
  - reflexivity.
  - reflexivity.
  - cbn. lia.
Qed.

(** ** Sequences of scalars *)

Lemma write_each_prefix (fw : nat) (h : Heap) (l : list Value) :
  forall w W,
    Forall (fun v => wire_scalar v = true) l ->
    write_each (writeValue (S fw) h) w l = Ok W ->
    exists body, W = w ++ body.
Proof.
  induction l as [|v l IH]; intros w W Hl HW.
  - injection HW as <-. exists []. rewrite app_nil_r. reflexivity.
  - inversion Hl as [|? ? Hv Hl']; subst.
    cbn [write_each] in HW.
    destruct (writeValue (S fw) h w v) as [w1| | |] eqn:E1; try discriminate HW.
    cbn [bind] in HW.
    destruct (scalar_prefix _ _ _ _ _ Hv E1) as [b1 ->].
    destruct (IH _ _ Hl' HW) as [b3 ->].
    eexists. rewrite <- !app_assoc. reflexivity.
Qed.

Lemma readDenseArray_elems_S (rv : Deserializer -> Res (Value * Deserializer))
      (n : nat) (i L : Z) (arr : loc * Z * Z) (d : Deserializer) :
  readDenseArray_elems rv (S n) i L arr d =
  if i <? L then
    let* (elem, d) := rv d in
    let (h, arr) := append_value (heap d) arr elem in
    readDenseArray_elems rv n (uint32 (i + 1)) L arr (set_heap d h)
  else Ok (arr, d).
Proof.
  reflexivity.
Qed.

Lemma take_insert_S {A} (a : list A) (i : nat) (x : A) :
  (i < length a)%nat -> take (S i) (<[i := x]> a) = take i a ++ [x].
Proof.
  intros Hi.
  rewrite (take_S_r _ _ x) by (apply list_lookup_insert_eq; exact Hi).
  rewrite take_insert_ge by lia. reflexivity.
Qed.

Lemma readDenseArray_elems_scalars (fmt_g : Z -> GoString) (fuel fw : nat) (h : Heap)
      (L : Z) (p : loc) (l : list Value) :
  forall (n : nat) (d : Deserializer) (w Wf tail : list byte) (a : list Value) (i : Z),
    Forall (fun v => wire_scalar v = true) l ->
    write_each (writeValue (S fw) h) w l = Ok Wf ->
    reader d = rd (Wf ++ tail) (len w) ->
    len (Wf ++ tail) < 2 ^ 63 ->
    depth d < maxDepth d ->
    heap d !! p = Some (CArr a) ->
    len a = L ->
    0 <= i ->
    i + len l = L ->
    L < 2 ^ 32 ->
    (length l < n)%nat ->
    exists d',
      readDenseArray_elems (readValue fmt_g (S fuel)) n i L (p, i, L) d = Ok ((p, L, L), d') /\
      reader d' = rd (Wf ++ tail) (len Wf) /\
      depth d' = depth d /\ maxDepth d' = maxDepth d /\
      heap d' = <[p := CArr (take (Z.to_nat i) a ++ l)]> (heap d).
Proof.
  induction l as [|x l IH];
    intros n d w Wf tail a i Hsc HW Hr Hlen Hd Hp Ha Hi HL HL32 Hn.
  - injection HW as <-. destruct n as [|n]; [simpl in Hn; lia|].
    rewrite readDenseArray_elems_S. rewrite len_nil in HL.
    destruct (i <? L) eqn:E; [lia|].
    exists d. replace i with L by lia. split; [reflexivity|]. split; [exact Hr|].
    split; [reflexivity|]. split; [reflexivity|].
    rewrite app_nil_r. rewrite take_ge by (unfold len in Ha; lia).
    symmetry. apply list_insert_id. exact Hp.
  - inversion Hsc as [|? ? Hx Hsc']; subst. cbn [write_each] in HW.
    destruct (writeValue (S fw) h w x) as [w1| | |] eqn:E1; try discriminate HW.
    cbn [bind] in HW.
    destruct (write_each_prefix fw h l w1 Wf Hsc' HW) as [b HWf].
    destruct n as [|n]; [simpl in Hn; lia|].
    rewrite readDenseArray_elems_S. rewrite len_cons in HL.
    pose proof (len_nonneg l) as Hl0.
    destruct (i <? len a) eqn:E; [|lia].
    assert (Hdata : Wf ++ tail = w1 ++ (b ++ tail)) by (rewrite HWf, <- app_assoc; reflexivity).
    rewrite Hdata in Hr, Hlen.
    rewrite (readValue_scalar fmt_g fuel fw h d w w1 (b ++ tail) x Hx E1 Hlen Hr Hd).
    cbn [bind]. rewrite <- Hdata in *.
    set (d1 := after_value d (rd (Wf ++ tail) (len w1)) x).
    assert (Hh1 : heap d1 = heap d) by apply after_value_heap.
    unfold append_value. destruct (i <? len a) eqn:E'; [|lia].
    assert (Hst : arr_store (heap d1) p i x = <[p := CArr (<[Z.to_nat i := x]> a)]> (heap d)).
    { unfold arr_store. rewrite Hh1, Hp. reflexivity. }
    rewrite Hst. rewrite uint32_small by lia.
    pose proof (lookup_lt_Some _ _ _ Hp) as Hlt.
    destruct (IH n (set_heap d1 (<[p := CArr (<[Z.to_nat i := x]> a)]> (heap d)))
                w1 Wf tail (<[Z.to_nat i := x]> a) (i + 1))
      as (d' & Hloop & Hr' & Hd1 & Hd2 & Hheap); try assumption; try lia.
    + cbn [reader set_heap]. apply after_value_reader.
    + cbn [depth maxDepth set_heap]. unfold d1.
      destruct (after_value_depth d (rd (Wf ++ tail) (len w1)) x) as [-> ->]. exact Hd.
    + cbn [heap set_heap]. apply list_lookup_insert_eq. exact Hlt.
    + unfold len. rewrite length_insert. reflexivity.
    + simpl in Hn. lia.
    + exists d'. split; [exact Hloop|]. split; [exact Hr'|].
      destruct (after_value_depth d (rd (Wf ++ tail) (len w1)) x) as [Hx1 Hx2].
      split; [rewrite Hd1; exact Hx1|]. split; [rewrite Hd2; exact Hx2|].
      rewrite Hheap. cbn [heap set_heap]. rewrite list_insert_insert_eq.
      replace (Z.to_nat (i + 1)) with (S (Z.to_nat i)) by lia.
      rewrite take_insert_S by (unfold len in *; lia).
      rewrite <- app_assoc. reflexivity.
Qed.

Lemma readDenseArray_props_S (rv : Deserializer -> Res (Value * Deserializer))
      (n : nat) (d : Deserializer) :
  readDenseArray_props rv (S n) d =
  let* tag := wire.Peek (reader d) in
  if u8 tag =? u8 tagEndDenseArray then
    let d := consume d in
    let* (_, r) := wire.ReadVarint32 (reader d) in
    let* (_, r) := wire.ReadVarint32 r in
    Ok (set_reader d r)
  else
    let* (_, d) := rv d in
    let* (_, d) := rv d in
    readDenseArray_props rv n d.
Proof.
  reflexivity.
Qed.

Lemma readDenseArray_trailer (rv : Deserializer -> Res (Value * Deserializer))
      (n : nat) (d : Deserializer) (w suf : list byte) (L : Z) :
  reader d = rd (array_trailer w L ++ suf) (len w) ->
  0 <= L < 2 ^ 32 ->
  readDenseArray_props rv (S n) d
  = Ok (set_reader d (rd (array_trailer w L ++ suf) (len (array_trailer w L)))).
Proof.
  intros Hr HL. unfold array_trailer, wire.WriteByte in *.
  set (P := wire.WriteVarint32 (w ++ [tagEndDenseArray]) 0) in *.
  destruct (WriteVarint_prefix (w ++ [tagEndDenseArray]) (uint64 0)) as [b1 Hb1].
  destruct (WriteVarint_prefix P (uint64 L)) as [b2 Hb2].
  set (D := wire.WriteVarint32 P L ++ suf) in *.
  assert (HDP : D = P ++ (b2 ++ suf)).
  { unfold D, wire.WriteVarint32. rewrite Hb2, <- app_assoc. reflexivity. }
  assert (HD : D = w ++ tagEndDenseArray :: (b1 ++ b2 ++ suf)).
  { rewrite HDP. unfold P, wire.WriteVarint32. rewrite Hb1, <- !app_assoc. reflexivity. }
  assert (Hpeek : wire.Peek (rd D (len w)) = Ok tagEndDenseArray)
    by (rewrite HD; apply Peek_frame).
  assert (Hrb : wire.ReadByte (rd D (len w))
                = Ok (tagEndDenseArray, rd D (len (w ++ [tagEndDenseArray])))).
  { rewrite HD, ReadByte_frame. do 3 f_equal. len_norm. lia. }
  assert (Hv1 : wire.ReadVarint32 (rd D (len (w ++ [tagEndDenseArray])))
                = Ok (0, rd D (len P))).
  { rewrite HDP. unfold P. apply ReadVarint32_WriteVarint32. lia. }
  assert (Hv2 : wire.ReadVarint32 (rd D (len P))
                = Ok (L, rd D (len (wire.WriteVarint32 P L)))).
  { unfold D. apply ReadVarint32_WriteVarint32. exact HL. }
  rewrite readDenseArray_props_S, Hr, Hpeek. cbn [bind].
  change (u8 tagEndDenseArray =? u8 tagEndDenseArray) with true. cbn iota.
  unfold consume. rewrite Hr, Hrb.
  change (reader (set_reader d ?r)) with r.
  rewrite Hv1. cbn [bind]. rewrite Hv2. cbn [bind]. reflexivity.
Qed.

Lemma readDenseArray_scalars (fmt_g : Z -> GoString) (fuel fw extra : nat) (h : Heap)
      (l : list Value) (d : Deserializer) (w W suf : list byte) :
  Forall (fun v => wire_scalar v = true) l ->
  writeArray (writeValue (S fw) h) w l = Ok W ->
  len l <= maxArrayLen d ->
  len l < 2 ^ 32 ->
  reader d = rd (W ++ suf) (len w) ->
  len (W ++ suf) < 2 ^ 63 ->
  depth d + 1 < maxDepth d ->
  exists d',
    readValue fmt_g (S (S (length l + extra))) d
    = Ok (Array (length (heap d)) (len l) (len l), d') /\
    reader d' = rd (W ++ suf) (len W) /\
    heap d' = heap d ++ [CArr l].
Proof.
  intros Hsc HW Hmax H32 Hr Hlen Hd.
  pose proof (len_nonneg l) as Hl0.
  unfold writeArray in HW. rewrite uint32_small in HW by lia.
  unfold wire.WriteByte in HW.
  set (H0 := wire.WriteVarint32 (w ++ [tagBeginDenseArray]) (len l)) in *.
  destruct (write_each (writeValue (S fw) h) H0 l) as [Wf| | |] eqn:HWf; try discriminate HW.
  cbn [bind] in HW. injection HW as HW.
  change (wire.WriteVarint32 (wire.WriteVarint32 (Wf ++ [tagEndDenseArray]) 0) (len l))
    with (array_trailer Wf (len l)) in HW.
  destruct (write_each_prefix fw h l H0 Wf Hsc HWf) as [b HWb].
  destruct (WriteVarint_prefix (w ++ [tagBeginDenseArray]) (uint64 (len l))) as [b0 Hb0].
  assert (Htr : exists t, array_trailer Wf (len l) = Wf ++ t).
  { unfold array_trailer, wire.WriteByte, wire.WriteVarint32.
    destruct (WriteVarint_prefix (Wf ++ [tagEndDenseArray]) (uint64 0)) as [t1 ->].
    destruct (WriteVarint_prefix ((Wf ++ [tagEndDenseArray]) ++ t1) (uint64 (len l)))
      as [t2 ->].
    eexists. rewrite <- !app_assoc. reflexivity. }
  destruct Htr as [t Ht].
  assert (HWH : W ++ suf = H0 ++ (b ++ t ++ suf)).
  { rewrite <- HW, Ht, HWb, <- !app_assoc. reflexivity. }
  rewrite (readValue_tagged fmt_g _ d w W suf tagBeginDenseArray);
    [| | exact Hr | reflexivity | lia].
  2:{ rewrite <- HW, Ht, HWb. unfold H0, wire.WriteVarint32. rewrite Hb0.
      eexists. rewrite <- !app_assoc. reflexivity. }
  cbn [readValue_switch]. unfold readDenseArray.
  change (reader (set_reader ?x ?r)) with r.
  assert (HvL : wire.ReadVarint32 (rd (W ++ suf) (len (w ++ [tagBeginDenseArray])))
                = Ok (len l, rd (W ++ suf) (len H0))).
  { rewrite HWH. unfold H0. apply ReadVarint32_WriteVarint32. lia. }
  rewrite HvL. cbn [bind].
  change (maxArrayLen (set_reader ?x ?r)) with (maxArrayLen x).
  change (maxArrayLen (set_reader ?x ?r)) with (maxArrayLen x).
  change (maxArrayLen (set_depth ?x ?r)) with (maxArrayLen x).
  rewrite int_small by lia.
  replace (len l >? maxArrayLen d) with false by lia.
  unfold alloc.
  set (d1 := set_reader (set_reader (set_depth d (depth d + 1)) _) _).
  set (arr := length (heap d1)).
  set (a0 := replicate (Z.to_nat (len l)) Undefined).
  set (d2 := register (set_heap d1 (heap d1 ++ [CArr a0])) (Array arr 0 (len l))).
  destruct (readDenseArray_elems_scalars fmt_g (length l + extra) fw h (len l) arr l
              (S (length l + extra)) d2 H0 Wf (t ++ suf) a0 0)
    as (d3 & Hloop & Hr3 & Hd3 & Hm3 & Hheap); try assumption; try lia.
  - cbn [reader d2 register set_objects set_heap d1 set_reader].
    rewrite HWH, HWb, <- app_assoc. reflexivity.
  - rewrite HWb, <- app_assoc, <- HWH. exact Hlen.
  - cbn [heap d2 register set_objects set_heap]. unfold arr.
    rewrite lookup_app_r by lia. rewrite Nat.sub_diag. reflexivity.
  - unfold a0, len. rewrite length_replicate. lia.
  - rewrite Hloop. cbn [bind].
    assert (Hr3' : reader d3 = rd (array_trailer Wf (len l) ++ suf) (len Wf)).
    { rewrite Hr3, Ht, <- app_assoc. reflexivity. }
    rewrite (readDenseArray_trailer _ _ d3 Wf suf (len l) Hr3' ltac:(lia)).
    cbn [bind]. rewrite HW.
    eexists. split; [reflexivity|]. split; [reflexivity|].
    cbn [heap set_depth update_entry set_objects set_reader]. rewrite Hheap.
    cbn [heap d2 register set_objects set_heap Z.to_nat take app]. unfold arr.
    replace (length (heap d1)) with (length (heap d) + 0)%nat by (cbn; lia).
    rewrite insert_app_r. reflexivity.
Qed.

(** What the serializer writes for an array of scalars decodes to a new array
    with these elements. *)
Lemma dense_array_decodes (fmt_g : Z -> GoString) (fw extra : nat) (h : Heap)
        (p : loc) (n c : Z) (l : list Value) (bytes : list byte) :
  elems h (Array p n c) = l ->
  Forall (fun v => wire_scalar v = true) l ->
  len l <= DefaultMaxArrayLen ->
  Serialize (S (S fw)) h (Array p n c) = Ok bytes ->
  len bytes < 2 ^ 63 ->
  Deserialize fmt_g (S (S (length l + extra))) bytes []
  = Ok (Array 0 (len l) (len l), [CArr l]).
Proof.
  intros Hel Hsc Hmax HS Hlen. unfold Serialize in HS. cbn [writeValue] in HS.
  rewrite Hel in HS. unfold DefaultMaxArrayLen in Hmax.
  assert (Hpre : exists body, bytes = writeHeader [] ++ body).
  { unfold writeArray in HS.
    destruct (write_each _ _ l) as [Wf| | |] eqn:HWf; try discriminate HS.
    cbn [bind] in HS. injection HS as <-.
    destruct (write_each_prefix fw h l _ Wf Hsc HWf) as [b ->].
    unfold wire.WriteByte, wire.WriteVarint32.
    repeat match goal with |- context [wire.WriteVarint ?q ?x] =>
      let t := fresh "t" in destruct (WriteVarint_prefix q x) as [t ->] end.
    eexists. rewrite <- !app_assoc. reflexivity. }
  destruct Hpre as [body Hbody].
  destruct (readDenseArray_scalars fmt_g 0 fw extra h l (at_root bytes) (writeHeader [])
              bytes [] Hsc HS) as (d' & Hrv & _ & Hheap).
  - change (maxArrayLen (at_root bytes)) with 10000000. lia.
  - lia.
  - rewrite app_nil_r. reflexivity.
  - rewrite app_nil_r. exact Hlen.
  - cbn. lia.
  - rewrite Hbody at 1. rewrite Deserialize_root, <- Hbody, Hrv. cbn [bind].
    rewrite Hheap. reflexivity.
Qed.

(** X20. Serialize succeeds on an array of at most 10,000,000 scalars, and
    deserializing the bytes (when there are fewer than 2^63 of them) with the
    default options gives a new array with the same elements in the same order,
    whose length and capacity are their number. Here a scalar is null, undefined, a
    boolean, a hole, an Int32, a Uint32, a Double, a BigInt below 2^62 bytes, or a
    string of Unicode scalar values, shorter than 2^32 on the wire, that is all
    ASCII or has a character above U+00FF; a string whose non-ASCII characters are
    all in U+0080..U+00FF is excluded, because writeString writes a wrong length for
    it. *)
Theorem dense_array_roundtrip (fmt_g : Z -> GoString) (fw extra : nat) (h : Heap)
        (p : loc) (n c : Z) (l : list Value) :
  elems h (Array p n c) = l ->
  Forall (fun v => wire_scalar v = true) l ->
  len l <= DefaultMaxArrayLen ->
  exists bytes,
    Serialize (S (S fw)) h (Array p n c) = Ok bytes /\
    (len bytes < 2 ^ 63 ->
     Deserialize fmt_g (S (S (length l + extra))) bytes []
     = Ok (Array 0 (len l) (len l), [CArr l])).
Proof.
  intros Hel Hsc Hmax.
  assert (HS : exists bytes, Serialize (S (S fw)) h (Array p n c) = Ok bytes).
  { unfold Serialize.
    change (writeValue (S (S fw)) h (writeHeader []) (Array p n c))
      with (writeArray (writeValue (S fw) h) (writeHeader []) (elems h (Array p n c))).
    rewrite Hel. unfold writeArray.
    destruct (write_each_scalars fw h l Hsc
                (wire.WriteVarint32 (wire.WriteByte (writeHeader []) tagBeginDenseArray)
                   (uint32 (len l)))) as [W HW].
    rewrite HW. cbn [bind]. eauto. }
  destruct HS as [bytes HS]. exists bytes. split; [exact HS|].
  intros Hlen.
  apply (dense_array_decodes fmt_g fw extra h p n c l bytes); assumption.
Qed.

Lemma dense_array_roundtrip_witness :
  exists bytes,
    Serialize 2 [CArr [Int32 1; Hole; String (gostr "a"); Null]] (Array 0 3 4) = Ok bytes /\
    (len bytes < 2 ^ 63 ->
     Deserialize (fun _ => []) 5 bytes []
     = Ok (Array 0 (len [Int32 1; Hole; String (gostr "a")])
             (len [Int32 1; Hole; String (gostr "a")]),
           [CArr [Int32 1; Hole; String (gostr "a")]])).
Proof.
  apply (dense_array_roundtrip (fun _ => []) 0 0
           [CArr [Int32 1; Hole; String (gostr "a"); Null]] 0%nat 3 4
           [Int32 1; Hole; String (gostr "a")]).
  - reflexivity.
  - repeat constructor.
  - unfold DefaultMaxArrayLen, len. simpl. lia.
Defined.

(** ** Maps and sets *)

Lemma readMap_loop_S (rv : Deserializer -> Res (Value * Deserializer))
      (n : nat) (entries : list (Value * Value)) (d : Deserializer) :
  readMap_loop rv (S n) entries d =
  let* tag := wire.Peek (reader d) in
  if u8 tag =? u8 tagEndMap then
    let d := consume d in
    let* (_, r) := wire.ReadVarint32 (reader d) in
    Ok (entries, set_reader d r)
  else
    let* (key, d) := rv d in
    let* (val, d) := rv d in
    readMap_loop rv n (entries ++ [(key, val)]) d.
Proof.
  reflexivity.
Qed.

Lemma readSet_loop_S (rv : Deserializer -> Res (Value * Deserializer))
      (n : nat) (values : list Value) (d : Deserializer) :
  readSet_loop rv (S n) values d =
  let* tag := wire.Peek (reader d) in
  if u8 tag =? u8 tagEndSet then
    let d := consume d in
    let* (_, r) := wire.ReadVarint32 (reader d) in
    Ok (values, set_reader d r)
  else
    let* (val, d) := rv d in
    readSet_loop rv n (values ++ [val]) d.
Proof.
  reflexivity.
Qed.

Lemma scalar_tag_not_end_collection (v : Value) :
  wire_scalar v = true ->
  (u8 (scalar_tag v) =? u8 tagEndMap) = false /\
  (u8 (scalar_tag v) =? u8 tagEndSet) = false.
Proof.
  intros Hv. destruct v; try discriminate Hv; cbn [scalar_tag];
    try (split; reflexivity).
  - destruct b; split; reflexivity.
  - destruct (wire.NeedsUTF16 s); split; reflexivity.
Qed.

(** The end of a loop that stops at the tag [e] and reads one count. *)
Lemma read_end_tag (d : Deserializer) (w suf : list byte) (e : byte) (count : Z) :
  0 <= count < 2 ^ 32 ->
  reader d = rd (wire.WriteVarint32 (w ++ [e]) count ++ suf) (len w) ->
  wire.Peek (reader d) = Ok e /\
  wire.ReadVarint32 (reader (consume d))
  = Ok (count, rd (wire.WriteVarint32 (w ++ [e]) count ++ suf)
                  (len (wire.WriteVarint32 (w ++ [e]) count))) .
Proof.
  intros Hcount Hr.
  destruct (WriteVarint_prefix (w ++ [e]) (uint64 count)) as [body Hbody].
  set (D := wire.WriteVarint32 (w ++ [e]) count ++ suf) in *.
  assert (HD : D = w ++ e :: (body ++ suf)).
  { unfold D, wire.WriteVarint32. rewrite Hbody, <- !app_assoc. reflexivity. }
  split.
  - rewrite Hr, HD. apply Peek_frame.
  - unfold consume. rewrite Hr.
    assert (Hrb : wire.ReadByte (rd D (len w)) = Ok (e, rd D (len (w ++ [e])))).
    { rewrite HD, ReadByte_frame. do 3 f_equal. len_norm. lia. }
    rewrite Hrb. change (reader (set_reader d ?r)) with r. unfold D.
    apply ReadVarint32_WriteVarint32. exact Hcount.
Qed.

Lemma readMap_loop_entries (fmt_g : Z -> GoString) (fuel fw : nat) (h : Heap)
      (l : list (Value * Value)) :
  forall (n : nat) (d : Deserializer) (w Wf suf : list byte)
         (acc : list (Value * Value)) (count : Z),
    Forall scalar_entry l ->
    write_entries (writeValue (S fw) h) w l = Ok Wf ->
    0 <= count < 2 ^ 32 ->
    reader d = rd (wire.WriteVarint32 (Wf ++ [tagEndMap]) count ++ suf) (len w) ->
    len (wire.WriteVarint32 (Wf ++ [tagEndMap]) count ++ suf) < 2 ^ 63 ->
    depth d < maxDepth d ->
    (length l < n)%nat ->
    exists d',
      readMap_loop (readValue fmt_g (S fuel)) n acc d = Ok (acc ++ l, d') /\
      reader d' = rd (wire.WriteVarint32 (Wf ++ [tagEndMap]) count ++ suf)
                     (len (wire.WriteVarint32 (Wf ++ [tagEndMap]) count)) /\
      heap d' = heap d.
Proof.
  induction l as [|[k v] l IH]; intros n d w Wf suf acc count Hsc HW Hcount Hr Hlen Hd Hn.
  - injection HW as <-. destruct n as [|n]; [simpl in Hn; lia|].
    destruct (read_end_tag d w suf tagEndMap count Hcount Hr) as [Hpeek Hrv].
    rewrite readMap_loop_S, Hpeek. cbn [bind].
    change (u8 tagEndMap =? u8 tagEndMap) with true. cbn iota.
    rewrite Hrv. cbn [bind]. eexists. split; [rewrite app_nil_r; reflexivity|].
    split; [reflexivity|].
    unfold consume. destruct (wire.ReadByte (reader d)) as [[? ?]| | |]; reflexivity.
  - inversion Hsc as [|? ? [Hk Hv] Hsc']; subst. cbn [fst snd] in *.
    cbn [write_entries] in HW.
    destruct (writeValue (S fw) h w k) as [w1| | |] eqn:E1; try discriminate HW.
    cbn [bind] in HW.
    destruct (writeValue (S fw) h w1 v) as [w2| | |] eqn:E2; try discriminate HW.
    cbn [bind] in HW.
    destruct (write_entries_prefix fw h l w2 Wf Hsc' HW) as [b3 HWf].
    destruct (WriteVarint_prefix (Wf ++ [tagEndMap]) (uint64 count)) as [body Hbody].
    set (D := wire.WriteVarint32 (Wf ++ [tagEndMap]) count ++ suf) in *.
    assert (HD : D = w2 ++ (b3 ++ [tagEndMap] ++ body ++ suf)).
    { unfold D, wire.WriteVarint32. rewrite Hbody, HWf, <- !app_assoc. reflexivity. }
    destruct n as [|n]; [simpl in Hn; lia|].
    rewrite readMap_loop_S.
    rewrite HD in Hr, Hlen.
    destruct (read_pair fmt_g fuel fw h d w w1 w2 _ k v Hk Hv E1 E2 Hr Hlen Hd)
      as (Hpeek & Hrk & Hrv).
    rewrite Hpeek. cbn [bind].
    destruct (scalar_tag_not_end_collection k Hk) as (Hne & _). rewrite Hne.
    rewrite Hrk. cbn [bind]. rewrite Hrv. cbn [bind].
    rewrite <- HD in *.
    set (d2 := after_value (after_value d (rd D (len w1)) k) (rd D (len w2)) v).
    destruct (IH n d2 w2 Wf suf (acc ++ [(k, v)]) count) as (d' & Hloop & Hr' & Hheap);
      try assumption.
    + unfold d2. apply after_value_reader.
    + unfold d2.
      destruct (after_value_depth (after_value d (rd D (len w1)) k) (rd D (len w2)) v)
        as [-> ->].
      destruct (after_value_depth d (rd D (len w1)) k) as [-> ->]. exact Hd.
    + simpl in Hn. lia.
    + exists d'. split; [rewrite Hloop, <- app_assoc; reflexivity|].
      split; [exact Hr'|]. rewrite Hheap. unfold d2. rewrite !after_value_heap. reflexivity.
Qed.

Lemma readSet_loop_values (fmt_g : Z -> GoString) (fuel fw : nat) (h : Heap)
      (l : list Value) :
  forall (n : nat) (d : Deserializer) (w Wf suf : list byte) (acc : list Value) (count : Z),
    Forall (fun v => wire_scalar v = true) l ->
    write_each (writeValue (S fw) h) w l = Ok Wf ->
    0 <= count < 2 ^ 32 ->
    reader d = rd (wire.WriteVarint32 (Wf ++ [tagEndSet]) count ++ suf) (len w) ->
    len (wire.WriteVarint32 (Wf ++ [tagEndSet]) count ++ suf) < 2 ^ 63 ->
    depth d < maxDepth d ->
    (length l < n)%nat ->
    exists d',
      readSet_loop (readValue fmt_g (S fuel)) n acc d = Ok (acc ++ l, d') /\
      reader d' = rd (wire.WriteVarint32 (Wf ++ [tagEndSet]) count ++ suf)
                     (len (wire.WriteVarint32 (Wf ++ [tagEndSet]) count)) /\
      heap d' = heap d.
Proof.
  induction l as [|v l IH]; intros n d w Wf suf acc count Hsc HW Hcount Hr Hlen Hd Hn.
  - injection HW as <-. destruct n as [|n]; [simpl in Hn; lia|].
    destruct (read_end_tag d w suf tagEndSet count Hcount Hr) as [Hpeek Hrv].
    rewrite readSet_loop_S, Hpeek. cbn [bind].
    change (u8 tagEndSet =? u8 tagEndSet) with true. cbn iota.
    rewrite Hrv. cbn [bind]. eexists. split; [rewrite app_nil_r; reflexivity|].
    split; [reflexivity|].
    unfold consume. destruct (wire.ReadByte (reader d)) as [[? ?]| | |]; reflexivity.
  - inversion Hsc as [|? ? Hv Hsc']; subst.
    cbn [write_each] in HW.
    destruct (writeValue (S fw) h w v) as [w1| | |] eqn:E1; try discriminate HW.
    cbn [bind] in HW.
    destruct (write_each_prefix fw h l w1 Wf Hsc' HW) as [b3 HWf].
    destruct (scalar_prefix _ _ _ _ _ Hv E1) as [b1 Hw1].
    destruct (WriteVarint_prefix (Wf ++ [tagEndSet]) (uint64 count)) as [body Hbody].
    set (D := wire.WriteVarint32 (Wf ++ [tagEndSet]) count ++ suf) in *.
    assert (HD : D = w1 ++ (b3 ++ [tagEndSet] ++ body ++ suf)).
    { unfold D, wire.WriteVarint32. rewrite Hbody, HWf, <- !app_assoc. reflexivity. }
    destruct n as [|n]; [simpl in Hn; lia|].
    rewrite readSet_loop_S.
    assert (Hpeek : wire.Peek (reader d) = Ok (scalar_tag v)).
    { rewrite Hr, HD, Hw1, <- !app_assoc. cbn [app]. apply Peek_frame. }
    rewrite Hpeek. cbn [bind].
    destruct (scalar_tag_not_end_collection v Hv) as (_ & Hne). rewrite Hne.
    rewrite HD in Hr, Hlen.
    rewrite (readValue_scalar fmt_g fuel fw h d w w1 _ v Hv E1 Hlen Hr Hd). cbn [bind].
    rewrite <- HD in *.
    set (d2 := after_value d (rd D (len w1)) v).
    destruct (IH n d2 w1 Wf suf (acc ++ [v]) count) as (d' & Hloop & Hr' & Hheap);
      try assumption.
    + unfold d2. apply after_value_reader.
    + unfold d2. destruct (after_value_depth d (rd D (len w1)) v) as [-> ->]. exact Hd.
    + simpl in Hn. lia.
    + exists d'. split; [rewrite Hloop, <- app_assoc; reflexivity|].
      split; [exact Hr'|]. rewrite Hheap. unfold d2. rewrite after_value_heap. reflexivity.
Qed.

(** What the serializer writes for a Map of scalars decodes to a new Map with
    these entries. *)
Lemma map_decodes (fmt_g : Z -> GoString) (fw extra : nat) (h : Heap) (p : loc)
        (l : list (Value * Value)) (bytes : list byte) :
  Entries h p = l ->
  Forall scalar_entry l ->
  2 * len l < 2 ^ 32 ->
  Serialize (S (S fw)) h (VMap p) = Ok bytes ->
  len bytes < 2 ^ 63 ->
  Deserialize fmt_g (S (S (length l + extra))) bytes [] = Ok (VMap 0, [CJSMap l]).
Proof.
  intros Hel Hsc H32 HS Hlen. unfold Serialize in HS. cbn [writeValue] in HS.
  rewrite Hel in HS. unfold writeMap, wire.WriteByte in HS.
  pose proof (len_nonneg l) as Hl0.
  rewrite (int_small (len l * 2)) in HS by lia. rewrite uint32_small in HS by lia.
  destruct (write_entries _ _ l) as [Wf| | |] eqn:HWf; try discriminate HS.
  cbn [bind] in HS. injection HS as HS.
  destruct (write_entries_prefix fw h l _ Wf Hsc HWf) as [b HWb].
  destruct (WriteVarint_prefix (Wf ++ [tagEndMap]) (uint64 (len l * 2))) as [t Ht].
  assert (Hbody : bytes = writeHeader [] ++ ([tagBeginMap] ++ b ++ [tagEndMap] ++ t)).
  { rewrite <- HS. unfold wire.WriteVarint32. rewrite Ht, HWb, <- !app_assoc. reflexivity. }
  rewrite Hbody at 1. rewrite Deserialize_root, <- Hbody.
  rewrite (readValue_tagged fmt_g _ (at_root bytes) (writeHeader []) bytes [] tagBeginMap);
    [| rewrite Hbody; eexists; rewrite <- !app_assoc; reflexivity
     | rewrite app_nil_r; reflexivity | reflexivity | cbn; lia].
  cbn [readValue_switch]. unfold readMap, alloc.
  match goal with |- context [readMap_loop _ _ _ ?x] => set (d2 := x) end.
  destruct (readMap_loop_entries fmt_g (length l + extra) fw h l (S (length l + extra))
              d2 (writeHeader [] ++ [tagBeginMap]) Wf [] [] (len l * 2))
    as (d' & Hloop & Hr' & Hheap); try assumption; try lia.
  - rewrite HS. reflexivity.
  - rewrite HS, app_nil_r. exact Hlen.
  - cbn. lia.
  - cbn [app] in Hloop. rewrite Hloop. cbn [bind].
    cbn [heap set_depth update_entry set_objects set_heap]. rewrite Hheap. reflexivity.
Qed.

(** X21. Serialize succeeds on a Map of fewer than 2^31 entries whose keys and
    values are scalars, and deserializing the bytes (when there are fewer than 2^63
    of them) gives a new Map with the same entries in the same order. Here a scalar
    is null, undefined, a boolean, a hole, an Int32, a Uint32, a Double, a BigInt
    below 2^62 bytes, or a string of Unicode scalar values, shorter than 2^32 on the
    wire, that is all ASCII or has a character above U+00FF; a string whose non-
    ASCII characters are all in U+0080..U+00FF is excluded, because writeString
    writes a wrong length for it. *)
Theorem map_roundtrip (fmt_g : Z -> GoString) (fw extra : nat) (h : Heap) (p : loc)
        (l : list (Value * Value)) :
  Entries h p = l ->
  Forall scalar_entry l ->
  2 * len l < 2 ^ 32 ->
  exists bytes,
    Serialize (S (S fw)) h (VMap p) = Ok bytes /\
    (len bytes < 2 ^ 63 ->
     Deserialize fmt_g (S (S (length l + extra))) bytes [] = Ok (VMap 0, [CJSMap l])).
Proof.
  intros Hel Hsc H32.
  assert (HS : exists bytes, Serialize (S (S fw)) h (VMap p) = Ok bytes).
  { unfold Serialize.
    change (writeValue (S (S fw)) h (writeHeader []) (VMap p))
      with (writeMap (writeValue (S fw) h) (writeHeader []) (Entries h p)).
    rewrite Hel. unfold writeMap.
    destruct (write_entries_scalars fw h l Hsc
                (wire.WriteByte (writeHeader []) tagBeginMap)) as [W HW].
    rewrite HW. cbn [bind]. eauto. }
  destruct HS as [bytes HS]. exists bytes. split; [exact HS|].
  intros Hlen.
  apply (map_decodes fmt_g fw extra h p l bytes); assumption.
Qed.

Lemma map_roundtrip_witness :
  exists bytes,
    Serialize 2 [CJSMap [(String (gostr "k"), Int32 1); (Int32 2, Bool true)]] (VMap 0)
    = Ok bytes /\
    (len bytes < 2 ^ 63 ->
     Deserialize (fun _ => []) 4 bytes []
     = Ok (VMap 0, [CJSMap [(String (gostr "k"), Int32 1); (Int32 2, Bool true)]])).
Proof.
  apply (map_roundtrip (fun _ => []) 0 0
           [CJSMap [(String (gostr "k"), Int32 1); (Int32 2, Bool true)]] 0%nat
           [(String (gostr "k"), Int32 1); (Int32 2, Bool true)]).
  - reflexivity.
  - repeat constructor.
  - unfold len. simpl. lia.
Defined.

(** What the serializer writes for a Set of scalars decodes to a new Set with
    these values. *)
Lemma set_decodes (fmt_g : Z -> GoString) (fw extra : nat) (h : Heap) (p : loc)
        (l : list Value) (bytes : list byte) :
  Values h p = l ->
  Forall (fun v => wire_scalar v = true) l ->
  len l < 2 ^ 32 ->
  Serialize (S (S fw)) h (VSet p) = Ok bytes ->
  len bytes < 2 ^ 63 ->
  Deserialize fmt_g (S (S (length l + extra))) bytes [] = Ok (VSet 0, [CJSSet l]).
Proof.
  intros Hel Hsc H32 HS Hlen. unfold Serialize in HS. cbn [writeValue] in HS.
  rewrite Hel in HS. unfold writeSet, wire.WriteByte in HS.
  pose proof (len_nonneg l) as Hl0.
  rewrite uint32_small in HS by lia.
  destruct (write_each _ _ l) as [Wf| | |] eqn:HWf; try discriminate HS.
  cbn [bind] in HS. injection HS as HS.
  destruct (write_each_prefix fw h l _ Wf Hsc HWf) as [b HWb].
  destruct (WriteVarint_prefix (Wf ++ [tagEndSet]) (uint64 (len l))) as [t Ht].
  assert (Hbody : bytes = writeHeader [] ++ ([tagBeginSet] ++ b ++ [tagEndSet] ++ t)).
  { rewrite <- HS. unfold wire.WriteVarint32. rewrite Ht, HWb, <- !app_assoc. reflexivity. }
  rewrite Hbody at 1. rewrite Deserialize_root, <- Hbody.
  rewrite (readValue_tagged fmt_g _ (at_root bytes) (writeHeader []) bytes [] tagBeginSet);
    [| rewrite Hbody; eexists; rewrite <- !app_assoc; reflexivity
     | rewrite app_nil_r; reflexivity | reflexivity | cbn; lia].
  cbn [readValue_switch]. unfold readSet, alloc.
  match goal with |- context [readSet_loop _ _ _ ?x] => set (d2 := x) end.
  destruct (readSet_loop_values fmt_g (length l + extra) fw h l (S (length l + extra))
              d2 (writeHeader [] ++ [tagBeginSet]) Wf [] [] (len l))
    as (d' & Hloop & Hr' & Hheap); try assumption; try lia.
  - rewrite HS. reflexivity.
  - rewrite HS, app_nil_r. exact Hlen.
  - cbn. lia.
  - cbn [app] in Hloop. rewrite Hloop. cbn [bind].
    cbn [heap set_depth update_entry set_objects set_heap]. rewrite Hheap. reflexivity.
Qed.

(** X22. Serialize succeeds on a Set of fewer than 2^32 scalars, and deserializing
    the bytes (when there are fewer than 2^63 of them) gives a new Set with the same
    values in the same order. Here a scalar is null, undefined, a boolean, a hole,
    an Int32, a Uint32, a Double, a BigInt below 2^62 bytes, or a string of Unicode
    scalar values, shorter than 2^32 on the wire, that is all ASCII or has a
    character above U+00FF; a string whose non-ASCII characters are all in
    U+0080..U+00FF is excluded, because writeString writes a wrong length for it. *)
Theorem set_roundtrip (fmt_g : Z -> GoString) (fw extra : nat) (h : Heap) (p : loc)
        (l : list Value) :
  Values h p = l ->
  Forall (fun v => wire_scalar v = true) l ->
  len l < 2 ^ 32 ->
  exists bytes,
    Serialize (S (S fw)) h (VSet p) = Ok bytes /\
    (len bytes < 2 ^ 63 ->
     Deserialize fmt_g (S (S (length l + extra))) bytes [] = Ok (VSet 0, [CJSSet l])).
Proof.
  intros Hel Hsc H32.
  assert (HS : exists bytes, Serialize (S (S fw)) h (VSet p) = Ok bytes).
  { unfold Serialize.
    change (writeValue (S (S fw)) h (writeHeader []) (VSet p))
      with (writeSet (writeValue (S fw) h) (writeHeader []) (Values h p)).
    rewrite Hel. unfold writeSet.
    destruct (write_each_scalars fw h l Hsc
                (wire.WriteByte (writeHeader []) tagBeginSet)) as [W HW].
    rewrite HW. cbn [bind]. eauto. }
  destruct HS as [bytes HS]. exists bytes. split; [exact HS|].
  intros Hlen.
  apply (set_decodes fmt_g fw extra h p l bytes); assumption.
Qed.

Lemma set_roundtrip_witness :
  exists bytes,
    Serialize 2 [CJSSet [Int32 1; Int32 1; Null]] (VSet 0) = Ok bytes /\
    (len bytes < 2 ^ 63 ->
     Deserialize (fun _ => []) 5 bytes [] = Ok (VSet 0, [CJSSet [Int32 1; Int32 1; Null]])).
Proof.
  apply (set_roundtrip (fun _ => []) 0 0 [CJSSet [Int32 1; Int32 1; Null]] 0%nat
           [Int32 1; Int32 1; Null]).
  - reflexivity.
  - repeat constructor.
  - unfold len. simpl. lia.
Defined.

(** ** Objects written by the serializer *)

Lemma writeValue_scalar_heap (fw : nat) (h h' : Heap) (w : list byte) (v : Value) :
  wire_scalar v = true -> writeValue (S fw) h w v = writeValue (S fw) h' w v.
Proof.
  intros Hv. destruct v; try discriminate Hv; reflexivity.
Qed.

Lemma write_props_heap (fw : nat) (h h' : Heap) (kvs : list (GoString * Value)) :
  forall w,
    Forall (fun kv => wire_scalar (snd kv) = true) kvs ->
    write_props (writeValue (S fw) h) w kvs = write_props (writeValue (S fw) h') w kvs.
Proof.
  induction kvs as [|[k v] kvs IH]; intros w Hl; [reflexivity|].
  inversion Hl as [|? ? Hv Hl']; subst. cbn [snd] in Hv.
  cbn [write_props].
  rewrite (writeValue_scalar_heap fw h h' _ v Hv).
  destruct (writeValue (S fw) h' (writeString w k) v); cbn [bind]; try reflexivity.
  apply IH. exact Hl'.
Qed.

(** The payload of an object of scalars, in any order of its properties,
    decodes to the object; for the order of the map it is what the serializer
    writes. *)
Lemma object_payload_roundtrip (fmt_g : Z -> GoString) (fw extra : nat) (h : Heap) (l : loc)
        (m : gmap GoString Value) (kvs : list (GoString * Value)) (bytes : list byte) :
  h !! l = Some (CMap m) ->
  map_Forall (fun k v => wire_scalar (String k) = true /\ wire_scalar v = true) m ->
  Z.of_nat (size m) < 2 ^ 32 ->
  kvs ≡ₚ map_to_list m ->
  object_payload fw kvs (Z.of_nat (size m)) = Ok bytes ->
  len bytes < 2 ^ 63 ->
  (kvs = map_to_list m -> Serialize (S (S fw)) h (Object l) = Ok bytes) /\
  Deserialize fmt_g (S (S (size m + extra))) bytes [] = Ok (Object 0, [CMap m]).
Proof.
  intros Hl Hm H32 Hperm Hpay Hlen.
  assert (Hkvs : Forall (fun kv => wire_scalar (String (fst kv)) = true /\
                                   wire_scalar (snd kv) = true) kvs).
  { apply Forall_forall. intros [k v] Hin. cbn [fst snd].
    rewrite Hperm in Hin. apply elem_of_map_to_list in Hin. exact (Hm k v Hin). }
  split.
  { intros ->. unfold Serialize.
    change (writeValue (S (S fw)) h (writeHeader []) (Object l))
      with (writeObject (writeValue (S fw) h) (writeHeader []) (AsObject h l)).
    unfold AsObject. rewrite Hl. unfold writeObject.
    rewrite uint32_small by lia.
    rewrite (write_props_heap fw h []).
    - exact Hpay.
    - eapply Forall_impl; [exact Hkvs|]. intros kv [_ H]. exact H. }
  assert (Hcount : 0 <= Z.of_nat (size m) < 2 ^ 32) by lia.
  destruct (object_payload_decodes fmt_g fw extra kvs (Z.of_nat (size m))
              bytes (at_root bytes) Hkvs Hcount Hpay Hlen)
    as ([body Hbody] & d' & Hrv & Hheap).
  - reflexivity.
  - cbn. lia.
  - rewrite (Permutation_length Hperm), length_map_to_list in Hrv.
    rewrite Hbody at 1. rewrite Deserialize_root, <- Hbody, Hrv. cbn [bind].
    rewrite Hheap. cbn [heap at_root NewDeserializer fold_left set_version set_reader app].
    do 4 f_equal. symmetry. apply list_to_map_flip.
    rewrite <- Hperm. apply Permutation_rev.
Qed.

(** X23. For an object of fewer than 2^32 properties whose keys and property values
    are scalars, every order of the properties has a payload; the payload (when
    shorter than 2^63 bytes) decodes to a new object with exactly the same
    properties, and Serialize returns the payload of the order in which the map is
    ranged over. Here a scalar is null, undefined, a boolean, a hole, an Int32, a
    Uint32, a Double, a BigInt below 2^62 bytes, or a string of Unicode scalar
    values, shorter than 2^32 on the wire, that is all ASCII or has a character
    above U+00FF; a string whose non-ASCII characters are all in U+0080..U+00FF is
    excluded, because writeString writes a wrong length for it. *)
Theorem object_roundtrip (fmt_g : Z -> GoString) (fw extra : nat) (h : Heap) (l : loc)
        (m : gmap GoString Value) (kvs : list (GoString * Value)) :
  h !! l = Some (CMap m) ->
  map_Forall (fun k v => wire_scalar (String k) = true /\ wire_scalar v = true) m ->
  Z.of_nat (size m) < 2 ^ 32 ->
  kvs ≡ₚ map_to_list m ->
  exists bytes,
    object_payload fw kvs (Z.of_nat (size m)) = Ok bytes /\
    (kvs = map_to_list m -> Serialize (S (S fw)) h (Object l) = Ok bytes) /\
    (len bytes < 2 ^ 63 ->
     Deserialize fmt_g (S (S (size m + extra))) bytes [] = Ok (Object 0, [CMap m])).
Proof.
  intros Hl Hm H32 Hperm.
  assert (Hkvs : Forall (fun kv => wire_scalar (snd kv) = true) kvs).
  { apply Forall_forall. intros [k v] Hin. cbn [snd].
    rewrite Hperm in Hin. apply elem_of_map_to_list in Hin. exact (proj2 (Hm k v Hin)). }
  destruct (write_props_scalars fw [] kvs Hkvs
              (wire.WriteByte (writeHeader []) tagBeginJSObject)) as [W HW].
  assert (Hpay : object_payload fw kvs (Z.of_nat (size m))
                 = Ok (wire.WriteVarint32 (wire.WriteByte W tagEndJSObject)
                         (Z.of_nat (size m)))).
  { unfold object_payload. rewrite HW. reflexivity. }
  eexists. split; [exact Hpay|]. split.
  - intros ->. unfold Serialize.
    change (writeValue (S (S fw)) h (writeHeader []) (Object l))
      with (writeObject (writeValue (S fw) h) (writeHeader []) (AsObject h l)).
    unfold AsObject. rewrite Hl. unfold writeObject.
    rewrite uint32_small by lia.
    rewrite (write_props_heap fw h []) by exact Hkvs.
    exact Hpay.
  - intros Hlen.
    exact (proj2 (object_payload_roundtrip fmt_g fw extra h l m kvs _ Hl Hm H32 Hperm Hpay
                    Hlen)).
Qed.

Lemma object_roundtrip_witness :
  exists bytes,
    object_payload 0
      (rev (map_to_list ({[gostr "a" := Int32 1; gostr "b" := Null]} : gmap GoString Value)))
      (Z.of_nat (size ({[gostr "a" := Int32 1; gostr "b" := Null]} : gmap GoString Value)))
    = Ok bytes /\
    (rev (map_to_list ({[gostr "a" := Int32 1; gostr "b" := Null]} : gmap GoString Value))
     = map_to_list ({[gostr "a" := Int32 1; gostr "b" := Null]} : gmap GoString Value) ->
     Serialize 2 [CMap {[gostr "a" := Int32 1; gostr "b" := Null]}] (Object 0%nat)
     = Ok bytes) /\
    (len bytes < 2 ^ 63 ->
     Deserialize (fun _ => [])
       (S (S (size ({[gostr "a" := Int32 1; gostr "b" := Null]} : gmap GoString Value) + 0)))
       bytes []
     = Ok (Object 0, [CMap {[gostr "a" := Int32 1; gostr "b" := Null]}])).
Proof.
  apply (object_roundtrip (fun _ => []) 0 0
           [CMap {[gostr "a" := Int32 1; gostr "b" := Null]}] 0%nat
           {[gostr "a" := Int32 1; gostr "b" := Null]}
           (rev (map_to_list
                   ({[gostr "a" := Int32 1; gostr "b" := Null]} : gmap GoString Value)))).
  - reflexivity.
  - intros k v Hkv.
    apply lookup_insert_Some in Hkv. destruct Hkv as [[<- <-]|[_ Hkv]]; [split; reflexivity|].
    apply lookup_singleton_Some in Hkv. destruct Hkv as [<- <-]. split; reflexivity.
  - vm_compute. reflexivity.
  - symmetry. apply Permutation_rev.
Defined.

(** ** Buffers and typed arrays *)

Lemma set_depth_back_register2 (d : Deserializer) (r1 r2 : wire.Reader) (v : Value) :
  set_depth (register (set_reader (set_reader (set_depth d (depth d + 1)) r1) r2) v)
    (depth (register (set_reader (set_reader (set_depth d (depth d + 1)) r1) r2) v) - 1)
  = register (set_reader d r2) v.
Proof.
  destruct d. unfold register, set_depth, set_reader, set_objects. simpl. f_equal. lia.
Qed.

(** X24. An ArrayBuffer of fewer than 2^32 bytes is serialized and, whatever bytes
    follow, deserialized to an ArrayBuffer with the same bytes. *)
Theorem array_buffer_roundtrip (fmt_g : Z -> GoString) (fw fuel : nat) (h : Heap)
        (buf suf : list byte) :
  len buf < 2 ^ 32 ->
  len suf < 2 ^ 62 ->
  exists bytes,
    Serialize (S fw) h (ArrayBuffer buf) = Ok bytes /\
    Deserialize fmt_g (S fuel) (bytes ++ suf) [] = Ok (ArrayBuffer buf, []).
Proof.
  intros H32 Hsuf. eexists. split; [reflexivity|].
  unfold writeArrayBuffer, wire.WriteByte, wire.WriteBytes.
  pose proof (len_nonneg buf) as Hb0. pose proof (len_nonneg suf) as Hs0.
  rewrite uint32_small by lia.
  set (V := wire.WriteVarint32 (writeHeader [] ++ [tagArrayBuffer]) (len buf)).
  destruct (WriteVarint_prefix (writeHeader [] ++ [tagArrayBuffer]) (uint64 (len buf)))
    as [t Ht].
  assert (HV : V = (writeHeader [] ++ [tagArrayBuffer]) ++ t) by exact Ht.
  pose proof (WriteVarint_length (writeHeader [] ++ [tagArrayBuffer]) (uint64 (len buf)))
    as HVl.
  fold (wire.WriteVarint32 (writeHeader [] ++ [tagArrayBuffer]) (len buf)) in HVl.
  fold V in HVl. change (len (writeHeader [] ++ [tagArrayBuffer])) with 3 in HVl.
  assert (HD : (V ++ buf) ++ suf = writeHeader [] ++ ([tagArrayBuffer] ++ t ++ buf ++ suf)).
  { rewrite HV, <- !app_assoc. reflexivity. }
  rewrite HD at 1. rewrite Deserialize_root. rewrite <- HD.
  rewrite (readValue_tagged fmt_g fuel _ (writeHeader []) (V ++ buf) suf tagArrayBuffer);
    [| rewrite HV; eexists; rewrite <- !app_assoc; reflexivity
     | reflexivity | reflexivity | cbn; lia].
  cbn [readValue_switch]. unfold readArrayBuffer.
  change (reader (set_reader ?x ?r)) with r.
  assert (Hv : wire.ReadVarint32 (rd ((V ++ buf) ++ suf) (len (writeHeader [] ++ [tagArrayBuffer])))
               = Ok (len buf, rd ((V ++ buf) ++ suf) (len V))).
  { rewrite <- app_assoc. unfold V. apply ReadVarint32_WriteVarint32. lia. }
  rewrite Hv. cbn [bind]. rewrite int_small by lia.
  rewrite <- (app_assoc V buf suf).
  rewrite ReadBytes_frame by (rewrite !len_app; lia).
  cbn [bind]. rewrite set_depth_back_register2. reflexivity.
Qed.

Lemma array_buffer_roundtrip_witness :
  exists bytes,
    Serialize 1 [] (ArrayBuffer [x01; x02; x03]) = Ok bytes /\
    Deserialize (fun _ => []) 1 (bytes ++ [xff]) [] = Ok (ArrayBuffer [x01; x02; x03], []).
Proof.
  apply (array_buffer_roundtrip (fun _ => []) 0 0 [] [x01; x02; x03] [xff]).
  - unfold len. simpl. lia.
  - unfold len. simpl. lia.
Defined.




(** ** Regular expressions *)

Lemma lor_lt_pow2 (a b n : Z) :
  0 <= n -> 0 <= a < 2 ^ n -> 0 <= b < 2 ^ n -> 0 <= Z.lor a b < 2 ^ n.
Proof.
  intros Hn Ha Hb.
  assert (H0 : 0 <= Z.lor a b) by (apply Z.lor_nonneg; lia).
  split; [exact H0|].
  destruct (Z.eq_dec (Z.lor a b) 0) as [->|Hne];
    [apply Z.pow_pos_nonneg; lia|].
  assert (Hn0 : 0 < n).
  { destruct (Z.eq_dec n 0) as [->|]; [|lia]. exfalso. apply Hne.
    change (2 ^ 0) with 1 in *. replace a with 0 by lia. replace b with 0 by lia.
    reflexivity. }
  apply Z.log2_lt_pow2; [lia|].
  rewrite Z.log2_lor by lia.
  apply Z.max_lub_lt.
  - destruct (Z.eq_dec a 0) as [->|]; [simpl; lia|]. apply Z.log2_lt_pow2; lia.
  - destruct (Z.eq_dec b 0) as [->|]; [simpl; lia|]. apply Z.log2_lt_pow2; lia.
Qed.

Lemma regexp_flag_bit_cases (c : Z) :
  exists k, 0 <= k <= 6 /\
    regexp_flag_bit c = (if k =? 6 then 0 else 2 ^ k) /\
    (forall i, 0 <= i <= 5 ->
       (nth (Z.to_nat i) [103; 105; 109; 115; 117; 121] 0 =? c) = (i =? k)).
Proof.
  unfold regexp_flag_bit.
  destruct (c =? 103) eqn:E0;
    [exists 0|destruct (c =? 105) eqn:E1;
    [exists 1|destruct (c =? 109) eqn:E2;
    [exists 2|destruct (c =? 115) eqn:E3;
    [exists 3|destruct (c =? 117) eqn:E4;
    [exists 4|destruct (c =? 121) eqn:E5;
    [exists 5|exists 6]]]]]];
    (split; [lia|]); (split; [reflexivity|]);
    intros i Hi;
    assert (Hc : i = 0 \/ i = 1 \/ i = 2 \/ i = 3 \/ i = 4 \/ i = 5) by lia;
    destruct Hc as [->|[->|[->|[->|[->| ->]]]]];
    match goal with
    | |- (nth (Z.to_nat ?i) ?l 0 =? c) = (?i =? ?k) =>
      let x := eval vm_compute in (nth (Z.to_nat i) l 0) in
      let y := eval vm_compute in (i =? k) in
      change ((x =? c) = y)
    end; lia.
Qed.

Lemma land_pow2_eqb (b k : Z) :
  0 <= k -> (Z.land b (2 ^ k) =? 0) = negb (Z.testbit b k).
Proof.
  intros Hk.
  destruct (Z.testbit b k) eqn:Et; cbn [negb].
  - apply Z.eqb_neq. intros H0.
    assert (Z.testbit (Z.land b (2 ^ k)) k = true).
    { rewrite Z.land_spec, Et, Z.pow2_bits_true by lia. reflexivity. }
    rewrite H0, Z.bits_0 in H. discriminate.
  - apply Z.eqb_eq. apply Z.bits_inj'. intros j Hj.
    rewrite Z.land_spec, Z.bits_0.
    destruct (Z.eq_dec j k) as [->|Hne].
    + rewrite Et. reflexivity.
    + rewrite Z.pow2_bits_false by lia. apply andb_false_r.
Qed.

Lemma flag_bits_fold (flags : GoString) :
  forall acc, 0 <= acc < 64 ->
    0 <= fold_left (fun acc c => Z.lor acc (regexp_flag_bit c)) flags acc < 64 /\
    forall i, 0 <= i <= 5 ->
      Z.testbit (fold_left (fun acc c => Z.lor acc (regexp_flag_bit c)) flags acc) i
      = Z.testbit acc i
        || existsb (Z.eqb (nth (Z.to_nat i) [103; 105; 109; 115; 117; 121] 0)) flags.
Proof.
  induction flags as [|c flags IH]; intros acc Hacc; cbn [fold_left existsb].
  - split; [exact Hacc|]. intros i Hi. rewrite orb_false_r. reflexivity.
  - destruct (regexp_flag_bit_cases c) as (k & Hk & Hbit & Hnth).
    assert (Hb : 0 <= regexp_flag_bit c < 64).
    { rewrite Hbit. destruct (k =? 6) eqn:E; [lia|].
      change 64 with (2 ^ 6). split; [apply Z.pow_nonneg; lia|].
      apply Z.pow_lt_mono_r; lia. }
    destruct (IH (Z.lor acc (regexp_flag_bit c))) as [Hr Ht].
    { change 64 with (2 ^ 6). apply lor_lt_pow2; change (2 ^ 6) with 64; lia. }
    split; [exact Hr|]. intros i Hi.
    rewrite (Ht i Hi), Z.lor_spec, (Hnth i Hi), <- orb_assoc. f_equal. f_equal.
    rewrite Hbit. destruct (k =? 6) eqn:E6.
    + rewrite Z.bits_0. symmetry. apply Z.eqb_neq. lia.
    + destruct (Z.eq_dec i k) as [->|Hne].
      * rewrite Z.pow2_bits_true by lia. symmetry. apply Z.eqb_refl.
      * rewrite Z.pow2_bits_false by lia. symmetry. apply Z.eqb_neq. exact Hne.
Qed.

Lemma regexp_flags_canonical (flags : GoString) :
  0 <= flag_bits flags < 64 /\
  regexp_flags (flag_bits flags) = canonical_flags flags.
Proof.
  unfold flag_bits.
  destruct (flag_bits_fold flags 0 ltac:(lia)) as [Hr Ht].
  split; [exact Hr|].
  set (b := fold_left (fun acc c => Z.lor acc (regexp_flag_bit c)) flags 0) in *.
  pose proof (Ht 0 ltac:(lia)) as H0. pose proof (Ht 1 ltac:(lia)) as H1.
  pose proof (Ht 2 ltac:(lia)) as H2. pose proof (Ht 3 ltac:(lia)) as H3.
  pose proof (Ht 4 ltac:(lia)) as H4. pose proof (Ht 5 ltac:(lia)) as H5.
  change (nth (Z.to_nat 0) [103; 105; 109; 115; 117; 121] 0) with 103 in H0.
  change (nth (Z.to_nat 1) [103; 105; 109; 115; 117; 121] 0) with 105 in H1.
  change (nth (Z.to_nat 2) [103; 105; 109; 115; 117; 121] 0) with 109 in H2.
  change (nth (Z.to_nat 3) [103; 105; 109; 115; 117; 121] 0) with 115 in H3.
  change (nth (Z.to_nat 4) [103; 105; 109; 115; 117; 121] 0) with 117 in H4.
  change (nth (Z.to_nat 5) [103; 105; 109; 115; 117; 121] 0) with 121 in H5.
  rewrite Z.bits_0 in H0, H1, H2, H3, H4, H5. cbn [orb] in H0, H1, H2, H3, H4, H5.
  clear Ht.
  unfold regexp_flags, canonical_flags.
  change 1 with (2 ^ 0) at 1. change 2 with (2 ^ 1) at 2. change 4 with (2 ^ 2).
  change 8 with (2 ^ 3). change 16 with (2 ^ 4). change 32 with (2 ^ 5).
  rewrite !land_pow2_eqb by lia. rewrite !negb_involutive.
  rewrite H0, H1, H2, H3, H4, H5.
  change (gostr "gimsuy") with [103; 105; 109; 115; 117; 121].
  cbn [List.filter].
  destruct (existsb (Z.eqb 103) flags), (existsb (Z.eqb 105) flags),
    (existsb (Z.eqb 109) flags), (existsb (Z.eqb 115) flags),
    (existsb (Z.eqb 117) flags), (existsb (Z.eqb 121) flags); reflexivity.
Qed.

(** X26. Serialize succeeds on a RegExp whose pattern is a scalar string, and the
    RegExp comes back with its pattern and with its flags in canonical form: those
    of g, i, m, s, u, y that occur in the flag string, once each and in this order;
    other characters and repetitions in the flag string are dropped. Here a scalar
    string is a string of Unicode scalar values, shorter than 2^32 on the wire, that
    is all ASCII or has a character above U+00FF; a string whose non-ASCII
    characters are all in U+0080..U+00FF is excluded, because writeString writes a
    wrong length for it. *)
Theorem regexp_roundtrip (fmt_g : Z -> GoString) (fw fuel : nat) (h : Heap)
        (pattern flags : GoString) :
  wire_scalar (String pattern) = true ->
  exists bytes,
    Serialize (S fw) h (VRegExp pattern flags) = Ok bytes /\
    Deserialize fmt_g (S (S fuel)) bytes []
    = Ok (VRegExp pattern (canonical_flags flags), []).
Proof.
  intros Hp. eexists. split; [reflexivity|].
  unfold writeRegExp, wire.WriteByte. fold (flag_bits flags).
  destruct (regexp_flags_canonical flags) as [Hbits Hcanon].
  set (W := writeString (writeHeader [] ++ [tagRegExp]) pattern).
  assert (HW : writeValue (S fw) h (writeHeader [] ++ [tagRegExp]) (String pattern) = Ok W)
    by reflexivity.
  destruct (scalar_prefix fw h _ W (String pattern) Hp HW) as [b Hb].
  pose proof (wire_scalar_length fw h _ W (String pattern) Hp HW) as HWl.
  change (len (writeHeader [] ++ [tagRegExp])) with 3 in HWl.
  destruct (WriteVarint_prefix W (uint64 (flag_bits flags))) as [t Ht].
  pose proof (WriteVarint_length W (uint64 (flag_bits flags))) as Htl.
  set (D := wire.WriteVarint32 W (flag_bits flags)) in *.
  assert (HDt : D = W ++ t) by exact Ht.
  assert (HD : D = writeHeader [] ++ ([tagRegExp] ++ scalar_tag (String pattern) :: b ++ t)).
  { rewrite HDt, Hb, <- !app_assoc. reflexivity. }
  assert (HDl : len D < 2 ^ 63) by (unfold D, wire.WriteVarint32; lia).
  rewrite HD at 1. rewrite Deserialize_root. rewrite <- HD.
  rewrite (readValue_tagged fmt_g _ (at_root D) (writeHeader []) D [] tagRegExp);
    [| rewrite HD; eexists; rewrite <- !app_assoc; reflexivity
     | rewrite app_nil_r; reflexivity | reflexivity | cbn; lia].
  rewrite app_nil_r. cbn [readValue_switch]. unfold readRegExp.
  set (d1 := set_reader (set_depth (at_root D) (depth (at_root D) + 1))
               (rd D (len (writeHeader [] ++ [tagRegExp])))).
  rewrite (readValue_scalar fmt_g fuel fw h d1 (writeHeader [] ++ [tagRegExp]) W t
             (String pattern) Hp HW);
    [| rewrite <- HDt; exact HDl | rewrite <- HDt; reflexivity | cbn; lia].
  cbn [bind after_value]. change (reader (register ?x ?v)) with (reader x).
  change (reader (set_reader ?x ?r)) with r.
  rewrite <- HDt. rewrite <- (app_nil_r D). unfold D at 1.
  rewrite ReadVarint32_WriteVarint32 by lia. cbn [bind].
  rewrite Hcanon. reflexivity.
Qed.

Lemma regexp_roundtrip_witness :
  exists bytes,
    Serialize 1 [] (VRegExp (gostr "a+") (gostr "yxgg")) = Ok bytes /\
    Deserialize (fun _ => []) 2 bytes []
    = Ok (VRegExp (gostr "a+") (canonical_flags (gostr "yxgg")), []).
Proof.
  apply (regexp_roundtrip (fun _ => []) 0 0 [] (gostr "a+") (gostr "yxgg")).
  reflexivity.
Defined.

(** ** Boxed primitives *)

Lemma set_depth_back_register1 (d : Deserializer) (v : Value) :
  set_depth (register (set_depth d (depth d + 1)) v)
    (depth (register (set_depth d (depth d + 1)) v) - 1)
  = register d v.
Proof.
  destruct d. unfold register, set_depth, set_objects. simpl. f_equal. lia.
Qed.

Lemma boxed_inner_roundtrip (fmt_g : Z -> GoString) (fw fuel : nat) (h : Heap)
      (tag : byte) (inner : Value) (W : list byte) :
  wire_scalar inner = true ->
  (u8 tag =? 0) = false ->
  writeValue (S fw) h (writeHeader [] ++ [tag]) inner = Ok W ->
  exists d,
    readValue fmt_g (S fuel)
      (set_reader (set_depth (at_root W) (depth (at_root W) + 1))
         (rd (W ++ []) (len (writeHeader [] ++ [tag]))))
    = Ok (inner, d) /\
    heap d = [] /\ depth d = 1 /\
    (exists body, W = writeHeader [] ++ body) /\
    (exists body, W = (writeHeader [] ++ [tag]) ++ body).
Proof.
  intros Hi Htag HW.
  destruct (scalar_prefix fw h _ W inner Hi HW) as [b Hb].
  pose proof (wire_scalar_length fw h _ W inner Hi HW) as HWl.
  change (len (writeHeader [] ++ [tag])) with 3 in HWl.
  eexists. split; [|split; [|split; [|split]]].
  - rewrite app_nil_r.
    apply (readValue_scalar fmt_g fuel fw h _ (writeHeader [] ++ [tag]) W [] inner Hi HW).
    + rewrite app_nil_r. lia.
    + rewrite app_nil_r. reflexivity.
    + cbn. lia.
  - rewrite after_value_heap. reflexivity.
  - destruct (after_value_depth
                (set_reader (set_depth (at_root W) (depth (at_root W) + 1))
                   (rd W (len (writeHeader [] ++ [tag]))))
                (rd (W ++ []) (len W)) inner) as [-> _].
    reflexivity.
  - rewrite Hb, <- app_assoc. eauto.
  - rewrite Hb. eauto.
Qed.

(** X27. A boxed primitive whose inner value has the type the box names (a Boolean
    object, a Number object with any bit pattern, a BigInt object below 2^62 bytes,
    or a String object holding a scalar string) is serialized and deserialized to
    the same boxed primitive. Here a scalar string is a string of Unicode scalar
    values, shorter than 2^32 on the wire, that is all ASCII or has a character
    above U+00FF; a string whose non-ASCII characters are all in U+0080..U+00FF is
    excluded, because writeString writes a wrong length for it. *)
Theorem boxed_primitive_roundtrip (fmt_g : Z -> GoString) (fw fuel : nat) (h : Heap)
        (ptype : ValueType) (inner : Value) :
  boxable ptype inner = true ->
  exists bytes,
    Serialize (S fw) h (VBoxedPrimitive ptype inner) = Ok bytes /\
    Deserialize fmt_g (S (S fuel)) bytes [] = Ok (VBoxedPrimitive ptype inner, []).
Proof.
  intros Hb. unfold Serialize. cbn [writeValue]. unfold writeBoxedPrimitive.
  destruct ptype; try discriminate Hb; destruct inner; try discriminate Hb;
    cbn [boxable] in Hb.
  - (* a boxed boolean *)
    destruct b; eexists; (split; [reflexivity|]); vm_compute; reflexivity.
  - (* a boxed number *)
    eexists. split; [reflexivity|].
    unfold wire.WriteByte, wire.WriteDouble.
    cbn [wire_scalar] in Hb.
    set (D := (writeHeader [] ++ [tagNumberObject]) ++ wire.le_bytes 8 bits).
    assert (HD : D = writeHeader [] ++ ([tagNumberObject] ++ wire.le_bytes 8 bits))
      by (unfold D; rewrite <- app_assoc; reflexivity).
    rewrite HD at 1. rewrite Deserialize_root, <- HD.
    rewrite (readValue_tagged fmt_g _ (at_root D) (writeHeader []) D [] tagNumberObject);
      [| unfold D; eauto | rewrite app_nil_r; reflexivity | reflexivity | cbn; lia].
    cbn [readValue_switch]. unfold readNumberObject.
    change (reader (set_reader ?x ?r)) with r.
    change (D ++ []) with (wire.WriteDouble (writeHeader [] ++ [tagNumberObject]) bits ++ []).
    rewrite ReadDouble_frame by (try lia; unfold len; simpl; lia).
    cbn [bind]. reflexivity.
  - (* a boxed BigInt *)
    set (W := writeBigInt (wire.WriteByte (writeHeader []) tagBigIntObject) n).
    exists W. split; [reflexivity|].
    destruct (boxed_inner_roundtrip fmt_g fw fuel h tagBigIntObject (BigInt n) W Hb
                eq_refl eq_refl) as (d & Hrv & Hh & Hd & [b1 Hb1] & Hb2).
    rewrite Hb1 at 1. rewrite Deserialize_root, <- Hb1.
    rewrite (readValue_tagged fmt_g _ (at_root W) (writeHeader []) W [] tagBigIntObject);
      [| exact Hb2 | rewrite app_nil_r; reflexivity | reflexivity | cbn; lia].
    cbn [readValue_switch]. unfold readBigIntObject. rewrite Hrv. cbn [bind].
    cbn [heap set_depth register set_objects]. rewrite Hh. reflexivity.
  - (* a boxed string *)
    set (W := writeString (wire.WriteByte (writeHeader []) tagStringObject) s).
    exists W. split; [reflexivity|].
    destruct (boxed_inner_roundtrip fmt_g fw fuel h tagStringObject (String s) W Hb
                eq_refl eq_refl) as (d & Hrv & Hh & Hd & [b1 Hb1] & Hb2).
    rewrite Hb1 at 1. rewrite Deserialize_root, <- Hb1.
    rewrite (readValue_tagged fmt_g _ (at_root W) (writeHeader []) W [] tagStringObject);
      [| exact Hb2 | rewrite app_nil_r; reflexivity | reflexivity | cbn; lia].
    cbn [readValue_switch]. unfold readStringObject. rewrite Hrv. cbn [bind].
    cbn [heap set_depth register set_objects]. rewrite Hh. reflexivity.
Qed.

Lemma boxed_primitive_roundtrip_witness :
  exists bytes,
    Serialize 1 [] (VBoxedPrimitive TypeString (String (gostr "hi"))) = Ok bytes /\
    Deserialize (fun _ => []) 2 bytes []
    = Ok (VBoxedPrimitive TypeString (String (gostr "hi")), []).
Proof.
  apply (boxed_primitive_roundtrip (fun _ => []) 0 0 [] TypeString (String (gostr "hi"))).
  reflexivity.
Defined.

(** ** Go integers *)

(** The conversion of a [float32] on 1, 0.1, the smallest subnormal, minus
    infinity and a NaN. *)
Lemma float64_of_float32_samples :
  float64_of_float32 0x3F800000 = 0x3FF0000000000000 /\
  float64_of_float32 0x3DCCCCCD = 0x3FB99999A0000000 /\
  float64_of_float32 0x00000001 = 0x36A0000000000000 /\
  float64_of_float32 0xFF800000 = 0xFFF0000000000000 /\
  float64_of_float32 0x7FC00000 = 0x7FF8000000000000.
Proof.
  repeat split; vm_compute; reflexivity.
Qed.

Lemma to_byte_mod (z : Z) : to_byte (z mod 256) = to_byte z.
Proof.
  unfold to_byte. rewrite Z.mod_mod by lia. reflexivity.
Qed.

Lemma le_bytes_mod (k : nat) :
  forall z : Z, wire.le_bytes k (z mod 256 ^ Z.of_nat k) = wire.le_bytes k z.
Proof.
  induction k as [|k IH]; intros z; [reflexivity|].
  cbn [wire.le_bytes].
  replace (Z.of_nat (S k)) with (1 + Z.of_nat k) by lia.
  rewrite Z.pow_add_r by lia. change (256 ^ 1) with 256.
  rewrite Z.rem_mul_r by lia.
  set (X := (z / 256) mod 256 ^ Z.of_nat k).
  assert (Hm : 0 <= z mod 256 < 256) by (apply Z.mod_pos_bound; lia).
  f_equal.
  - rewrite <- (to_byte_mod (_ + _)), <- (to_byte_mod z). f_equal.
    rewrite (Z.mul_comm 256 X), Z.mod_add by lia. apply Z.mod_mod. lia.
  - rewrite !Z.shiftr_div_pow2 by lia. change (2 ^ 8) with 256.
    rewrite <- (IH (z / 256)). f_equal. fold X.
    rewrite (Z.mul_comm 256 X), Z.div_add by lia.
    rewrite (Z.div_small (z mod 256)) by lia. lia.
Qed.

Lemma WriteDouble_uint64 (w : list byte) (bits : Z) :
  wire.WriteDouble w (uint64 bits) = wire.WriteDouble w bits.
Proof.
  unfold wire.WriteDouble, uint64. f_equal. apply (le_bytes_mod 8).
Qed.

Lemma Deserialize_written_scalar (fmt_g : Z -> GoString) (fw fuel : nat) (h : Heap)
      (v : Value) (W : list byte) :
  wire_scalar v = true ->
  writeValue (S fw) h (writeHeader []) v = Ok W ->
  Deserialize fmt_g (S fuel) W [] = Ok (v, []).
Proof.
  intros Hv HW.
  destruct (scalar_prefix fw h _ W v Hv HW) as [b Hb].
  pose proof (wire_scalar_length fw h _ W v Hv HW) as HWl.
  change (len (writeHeader [])) with 2 in HWl.
  rewrite Hb at 1. rewrite Deserialize_root, <- Hb.
  rewrite <- (app_nil_r W) at 1.
  rewrite (readValue_scalar fmt_g fuel fw h (at_root (W ++ [])) (writeHeader []) W [] v Hv HW);
    [| rewrite app_nil_r; lia | reflexivity | cbn; lia].
  cbn [bind]. rewrite after_value_heap. reflexivity.
Qed.

Lemma go_integer_written (fw : nat) (h : Heap) (g : GoValue) (n : Z) :
  go_integer g = Some n ->
  writeGoValue (S fw) h (writeHeader []) g
  = writeValue (S fw) h (writeHeader [])
      (if (- 2 ^ 31 <=? n) && (n <? 2 ^ 31) then Int32 n
       else Double (uint64 (Float64bits (float64_of_int n)))).
Proof.
  intros Hg.
  assert (Hw : forall lo hi m, (if (lo <=? m) && (m <? hi) then Some m else None) = Some n ->
                               m = n /\ lo <= n < hi).
  { intros lo hi m H. destruct (lo <=? m) eqn:E1; destruct (m <? hi) eqn:E2;
      cbn [andb] in H; try discriminate. injection H as ->. lia. }
  assert (Hi : forall m, - 2 ^ 63 <= m < 2 ^ 63 -> int64 m = m).
  { intros m Hm. unfold int64. rewrite Z.mod_small by lia. lia. }
  assert (Hu : forall m, 0 <= m < 2 ^ 64 -> uint64 m = m).
  { intros m Hm. unfold uint64. apply Z.mod_small. lia. }
  assert (H32 : - 2 ^ 31 <= n < 2 ^ 31 -> int32 n = n).
  { intros Hm. unfold int32. rewrite Z.mod_small by lia. lia. }
  destruct g; cbn [go_integer] in Hg; try discriminate Hg;
    apply Hw in Hg; destruct Hg as [-> Hr]; cbn [writeGoValue writeValue];
    unfold writeInt, writeUint, MinInt32, MaxInt32;
    rewrite ?Hi, ?Hu by lia;
    rewrite ?WriteDouble_uint64;
    destruct (- 2 ^ 31 <=? n) eqn:E1; destruct (n <? 2 ^ 31) eqn:E2; cbn [andb];
    try (exfalso; lia);
    repeat match goal with
           | |- context [?a >=? ?b] => destruct (Z.geb_spec a b); try lia
           | |- context [?a <=? ?b] => destruct (Z.leb_spec a b); try lia
           end;
    cbn [andb]; rewrite ?WriteDouble_uint64; rewrite ?H32 by lia; reflexivity.
Qed.

(** X28. SerializeGo of a Go integer of any integer type (int, int8, ..., uint64)
    decodes to Int32 n when its value n is in the int32 range, and otherwise to the
    Double with the bit pattern of float64(n): an unsigned integer is never written
    as Uint32. *)
Theorem go_integer_roundtrip (fmt_g : Z -> GoString) (fw fuel : nat) (h : Heap)
        (g : GoValue) (n : Z) :
  go_integer g = Some n ->
  exists bytes,
    SerializeGo (S fw) h g = Ok bytes /\
    Deserialize fmt_g (S fuel) bytes []
    = Ok (if (- 2 ^ 31 <=? n) && (n <? 2 ^ 31) then Int32 n
          else Double (uint64 (Float64bits (float64_of_int n))), []).
Proof.
  intros Hg. unfold SerializeGo. rewrite (go_integer_written fw h g n Hg).
  set (v := if (- 2 ^ 31 <=? n) && (n <? 2 ^ 31) then Int32 n
            else Double (uint64 (Float64bits (float64_of_int n)))).
  assert (Hv : wire_scalar v = true).
  { unfold v. destruct ((- 2 ^ 31 <=? n) && (n <? 2 ^ 31)) eqn:E; cbn [wire_scalar].
    - exact E.
    - pose proof (Z.mod_pos_bound (Float64bits (float64_of_int n)) (2 ^ 64) ltac:(lia)).
      unfold uint64. lia. }
  destruct (wire_scalar_written fw h (writeHeader []) v Hv) as [body HW].
  eexists. split; [exact HW|].
  apply (Deserialize_written_scalar fmt_g fw fuel h v _ Hv HW).
Qed.

Lemma go_integer_roundtrip_witness :
  exists bytes,
    SerializeGo 1 [] (GoUint32 4000000000) = Ok bytes /\
    Deserialize (fun _ => []) 1 bytes []
    = Ok (if (- 2 ^ 31 <=? 4000000000) && (4000000000 <? 2 ^ 31) then Int32 4000000000
          else Double (uint64 (Float64bits (float64_of_int 4000000000))), []).
Proof.
  apply (go_integer_roundtrip (fun _ => []) 0 0 [] (GoUint32 4000000000) 4000000000).
  reflexivity.
Defined.

(** ** Errors *)

Lemma writeError_type_cases (w : list byte) (name : GoString) :
  (writeError_type w name = w ++ [errorTypeErrorWithMessage] /\
   decoded_error_name name = gostr "Error") \/
  (exists ty, writeError_type w name = w ++ [ty; errorTagMessage] /\
              (u8 ty =? u8 errorTypeErrorWithMessage) = false /\
              error_name ty = decoded_error_name name).
Proof.
  unfold writeError_type, wire.WriteByte.
  repeat match goal with
         | |- context [decide (name = ?s)] =>
           destruct (decide (name = s)) as [->|?]
         end;
    try (left; split; [reflexivity | vm_compute; reflexivity]);
    try (right; eexists; rewrite <- app_assoc; split; [reflexivity|];
         split; vm_compute; reflexivity).
  left. split; [reflexivity|].
  unfold decoded_error_name. destruct (decide (name ∈ error_names)) as [Hin|]; [|reflexivity].
  unfold error_names in Hin. cbn [map] in Hin.
  repeat (apply elem_of_cons in Hin; destruct Hin as [->|Hin]; [congruence|]).
  apply elem_of_nil in Hin. destruct Hin.
Qed.

Lemma readError_loop_step (fmt_g : Z -> GoString) (n m fw : nat) (h : Heap)
      (jsErr : JSError) (d : Deserializer) (w W suf : list byte) (sub : byte) (v : Value) :
  wire_scalar v = true ->
  writeValue (S fw) h (w ++ [sub]) v = Ok W ->
  len (W ++ suf) < 2 ^ 63 ->
  reader d = rd (W ++ suf) (len w) ->
  depth d < maxDepth d ->
  heap d = [] ->
  (u8 sub =? u8 errorTagEnd) = false ->
  exists d',
    readError_loop (readValue fmt_g (S n)) (S m) jsErr d
    = readError_loop (readValue fmt_g (S n)) m
        match sub with
        | errorTagMessage =>
          match v with
          | String s =>
            {| Name := Name jsErr; Message := s; Stack := Stack jsErr; Cause := Cause jsErr |}
          | _ => jsErr
          end
        | errorTagStack =>
          match v with
          | String s =>
            {| Name := Name jsErr; Message := Message jsErr; Stack := s; Cause := Cause jsErr |}
          | _ => jsErr
          end
        | errorTagCause =>
          {| Name := Name jsErr; Message := Message jsErr; Stack := Stack jsErr;
             Cause := Some v |}
        | _ => jsErr
        end d' /\
    reader d' = rd (W ++ suf) (len W) /\
    depth d' = depth d /\ maxDepth d' = maxDepth d /\ heap d' = [].
Proof.
  intros Hv HW Hlen Hr Hd Hh Hsub.
  destruct (scalar_prefix fw h _ W v Hv HW) as [b Hb].
  pose (d1 := set_reader d (rd (W ++ suf) (len (w ++ [sub])))).
  exists (after_value d1 (rd (W ++ suf) (len W)) v).
  split; [|split; [|split; [|split]]].
  - cbn [readError_loop]. rewrite Hr.
    assert (HD : W ++ suf = w ++ sub :: (scalar_tag v :: b) ++ suf).
    { rewrite Hb, <- !app_assoc. reflexivity. }
    rewrite HD at 1. rewrite ReadByte_frame. rewrite <- HD. cbn [bind].
    rewrite Hsub.
    replace (len w + 1) with (len (w ++ [sub])) by (len_norm; simpl; lia).
    fold d1.
    rewrite (readValue_scalar fmt_g n fw h d1 (w ++ [sub]) W suf v Hv HW Hlen eq_refl Hd).
    reflexivity.
  - destruct v; reflexivity.
  - destruct (after_value_depth d1 (rd (W ++ suf) (len W)) v) as [-> _]. reflexivity.
  - destruct (after_value_depth d1 (rd (W ++ suf) (len W)) v) as [_ ->]. reflexivity.
  - rewrite after_value_heap. exact Hh.
Qed.

Lemma readError_loop_end (rv : Deserializer -> Res (Value * Deserializer)) (m : nat)
      (jsErr : JSError) (d : Deserializer) (w suf : list byte) :
  reader d = rd (w ++ errorTagEnd :: suf) (len w) ->
  readError_loop rv (S m) jsErr d
  = Ok (jsErr, set_reader d (rd (w ++ errorTagEnd :: suf) (len w + 1))).
Proof.
  intros Hr. cbn [readError_loop]. rewrite Hr, ReadByte_frame. reflexivity.
Qed.

(** The sub-tags after the message: the stack, the cause, the end. *)
Lemma readError_loop_tail (fmt_g : Z -> GoString) (n m fw : nat) (h : Heap)
      (name message stack : GoString) (cause : option Value)
      (d : Deserializer) (w2 bytes : list byte) :
  wire_scalar (String stack) = true ->
  match cause with Some c => wire_scalar c = true | None => True end ->
  (let w3 := match stack with
             | [] => w2
             | _ => writeString (wire.WriteByte w2 errorTagStack) stack
             end in
   let* w4 := match cause with
              | Some c => writeValue (S fw) h (wire.WriteByte w3 errorTagCause) c
              | None => Ok w3
              end in
   Ok (wire.WriteByte w4 errorTagEnd)) = Ok bytes ->
  len bytes < 2 ^ 63 ->
  reader d = rd bytes (len w2) ->
  depth d < maxDepth d ->
  heap d = [] ->
  exists d',
    readError_loop (readValue fmt_g (S n)) (S (S (S m)))
      {| Name := name; Message := message; Stack := []; Cause := None |} d
    = Ok ({| Name := name; Message := message; Stack := stack; Cause := cause |}, d') /\
    depth d' = depth d /\ heap d' = [].
Proof.
  intros Hs Hc HS Hlen Hr Hd Hh. cbn zeta in HS.
  set (w3 := match stack with
             | [] => w2
             | _ => writeString (wire.WriteByte w2 errorTagStack) stack
             end) in HS.
  set (J0 := {| Name := name; Message := message; Stack := []; Cause := None |}).
  (* the stack *)
  assert (H3 : exists d3 k,
             (k <= 1)%nat /\
             readError_loop (readValue fmt_g (S n)) (S (S (S m))) J0 d
             = readError_loop (readValue fmt_g (S n)) (S (S (S m)) - k)
                 {| Name := name; Message := message; Stack := stack; Cause := None |} d3 /\
             reader d3 = rd bytes (len w3) /\
             depth d3 = depth d /\ maxDepth d3 = maxDepth d /\ heap d3 = []).
  { destruct stack as [|c0 stack'] eqn:Est.
    - exists d, 0%nat. repeat split; try assumption; lia.
    - rewrite <- Est in *.
      assert (HW : writeValue (S fw) h (w2 ++ [errorTagStack]) (String stack) = Ok w3).
      { unfold w3. rewrite Est. reflexivity. }
      assert (Hsuf : exists suf, bytes = w3 ++ suf).
      { destruct cause as [c|]; cbn [bind] in HS.
        - destruct (writeValue (S fw) h (wire.WriteByte w3 errorTagCause) c) as [w4| | |] eqn:E4;
            cbn [bind] in HS; try discriminate. injection HS as <-.
          destruct (scalar_prefix fw h _ w4 c Hc E4) as [b4 ->].
          unfold wire.WriteByte. rewrite <- !app_assoc. eauto.
        - injection HS as <-. unfold wire.WriteByte. eauto. }
      destruct Hsuf as [suf Hsuf].
      destruct (readError_loop_step fmt_g n (S (S m)) fw h J0 d w2 w3 suf errorTagStack
                  (String stack) Hs HW) as (d3 & Heq & Hr3 & Hd3 & Hm3 & Hh3);
        try assumption; try reflexivity.
      + rewrite <- Hsuf. exact Hlen.
      + rewrite <- Hsuf. exact Hr.
      + exists d3, 1%nat. rewrite <- Hsuf in Hr3. repeat split; try assumption; lia. }
  destruct H3 as (d3 & k & Hk & Heq3 & Hr3 & Hd3 & Hm3 & Hh3).
  rewrite Heq3. clear Heq3.
  assert (Hfuel : exists m', (S (S (S m)) - k)%nat = S (S m')).
  { exists (m + 1 - k)%nat. lia. }
  destruct Hfuel as [m' ->].
  (* the cause and the end *)
  destruct cause as [c|]; cbn [bind] in HS.
  - destruct (writeValue (S fw) h (wire.WriteByte w3 errorTagCause) c) as [w4| | |] eqn:E4;
      cbn [bind] in HS; try discriminate. injection HS as <-.
    unfold wire.WriteByte in *.
    destruct (readError_loop_step fmt_g n (S m') fw h
                {| Name := name; Message := message; Stack := stack; Cause := None |}
                d3 w3 w4 [errorTagEnd] errorTagCause c Hc E4)
      as (d4 & Heq & Hr4 & Hd4 & Hm4 & Hh4); try assumption; try reflexivity; try lia.
    rewrite Heq. cbn [Name Message Stack Cause].
    rewrite (readError_loop_end _ m' _ d4 w4 []) by exact Hr4.
    eexists. split; [reflexivity|]. cbn [depth heap set_reader]. split; [lia|assumption].
  - injection HS as <-. unfold wire.WriteByte in *.
    rewrite (readError_loop_end _ (S m') _ d3 w3 []) by exact Hr3.
    eexists. split; [reflexivity|]. cbn [depth heap set_reader]. split; [lia|assumption].
Qed.

(** What the serializer writes for an error of scalars decodes to the error,
    under the name it comes back with. *)
Lemma error_decodes (fmt_g : Z -> GoString) (fw fuel : nat) (h : Heap)
        (name message stack : GoString) (cause : option Value) (bytes : list byte) :
  wire_scalar (String message) = true ->
  wire_scalar (String stack) = true ->
  match cause with Some c => wire_scalar c = true | None => True end ->
  Serialize (S (S fw)) h (VError name message stack cause) = Ok bytes ->
  len bytes < 2 ^ 63 ->
  Deserialize fmt_g (S (S (S (S (S fuel))))) bytes []
  = Ok (VError (decoded_error_name name) message stack cause, []).
Proof.
  intros Hm Hs Hc HS Hlen. unfold Serialize in HS.
  change (writeValue (S (S fw)) h (writeHeader []) (VError name message stack cause))
    with (writeError (writeValue (S fw) h) (writeHeader []) name message stack cause) in HS.
  unfold writeError in HS.
  set (w0 := wire.WriteByte (writeHeader []) tagError) in HS.
  set (w2 := writeString (writeError_type w0 name) message) in HS.
  assert (HS' : (let w3 := match stack with
                           | [] => w2
                           | _ => writeString (wire.WriteByte w2 errorTagStack) stack
                           end in
                 let* w4 := match cause with
                            | Some c => writeValue (S fw) h (wire.WriteByte w3 errorTagCause) c
                            | None => Ok w3
                            end in
                 Ok (wire.WriteByte w4 errorTagEnd)) = Ok bytes).
  { cbn zeta. destruct stack; exact HS. }
  (* the bytes extend what is written up to the message *)
  assert (Hsuf : exists suf, bytes = w2 ++ suf).
  { clear HS. cbn zeta in HS'.
    assert (H3 : exists s3, match stack with
                            | [] => w2
                            | _ => writeString (wire.WriteByte w2 errorTagStack) stack
                            end = w2 ++ s3).
    { destruct stack as [|c0 st] eqn:Est; [exists []; rewrite app_nil_r; reflexivity|].
      rewrite <- Est in *.
      destruct (scalar_prefix fw h (wire.WriteByte w2 errorTagStack) _ (String stack) Hs eq_refl)
        as [b Hb].
      cbn [writeValue] in Hb. rewrite Hb. unfold wire.WriteByte. rewrite <- app_assoc. eauto. }
    destruct H3 as [s3 H3]. rewrite H3 in HS'.
    destruct cause as [c|]; cbn [bind] in HS'.
    - destruct (writeValue (S fw) h (wire.WriteByte (w2 ++ s3) errorTagCause) c)
        as [w4| | |] eqn:E4; cbn [bind] in HS'; try discriminate. injection HS' as <-.
      destruct (scalar_prefix fw h _ w4 c Hc E4) as [b4 ->].
      unfold wire.WriteByte. rewrite <- !app_assoc. eauto.
    - injection HS' as <-. unfold wire.WriteByte. rewrite <- !app_assoc. eauto. }
  destruct Hsuf as [suf Hsuf].
  destruct (writeError_type_cases w0 name) as [[Hty Hname]|(ty & Hty & Hne & Hname)].
  - (* the generic form: the message follows the type byte *)
    assert (HW : writeValue (S fw) h (w0 ++ [errorTypeErrorWithMessage]) (String message)
                 = Ok w2) by (unfold w2; rewrite Hty; reflexivity).
    destruct (scalar_prefix fw h _ w2 (String message) Hm HW) as [b Hb].
    assert (HD : bytes = writeHeader [] ++
                         ([tagError] ++ errorTypeErrorWithMessage ::
                          (scalar_tag (String message) :: b) ++ suf)).
    { rewrite Hsuf, Hb. unfold w0, wire.WriteByte. rewrite <- !app_assoc. reflexivity. }
    rewrite HD at 1. rewrite Deserialize_root, <- HD.
    rewrite (readValue_tagged fmt_g _ (at_root bytes) (writeHeader []) bytes [] tagError);
      [| rewrite HD; eexists; rewrite <- !app_assoc; reflexivity
       | rewrite app_nil_r; reflexivity | reflexivity | cbn; lia].
    rewrite app_nil_r. cbn [readValue_switch]. unfold readError.
    change (reader (set_reader ?x ?r)) with r.
    change (writeHeader [] ++ [tagError]) with w0.
    assert (HD2 : bytes = w0 ++ errorTypeErrorWithMessage ::
                          (scalar_tag (String message) :: b) ++ suf).
    { rewrite HD. unfold w0, wire.WriteByte. rewrite <- !app_assoc. reflexivity. }
    assert (HRB : wire.ReadByte (rd bytes (len w0))
                  = Ok (errorTypeErrorWithMessage, rd bytes (len w0 + 1)))
      by (rewrite HD2; apply ReadByte_frame).
    rewrite HRB. cbn [bind].
    change (u8 errorTypeErrorWithMessage =? u8 errorTypeErrorWithMessage) with true. cbv iota.
    replace (len w0 + 1) with (len (w0 ++ [errorTypeErrorWithMessage]))
      by (len_norm; simpl; lia).
    set (d1 := set_reader _ (rd bytes (len (w0 ++ [errorTypeErrorWithMessage])))).
    rewrite (readValue_scalar fmt_g (S (S (S fuel))) fw h d1 _ w2 suf (String message) Hm HW);
      [| rewrite <- Hsuf; exact Hlen | rewrite <- Hsuf; reflexivity | cbn; lia].
    cbn [bind]. rewrite <- Hsuf.
    destruct (readError_loop_tail fmt_g (S (S (S fuel))) (S fuel) fw h (gostr "Error")
                message stack cause
                (after_value d1 (rd bytes (len w2)) (String message)) w2 bytes Hs Hc HS' Hlen)
      as (d' & Heq & Hd' & Hh'); [reflexivity | cbn; lia | reflexivity |].
    rewrite Heq. cbn [bind Name Message Stack Cause heap set_depth register set_objects].
    rewrite Hh', Hname. reflexivity.
  - (* a typed form: the message is the first sub-tag *)
    assert (HW : writeValue (S fw) h ((w0 ++ [ty]) ++ [errorTagMessage]) (String message)
                 = Ok w2).
    { unfold w2. rewrite Hty, <- app_assoc. reflexivity. }
    destruct (scalar_prefix fw h _ w2 (String message) Hm HW) as [b Hb].
    assert (HD : bytes = writeHeader [] ++
                         ([tagError] ++ ty :: errorTagMessage ::
                          (scalar_tag (String message) :: b) ++ suf)).
    { rewrite Hsuf, Hb. unfold w0, wire.WriteByte. rewrite <- !app_assoc. reflexivity. }
    rewrite HD at 1. rewrite Deserialize_root, <- HD.
    rewrite (readValue_tagged fmt_g _ (at_root bytes) (writeHeader []) bytes [] tagError);
      [| rewrite HD; eexists; rewrite <- !app_assoc; reflexivity
       | rewrite app_nil_r; reflexivity | reflexivity | cbn; lia].
    rewrite app_nil_r. cbn [readValue_switch]. unfold readError.
    change (reader (set_reader ?x ?r)) with r.
    change (writeHeader [] ++ [tagError]) with w0.
    assert (HD2 : bytes = w0 ++ ty :: errorTagMessage ::
                          (scalar_tag (String message) :: b) ++ suf).
    { rewrite HD. unfold w0, wire.WriteByte. rewrite <- !app_assoc. reflexivity. }
    assert (HRB : wire.ReadByte (rd bytes (len w0)) = Ok (ty, rd bytes (len w0 + 1)))
      by (rewrite HD2; apply ReadByte_frame).
    rewrite HRB. cbn [bind].
    rewrite Hne. cbn [bind].
    replace (len w0 + 1) with (len (w0 ++ [ty])) by (len_norm; simpl; lia).
    set (d1 := set_reader _ (rd bytes (len (w0 ++ [ty])))).
    destruct (readError_loop_step fmt_g (S (S (S fuel))) (S (S (S fuel))) fw h
                {| Name := error_name ty; Message := []; Stack := []; Cause := None |}
                d1 (w0 ++ [ty]) w2 suf errorTagMessage (String message) Hm HW)
      as (d2 & Heq2 & Hr2 & Hd2 & Hm2 & Hh2);
      [ rewrite <- Hsuf; exact Hlen | rewrite <- Hsuf; reflexivity | cbn; lia
      | reflexivity | reflexivity |].
    rewrite Heq2. cbn [Name Message Stack Cause]. rewrite <- Hsuf in Hr2.
    destruct (readError_loop_tail fmt_g (S (S (S fuel))) fuel fw h (error_name ty)
                message stack cause d2 w2 bytes Hs Hc HS' Hlen Hr2)
      as (d' & Heq & Hd' & Hh'); [rewrite Hd2, Hm2; cbn; lia | exact Hh2 |].
    rewrite Heq. cbn [bind Name Message Stack Cause heap set_depth register set_objects].
    rewrite Hh', Hname. reflexivity.
Qed.

(** X29. Serialize succeeds on an error value whose message and stack are scalar
    strings and whose cause, if any, is a scalar, and the bytes (when there are
    fewer than 2^63 of them) decode to an error with the same message, stack and
    cause; its name is kept when it is one of Error, EvalError, RangeError,
    ReferenceError, SyntaxError, TypeError, URIError and becomes Error otherwise.
    Here a scalar is null, undefined, a boolean, a hole, an Int32, a Uint32, a
    Double, a BigInt below 2^62 bytes, or a string of Unicode scalar values, shorter
    than 2^32 on the wire, that is all ASCII or has a character above U+00FF; a
    string whose non-ASCII characters are all in U+0080..U+00FF is excluded, because
    writeString writes a wrong length for it. *)
Theorem error_roundtrip (fmt_g : Z -> GoString) (fw fuel : nat) (h : Heap)
        (name message stack : GoString) (cause : option Value) :
  wire_scalar (String message) = true ->
  wire_scalar (String stack) = true ->
  match cause with Some c => wire_scalar c = true | None => True end ->
  exists bytes,
    Serialize (S (S fw)) h (VError name message stack cause) = Ok bytes /\
    (len bytes < 2 ^ 63 ->
     Deserialize fmt_g (S (S (S (S (S fuel))))) bytes []
     = Ok (VError (decoded_error_name name) message stack cause, [])).
Proof.
  intros Hm Hs Hc.
  assert (HS : exists bytes,
             Serialize (S (S fw)) h (VError name message stack cause) = Ok bytes).
  { unfold Serialize.
    change (writeValue (S (S fw)) h (writeHeader []) (VError name message stack cause))
      with (writeError (writeValue (S fw) h) (writeHeader []) name message stack cause).
    unfold writeError. destruct cause as [c|].
    - match goal with |- context [writeValue (S fw) h ?w c] =>
        destruct (wire_scalar_written fw h w c Hc) as [body HW]; rewrite HW
      end.
      cbn [bind]. eauto.
    - cbn [bind]. eauto. }
  destruct HS as [bytes HS]. exists bytes. split; [exact HS|].
  intros Hlen.
  apply (error_decodes fmt_g fw fuel h name message stack cause bytes);
    assumption.
Qed.

Lemma error_roundtrip_witness :
  exists bytes,
    Serialize 2 [] (VError (gostr "MyError") (gostr "no") (gostr "at f") (Some (Int32 7)))
    = Ok bytes /\
    (len bytes < 2 ^ 63 ->
     Deserialize (fun _ => []) 5 bytes []
     = Ok (VError (decoded_error_name (gostr "MyError")) (gostr "no") (gostr "at f")
             (Some (Int32 7)), [])).
Proof.
  apply (error_roundtrip (fun _ => []) 0 0 [] (gostr "MyError") (gostr "no") (gostr "at f")
           (Some (Int32 7))).
  - reflexivity.
  - reflexivity.
  - reflexivity.
Defined.

(** ** Strings in the reference table *)

Lemma Peek_ReadByte (r : wire.Reader) (tag : byte) :
  wire.Peek r = Ok tag -> wire.ReadByte r = Ok (tag, wire.set_pos r (wire.pos r + 1)).
Proof.
  unfold wire.Peek, wire.ReadByte.
  destruct (wire.pos r >=? len (wire.data r)); [discriminate|].
  intros H. injection H as <-. reflexivity.
Qed.

(** The head of [readValue] on a tag that is at the cursor. *)
Lemma readValue_peeked (fmt_g : Z -> GoString) (fuel : nat) (d : Deserializer) (tag : byte) :
  wire.Peek (reader d) = Ok tag ->
  (u8 tag =? u8 tagPadding) = false ->
  readValue fmt_g (S fuel) d =
  if depth d + 1 >? maxDepth d then Err ErrMaxDepthExceeded
  else
    let* (v, d') :=
      readValue_switch fmt_g (readValue fmt_g fuel) fuel tag
        (set_reader (set_depth d (depth d + 1))
           (wire.set_pos (reader d) (wire.pos (reader d) + 1))) in
    Ok (v, set_depth d' (depth d' - 1)).
Proof.
  intros Hpeek Htag. cbn [readValue].
  change (depth (set_depth d (depth d + 1))) with (depth d + 1).
  change (maxDepth (set_depth d (depth d + 1))) with (maxDepth d).
  destruct (depth d + 1 >? maxDepth d); [reflexivity|].
  unfold readValue_dispatch.
  change (reader (set_depth d (depth d + 1))) with (reader d).
  rewrite skipPadding_S.
  change (reader (set_depth d (depth d + 1))) with (reader d).
  rewrite Hpeek. cbn [wrap_err bind]. rewrite Htag. cbn [negb bind].
  change (reader (set_depth d (depth d + 1))) with (reader d).
  rewrite (Peek_ReadByte _ _ Hpeek). cbn [wrap_err bind]. reflexivity.
Qed.

Lemma read_string_registers (d : Deserializer) (tag : byte) (v : Value) (d1 : Deserializer) :
  tag = tagOneByteString \/ tag = tagTwoByteString ->
  forall fmt_g rv n,
    readValue_switch fmt_g rv n tag d = Ok (v, d1) ->
    (exists s, v = String s) /\ objects d1 = objects d ++ [v] /\
    depth d1 = depth d /\ maxDepth d1 = maxDepth d.
Proof.
  intros [-> | ->] fmt_g rv n; cbn [readValue_switch].
  - unfold readOneByteString.
    destruct (wire.ReadVarint32 (reader d)) as [[length r]| | |]; cbn [bind]; try discriminate.
    destruct (wire.ReadOneByteString r (int length)) as [[s r']| | |]; cbn [bind];
      try discriminate.
    intros H. injection H as <- <-. split; [eauto|]. repeat split.
  - unfold readTwoByteString.
    destruct (wire.ReadVarint32 (reader d)) as [[length r]| | |]; cbn [bind]; try discriminate.
    destruct (wire.ReadTwoByteString r (Z.quot (int length) 2)) as [[s r']| | |]; cbn [bind];
      try discriminate.
    intros H. injection H as <- <-. split; [eauto|]. repeat split.
Qed.

(** X30. Every string read under a OneByteString or TwoByteString tag at the cursor,
    whatever its bytes, takes the next id of the reference table: when readValue
    returns, the value is a String, the table has grown by exactly that string, and
    an object reference with that id, read next, yields the string again and leaves
    the table as it is. *)
Theorem string_takes_reference_id (fmt_g : Z -> GoString) (fuel : nat)
        (d d1 : Deserializer) (tag : byte) (v : Value) :
  wire.Peek (reader d) = Ok tag ->
  tag = tagOneByteString \/ tag = tagTwoByteString ->
  readValue fmt_g (S fuel) d = Ok (v, d1) ->
  (exists s, v = String s) /\
  objects d1 = objects d ++ [v] /\
  (forall (w rest : list byte),
      len (objects d) < 2 ^ 32 ->
      reader d1
      = rd (wire.WriteVarint32 (w ++ [tagObjectReference]) (len (objects d)) ++ rest)
           (len w) ->
      readValue fmt_g (S fuel) d1
      = Ok (v, set_reader d1
                 (rd (wire.WriteVarint32 (w ++ [tagObjectReference]) (len (objects d)) ++ rest)
                     (len (wire.WriteVarint32 (w ++ [tagObjectReference])
                             (len (objects d))))))).
Proof.
  intros Hpeek Htag Hread.
  assert (Hnp : (u8 tag =? u8 tagPadding) = false) by (destruct Htag as [-> | ->]; reflexivity).
  rewrite (readValue_peeked fmt_g fuel d tag Hpeek Hnp) in Hread.
  destruct (depth d + 1 >? maxDepth d) eqn:Edepth; [discriminate Hread|].
  match type of Hread with
  | (let* (_, _) := readValue_switch _ _ _ _ ?x in _) = _ => set (d0 := x) in Hread
  end.
  destruct (readValue_switch fmt_g (readValue fmt_g fuel) fuel tag d0) as [[v' d']| | |] eqn:Esw;
    cbn [bind] in Hread; try discriminate Hread.
  injection Hread as -> <-.
  destruct (read_string_registers d0 tag v d' Htag _ _ _ Esw) as ([s Hs] & Hobj & Hdep & Hmax).
  split; [eauto|].
  assert (Ho1 : objects (set_depth d' (depth d' - 1)) = objects d ++ [v]) by exact Hobj.
  split; [exact Ho1|].
  intros w rest Hid Hr1.
  pose proof (len_nonneg (objects d)) as Hid0.
  set (id := len (objects d)) in *.
  set (d1 := set_depth d' (depth d' - 1)) in *.
  set (D := wire.WriteVarint32 (w ++ [tagObjectReference]) id) in *.
  assert (Hd1 : depth d1 < maxDepth d1).
  { unfold d1. change (depth (set_depth d' (depth d' - 1))) with (depth d' - 1).
    change (maxDepth (set_depth d' (depth d' - 1))) with (maxDepth d').
    rewrite Hdep, Hmax. unfold d0. cbn [depth maxDepth set_reader set_depth]. lia. }
  assert (Hl : len (objects d ++ [v]) = id + 1) by (len_norm; simpl; lia).
  assert (Hn : nth (Z.to_nat id) (objects d ++ [v]) Undefined = v).
  { unfold id, len. rewrite Nat2Z.id, app_nth2 by lia.
    rewrite Nat.sub_diag. reflexivity. }
  rewrite (readValue_tagged fmt_g fuel d1 w D rest tagObjectReference);
    [| unfold D, wire.WriteVarint32; apply WriteVarint_prefix
     | exact Hr1 | reflexivity | exact Hd1].
  cbn [readValue_switch]. unfold readObjectReference.
  change (reader (set_reader ?x ?r)) with r. unfold D at 1.
  rewrite ReadVarint32_WriteVarint32 by lia. cbn [bind]. fold D.
  repeat match goal with
         | |- context [objects (set_reader ?x ?r)] =>
           change (objects (set_reader x r)) with (objects d1)
         end.
  rewrite Ho1, Hl, int_small by lia.
  destruct (id >=? id + 1) eqn:E; [lia|]. cbn [bind].
  rewrite Hn, set_reader_back. reflexivity.
Qed.

Lemma string_takes_reference_id_witness :
  exists d1,
    readValue (fun _ => []) 1 (at_root [xff; x0f; x22; x01; xe9; x5e; x00])
    = Ok (String [233], d1) /\
    (exists s, String [233] = String s) /\
    objects d1 = objects (at_root [xff; x0f; x22; x01; xe9; x5e; x00]) ++ [String [233]] /\
    readValue (fun _ => []) 1 d1
    = Ok (String [233], set_reader d1 (rd [xff; x0f; x22; x01; xe9; x5e; x00] 7)).
Proof.
  eexists. split; [vm_compute; reflexivity|].
  match goal with
  | |- _ /\ objects ?x = _ /\ _ =>
    destruct (string_takes_reference_id (fun _ => []) 0
                (at_root [xff; x0f; x22; x01; xe9; x5e; x00]) x tagOneByteString
                (String [233])) as (H1 & H2 & H3)
  end.
  - reflexivity.
  - left. reflexivity.
  - vm_compute. reflexivity.
  - split; [exact H1|]. split; [exact H2|].
    apply (H3 [xff; x0f; x22; x01; xe9] []).
    + vm_compute. reflexivity.
    + reflexivity.
Defined.
